(** * PlutoOFDMTransceiver: the RS container and the bit-wrap codec

    A shallow embedding of [native/Rs_Container/rs_container.c],
    [native/Bitwrap/bitwrap.cpp] and [native/Bitwrap/bitunwrap.cpp].

    Conventions.
    - A byte ([uint8_t]) is a [Z] in [0, 256); a file is a [list Z] of bytes.
    - Fixed-width unsigned integers are [Z] with their wrap-around written
      out ([mod 2^w]) wherever the C expression can exceed the width.
    - Positions inside an in-memory buffer ([size_t] indices of a vector or
      array that exists) are [nat].
    - Loops of the source that are not structurally recursive carry a fuel
      argument; every such loop comes with a lemma that the fuel handed to
      it by its caller suffices. *)

From Stdlib Require Import String Ascii ZArith List Bool Lia Arith QArith Qround.
Import ListNotations.

Local Open Scope Z_scope.

(** ** Bytes and fixed-width words *)

Definition is_byte (b : Z) : bool := (0 <=? b) && (b <? 256).
Definition bytes_ok (l : list Z) : bool := forallb is_byte l.

Definition u8 (x : Z) : Z := x mod 256.
Definition u16 (x : Z) : Z := x mod 65536.
Definition u32 (x : Z) : Z := x mod 4294967296.
Definition u64 (x : Z) : Z := x mod 18446744073709551616.

(** ** CRC engines ([rs_container.c], lines 118-157) *)

Module CRC.

(** The process-wide tables and their "initialised" flags. *)
Record crc_state := {
  crc32_table : list Z;
  crc32_init_done : bool;
  crc16_table : list Z;
  crc16_init_done : bool
}.

(** Static storage is zero-initialised. *)
Definition crc_state0 : crc_state :=
  {| crc32_table := repeat 0 256; crc32_init_done := false;
     crc16_table := repeat 0 256; crc16_init_done := false |}.

(** [c = (c & 1) ? (0xEDB88320u ^ (c >> 1)) : (c >> 1)] *)
Definition crc32_step (c : Z) : Z :=
  if negb (Z.land c 1 =? 0) then Z.lxor 0xEDB88320 (Z.shiftr c 1)
  else Z.shiftr c 1.

(** The inner [for (int j=0;j<8;j++)] loop. *)
Definition crc32_entry (i : Z) : Z := Nat.iter 8 crc32_step i.

Definition crc32_build : list Z :=
  map (fun i => crc32_entry (Z.of_nat i)) (seq 0 256).

Definition crc32_init (st : crc_state) : crc_state :=
  if crc32_init_done st then st
  else {| crc32_table := crc32_build; crc32_init_done := true;
          crc16_table := crc16_table st;
          crc16_init_done := crc16_init_done st |}.

(** [c = crc32_table[(c ^ buf[i]) & 0xFFu] ^ (c >> 8)] *)
Definition crc32_update (tbl : list Z) (c b : Z) : Z :=
  Z.lxor (nth (Z.to_nat (Z.land (Z.lxor c b) 0xFF)) tbl 0) (Z.shiftr c 8).

Definition crc32_calc (st : crc_state) (buf : list Z) : Z * crc_state :=
  let st' := crc32_init st in
  (Z.lxor (fold_left (crc32_update (crc32_table st')) buf 0xFFFFFFFF) 0xFFFFFFFF,
   st').

(** [c = (c & 0x8000) ? (uint16_t)((c << 1) ^ 0x1021) : (uint16_t)(c << 1)] *)
Definition crc16_step (c : Z) : Z :=
  if negb (Z.land c 0x8000 =? 0) then u16 (Z.lxor (Z.shiftl c 1) 0x1021)
  else u16 (Z.shiftl c 1).

Definition crc16_entry (i : Z) : Z := Nat.iter 8 crc16_step (u16 (Z.shiftl i 8)).

Definition crc16_build : list Z :=
  map (fun i => crc16_entry (Z.of_nat i)) (seq 0 256).

Definition crc16_init (st : crc_state) : crc_state :=
  if crc16_init_done st then st
  else {| crc32_table := crc32_table st;
          crc32_init_done := crc32_init_done st;
          crc16_table := crc16_build; crc16_init_done := true |}.

(** [crc = (uint16_t)((crc << 8) ^ crc16_table[((crc >> 8) ^ buf[i]) & 0xFF])] *)
Definition crc16_update (tbl : list Z) (crc b : Z) : Z :=
  u16 (Z.lxor (Z.shiftl crc 8)
              (nth (Z.to_nat (Z.land (Z.lxor (Z.shiftr crc 8) b) 0xFF)) tbl 0)).

Definition crc16_ccitt (st : crc_state) (buf : list Z) : Z * crc_state :=
  let st' := crc16_init st in
  (fold_left (crc16_update (crc16_table st')) buf 0xFFFF, st').

(** The states the program can be in: a table is either untouched or holds
    what its initialiser computes. *)
Definition crc_state_ok (st : crc_state) : Prop :=
  (crc32_init_done st = true -> crc32_table st = crc32_build) /\
  (crc16_init_done st = true -> crc16_table st = crc16_build).

(** *** Reference definitions, bit by bit

    CRC-32 of IEEE 802.3 in its reflected form: the register starts at
    [0xFFFFFFFF], every byte is xored into the low end and the register is
    shifted right eight times, the polynomial [0xEDB88320] being xored in
    whenever a one falls out; the result is xored with [0xFFFFFFFF]. *)
Definition crc32_ref_bit (c : Z) : Z :=
  if Z.odd c then Z.lxor (Z.shiftr c 1) 0xEDB88320 else Z.shiftr c 1.

Definition crc32_ref_byte (c b : Z) : Z :=
  Nat.iter 8 crc32_ref_bit (Z.lxor c b).

Definition crc32_ref (buf : list Z) : Z :=
  Z.lxor (fold_left crc32_ref_byte buf 0xFFFFFFFF) 0xFFFFFFFF.

(** CRC-16-CCITT: the register starts at [0xFFFF], every byte is xored into
    the high end and the register is shifted left eight times inside 16
    bits, the polynomial [0x1021] being xored in whenever a one falls out;
    no reflection and no final xor. *)
Definition crc16_ref_bit (c : Z) : Z :=
  if Z.testbit c 15 then Z.lxor (Z.shiftl c 1 mod 65536) 0x1021
  else Z.shiftl c 1 mod 65536.

Definition crc16_ref_byte (c b : Z) : Z :=
  Nat.iter 8 crc16_ref_bit (Z.lxor c (Z.shiftl b 8)).

Definition crc16_ref (buf : list Z) : Z :=
  fold_left crc16_ref_byte buf 0xFFFF.

End CRC.

(** ** Bit I/O ([bitwrap.cpp] lines 10-54, [bitunwrap.cpp] lines 16-75) *)

(** [in_.read(buf, n)]: the first [n] bytes of what is left of the stream
    (fewer at the end of the file), and the rest.  The count is a [Z] so
    that the 8 MiB buffer sizes of the source stay binary numbers. *)
Fixpoint takeZ (n : Z) (l : list Z) : list Z :=
  match l with
  | [] => []
  | x :: t => if 0 <? n then x :: takeZ (n - 1) t else []
  end.

Fixpoint dropZ (n : Z) (l : list Z) : list Z :=
  match l with
  | [] => []
  | x :: t => if 0 <? n then dropZ (n - 1) t else l
  end.

(** [v[i] = x] on a vector; an index out of range is not written. *)
Fixpoint list_set {A} (l : list A) (i : nat) (x : A) : list A :=
  match l, i with
  | [], _ => []
  | _ :: t, O => x :: t
  | y :: t, S i' => y :: list_set t i' x
  end.

Module BitIO.

(** [class BitWriter]: [out_] is the sequence of bytes put to the stream. *)
Record BitWriter := {
  out_ : list Z;
  acc_ : Z;
  bit_off_ : Z
}.

Definition BitWriter_new : BitWriter :=
  {| out_ := []; acc_ := 0; bit_off_ := 0 |}.

Definition flush_byte_ (w : BitWriter) : BitWriter :=
  {| out_ := out_ w ++ [acc_ w]; acc_ := 0; bit_off_ := 0 |}.

(** [acc_ |= (uint8_t)((b & 1u) << (7 - bit_off_)); if (++bit_off_ == 8) flush_byte_();] *)
Definition write_bit (w : BitWriter) (b : Z) : BitWriter :=
  let w' := {| out_ := out_ w;
               acc_ := Z.lor (acc_ w) (u8 (Z.shiftl (Z.land b 1) (7 - bit_off_ w)));
               bit_off_ := u8 (bit_off_ w + 1) |} in
  if bit_off_ w' =? 8 then flush_byte_ w' else w'.

Definition write_bits (w : BitWriter) (bits : list Z) : BitWriter :=
  fold_left write_bit bits w.

(** [for (int b = 7; b >= 0; --b) write_bit((v >> b) & 1u);] *)
Definition write_byte_bits (w : BitWriter) (v : Z) : BitWriter :=
  fold_left (fun w b => write_bit w (Z.land (Z.shiftr v b) 1)) [7;6;5;4;3;2;1;0] w.

Definition write_bytes_as_bits_ (w : BitWriter) (bytes : list Z) : BitWriter :=
  fold_left write_byte_bits bytes w.

Definition write_full_bytes (w : BitWriter) (bytes : list Z) : BitWriter :=
  if bit_off_ w =? 0 then
    {| out_ := out_ w ++ bytes; acc_ := acc_ w; bit_off_ := bit_off_ w |}
  else write_bytes_as_bits_ w bytes.

(** [while (bit_off_ != 0) write_bit(0);] *)
Fixpoint pad_loop (fuel : nat) (w : BitWriter) : BitWriter :=
  match fuel with
  | O => w
  | S f => if bit_off_ w =? 0 then w else pad_loop f (write_bit w 0)
  end.

Definition pad_to_byte (w : BitWriter) : BitWriter :=
  if bit_off_ w =? 0 then w else pad_loop 8 w.

(** [class BitReader]: [in_] is what the stream has not delivered yet,
    [buf_] the part of the buffer the last [read] filled ([filled_] bytes),
    [buf_bytes] the buffer's size. *)
Record BitReader := {
  in_ : list Z;
  buf_bytes : Z;
  buf_ : list Z;
  pos_ : nat;
  filled_ : nat;
  cur_byte_ : Z;
  bit_idx_ : Z
}.

Definition BitReader_new (input : list Z) (size : Z) : BitReader :=
  {| in_ := input; buf_bytes := size; buf_ := []; pos_ := 0; filled_ := 0;
     cur_byte_ := 0; bit_idx_ := 8 |}.

Definition refill_ (r : BitReader) : BitReader :=
  let got := takeZ (buf_bytes r) (in_ r) in
  {| in_ := dropZ (buf_bytes r) (in_ r); buf_bytes := buf_bytes r;
     buf_ := got; pos_ := 0; filled_ := length got;
     cur_byte_ := cur_byte_ r; bit_idx_ := bit_idx_ r |}.

(** [cur_byte_ = buf_[pos_++]; bit_idx_ = 0;] *)
Definition fetch_byte (r : BitReader) : BitReader :=
  {| in_ := in_ r; buf_bytes := buf_bytes r; buf_ := buf_ r;
     pos_ := S (pos_ r); filled_ := filled_ r;
     cur_byte_ := nth (pos_ r) (buf_ r) 0; bit_idx_ := 0 |}.

(** [int b = (cur_byte_ >> (7 - bit_idx_)) & 1; ++bit_idx_; return b;] *)
Definition take_bit (r : BitReader) : Z * BitReader :=
  (Z.land (Z.shiftr (cur_byte_ r) (7 - bit_idx_ r)) 1,
   {| in_ := in_ r; buf_bytes := buf_bytes r; buf_ := buf_ r;
      pos_ := pos_ r; filled_ := filled_ r;
      cur_byte_ := cur_byte_ r; bit_idx_ := u8 (bit_idx_ r + 1) |}).

Definition next_bit (r : BitReader) : Z * BitReader :=
  if 8 <=? bit_idx_ r then
    if (filled_ r <=? pos_ r)%nat then
      let r1 := refill_ r in
      if (0 <? filled_ r1)%nat then take_bit (fetch_byte r1) else (-1, r1)
    else take_bit (fetch_byte r)
  else take_bit r.

End BitIO.

(** ** KMP over bits ([bitunwrap.cpp] lines 77-112)

    The entries of [lps_] ([int]) and the state [j_] ([size_t]) are
    positions inside the pattern and are kept as [nat]. *)

Module KMP.

Record BitKMP := {
  pat_ : list Z;
  lps_ : list nat;
  j_ : nat
}.

(** The loop of [reset]: [for (size_t i = 1, len = 0; i < n; ) ...]. *)
Fixpoint lps_loop (fuel : nat) (pat : list Z) (lps : list nat) (i len : nat)
  : list nat :=
  match fuel with
  | O => lps
  | S f =>
    if (i <? length pat)%nat then
      if nth i pat 0 =? nth len pat 0 then
        lps_loop f pat (list_set lps i (S len)) (S i) (S len)
      else if negb (len =? 0)%nat then
        lps_loop f pat lps i (nth (len - 1) lps 0%nat)
      else
        lps_loop f pat (list_set lps i 0%nat) (S i) 0%nat
    else lps
  end.

(** Every round of the loop either advances [i] or lowers [len], and [len]
    never exceeds [i]: twice the pattern length bounds the rounds. *)
Definition reset (pat : list Z) : BitKMP :=
  {| pat_ := pat;
     lps_ := lps_loop (2 * length pat) pat (repeat 0%nat (length pat)) 1 0;
     j_ := 0 |}.

(** [while (j_ > 0 && b != pat_[j_]) j_ = lps_[j_ - 1];] *)
Fixpoint fall_back (fuel : nat) (pat : list Z) (lps : list nat) (b : Z) (j : nat)
  : nat :=
  match fuel with
  | O => j
  | S f =>
    if (0 <? j)%nat && negb (b =? nth j pat 0)
    then fall_back f pat lps b (nth (j - 1) lps 0%nat)
    else j
  end.

(** [feed]: the answer and the matcher afterwards.  The fall-back loop
    lowers [j_] in every round, so [j_] rounds are enough. *)
Definition feed (k : BitKMP) (b : Z) : bool * BitKMP :=
  let j := fall_back (j_ k) (pat_ k) (lps_ k) b (j_ k) in
  if b =? nth j (pat_ k) 0 then
    if (S j =? length (pat_ k))%nat then
      (true, {| pat_ := pat_ k; lps_ := lps_ k; j_ := nth (S j - 1) (lps_ k) 0%nat |})
    else
      (false, {| pat_ := pat_ k; lps_ := lps_ k; j_ := S j |})
  else
    (false, {| pat_ := pat_ k; lps_ := lps_ k; j_ := j |}).

Definition need (k : BitKMP) : nat := length (pat_ k).

(** Feeding a whole sequence, one bit at a time: the answers in order. *)
Fixpoint feed_all (k : BitKMP) (bits : list Z) : list bool :=
  match bits with
  | [] => []
  | b :: t => let (m, k') := feed k b in m :: feed_all k' t
  end.

End KMP.

(** ** The bit-wrap codec ([bitwrap.cpp], [bitunwrap.cpp])

    A file that cannot be opened is [None]; an output path that can be
    opened is [true].  A flag pattern is a C string, [None] for a null
    pointer.  The output of a call is what the output file holds when the
    call returns, [None] when the call never opened it. *)

Module Bitwrap.
Import BitIO KMP.

(** [constexpr size_t IO_BUF = 8u << 20;] and the 1 MiB buffer of
    [write_dummy_bits_]. *)
Definition IO_BUF : Z := 8388608.
Definition DUMMY_BUF : Z := 1048576.

(** [parse_bitstring_]: [None] when it throws. *)
Fixpoint parse_chars (s : string) : option (list Z) :=
  match s with
  | EmptyString => Some []
  | String c t =>
    if Ascii.eqb c "0"%char then option_map (cons 0) (parse_chars t)
    else if Ascii.eqb c "1"%char then option_map (cons 1) (parse_chars t)
    else None
  end.

Definition parse_bitstring_ (s : option string) : option (list Z) :=
  match s with
  | None => Some []
  | Some str => parse_chars str
  end.

Record wrap_result := {
  w_ret : Z;
  w_out : option (list Z)
}.

Section Generator.

(** The random engine: [rng_next] is [operator()], [rng_seed] is
    [seed(value)].  When the caller passes seed 0 the engine is seeded from
    [std::random_device]; the state this leaves the engine in is the
    argument [entropy] of [wrap_file_bits]. *)
Context {R : Type}.
Variable rng_next : R -> Z * R.
Variable rng_seed : Z -> R.

(** [for (size_t i = 0; i < chunk; ++i) tmp[i] = (uint8_t)(rng() & 0xFFu);] *)
Fixpoint gen_bytes (n : nat) (g : R) : list Z * R :=
  match n with
  | O => ([], g)
  | S n' =>
    let (v, g1) := rng_next g in
    let (l, g2) := gen_bytes n' g1 in
    (Z.land v 0xFF :: l, g2)
  end.

(** [while (remaining > 0) { ... }] of [write_dummy_bits_]. *)
Fixpoint dummy_chunks (fuel : nat) (bw : BitWriter) (remaining : Z) (g : R)
  : BitWriter * R :=
  match fuel with
  | O => (bw, g)
  | S f =>
    if 0 <? remaining then
      let chunk := Z.min remaining DUMMY_BUF in
      let (tmp, g1) := gen_bytes (Z.to_nat chunk) g in
      dummy_chunks f (write_full_bytes bw tmp) (remaining - chunk) g1
    else (bw, g)
  end.

(** [for (int b = 7; b >= 8 - (int)tail_bits; --b)]: the values of [b]. *)
Definition tail_idx (tail_bits : Z) : list Z :=
  map (fun k => 7 - Z.of_nat k) (seq 0 (Z.to_nat tail_bits)).

Definition write_dummy_bits_ (bw : BitWriter) (nbits : Z) (g : R) : BitWriter * R :=
  if nbits =? 0 then (bw, g)
  else
    let full_bytes := nbits / 8 in
    let tail_bits := nbits mod 8 in
    let (bw1, g1) :=
      dummy_chunks (S (Z.to_nat (full_bytes / DUMMY_BUF))) bw full_bytes g in
    if negb (tail_bits =? 0) then
      let (v, g2) := rng_next g1 in
      let last := Z.land v 0xFF in
      (fold_left (fun w b => write_bit w (Z.land (Z.shiftr last b) 1))
                 (tail_idx tail_bits) bw1, g2)
    else (bw1, g1).

(** [while (true) { fin.read(chunk, IO_BUF); if (got <= 0) break;
    bw.write_full_bytes(chunk, got); }] *)
Fixpoint copy_chunks (fuel : nat) (bw : BitWriter) (fin : list Z) : BitWriter :=
  match fuel with
  | O => bw
  | S f =>
    let chunk := takeZ IO_BUF fin in
    if (length chunk =? 0)%nat then bw
    else copy_chunks f (write_full_bytes bw chunk) (dropZ IO_BUF fin)
  end.

Definition wrap_file_bits (in_file : option (list Z)) (out_ok : bool)
    (start_flag_bits end_flag_bits : option string)
    (dummy_left_bits dummy_right_bits : Z) (seed : Z) (entropy : R)
  : wrap_result :=
  match in_file with
  | None => {| w_ret := -1; w_out := None |}
  | Some input =>
    if negb out_ok then {| w_ret := -2; w_out := None |}
    else
      let g0 := if seed =? 0 then entropy else rng_seed seed in
      match parse_bitstring_ start_flag_bits, parse_bitstring_ end_flag_bits with
      | Some start_bits, Some end_bits =>
        let bw := BitWriter_new in
        let (bw1, g1) := write_dummy_bits_ bw dummy_left_bits g0 in
        let bw2 := if (length start_bits =? 0)%nat then bw1
                   else write_bits bw1 start_bits in
        let bw3 := copy_chunks (S (length input)) bw2 input in
        let bw4 := if (length end_bits =? 0)%nat then bw3
                   else write_bits bw3 end_bits in
        let (bw5, _) := write_dummy_bits_ bw4 dummy_right_bits g1 in
        let bw6 := pad_to_byte bw5 in
        {| w_ret := 0; w_out := Some (out_ bw6) |}
      | _, _ => {| w_ret := -3; w_out := Some [] |}
      end
  end.

End Generator.

(** *** Unwrap *)

Record unwrap_result := {
  u_ret : Z;
  u_out : option (list Z);
  u_start_pos : Z;      (* g_last_start_flag_pos after the call *)
  u_end_pos : Z         (* g_last_end_flag_pos after the call *)
}.

Inductive start_scan :=
| StartFound (br : BitReader) (bit_index : Z)
| StartEof
| StartOutOfFuel.

(** The first [while (true)] of [unwrap_file_bits]. *)
Fixpoint scan_start (fuel : nat) (br : BitReader) (kmp_start : BitKMP)
    (bit_index : Z) : start_scan :=
  match fuel with
  | O => StartOutOfFuel
  | S f =>
    let (bit, br1) := next_bit br in
    if bit <? 0 then StartEof
    else
      let bit_index1 := u64 (bit_index + 1) in
      let (m, kmp1) := feed kmp_start (u8 bit) in
      if m then StartFound br1 bit_index1
      else scan_start f br1 kmp1 bit_index1
  end.

Inductive end_scan :=
| EndFound (bw : BitWriter) (tail : list Z) (bit_index : Z)
| EndEof (bw : BitWriter)
| EndOutOfFuel.

(** The second [while (true)]: [tail] is the deque, front first. *)
Fixpoint scan_end (fuel : nat) (br : BitReader) (kmp_end : BitKMP)
    (bw : BitWriter) (tail : list Z) (bit_index : Z) (Lend : nat) : end_scan :=
  match fuel with
  | O => EndOutOfFuel
  | S f =>
    let (bit, br1) := next_bit br in
    if bit <? 0 then EndEof bw
    else
      let bit_index1 := u64 (bit_index + 1) in
      let b := u8 bit in
      let tail1 := tail ++ [b] in
      let (m, kmp1) := feed kmp_end b in
      if m then
        let tail2 := if (Lend <=? length tail1)%nat
                     then Nat.iter Lend (@removelast Z) tail1
                     else [] in
        EndFound bw tail2 bit_index1
      else if (Lend <? length tail1)%nat then
        match tail1 with
        | outb :: tail3 => scan_end f br1 kmp1 (write_bit bw outb) tail3 bit_index1 Lend
        | [] => scan_end f br1 kmp1 bw tail1 bit_index1 Lend
        end
      else scan_end f br1 kmp1 bw tail1 bit_index1 Lend
  end.

(** [unwrap_file_bits].  Every round of either loop consumes one bit of the
    input, so the number of bits of the file, plus one round to meet the end
    of the file, bounds the rounds; [None] would mean the bound was too low. *)
Definition unwrap_file_bits (in_file : option (list Z)) (out_ok : bool)
    (start_flag_bits end_flag_bits : option string) : option unwrap_result :=
  match in_file with
  | None => Some {| u_ret := -1; u_out := None; u_start_pos := 0; u_end_pos := 0 |}
  | Some input =>
    if negb out_ok then
      Some {| u_ret := -2; u_out := None; u_start_pos := 0; u_end_pos := 0 |}
    else
      match parse_bitstring_ start_flag_bits, parse_bitstring_ end_flag_bits with
      | Some start_bits, Some end_bits =>
        if (length start_bits =? 0)%nat || (length end_bits =? 0)%nat then
          Some {| u_ret := -3; u_out := Some []; u_start_pos := 0; u_end_pos := 0 |}
        else
          let kmp_start := reset start_bits in
          let kmp_end := reset end_bits in
          let br := BitReader_new input IO_BUF in
          let bw := BitWriter_new in
          let fuel := S (8 * length input) in
          match scan_start fuel br kmp_start 0 with
          | StartOutOfFuel => None
          | StartEof =>
            Some {| u_ret := -4; u_out := Some (out_ bw);
                    u_start_pos := 0; u_end_pos := 0 |}
          | StartFound br1 bit_index =>
            let start_pos := u64 (bit_index - Z.of_nat (length start_bits)) in
            match scan_end fuel br1 kmp_end bw [] bit_index (need kmp_end) with
            | EndOutOfFuel => None
            | EndEof bw1 =>
              Some {| u_ret := -4; u_out := Some (out_ bw1);
                      u_start_pos := start_pos; u_end_pos := 0 |}
            | EndFound bw1 tail bit_index1 =>
              let end_pos := u64 (bit_index1 - Z.of_nat (length end_bits)) in
              let bw2 := fold_left write_bit tail bw1 in
              let bw3 := pad_to_byte bw2 in
              Some {| u_ret := 0; u_out := Some (out_ bw3);
                      u_start_pos := start_pos; u_end_pos := end_pos |}
            end
          end
      | _, _ =>
        Some {| u_ret := -3; u_out := Some []; u_start_pos := 0; u_end_pos := 0 |}
      end
  end.

End Bitwrap.

(** ** [std::mt19937_64], as the C++ standard defines it ([rand.eng.mers],
    [rand.predef]): word size 64, n = 312, m = 156, r = 31,
    a = 0xB5026F5AA96619E9, u = 29, d = 0x5555555555555555, s = 17,
    b = 0x71D67FFFEDA60000, t = 37, c = 0xFFF7EEE000000000, l = 43,
    f = 6364136223846793005.  The engine is the standard library's, not
    this repository's; it is needed to run the scenario with seed 42. *)

Module Mt19937_64.

Record mt_state := {
  mt_x : list Z;
  mt_i : nat
}.

Fixpoint seed_fill (k : nat) (i : Z) (prev : Z) : list Z :=
  match k with
  | O => []
  | S k' =>
    let v := u64 (6364136223846793005 * Z.lxor prev (Z.shiftr prev 62) + i) in
    v :: seed_fill k' (i + 1) v
  end.

Definition seed (s : Z) : mt_state :=
  {| mt_x := u64 s :: seed_fill 311 1 (u64 s); mt_i := 312 |}.

Definition twist_one (x : list Z) (k : nat) : list Z :=
  let y := Z.lor (Z.land (nth k x 0) 0xFFFFFFFF80000000)
                 (Z.land (nth ((k + 1) mod 312) x 0) 0x7FFFFFFF) in
  list_set x k
    (Z.lxor (Z.lxor (nth ((k + 156) mod 312) x 0) (Z.shiftr y 1))
            (if Z.odd y then 0xB5026F5AA96619E9 else 0)).

Definition twist (x : list Z) : list Z := fold_left twist_one (seq 0 312) x.

Definition temper (z : Z) : Z :=
  let z1 := Z.lxor z (Z.land (Z.shiftr z 29) 0x5555555555555555) in
  let z2 := Z.lxor z1 (Z.land (u64 (Z.shiftl z1 17)) 0x71D67FFFEDA60000) in
  let z3 := Z.lxor z2 (Z.land (u64 (Z.shiftl z2 37)) 0xFFF7EEE000000000) in
  Z.lxor z3 (Z.shiftr z3 43).

Definition next (st : mt_state) : Z * mt_state :=
  let st1 := if (312 <=? mt_i st)%nat
             then {| mt_x := twist (mt_x st); mt_i := 0 |} else st in
  (temper (nth (mt_i st1) (mt_x st1) 0),
   {| mt_x := mt_x st1; mt_i := S (mt_i st1) |}).

End Mt19937_64.

(** ** The RS container ([rs_container.c])

    Files are as in the bit-wrap codec: an input that cannot be opened is
    [None], an output path that can be opened is [true].  Allocation (also
    of no bytes) and writes to an opened file do not fail, so the return
    values -4 to -12 of pack and -8 to -10 of unpack do not occur.  The
    cancellation flag is read as one value for the whole call, and the
    progress callback, which only observes, is left out.  The structs are
    written and read in the byte order of a little-endian host, as the
    format defines them.  A call that does not return normally (a division
    by zero, a loop that makes no progress, a [memcpy] or an array store
    outside its buffer) is [None]. *)

Module RS.

Definition K_SHARDS : Z := 192.
Definition SHARD_LEN : Z := 64.
Definition FRAME_BYTES : Z := K_SHARDS * SHARD_LEN.
Definition MAX_R : Z := 63.
Definition GLOBAL_MAGIC : Z := 0x54435352.
Definition FRAME_MAGIC_V4 : Z := 0x34534652.
Definition SLICE_MAGIC_V4 : Z := 0x344C5352.
Definition IL_DEPTH_DEFAULT : Z := 16.
Definition SLICE_BYTES_DEFAULT : Z := 512.
Definition RS_PAD_MODE : Z := 0.

(** [n] bytes of [x], least significant first, and the value of such bytes. *)
Fixpoint le_bytes (n : nat) (x : Z) : list Z :=
  match n with
  | O => []
  | S n' => x mod 256 :: le_bytes n' (x / 256)
  end.

Fixpoint le_value (l : list Z) : Z :=
  match l with
  | [] => 0
  | b :: t => b + 256 * le_value t
  end.

(** [len] bytes of [l] from offset [off]. *)
Definition sub (l : list Z) (off len : Z) : list Z :=
  firstn (Z.to_nat len) (skipn (Z.to_nat off) l).

(** [memcpy(dst + off, src, |src|)]; outside [dst] it is undefined. *)
Definition mem_write (dst : list Z) (off : Z) (src : list Z) : option (list Z) :=
  if (0 <=? off) && (off + Z.of_nat (length src) <=? Z.of_nat (length dst)) then
    Some (firstn (Z.to_nat off) dst ++ src
          ++ skipn (Z.to_nat off + length src) dst)
  else None.

Definition zeros (n : Z) : list Z := repeat 0 (Z.to_nat n).

(** The CRCs, on tables that have been initialised: the value of a CRC
    does not depend on the state of the tables it finds. *)
Definition crc_ready : CRC.crc_state := CRC.crc16_init (CRC.crc32_init CRC.crc_state0).
Definition crc32_calc (buf : list Z) : Z := fst (CRC.crc32_calc crc_ready buf).
Definition crc16_ccitt (buf : list Z) : Z := fst (CRC.crc16_ccitt crc_ready buf).

(** *** Headers *)

Record rsct_header_v4_t := {
  gh_magic : Z; gh_version : Z; gh_k : Z; gh_r : Z; gh_shard_len : Z;
  gh_pad : Z; gh_original_size : Z; gh_frame_count : Z;
  gh_il_depth : Z; gh_slice_bytes : Z; gh_reserved : Z
}.

Record frame_hdr_v4_t := {
  fh_magic : Z; fh_index : Z; fh_data_len : Z; fh_parity_len : Z;
  fh_crc32_data : Z; fh_crc32_par : Z
}.

Record slice_hdr_v4_t := {
  sh_magic : Z; sh_frame_index : Z; sh_offset : Z; sh_size : Z;
  sh_crc32_slice : Z
}.

Definition gh_bytes (h : rsct_header_v4_t) : list Z :=
  le_bytes 4 (gh_magic h) ++ le_bytes 2 (gh_version h) ++ le_bytes 2 (gh_k h)
  ++ le_bytes 2 (gh_r h) ++ le_bytes 2 (gh_shard_len h) ++ le_bytes 2 (gh_pad h)
  ++ le_bytes 8 (gh_original_size h) ++ le_bytes 8 (gh_frame_count h)
  ++ le_bytes 2 (gh_il_depth h) ++ le_bytes 2 (gh_slice_bytes h)
  ++ le_bytes 2 (gh_reserved h).

Definition gh_size : Z := 36.

Definition gh_parse (b : list Z) : rsct_header_v4_t :=
  {| gh_magic := le_value (sub b 0 4); gh_version := le_value (sub b 4 2);
     gh_k := le_value (sub b 6 2); gh_r := le_value (sub b 8 2);
     gh_shard_len := le_value (sub b 10 2); gh_pad := le_value (sub b 12 2);
     gh_original_size := le_value (sub b 14 8);
     gh_frame_count := le_value (sub b 22 8);
     gh_il_depth := le_value (sub b 30 2); gh_slice_bytes := le_value (sub b 32 2);
     gh_reserved := le_value (sub b 34 2) |}.

Definition fh_bytes (h : frame_hdr_v4_t) : list Z :=
  le_bytes 4 (fh_magic h) ++ le_bytes 8 (fh_index h) ++ le_bytes 2 (fh_data_len h)
  ++ le_bytes 2 (fh_parity_len h) ++ le_bytes 4 (fh_crc32_data h)
  ++ le_bytes 4 (fh_crc32_par h).

(** The 20 bytes of a frame header after its magic. *)
Definition fh_parse_rest (b : list Z) : frame_hdr_v4_t :=
  {| fh_magic := FRAME_MAGIC_V4; fh_index := le_value (sub b 0 8);
     fh_data_len := le_value (sub b 8 2); fh_parity_len := le_value (sub b 10 2);
     fh_crc32_data := le_value (sub b 12 4); fh_crc32_par := le_value (sub b 16 4) |}.

Definition sh_bytes (h : slice_hdr_v4_t) : list Z :=
  le_bytes 4 (sh_magic h) ++ le_bytes 8 (sh_frame_index h) ++ le_bytes 4 (sh_offset h)
  ++ le_bytes 2 (sh_size h) ++ le_bytes 4 (sh_crc32_slice h).

(** The 18 bytes of a slice header after its magic. *)
Definition sh_parse_rest (b : list Z) : slice_hdr_v4_t :=
  {| sh_magic := SLICE_MAGIC_V4; sh_frame_index := le_value (sub b 0 8);
     sh_offset := le_value (sub b 8 4); sh_size := le_value (sub b 12 2);
     sh_crc32_slice := le_value (sub b 14 4) |}.

Definition compute_pad (r : Z) : Z := 255 - (K_SHARDS + r).

Definition payload_len_bytes (r : Z) : Z :=
  FRAME_BYTES + r * SHARD_LEN + K_SHARDS * 2 + r * 2.

(** *** Statistics *)

Record rs_stats_v1_t := {
  frames_total : Z; slices_total_est : Z; slices_ok : Z; slices_bad : Z;
  codewords_total : Z; symbols_total : Z; data_symbols_total : Z;
  corrected_symbols : Z; used_erasures_cols : Z; rs_fail_columns : Z;
  pad_mode_used : Z;
  ser_rs : Q;   (* kept for the ABI; stays 0 *)
  ber_est : Q   (* the quotient the [double] approximates *)
}.

(** *** Frame buffers of the decoder *)

Record frame_buf_t := {
  fb_init : Z;
  fb_data_len : Z;
  fb_data : list Z;
  fb_par : list Z;
  fb_crcD : list Z;    (* the bytes of the 192 [uint16_t] entries *)
  fb_crcP : list Z;    (* the bytes of the [r] [uint16_t] entries *)
  fb_crc32_data : Z;
  fb_crc32_par : Z;
  fb_crcD_filled_bytes : Z;
  fb_crcP_filled_bytes : Z
}.

(** An entry of the [calloc]ed table. *)
Definition frame_buf_zero : frame_buf_t :=
  {| fb_init := 0; fb_data_len := 0; fb_data := []; fb_par := [];
     fb_crcD := []; fb_crcP := []; fb_crc32_data := 0; fb_crc32_par := 0;
     fb_crcD_filled_bytes := 0; fb_crcP_filled_bytes := 0 |}.

(** The four [calloc]s of a slot seen for the first time. *)
Definition alloc_frame (r : Z) (fb : frame_buf_t) (init data_len : Z) : frame_buf_t :=
  {| fb_init := init; fb_data_len := data_len;
     fb_data := zeros FRAME_BYTES; fb_par := zeros (r * SHARD_LEN);
     fb_crcD := zeros (K_SHARDS * 2); fb_crcP := zeros (r * 2);
     fb_crc32_data := fb_crc32_data fb; fb_crc32_par := fb_crc32_par fb;
     fb_crcD_filled_bytes := fb_crcD_filled_bytes fb;
     fb_crcP_filled_bytes := fb_crcP_filled_bytes fb |}.

(** The [uint16_t] entry [j] of a CRC table kept as bytes. *)
Definition u16_at (tbl : list Z) (j : Z) : Z := le_value (sub tbl (2 * j) 2).

Definition set_data (fb : frame_buf_t) (d : list Z) : frame_buf_t :=
  {| fb_init := fb_init fb; fb_data_len := fb_data_len fb; fb_data := d;
     fb_par := fb_par fb; fb_crcD := fb_crcD fb; fb_crcP := fb_crcP fb;
     fb_crc32_data := fb_crc32_data fb; fb_crc32_par := fb_crc32_par fb;
     fb_crcD_filled_bytes := fb_crcD_filled_bytes fb;
     fb_crcP_filled_bytes := fb_crcP_filled_bytes fb |}.

Definition set_par (fb : frame_buf_t) (p : list Z) : frame_buf_t :=
  {| fb_init := fb_init fb; fb_data_len := fb_data_len fb; fb_data := fb_data fb;
     fb_par := p; fb_crcD := fb_crcD fb; fb_crcP := fb_crcP fb;
     fb_crc32_data := fb_crc32_data fb; fb_crc32_par := fb_crc32_par fb;
     fb_crcD_filled_bytes := fb_crcD_filled_bytes fb;
     fb_crcP_filled_bytes := fb_crcP_filled_bytes fb |}.

Definition set_crcD (fb : frame_buf_t) (t : list Z) (filled : Z) : frame_buf_t :=
  {| fb_init := fb_init fb; fb_data_len := fb_data_len fb; fb_data := fb_data fb;
     fb_par := fb_par fb; fb_crcD := t; fb_crcP := fb_crcP fb;
     fb_crc32_data := fb_crc32_data fb; fb_crc32_par := fb_crc32_par fb;
     fb_crcD_filled_bytes := filled;
     fb_crcP_filled_bytes := fb_crcP_filled_bytes fb |}.

Definition set_crcP (fb : frame_buf_t) (t : list Z) (filled : Z) : frame_buf_t :=
  {| fb_init := fb_init fb; fb_data_len := fb_data_len fb; fb_data := fb_data fb;
     fb_par := fb_par fb; fb_crcD := fb_crcD fb; fb_crcP := t;
     fb_crc32_data := fb_crc32_data fb; fb_crc32_par := fb_crc32_par fb;
     fb_crcD_filled_bytes := fb_crcD_filled_bytes fb;
     fb_crcP_filled_bytes := filled |}.

(** [copy_slice_into_frame] is four blocks, one per region of the frame
    payload (data, parity, the two CRC-16 tables); each copies what of the
    slice falls into its region and adds it to [copied]. *)
Record copy_state := {
  cs_fb : frame_buf_t;
  cs_copied : Z
}.

Definition copy_data (off : Z) (src : list Z) (s : copy_state) : option copy_state :=
  let len := Z.of_nat (length src) in
  if off <? FRAME_BYTES then
    let m := FRAME_BYTES - off in
    let take := if len <? m then len else m in
    option_map (fun d => {| cs_fb := set_data (cs_fb s) d;
                            cs_copied := cs_copied s + take |})
               (mem_write (fb_data (cs_fb s)) off (sub src 0 take))
  else Some s.

Definition copy_par (r off : Z) (src : list Z) (s : copy_state) : option copy_state :=
  let len := Z.of_nat (length src) in
  let par_bytes := r * SHARD_LEN in
  let copied := cs_copied s in
  if (off + copied <? FRAME_BYTES + par_bytes) && (copied <? len) then
    let base := FRAME_BYTES in
    if base <=? off + copied then
      let soff := off + copied - base in
      let m := par_bytes - soff in
      let take := if len - copied <? m then len - copied else m in
      option_map (fun p => {| cs_fb := set_par (cs_fb s) p;
                              cs_copied := copied + take |})
                 (mem_write (fb_par (cs_fb s)) soff (sub src copied take))
    else Some s
  else Some s.

Definition copy_crcD (r off : Z) (src : list Z) (s : copy_state) : option copy_state :=
  let len := Z.of_nat (length src) in
  let par_bytes := r * SHARD_LEN in
  let crcD_bytes := K_SHARDS * 2 in
  let copied := cs_copied s in
  if (off + copied <? FRAME_BYTES + par_bytes + crcD_bytes) && (copied <? len) then
    let base := FRAME_BYTES + par_bytes in
    if base <=? off + copied then
      let soff := off + copied - base in
      let m := crcD_bytes - soff in
      let take := if len - copied <? m then len - copied else m in
      option_map (fun t => {| cs_fb := set_crcD (cs_fb s) t
                                 (fb_crcD_filled_bytes (cs_fb s) + take);
                              cs_copied := copied + take |})
                 (mem_write (fb_crcD (cs_fb s)) soff (sub src copied take))
    else Some s
  else Some s.

(** The last block does not test the end of its region: [m] is a
    [size_t]. *)
Definition copy_crcP (r off : Z) (src : list Z) (s : copy_state) : option copy_state :=
  let len := Z.of_nat (length src) in
  let par_bytes := r * SHARD_LEN in
  let crcD_bytes := K_SHARDS * 2 in
  let crcP_bytes := r * 2 in
  let copied := cs_copied s in
  if copied <? len then
    let base := FRAME_BYTES + par_bytes + crcD_bytes in
    if base <=? off + copied then
      let soff := off + copied - base in
      let m := u64 (crcP_bytes - soff) in
      let take := if len - copied <? m then len - copied else m in
      option_map (fun t => {| cs_fb := set_crcP (cs_fb s) t
                                 (fb_crcP_filled_bytes (cs_fb s) + take);
                              cs_copied := copied + take |})
                 (mem_write (fb_crcP (cs_fb s)) soff (sub src copied take))
    else Some s
  else Some s.

Definition bind_opt {A B} (x : option A) (f : A -> option B) : option B :=
  match x with
  | Some a => f a
  | None => None
  end.

Definition copy_slice_into_frame (fb : frame_buf_t) (r : Z) (off : Z) (src : list Z)
  : option frame_buf_t :=
  option_map cs_fb
    (bind_opt (bind_opt (bind_opt (copy_data off src {| cs_fb := fb; cs_copied := 0 |})
                                  (copy_par r off src))
                        (copy_crcD r off src))
              (copy_crcP r off src)).

(** The same four blocks in [pack_impl], from the buffers of a frame into
    [ptmp]: what has been copied so far, [copied] bytes.  The blocks fill
    all [chunk] bytes of [ptmp] when the slice lies inside the payload. *)
Definition gather_data (data : list Z) (off chunk : Z) (ptmp : list Z) : list Z :=
  if off <? FRAME_BYTES then
    let m := FRAME_BYTES - off in
    let take := if chunk <? m then chunk else m in
    ptmp ++ sub data off take
  else ptmp.

Definition gather_par (par : list Z) (r off chunk : Z) (ptmp : list Z) : list Z :=
  let par_bytes := r * SHARD_LEN in
  let copied := Z.of_nat (length ptmp) in
  if (off + copied <? FRAME_BYTES + par_bytes) && (copied <? chunk) then
    let base := FRAME_BYTES in
    if base <=? off + copied then
      let soff := off + copied - base in
      let m := par_bytes - soff in
      let take := if chunk - copied <? m then chunk - copied else m in
      ptmp ++ sub par soff take
    else ptmp
  else ptmp.

Definition gather_crcD (crcD : list Z) (r off chunk : Z) (ptmp : list Z) : list Z :=
  let par_bytes := r * SHARD_LEN in
  let crcD_bytes := K_SHARDS * 2 in
  let copied := Z.of_nat (length ptmp) in
  if (off + copied <? FRAME_BYTES + par_bytes + crcD_bytes) && (copied <? chunk) then
    let base := FRAME_BYTES + par_bytes in
    if base <=? off + copied then
      let soff := off + copied - base in
      let m := crcD_bytes - soff in
      let take := if chunk - copied <? m then chunk - copied else m in
      ptmp ++ sub crcD soff take
    else ptmp
  else ptmp.

Definition gather_crcP (crcP : list Z) (r off chunk : Z) (ptmp : list Z) : list Z :=
  let par_bytes := r * SHARD_LEN in
  let crcD_bytes := K_SHARDS * 2 in
  let crcP_bytes := r * 2 in
  let copied := Z.of_nat (length ptmp) in
  if copied <? chunk then
    let base := FRAME_BYTES + par_bytes + crcD_bytes in
    if base <=? off + copied then
      let soff := off + copied - base in
      let m := u64 (crcP_bytes - soff) in
      let take := if chunk - copied <? m then chunk - copied else m in
      ptmp ++ sub crcP soff take
    else ptmp
  else ptmp.

Definition gather_slice (data par crcD crcP : list Z) (r off chunk : Z) : list Z :=
  gather_crcP crcP r off chunk
    (gather_crcD crcD r off chunk
       (gather_par par r off chunk
          (gather_data data off chunk []))).

(** The symbols of column [i] in a block of [rows] shards. *)
Definition column (block : list Z) (rows : Z) (i : Z) : list Z :=
  map (fun j => nth (Z.to_nat (Z.of_nat j * SHARD_LEN + i)) block 0)
      (seq 0 (Z.to_nat rows)).

(** [for (j = 0; j < K_SHARDS; ++j) data[j * SHARD_LEN + i] = col[j];] *)
Definition set_column (data : list Z) (i : Z) (col : list Z) : list Z :=
  fold_left (fun d j => list_set d (Z.to_nat (Z.of_nat j * SHARD_LEN + i)) (nth j col 0))
            (seq 0 (Z.to_nat K_SHARDS)) data.

(** The CRC-16 of every shard of a block, as the bytes of the table. *)
Definition shard_crcs (block : list Z) (rows : Z) : list Z :=
  flat_map (fun j => le_bytes 2 (crc16_ccitt (sub block (Z.of_nat j * SHARD_LEN) SHARD_LEN)))
           (seq 0 (Z.to_nat rows)).

(** [find_next_magic]: the magic found and the stream after it. *)
Definition is_magic (w : list Z) : bool :=
  (le_value w =? FRAME_MAGIC_V4) || (le_value w =? SLICE_MAGIC_V4).

Fixpoint slide_magic (win : list Z) (rest : list Z) : option (Z * list Z) :=
  if is_magic win then Some (le_value win, rest)
  else
    match rest with
    | [] => None
    | c :: t => slide_magic (skipn 1 win ++ [c]) t
    end.

Definition find_next_magic (f : list Z) : option (Z * list Z) :=
  if (length f <? 4)%nat then None
  else slide_magic (firstn 4 f) (skipn 4 f).

Section Codec.

(** Modelled from the spec: the Reed-Solomon codec of the vendored libfec
    ([init_rs_char], [encode_rs_char], [decode_rs_char]), of which the
    sources hold only the declarations ([libfec/fec.h]).  [init_rs_char]
    gives a handle or fails; [encode_rs_char] maps the data symbols to the
    parity symbols; [decode_rs_char] takes the codeword and the erasure
    positions and gives its return value (the number of corrected symbols,
    negative on failure), the codeword as it leaves it, and what it writes
    to the head of the array of erasure positions, which is not [const]. *)
Context {rs_handle : Type}.
Variable init_rs_char : Z -> Z -> Z -> Z -> Z -> Z -> option rs_handle.
Variable encode_rs_char : rs_handle -> list Z -> list Z.
Variable decode_rs_char : rs_handle -> list Z -> list Z -> Z * list Z * list Z.

(** [encode_frame_parity]: [par_out[j * 64 + i]] is symbol [j] of the
    parity of column [i]. *)
Definition encode_frame_parity (rs : rs_handle) (frame : list Z) (valid_len : Z) (r : Z)
  : list Z :=
  let cw (i : Z) : list Z :=
    map (fun j => let idx := Z.of_nat j * SHARD_LEN + i in
                  if idx <? valid_len then nth (Z.to_nat idx) frame 0 else 0)
        (seq 0 (Z.to_nat K_SHARDS)) in
  let pars := map (fun i => encode_rs_char rs (cw (Z.of_nat i)))
                  (seq 0 (Z.to_nat SHARD_LEN)) in
  flat_map (fun j => map (fun i => nth j (nth i pars []) 0) (seq 0 (Z.to_nat SHARD_LEN)))
           (seq 0 (Z.to_nat r)).

(** *** Pack *)

(** One frame of a group, ready to be sliced. *)
Record packed_frame := {
  pf_data : list Z;
  pf_par : list Z;
  pf_crcD : list Z;
  pf_crcP : list Z;
  pf_hdr : frame_hdr_v4_t
}.

(** The body of [for (gi = 0; gi < in_grp; ++gi)] that reads and encodes
    frame [fidx]: the frame and what is left of the input. *)
Definition pack_frame (rs : rs_handle) (r : Z) (frames orig : Z) (fidx : Z) (fi : list Z)
  : packed_frame * list Z :=
  let to_read :=
    if fidx =? frames - 1 then
      let remain := u64 (orig - fidx * FRAME_BYTES) in
      if remain <? FRAME_BYTES then remain else FRAME_BYTES
    else FRAME_BYTES in
  let got := takeZ to_read fi in
  let data := got ++ zeros (FRAME_BYTES - Z.of_nat (length got)) in
  let par := encode_frame_parity rs data to_read r in
  let crcD := shard_crcs data K_SHARDS in
  let crcP := shard_crcs par r in
  ({| pf_data := data; pf_par := par; pf_crcD := crcD; pf_crcP := crcP;
      pf_hdr := {| fh_magic := FRAME_MAGIC_V4; fh_index := fidx;
                   fh_data_len := u16 to_read;
                   fh_parity_len := u16 (r * SHARD_LEN);
                   fh_crc32_data := crc32_calc data;
                   fh_crc32_par := crc32_calc par |} |},
   dropZ to_read fi).

Fixpoint pack_group_frames (rs : rs_handle) (r frames orig fbase : Z) (gis : list nat)
    (fi : list Z) : list packed_frame * list Z :=
  match gis with
  | [] => ([], fi)
  | gi :: t =>
    let (f, fi1) := pack_frame rs r frames orig (fbase + Z.of_nat gi) fi in
    let (fs, fi2) := pack_group_frames rs r frames orig fbase t fi1 in
    (f :: fs, fi2)
  end.

(** One slice record: header and payload. *)
Definition slice_record (f : packed_frame) (r off chunk : Z) : list Z :=
  let ptmp := gather_slice (pf_data f) (pf_par f) (pf_crcD f) (pf_crcP f) r off chunk in
  sh_bytes {| sh_magic := SLICE_MAGIC_V4; sh_frame_index := fh_index (pf_hdr f);
              sh_offset := u32 off; sh_size := u16 chunk;
              sh_crc32_slice := crc32_calc ptmp |}
  ++ ptmp.

(** [for (off = 0; off < PAY; off += S)]: the values of [off]. *)
Definition slice_offsets (PAY S : Z) : list Z :=
  map (fun k => Z.of_nat k * S) (seq 0 (Z.to_nat ((PAY + S - 1) / S))).

Definition group_slices (fs : list packed_frame) (r PAY S : Z) : list Z :=
  flat_map (fun off =>
              let chunk := if off + S <=? PAY then S else PAY - off in
              flat_map (fun f => slice_record f r off chunk) fs)
           (slice_offsets PAY S).

(** [while (fbase < frames)]: a group consumes [in_grp] frames, so the
    number of frames bounds the rounds when [D] is not 0. *)
Fixpoint pack_groups (fuel : nat) (rs : rs_handle) (r D S frames orig fbase : Z)
    (fi : list Z) (out : list Z) : option (list Z) :=
  if fbase <? frames then
    match fuel with
    | O => None
    | S f =>
      let in_grp := u16 (if D <=? frames - fbase then D else frames - fbase) in
      let (fs, fi1) :=
        pack_group_frames rs r frames orig fbase (seq 0 (Z.to_nat in_grp)) fi in
      let out1 := out ++ flat_map (fun f => fh_bytes (pf_hdr f)) fs in
      let out2 := out1 ++ group_slices fs r (payload_len_bytes r) S in
      pack_groups f rs r D S frames orig (fbase + in_grp) fi1 out2
    end
  else Some out.

Definition pack_impl (g_cancel : bool) (input : option (list Z)) (out_ok : bool)
    (r il_depth slice_bytes : Z) : option (Z * option (list Z)) :=
  let r := if (r <=? 0) || (MAX_R <? r) then 16 else r in
  let il_depth := if il_depth <=? 0 then IL_DEPTH_DEFAULT else il_depth in
  let slice_bytes := if slice_bytes <=? 0 then SLICE_BYTES_DEFAULT else slice_bytes in
  let pad := compute_pad r in
  if pad <? 0 then Some (-101, None)
  else
    match init_rs_char 8 0x11d 1 1 r pad with
    | None => Some (-1, None)
    | Some rs =>
      match input with
      | None => Some (-2, None)
      | Some fi =>
        if negb out_ok then Some (-3, None)
        else
          let orig := Z.of_nat (length fi) in
          let frames := u64 (orig + FRAME_BYTES - 1) / FRAME_BYTES in
          let gh := {| gh_magic := GLOBAL_MAGIC; gh_version := 4; gh_k := K_SHARDS;
                       gh_r := u16 r; gh_shard_len := SHARD_LEN; gh_pad := u16 pad;
                       gh_original_size := orig; gh_frame_count := frames;
                       gh_il_depth := u16 il_depth; gh_slice_bytes := u16 slice_bytes;
                       gh_reserved := 0 |} in
          let D := gh_il_depth gh in
          let S := gh_slice_bytes gh in
          if S =? 0 then None   (* frames * ((PAY + S - 1) / S) *)
          else if g_cancel then Some (1, Some (gh_bytes gh))
          else
            match pack_groups (Z.to_nat frames) rs r D S frames orig 0 fi (gh_bytes gh) with
            | None => None
            | Some out => Some (0, Some out)
            end
      end
    end.

Definition rs_pack_container (g_cancel : bool) (input : option (list Z)) (out_ok : bool)
    (r : Z) : option (Z * option (list Z)) :=
  pack_impl g_cancel input out_ok r IL_DEPTH_DEFAULT SLICE_BYTES_DEFAULT.

Definition rs_pack_container_ex (g_cancel : bool) (input : option (list Z)) (out_ok : bool)
    (r il_depth slice_bytes : Z) : option (Z * option (list Z)) :=
  pack_impl g_cancel input out_ok r il_depth slice_bytes.

(** *** Unpack *)

Definition set_frame_hdr (fb : frame_buf_t) (fh : frame_hdr_v4_t) : frame_buf_t :=
  {| fb_init := fb_init fb; fb_data_len := fh_data_len fh; fb_data := fb_data fb;
     fb_par := fb_par fb; fb_crcD := fb_crcD fb; fb_crcP := fb_crcP fb;
     fb_crc32_data := fh_crc32_data fh; fb_crc32_par := fh_crc32_par fh;
     fb_crcD_filled_bytes := fb_crcD_filled_bytes fb;
     fb_crcP_filled_bytes := fb_crcP_filled_bytes fb |}.

(** What the first loop of [rs_unpack_internal] carries. *)
Record parse_state := {
  ps_tab : list frame_buf_t;
  ps_slices_ok : Z;
  ps_slices_bad : Z
}.

Definition set_tab (st : parse_state) (idx : Z) (fb : frame_buf_t) : parse_state :=
  {| ps_tab := list_set (ps_tab st) (Z.to_nat idx) fb;
     ps_slices_ok := ps_slices_ok st; ps_slices_bad := ps_slices_bad st |}.

(** A frame header whose magic has been read. *)
Definition on_frame_hdr (r F : Z) (fh : frame_hdr_v4_t) (st : parse_state) : parse_state :=
  let idx := fh_index fh in
  if F <=? idx then st
  else if negb (fh_parity_len fh =? u16 (r * SHARD_LEN)) then st
  else if FRAME_BYTES <? fh_data_len fh then st
  else
    let fb := nth (Z.to_nat idx) (ps_tab st) frame_buf_zero in
    let fb1 := if fb_init fb =? 0 then alloc_frame r fb 1 (fb_data_len fb) else fb in
    set_tab st idx (set_frame_hdr fb1 fh).

(** A slice whose payload [buf] has been read. *)
Definition on_slice (r F orig : Z) (sh : slice_hdr_v4_t) (buf : list Z) (st : parse_state)
  : option parse_state :=
  if negb (crc32_calc buf =? sh_crc32_slice sh) then
    Some {| ps_tab := ps_tab st; ps_slices_ok := ps_slices_ok st;
            ps_slices_bad := u64 (ps_slices_bad st + 1) |}
  else
    let st1 := {| ps_tab := ps_tab st; ps_slices_ok := u64 (ps_slices_ok st + 1);
                  ps_slices_bad := ps_slices_bad st |} in
    let idx := sh_frame_index sh in
    if idx <? F then
      let fb := nth (Z.to_nat idx) (ps_tab st1) frame_buf_zero in
      let fb1 :=
        if fb_init fb =? 0 then
          let data_len :=
            if idx =? F - 1 then
              let last_bytes := u64 (orig - (F - 1) * FRAME_BYTES) in
              u16 (if last_bytes <=? FRAME_BYTES then last_bytes else FRAME_BYTES)
            else FRAME_BYTES in
          alloc_frame r fb 2 data_len
        else fb in
      option_map (set_tab st1 idx) (copy_slice_into_frame fb1 r (sh_offset sh) buf)
    else Some st1.

(** The first loop: every round consumes at least the four bytes of a
    magic, so the length of the stream bounds the rounds. *)
Fixpoint parse_loop (fuel : nat) (r F orig : Z) (f : list Z) (st : parse_state)
  : option parse_state :=
  match fuel with
  | O => None
  | S fuel' =>
    match find_next_magic f with
    | None => Some st
    | Some (magic, f1) =>
      if magic =? FRAME_MAGIC_V4 then
        if (length f1 <? 20)%nat then Some st
        else
          parse_loop fuel' r F orig (skipn 20 f1)
                     (on_frame_hdr r F (fh_parse_rest (firstn 20 f1)) st)
      else
        if (length f1 <? 18)%nat then Some st
        else
          let sh := sh_parse_rest (firstn 18 f1) in
          let f2 := skipn 18 f1 in
          let size := sh_size sh in
          if size =? 0 then parse_loop fuel' r F orig f2 st
          else if Z.of_nat (length f2) <? size then Some st
          else
            match on_slice r F orig sh (firstn (Z.to_nat size) f2) st with
            | None => None
            | Some st1 => parse_loop fuel' r F orig (skipn (Z.to_nat size) f2) st1
            end
    end
  end.

(** The candidate erasures of a frame ([eras_data], [eras_par]): the
    shards past the data of a short frame, its boundary shard, and the
    shards whose CRC-16 does not match a table that has arrived. *)
Definition zrange (a b : Z) : list Z :=
  map (fun k => a + Z.of_nat k) (seq 0 (Z.to_nat (b - a))).

Definition crc_tables_present (fb : frame_buf_t) (r : Z) : bool :=
  (K_SHARDS * 2 <=? fb_crcD_filled_bytes fb) && (r * 2 <=? fb_crcP_filled_bytes fb).

Definition shard_bad (block tbl : list Z) (j : Z) : bool :=
  negb (crc16_ccitt (sub block (j * SHARD_LEN) SHARD_LEN) =? u16_at tbl j).

Definition eras_data (fb : frame_buf_t) (r : Z) : list Z :=
  let dlen := if FRAME_BYTES <? fb_data_len fb then FRAME_BYTES else fb_data_len fb in
  let short :=
    if dlen <? FRAME_BYTES then
      let full2 := dlen / SHARD_LEN in
      let rem2 := dlen mod SHARD_LEN in
      let cutoff2 := full2 + (if rem2 =? 0 then 0 else 1) in
      zrange cutoff2 K_SHARDS ++ (if rem2 =? 0 then [] else [full2])
    else [] in
  short ++
  (if crc_tables_present fb r
   then filter (shard_bad (fb_data fb) (fb_crcD fb)) (zrange 0 K_SHARDS)
   else []).

Definition eras_par (fb : frame_buf_t) (r : Z) : list Z :=
  if crc_tables_present fb r
  then map (fun j => K_SHARDS + j)
           (filter (shard_bad (fb_par fb) (fb_crcP fb)) (zrange 0 r))
  else [].

(** [for (i = 0; i < n && n_eras < r; ++i) erasures[n_eras++] = src[i];] *)
Fixpoint fill_erasures (src : list Z) (r : Z) (erasures : list Z) : list Z :=
  match src with
  | [] => erasures
  | e :: t =>
    if Z.of_nat (length erasures) <? r then fill_erasures t r (erasures ++ [e])
    else erasures
  end.

(** The erasure list of a frame; [eras_data] has room for [K_SHARDS]
    entries. *)
Definition frame_erasures (fb : frame_buf_t) (r : Z) : option (list Z) :=
  let ed := eras_data fb r in
  if K_SHARDS <? Z.of_nat (length ed) then None
  else Some (fill_erasures (eras_par fb r) r (fill_erasures ed r [])).

(** What the columns of a frame carry. *)
Record col_state := {
  cl_data : list Z;
  cl_erasures : list Z;
  cl_corrected : Z;
  cl_used_erasures : Z;
  cl_fail : Z
}.

(** One column: [prev] is the data of the frame before, when it has been
    allocated.  The frame's [n_eras] erasure positions are handed over in
    an array that is not refilled between the columns: what the decoder
    writes to its head stays there for the next column. *)
Definition decode_column (rs : rs_handle) (r pad_mode : Z) (par : list Z)
    (prev : option (list Z)) (n_eras : Z) (st : col_state) (i : Z) : col_state :=
  let code := column (cl_data st) K_SHARDS i ++ column par r i in
  let '(ret, code1, written) := decode_rs_char rs code (cl_erasures st) in
  let eras1 :=
    if n_eras =? 0 then cl_erasures st
    else firstn (Z.to_nat n_eras) (written ++ skipn (length written) (cl_erasures st)) in
  let used := if 0 <? n_eras then u64 (cl_used_erasures st + 1) else cl_used_erasures st in
  if ret <? 0 then
    let data1 :=
      if pad_mode =? 1 then set_column (cl_data st) i (zeros K_SHARDS)
      else if pad_mode =? 2 then
        match prev with
        | Some pd => set_column (cl_data st) i (column pd K_SHARDS i)
        | None => set_column (cl_data st) i (zeros K_SHARDS)
        end
      else cl_data st in
    {| cl_data := data1; cl_erasures := eras1; cl_corrected := cl_corrected st;
       cl_used_erasures := used; cl_fail := u64 (cl_fail st + 1) |}
  else
    {| cl_data := set_column (cl_data st) i (firstn (Z.to_nat K_SHARDS) code1);
       cl_erasures := eras1; cl_corrected := u64 (cl_corrected st + ret);
       cl_used_erasures := used; cl_fail := cl_fail st |}.

(** What the second loop carries. *)
Record decode_state := {
  ds_tab : list frame_buf_t;
  ds_out : list Z;
  ds_written : Z;
  ds_total_written : Z;
  ds_residual : Z;
  ds_corrected : Z;
  ds_used_erasures : Z;
  ds_fail : Z
}.

Definition to_write (orig written : Z) : Z :=
  if FRAME_BYTES <=? u64 (orig - written) then FRAME_BYTES else u64 (orig - written).

(** One frame of the second loop; [residual_step] is
    [(uint64_t)((double)SHARD_LEN * g_residual_coeff)]. *)
Definition decode_frame (rs : rs_handle) (r pad_mode orig residual_step : Z)
    (st : decode_state) (idx : Z) : option decode_state :=
  let fb := nth (Z.to_nat idx) (ds_tab st) frame_buf_zero in
  let tw := to_write orig (ds_written st) in
  if fb_init fb =? 0 then
    Some {| ds_tab := ds_tab st; ds_out := ds_out st ++ zeros tw;
            ds_written := u64 (ds_written st + tw);
            ds_total_written := u64 (ds_total_written st + tw);
            ds_residual := ds_residual st; ds_corrected := ds_corrected st;
            ds_used_erasures := ds_used_erasures st; ds_fail := ds_fail st |}
  else
    match frame_erasures fb r with
    | None => None
    | Some erasures =>
      let prev :=
        if 0 <? idx then
          let pfb := nth (Z.to_nat (idx - 1)) (ds_tab st) frame_buf_zero in
          if fb_init pfb =? 0 then None else Some (fb_data pfb)
        else None in
      let c := fold_left (decode_column rs r pad_mode (fb_par fb) prev
                                        (Z.of_nat (length erasures)))
                         (zrange 0 SHARD_LEN)
                         {| cl_data := fb_data fb; cl_erasures := erasures;
                            cl_corrected := ds_corrected st;
                            cl_used_erasures := ds_used_erasures st;
                            cl_fail := ds_fail st |} in
      let bad :=
        if crc_tables_present fb r
        then Z.of_nat (length (filter (shard_bad (cl_data c) (fb_crcD fb))
                                      (zrange 0 K_SHARDS)))
        else 0 in
      Some {| ds_tab := list_set (ds_tab st) (Z.to_nat idx) (set_data fb (cl_data c));
              ds_out := ds_out st ++ sub (cl_data c) 0 tw;
              ds_written := u64 (ds_written st + tw);
              ds_total_written := u64 (ds_total_written st + tw);
              ds_residual := u64 (ds_residual st + bad * residual_step);
              ds_corrected := cl_corrected c;
              ds_used_erasures := cl_used_erasures c; ds_fail := cl_fail c |}
    end.

Fixpoint decode_frames (rs : rs_handle) (r pad_mode orig residual_step : Z)
    (idxs : list Z) (st : decode_state) : option decode_state :=
  match idxs with
  | [] => Some st
  | idx :: t =>
    match decode_frame rs r pad_mode orig residual_step st idx with
    | None => None
    | Some st1 => decode_frames rs r pad_mode orig residual_step t st1
    end
  end.

Definition stats_zero : rs_stats_v1_t :=
  {| frames_total := 0; slices_total_est := 0; slices_ok := 0; slices_bad := 0;
     codewords_total := 0; symbols_total := 0; data_symbols_total := 0;
     corrected_symbols := 0; used_erasures_cols := 0; rs_fail_columns := 0;
     pad_mode_used := 0; ser_rs := 0; ber_est := 0 |}.

(** The result of an unpack: the return value, the output file (when it
    was opened) and the statistics a following [rs_get_stats_v1] reads. *)
Record unpack_result := {
  un_ret : Z;
  un_out : option (list Z);
  un_stats : rs_stats_v1_t
}.

Definition unpack_fail (ret : Z) (out : option (list Z)) : option unpack_result :=
  Some {| un_ret := ret; un_out := out; un_stats := stats_zero |}.

(** [sizeof(frame_buf_t)] on an LP64 target, and [calloc(n, size)] for the
    frame table: a request whose byte count [n * size] does not fit
    [size_t] returns [NULL]; a request that fits is taken to succeed (for
    [n = 0] too, as with glibc). *)
Definition sizeof_frame_buf_t : Z := 64.

Definition calloc_fits (n size : Z) : bool := n * size <? 2 ^ 64.

Definition rs_unpack_internal (g_cancel : bool) (residual_step : Z)
    (container : option (list Z)) (out_ok : bool) (pad_mode : Z)
  : option unpack_result :=
  match container with
  | None => unpack_fail (-1) None
  | Some fi =>
    if negb out_ok then unpack_fail (-7) None
    else if Z.of_nat (length fi) <? gh_size then unpack_fail (-2) (Some [])
    else
      let gh := gh_parse (sub fi 0 gh_size) in
      let body := skipn (Z.to_nat gh_size) fi in
      if negb (gh_magic gh =? GLOBAL_MAGIC) || negb (gh_version gh =? 4)
      then unpack_fail (-3) (Some [])
      else if negb (gh_k gh =? K_SHARDS) || negb (gh_shard_len gh =? SHARD_LEN)
      then unpack_fail (-4) (Some [])
      else
        let r := gh_r gh in
        if (r <=? 0) || (MAX_R <? r) then unpack_fail (-5) (Some [])
        else
          match init_rs_char 8 0x11d 1 1 r (gh_pad gh) with
          | None => unpack_fail (-6) (Some [])
          | Some rs =>
            let PAY := payload_len_bytes r in
            let F := gh_frame_count gh in
            if negb (calloc_fits F sizeof_frame_buf_t) then unpack_fail (-8) (Some [])
            else
            let orig := gh_original_size gh in
            let cw := u64 (SHARD_LEN * F) in
            let est :=
              if gh_slice_bytes gh =? 0 then 0
              else u64 (F * ((PAY + gh_slice_bytes gh - 1) / gh_slice_bytes gh)) in
            let st0 := {| ps_tab := repeat frame_buf_zero (Z.to_nat F);
                          ps_slices_ok := 0; ps_slices_bad := 0 |} in
            let parsed :=
              if g_cancel then Some st0
              else parse_loop (S (length body)) r F orig body st0 in
            match parsed with
            | None => None
            | Some ps =>
              let ds0 := {| ds_tab := ps_tab ps; ds_out := []; ds_written := 0;
                            ds_total_written := 0; ds_residual := 0;
                            ds_corrected := 0; ds_used_erasures := 0; ds_fail := 0 |} in
              let decoded :=
                if g_cancel then Some ds0
                else decode_frames rs r pad_mode orig residual_step (zrange 0 F) ds0 in
              match decoded with
              | None => None
              | Some ds =>
                Some {| un_ret := if g_cancel then 1 else 0;
                        un_out := Some (ds_out ds);
                        un_stats :=
                          {| frames_total := F; slices_total_est := est;
                             slices_ok := ps_slices_ok ps;
                             slices_bad := ps_slices_bad ps;
                             codewords_total := cw;
                             symbols_total := u64 ((K_SHARDS + r) * cw);
                             data_symbols_total := u64 (K_SHARDS * cw);
                             corrected_symbols := ds_corrected ds;
                             used_erasures_cols := ds_used_erasures ds;
                             rs_fail_columns := ds_fail ds;
                             pad_mode_used := pad_mode;
                             ser_rs := 0;
                             ber_est :=
                               if (0 <? ds_total_written ds) && (0 <? ds_residual ds)
                               then inject_Z (ds_residual ds) / inject_Z (ds_total_written ds)
                               else 0 |} |}
              end
            end
          end
  end.

(** [g_residual_coeff] after [rs_set_residual_coeff], and the bytes one
    shard found bad after decoding adds to the residual estimate.  The
    product of a [double] in [0, 1] with 64 is exact, so the conversion
    takes its floor. *)
Definition rs_set_residual_coeff (v : Q) : Q :=
  let v1 := if Qlt_le_dec v 0 then 0%Q else v in
  if Qlt_le_dec 1 v1 then 1%Q else v1.

Definition residual_step_of (coeff : Q) : Z := Qfloor (inject_Z SHARD_LEN * coeff).

Definition rs_unpack_container (g_cancel : bool) (residual_step : Z)
    (container : option (list Z)) (out_ok : bool) : option unpack_result :=
  rs_unpack_internal g_cancel residual_step container out_ok RS_PAD_MODE.

Definition rs_unpack_container_ex (g_cancel : bool) (residual_step : Z)
    (container : option (list Z)) (out_ok : bool) (pad_mode : Z) : option unpack_result :=
  let pad_mode := if (pad_mode <? 0) || (2 <? pad_mode) then RS_PAD_MODE else pad_mode in
  rs_unpack_internal g_cancel residual_step container out_ok pad_mode.

End Codec.

End RS.

(** ** A Reed-Solomon codec over GF(256) *)

Module Codec.

(** Modelled from the spec: a codec with the parameters the container
    uses (8-bit symbols, field polynomial [0x11d], first consecutive root
    1, primitive element 1, [nroots] parity symbols, [pad] symbols of
    shortening).  The encoder is the systematic one: the parity is the
    remainder of the data polynomial, shifted by [nroots], by the generator
    polynomial whose roots are the powers 1 .. [nroots] of the primitive
    element.  The decoder accepts a codeword whose parity is the parity of
    its data and reports any other as a failure: it detects, corrects
    nothing and writes no error position. *)
Record rs_handle := {
  h_nroots : Z;
  h_pad : Z;
  h_genpoly : list Z    (* coefficients, lowest degree first *)
}.

Definition gf_xtime (a : Z) : Z :=
  let s := Z.shiftl a 1 in
  if 256 <=? s then Z.lxor s 0x11d else s.

Fixpoint gf_mul_loop (n : nat) (a b acc : Z) : Z :=
  match n with
  | O => acc
  | S n' => gf_mul_loop n' (gf_xtime a) (Z.shiftr b 1)
                        (if Z.odd b then Z.lxor acc a else acc)
  end.

Definition gf_mul (a b : Z) : Z := gf_mul_loop 8 a b 0.

Fixpoint gf_pow2 (k : nat) : Z :=
  match k with
  | O => 1
  | S k' => gf_xtime (gf_pow2 k')
  end.

Fixpoint xor_lists (a b : list Z) : list Z :=
  match a, b with
  | x :: a', y :: b' => Z.lxor x y :: xor_lists a' b'
  | _, _ => []
  end.

(** The product of the factors [x + alpha^i] for [i] from 1 to [n]. *)
Fixpoint genpoly (n : nat) : list Z :=
  match n with
  | O => [1]
  | S n' =>
    let g := genpoly n' in
    xor_lists (0 :: g) (map (gf_mul (gf_pow2 n)) g ++ [0])
  end.

Definition init_rs_char (symsize gfpoly fcr prim nroots pad : Z) : option rs_handle :=
  if (symsize =? 8) && (gfpoly =? 0x11d) && (fcr =? 1) && (prim =? 1)
     && (0 <=? nroots) && (nroots <? 256)
     && (0 <=? pad) && (pad <? 255 - nroots)
  then Some {| h_nroots := nroots; h_pad := pad;
               h_genpoly := genpoly (Z.to_nat nroots) |}
  else None.

(** One step of the division: the register after the data symbol [d]. *)
Definition lfsr_step (g : list Z) (parity : list Z) (d : Z) : list Z :=
  let feedback := Z.lxor d (hd 0 parity) in
  xor_lists (tl parity ++ [0]) (map (gf_mul feedback) (rev g)).

Definition encode_rs_char (rs : rs_handle) (data : list Z) : list Z :=
  let n := Z.to_nat (h_nroots rs) in
  let k := Z.to_nat (255 - h_nroots rs - h_pad rs) in
  fold_left (lfsr_step (firstn n (h_genpoly rs))) (firstn k data) (repeat 0 n).

Fixpoint list_Z_eqb (a b : list Z) : bool :=
  match a, b with
  | [], [] => true
  | x :: a', y :: b' => (x =? y) && list_Z_eqb a' b'
  | _, _ => false
  end.

Definition decode_rs_char (rs : rs_handle) (code erasures : list Z)
  : Z * list Z * list Z :=
  let k := Z.to_nat (255 - h_nroots rs - h_pad rs) in
  if list_Z_eqb (skipn k code) (encode_rs_char rs (firstn k code))
  then (0, code, [])
  else (-1, code, []).

End Codec.

(** ** Specification vocabulary for the bit-level codecs *)

(** [u] is a suffix of [w]. *)
Definition suffix_of (u w : list Z) : Prop := exists v, w = v ++ u.

(** An occurrence of [pat] ends at position [i] (counted from 0) of [text]:
    the first [i + 1] symbols of [text] end with [pat]. *)
Definition occurs_end (pat text : list Z) (i : nat) : Prop :=
  suffix_of pat (firstn (S i) text).

(** [b] is the length of the longest proper prefix of [w] that is also a
    suffix of [w]. *)
Definition longest_border (w : list Z) (b : nat) : Prop :=
  (b < length w)%nat /\ suffix_of (firstn b w) w /\
  forall b', (b' < length w)%nat -> suffix_of (firstn b' w) w -> (b' <= b)%nat.

(** The eight bits of a byte, most significant first. *)
Definition byte_bits (v : Z) : list Z :=
  map (fun b => Z.land (Z.shiftr v b) 1) [7;6;5;4;3;2;1;0].

Definition bytes_bits (bytes : list Z) : list Z := flat_map byte_bits bytes.

(** A decidable reading of [suffix_of] and the position just after the
    first occurrence of [pat] in [text] (the number of symbols consumed when
    the first occurrence is complete). *)
Definition list_eqb (a b : list Z) : bool :=
  (length a =? length b)%nat && forallb (fun p => fst p =? snd p) (combine a b).

Definition ends_with (pat w : list Z) : bool :=
  (length pat <=? length w)%nat && list_eqb pat (skipn (length w - length pat) w).

Fixpoint first_end_from (pat seen rest : list Z) : option nat :=
  match rest with
  | [] => None
  | b :: t =>
    let seen' := seen ++ [b] in
    if ends_with pat seen' then Some (length seen') else first_end_from pat seen' t
  end.

Definition first_end (pat text : list Z) : option nat := first_end_from pat [] text.

(** The bits a [BitWriter] has accepted so far: those of the bytes it has
    put, then the ones waiting in its accumulator. *)
Definition pending_bits (w : BitIO.BitWriter) : list Z :=
  firstn (Z.to_nat (BitIO.bit_off_ w)) (byte_bits (BitIO.acc_ w)).

Definition writer_bits (w : BitIO.BitWriter) : list Z :=
  bytes_bits (BitIO.out_ w) ++ pending_bits w.

(** A writer the class can be in: the offset is below 8 and the
    accumulator holds nothing below the bits already accepted. *)
Definition writer_ok (w : BitIO.BitWriter) : bool :=
  (0 <=? BitIO.bit_off_ w) && (BitIO.bit_off_ w <? 8) &&
  (0 <=? BitIO.acc_ w) && (BitIO.acc_ w <? 256) &&
  (BitIO.acc_ w mod 2 ^ (8 - BitIO.bit_off_ w) =? 0).

(** The bits a [BitReader] has still to deliver. *)
Definition reader_bits (r : BitIO.BitReader) : list Z :=
  skipn (Z.to_nat (BitIO.bit_idx_ r)) (byte_bits (BitIO.cur_byte_ r))
  ++ bytes_bits (skipn (BitIO.pos_ r) (BitIO.buf_ r))
  ++ bytes_bits (BitIO.in_ r).

Definition reader_ok (r : BitIO.BitReader) : Prop :=
  0 <= BitIO.bit_idx_ r <= 8 /\ 0 < BitIO.buf_bytes r /\
  BitIO.filled_ r = length (BitIO.buf_ r) /\
  (BitIO.pos_ r <= BitIO.filled_ r)%nat.

(** The bits [write_dummy_bits_] appends for a request of [nbits] bits from
    the generator state [g], and the generator state it leaves. *)
Section DummyBits.
Context {R : Type}.
Variable rng_next : R -> Z * R.

Definition dummy_bits (nbits : Z) (g : R) : list Z :=
  if nbits =? 0 then []
  else
    let (bytes, g1) := Bitwrap.gen_bytes rng_next (Z.to_nat (nbits / 8)) g in
    bytes_bits bytes ++
    (if nbits mod 8 =? 0 then []
     else firstn (Z.to_nat (nbits mod 8))
                 (byte_bits (Z.land (fst (rng_next g1)) 0xFF))).

Definition dummy_state (nbits : Z) (g : R) : R :=
  if nbits =? 0 then g
  else
    let (bytes, g1) := Bitwrap.gen_bytes rng_next (Z.to_nat (nbits / 8)) g in
    if nbits mod 8 =? 0 then g1 else snd (rng_next g1).

End DummyBits.

(** A flag pattern [unwrap_file_bits] accepts: a non-empty string of the
    characters 0 and 1. *)
Definition valid_pattern (s : option string) : Prop :=
  match s with
  | None => False
  | Some str =>
    str <> EmptyString /\
    forall c, In c (list_ascii_of_string str) -> c = "0"%char \/ c = "1"%char
  end.

(** The pattern's bits. *)
Definition pattern_bits (s : option string) : list Z :=
  match s with
  | None => []
  | Some str =>
    map (fun c => if Ascii.eqb c "1"%char then 1 else 0) (list_ascii_of_string str)
  end.

(** [pat] never completes inside [text]. *)
Definition never_occurs (pat text : list Z) : Prop :=
  forall i, (i < length text)%nat -> ~ occurs_end pat text i.

(** The first occurrence of [pat] in [text] is complete after [e] symbols. *)
Definition first_occurrence (pat text : list Z) (e : nat) : Prop :=
  (0 < e <= length text)%nat /\ occurs_end pat text (e - 1) /\
  forall i, (i < e - 1)%nat -> ~ occurs_end pat text i.

(** ** Specification vocabulary for the RS container *)

Module RSSpec.
Import RS.

Section Codec.

Context {rs_handle : Type}.
Variable init_rs_char : Z -> Z -> Z -> Z -> Z -> Z -> option rs_handle.
Variable encode_rs_char : rs_handle -> list Z -> list Z.
Variable decode_rs_char : rs_handle -> list Z -> list Z -> Z * list Z * list Z.

(** What the container needs of the codec when nothing is corrupted: the
    codec for [r] parity symbols can be set up, the encoder gives [r]
    parity symbols for 192 data symbols, and the decoder, given a codeword
    the encoder made and any erasure positions, returns 0 and leaves the
    codeword as it is. *)
Definition codec_ok (r : Z) : Prop :=
  exists rs,
    init_rs_char 8 0x11d 1 1 r (compute_pad r) = Some rs /\
    (forall data, length data = Z.to_nat K_SHARDS -> bytes_ok data = true ->
       length (encode_rs_char rs data) = Z.to_nat r) /\
    (forall data erasures,
       length data = Z.to_nat K_SHARDS -> bytes_ok data = true ->
       fst (decode_rs_char rs (data ++ encode_rs_char rs data) erasures)
       = (0, data ++ encode_rs_char rs data)).

End Codec.

(** The parameters of a pack as the interface describes them: a value out
    of range stands for its default. *)
Definition default_r (r : Z) : Z := if (1 <=? r) && (r <=? MAX_R) then r else 16.
Definition default_il_depth (il_depth : Z) : Z :=
  if 0 <? il_depth then il_depth else IL_DEPTH_DEFAULT.
Definition default_slice_bytes (slice_bytes : Z) : Z :=
  if 0 <? slice_bytes then slice_bytes else SLICE_BYTES_DEFAULT.

(** The erasure list as the specification words it: the candidate data
    erasures, then the candidate parity erasures, each group in increasing
    index, cut to [r] entries. *)
Fixpoint insert_increasing (x : Z) (l : list Z) : list Z :=
  match l with
  | [] => [x]
  | y :: t => if x <=? y then x :: l else y :: insert_increasing x t
  end.

Definition increasing (l : list Z) : list Z := fold_right insert_increasing [] l.

Definition spec_erasures (fb : frame_buf_t) (r : Z) : list Z :=
  firstn (Z.to_nat r) (increasing (eras_data fb r) ++ increasing (eras_par fb r)).

(** The slices of a frame payload. *)
Definition slices_per_frame (r slice_bytes : Z) : Z :=
  (payload_len_bytes r + slice_bytes - 1) / slice_bytes.

(** The input of scenario A: the bytes [0x00 .. 0xFF] repeated to 10,000
    bytes. *)
Definition scenario_A_input : list Z :=
  map (fun k => Z.of_nat k mod 256) (seq 0 (Z.to_nat 10000)).

End RSSpec.


(** ** Bit-level facts shared by the developments below *)

Lemma land_pow2 (c k : Z) :
  0 <= k -> Z.land c (2 ^ k) = if Z.testbit c k then 2 ^ k else 0.
Proof.
  intros Hk. apply Z.bits_inj'. intros i Hi.
  rewrite Z.land_spec, Z.pow2_bits_eqb by assumption.
  destruct (Z.eqb_spec k i) as [->|Hne].
  - destruct (Z.testbit c i) eqn:E; rewrite ?Z.bits_0, ?Z.pow2_bits_eqb by assumption;
      rewrite ?Z.eqb_refl; reflexivity.
  - rewrite andb_false_r.
    destruct (Z.testbit c k); rewrite ?Z.bits_0, ?Z.pow2_bits_eqb by assumption; trivial.
    symmetry. now apply Z.eqb_neq.
Qed.

Lemma land_pow2_eqb (c k : Z) :
  0 <= k -> (Z.land c (2 ^ k) =? 0) = negb (Z.testbit c k).
Proof.
  intros Hk. rewrite land_pow2 by assumption.
  destruct (Z.testbit c k); simpl.
  - apply Z.eqb_neq. pose proof (Z.pow_pos_nonneg 2 k). lia.
  - reflexivity.
Qed.

Lemma iter_lxor (f : Z -> Z) (n : nat) :
  (forall a b, f (Z.lxor a b) = Z.lxor (f a) (f b)) ->
  forall a b, Nat.iter n f (Z.lxor a b) = Z.lxor (Nat.iter n f a) (Nat.iter n f b).
Proof.
  intros Hf. induction n as [|n IH]; intros a b; simpl.
  - reflexivity.
  - now rewrite IH, Hf.
Qed.

Lemma split_low8 (x : Z) :
  x = Z.lxor (Z.land x 255) (Z.shiftl (Z.shiftr x 8) 8).
Proof.
  rewrite <- (Z.ldiff_ones_r x 8) by lia.
  change 255 with (Z.ones 8).
  apply Z.bits_inj'. intros i Hi.
  rewrite Z.lxor_spec, Z.land_spec, Z.ldiff_spec.
  destruct (Z.testbit x i), (Z.testbit (Z.ones 8) i); reflexivity.
Qed.

Lemma nth_map_seq {A} (f : nat -> A) (n i : nat) (d : A) :
  (i < n)%nat -> nth i (map f (seq 0 n)) d = f i.
Proof.
  intros Hi. rewrite (nth_indep _ d (f 0%nat)) by now rewrite length_map, length_seq.
  rewrite (map_nth f), seq_nth; trivial.
Qed.

Lemma is_byte_range (b : Z) : is_byte b = true <-> 0 <= b < 256.
Proof. unfold is_byte. lia. Qed.

Lemma bytes_ok_app (a b : list Z) :
  bytes_ok (a ++ b) = bytes_ok a && bytes_ok b.
Proof. apply forallb_app. Qed.

Lemma bytes_ok_Forall (l : list Z) :
  bytes_ok l = true <-> Forall (fun b => 0 <= b < 256) l.
Proof.
  unfold bytes_ok. rewrite forallb_forall, Forall_forall.
  split; intros H x Hx; apply is_byte_range; auto.
Qed.


Lemma mod_pow2_lxor (a b n : Z) :
  0 <= n -> Z.lxor a b mod 2 ^ n = Z.lxor (a mod 2 ^ n) (b mod 2 ^ n).
Proof.
  intros Hn. rewrite <- !Z.land_ones by assumption.
  apply Z.bits_inj'. intros i Hi.
  rewrite !Z.lxor_spec, !Z.land_spec, Z.lxor_spec.
  destruct (Z.testbit a i), (Z.testbit b i), (Z.testbit (Z.ones n) i); reflexivity.
Qed.

Lemma lxor_range (a b n : Z) :
  0 <= n -> 0 <= a < 2 ^ n -> 0 <= b < 2 ^ n -> 0 <= Z.lxor a b < 2 ^ n.
Proof.
  intros Hn Ha Hb.
  assert (H0 : 0 <= Z.lxor a b) by (apply Z.lxor_nonneg; lia).
  split; trivial.
  destruct (Z.eq_dec (Z.lxor a b) 0) as [->|Hne]; [apply Z.pow_pos_nonneg; lia|].
  assert (Hn0 : 0 < n).
  { destruct (Z.eq_dec n 0) as [->|]; [|lia]. simpl in *.
    replace a with 0 in Hne by lia. replace b with 0 in Hne by lia. now contradiction Hne. }
  apply Z.log2_lt_pow2; [lia|].
  eapply Z.le_lt_trans; [apply Z.log2_lxor; lia|].
  apply Z.max_lub_lt.
  - destruct (Z.eq_dec a 0) as [->|]; [simpl; lia|]. apply Z.log2_lt_pow2; lia.
  - destruct (Z.eq_dec b 0) as [->|]; [simpl; lia|]. apply Z.log2_lt_pow2; lia.
Qed.

(** ** The table-driven CRCs compute the reference CRCs *)

Module CRCFacts.
Import CRC.

Lemma crc32_step_ref (c : Z) : crc32_step c = crc32_ref_bit c.
Proof.
  unfold crc32_step, crc32_ref_bit.
  change 1 with (2 ^ 0) at 1. rewrite land_pow2_eqb, negb_involutive, Z.bit0_odd by lia.
  destruct (Z.odd c); trivial. apply Z.lxor_comm.
Qed.

Lemma crc32_ref_bit_lxor (a b : Z) :
  crc32_ref_bit (Z.lxor a b) = Z.lxor (crc32_ref_bit a) (crc32_ref_bit b).
Proof.
  unfold crc32_ref_bit.
  rewrite <- !Z.bit0_odd, Z.lxor_spec, Z.shiftr_lxor.
  set (p := 3988292384). set (x := Z.shiftr a 1). set (y := Z.shiftr b 1).
  destruct (Z.testbit a 0), (Z.testbit b 0); simpl.
  - rewrite Z.lxor_assoc, (Z.lxor_comm p (Z.lxor y p)), Z.lxor_assoc,
      Z.lxor_nilpotent, Z.lxor_0_r. reflexivity.
  - now rewrite !Z.lxor_assoc, (Z.lxor_comm p y).
  - now rewrite Z.lxor_assoc.
  - reflexivity.
Qed.

Lemma crc32_ref_bit_shiftl (y : Z) (k : nat) :
  Nat.iter k crc32_ref_bit (Z.shiftl y (Z.of_nat k)) = y.
Proof.
  induction k as [|k IH].
  - simpl. apply Z.shiftl_0_r.
  - rewrite Nat.iter_succ_r.
    replace (crc32_ref_bit (Z.shiftl y (Z.of_nat (S k)))) with (Z.shiftl y (Z.of_nat k)).
    + exact IH.
    + unfold crc32_ref_bit.
      rewrite <- Z.bit0_odd, Z.shiftl_spec_low by lia.
      rewrite Z.shiftr_shiftl_l by lia. f_equal. lia.
Qed.

Lemma crc32_table_nth (i : Z) :
  0 <= i < 256 -> nth (Z.to_nat i) crc32_build 0 = crc32_entry i.
Proof.
  intros Hi. unfold crc32_build. rewrite nth_map_seq by lia.
  now rewrite Z2Nat.id by lia.
Qed.

Lemma crc32_entry_ref (i : Z) : crc32_entry i = Nat.iter 8 crc32_ref_bit i.
Proof.
  unfold crc32_entry. generalize 8%nat. intros n. revert i.
  induction n as [|n IH]; intros i; simpl; trivial.
  now rewrite IH, crc32_step_ref.
Qed.

Lemma crc32_update_ref (c b : Z) :
  0 <= b < 256 -> crc32_update crc32_build c b = crc32_ref_byte c b.
Proof.
  intros Hb. unfold crc32_update, crc32_ref_byte.
  assert (Hidx : 0 <= Z.land (Z.lxor c b) 255 < 256).
  { change 255 with (Z.ones 8). rewrite Z.land_ones by lia.
    apply Z.mod_pos_bound. lia. }
  rewrite crc32_table_nth, crc32_entry_ref by assumption.
  rewrite (split_low8 (Z.lxor c b)) at 2.
  rewrite (iter_lxor _ 8 crc32_ref_bit_lxor).
  rewrite (crc32_ref_bit_shiftl _ 8). f_equal.
  rewrite Z.shiftr_lxor.
  replace (Z.shiftr b 8) with 0; [now rewrite Z.lxor_0_r|].
  symmetry. apply Z.shiftr_eq_0_iff. destruct (Z.eq_dec b 0) as [->|]; [now left|right].
  split; [lia|]. apply Z.log2_lt_pow2; lia.
Qed.

Lemma crc32_fold_ref (buf : list Z) (c : Z) :
  bytes_ok buf = true ->
  fold_left (crc32_update crc32_build) buf c = fold_left crc32_ref_byte buf c.
Proof.
  revert c. induction buf as [|b buf IH]; intros c Hb; simpl in *; trivial.
  apply andb_prop in Hb as [Hb1 Hb2]. apply is_byte_range in Hb1.
  rewrite crc32_update_ref by assumption. now apply IH.
Qed.

Lemma crc32_init_table (st : crc_state) :
  crc_state_ok st -> crc32_table (crc32_init st) = crc32_build.
Proof.
  intros [H _]. unfold crc32_init. destruct (crc32_init_done st) eqn:E; simpl; auto.
Qed.

Lemma crc32_init_ok (st : crc_state) : crc_state_ok st -> crc_state_ok (crc32_init st).
Proof.
  intros [H1 H2]. unfold crc32_init.
  destruct (crc32_init_done st) eqn:E; split; simpl; auto.
Qed.

Lemma crc32_calc_ref (st : crc_state) (buf : list Z) :
  crc_state_ok st -> bytes_ok buf = true -> fst (crc32_calc st buf) = crc32_ref buf.
Proof.
  intros Hst Hb. unfold crc32_calc, crc32_ref. simpl.
  now rewrite crc32_init_table, crc32_fold_ref.
Qed.


(** CRC-16 *)

Lemma crc16_step_ref (c : Z) : crc16_step c = crc16_ref_bit c.
Proof.
  unfold crc16_step, crc16_ref_bit, u16.
  change 32768 with (2 ^ 15). rewrite land_pow2_eqb, negb_involutive by lia.
  destruct (Z.testbit c 15); trivial.
  change 65536 with (2 ^ 16). rewrite mod_pow2_lxor by lia. reflexivity.
Qed.

Lemma crc16_ref_bit_lxor (a b : Z) :
  crc16_ref_bit (Z.lxor a b) = Z.lxor (crc16_ref_bit a) (crc16_ref_bit b).
Proof.
  unfold crc16_ref_bit.
  rewrite Z.lxor_spec, Z.shiftl_lxor.
  change 65536 with (2 ^ 16). rewrite mod_pow2_lxor by lia.
  set (p := 4129). set (x := Z.shiftl a 1 mod 2 ^ 16). set (y := Z.shiftl b 1 mod 2 ^ 16).
  destruct (Z.testbit a 15), (Z.testbit b 15); simpl.
  - rewrite Z.lxor_assoc, (Z.lxor_comm p (Z.lxor y p)), Z.lxor_assoc,
      Z.lxor_nilpotent, Z.lxor_0_r. reflexivity.
  - now rewrite !Z.lxor_assoc, (Z.lxor_comm p y).
  - now rewrite Z.lxor_assoc.
  - reflexivity.
Qed.

Lemma crc16_ref_bit_range (c : Z) : 0 <= crc16_ref_bit c < 65536.
Proof.
  unfold crc16_ref_bit.
  assert (H : 0 <= Z.shiftl c 1 mod 65536 < 65536) by (apply Z.mod_pos_bound; lia).
  destruct (Z.testbit c 15); trivial.
  change 65536 with (2 ^ 16) in *. apply lxor_range; lia.
Qed.

Lemma crc16_ref_bit_low (lo : Z) (k : nat) :
  0 <= lo < 256 -> (k <= 8)%nat ->
  Nat.iter k crc16_ref_bit lo = Z.shiftl lo (Z.of_nat k).
Proof.
  intros Hlo. induction k as [|k IH]; intros Hk.
  - simpl. reflexivity.
  - simpl Nat.iter. rewrite IH by lia. unfold crc16_ref_bit.
    rewrite Z.shiftl_spec by lia.
    replace (Z.testbit lo (15 - Z.of_nat k)) with false.
    + rewrite Z.shiftl_shiftl by lia.
      replace (Z.of_nat k + 1) with (Z.of_nat (S k)) by lia.
      apply Z.mod_small. rewrite Z.shiftl_mul_pow2 by lia.
      assert (2 ^ Z.of_nat (S k) <= 2 ^ 8) by (apply Z.pow_le_mono_r; lia).
      assert (0 < 2 ^ Z.of_nat (S k)) by (apply Z.pow_pos_nonneg; lia).
      change (2 ^ 8) with 256 in *. nia.
    + symmetry. destruct (Z.eq_dec lo 0) as [->|]; [apply Z.bits_0|].
      apply Z.bits_above_log2; [lia|].
      assert (Z.log2 lo < 8) by (apply Z.log2_lt_pow2; lia). lia.
Qed.

Lemma crc16_table_nth (i : Z) :
  0 <= i < 256 -> nth (Z.to_nat i) crc16_build 0 = crc16_entry i.
Proof.
  intros Hi. unfold crc16_build. rewrite nth_map_seq by lia.
  now rewrite Z2Nat.id by lia.
Qed.

Lemma crc16_entry_ref (i : Z) :
  0 <= i < 256 -> crc16_entry i = Nat.iter 8 crc16_ref_bit (Z.shiftl i 8).
Proof.
  intros Hi. unfold crc16_entry, u16. rewrite Z.mod_small.
  - generalize (Z.shiftl i 8). generalize 8%nat. intros n.
    induction n as [|n IH]; intros x; simpl; trivial.
    now rewrite IH, crc16_step_ref.
  - rewrite Z.shiftl_mul_pow2 by lia. change (2 ^ 8) with 256. lia.
Qed.

Lemma iter_crc16_ref_bit_range (n : nat) (x : Z) :
  0 <= x < 65536 -> 0 <= Nat.iter n crc16_ref_bit x < 65536.
Proof.
  intros Hx. destruct n; simpl; trivial. apply crc16_ref_bit_range.
Qed.

Lemma crc16_update_ref (c b : Z) :
  0 <= c < 65536 -> 0 <= b < 256 ->
  crc16_update crc16_build c b = crc16_ref_byte c b.
Proof.
  intros Hc Hb. unfold crc16_update, crc16_ref_byte.
  set (hi := Z.lxor (Z.shiftr c 8) b).
  assert (Hs : 0 <= Z.shiftr c 8 < 256).
  { rewrite Z.shiftr_div_pow2 by lia. change (2 ^ 8) with 256.
    split; [apply Z.div_pos; lia | apply Z.div_lt_upper_bound; lia]. }
  assert (Hhi : 0 <= hi < 256).
  { change 256 with (2 ^ 8) in *. apply lxor_range; lia. }
  replace (Z.land hi 255) with hi
    by (change 255 with (Z.ones 8); rewrite Z.land_ones, Z.mod_small by lia; trivial).
  rewrite crc16_table_nth, crc16_entry_ref by assumption.
  replace (Z.lxor c (Z.shiftl b 8)) with (Z.lxor (Z.shiftl hi 8) (Z.land c 255)).
  - rewrite (iter_lxor _ 8 crc16_ref_bit_lxor).
    rewrite (crc16_ref_bit_low (Z.land c 255) 8); [| |lia].
    + unfold u16. change 65536 with (2 ^ 16). rewrite mod_pow2_lxor by lia.
      rewrite (Z.mod_small (Nat.iter _ _ _)).
      * rewrite Z.lxor_comm. f_equal.
        change (Z.of_nat 8) with 8. apply Z.bits_inj'. intros i Hi.
        change 255 with (Z.ones 8).
        rewrite <- Z.land_ones by lia.
        rewrite Z.land_spec, !Z.shiftl_spec, Z.land_spec by lia.
        destruct (Z_lt_le_dec i 8).
        -- rewrite !(Z.testbit_neg_r _ (i - 8)) by lia. reflexivity.
        -- destruct (Z_lt_le_dec i 16).
           ++ rewrite !Z.ones_spec_low by lia. now rewrite andb_true_r.
           ++ rewrite (Z.ones_spec_high 8), (Z.ones_spec_high 16) by lia.
              now rewrite !andb_false_r.
      * apply iter_crc16_ref_bit_range.
        rewrite Z.shiftl_mul_pow2 by lia. change (2 ^ 8) with 256. lia.
    + change 255 with (Z.ones 8). rewrite Z.land_ones by lia.
      apply Z.mod_pos_bound. lia.
  - unfold hi. rewrite Z.shiftl_lxor.
    rewrite (split_low8 c) at 3.
    rewrite (Z.lxor_comm (Z.land c 255)), !Z.lxor_assoc. f_equal. apply Z.lxor_comm.
Qed.

Lemma crc16_update_range (tbl : list Z) (c b : Z) :
  0 <= crc16_update tbl c b < 65536.
Proof. unfold crc16_update, u16. apply Z.mod_pos_bound. lia. Qed.

Lemma crc16_fold_ref (buf : list Z) (c : Z) :
  0 <= c < 65536 -> bytes_ok buf = true ->
  fold_left (crc16_update crc16_build) buf c = fold_left crc16_ref_byte buf c.
Proof.
  revert c. induction buf as [|b buf IH]; intros c Hc Hb; simpl in *; trivial.
  apply andb_prop in Hb as [Hb1 Hb2]. apply is_byte_range in Hb1.
  rewrite <- crc16_update_ref by assumption.
  apply IH; trivial. apply crc16_update_range.
Qed.

Lemma crc16_init_table (st : crc_state) :
  crc_state_ok st -> crc16_table (crc16_init st) = crc16_build.
Proof.
  intros [_ H]. unfold crc16_init. destruct (crc16_init_done st) eqn:E; simpl; auto.
Qed.

Lemma crc16_init_ok (st : crc_state) : crc_state_ok st -> crc_state_ok (crc16_init st).
Proof.
  intros [H1 H2]. unfold crc16_init.
  destruct (crc16_init_done st) eqn:E; split; simpl; auto.
Qed.

Lemma crc16_ccitt_ref (st : crc_state) (buf : list Z) :
  crc_state_ok st -> bytes_ok buf = true -> fst (crc16_ccitt st buf) = crc16_ref buf.
Proof.
  intros Hst Hb. unfold crc16_ccitt, crc16_ref. simpl.
  rewrite crc16_init_table, crc16_fold_ref; trivial. lia.
Qed.

Lemma crc_state0_ok : crc_state_ok crc_state0.
Proof. split; simpl; discriminate. Qed.

End CRCFacts.

(** ** Correctness of the KMP matcher *)

Module KMPFacts.
Import KMP.

Lemma suffix_of_refl (w : list Z) : suffix_of w w.
Proof. now exists []. Qed.

Lemma suffix_of_nil (w : list Z) : suffix_of [] w.
Proof. exists w. now rewrite app_nil_r. Qed.

Lemma suffix_of_trans (a b c : list Z) :
  suffix_of a b -> suffix_of b c -> suffix_of a c.
Proof. intros [x ->] [y ->]. exists (y ++ x). now rewrite app_assoc. Qed.

Lemma suffix_of_length (u w : list Z) : suffix_of u w -> (length u <= length w)%nat.
Proof. intros [v ->]. rewrite length_app. lia. Qed.

Lemma suffix_of_app (u w v : list Z) : suffix_of u w -> suffix_of u (v ++ w).
Proof. intros [x ->]. exists (v ++ x). now rewrite app_assoc. Qed.

(** Two suffixes of one word: the shorter is a suffix of the longer. *)
Lemma suffix_of_total (u u' w : list Z) :
  suffix_of u w -> suffix_of u' w -> (length u <= length u')%nat -> suffix_of u u'.
Proof.
  intros [v ->] [v' E] Hlen.
  apply app_eq_app in E as [l [[-> ->]|[-> ->]]].
  - now exists l.
  - rewrite length_app in Hlen. destruct l; [apply suffix_of_refl|simpl in Hlen; lia].
Qed.

Lemma suffix_of_snoc (u w : list Z) (a c : Z) :
  suffix_of (u ++ [a]) (w ++ [c]) <-> suffix_of u w /\ a = c.
Proof.
  split.
  - intros [v E]. rewrite app_assoc in E. apply app_inj_tail in E as [-> ->].
    split; trivial. now exists v.
  - intros [[v ->] ->]. exists v. now rewrite app_assoc.
Qed.

Lemma suffix_of_nonempty_nil (u : list Z) : suffix_of u [] -> u = [].
Proof. intros H. apply suffix_of_length in H. destruct u; trivial. simpl in H. lia. Qed.

Lemma firstn_snoc_nth (pat : list Z) (k : nat) :
  (k < length pat)%nat -> firstn (S k) pat = firstn k pat ++ [nth k pat 0].
Proof.
  revert k. induction pat as [|a pat IH]; intros k Hk; simpl in Hk; [lia|].
  destruct k as [|k]; [reflexivity|].
  change (firstn (S (S k)) (a :: pat)) with (a :: firstn (S k) pat).
  rewrite IH by lia. reflexivity.
Qed.

Lemma nth_list_set_eq {A} (l : list A) (i : nat) (x d : A) :
  (i < length l)%nat -> nth i (list_set l i x) d = x.
Proof.
  revert i. induction l as [|a l IH]; intros i Hi; simpl in *; [lia|].
  destruct i; simpl; trivial. apply IH. lia.
Qed.

Lemma nth_list_set_ne {A} (l : list A) (i k : nat) (x d : A) :
  i <> k -> nth k (list_set l i x) d = nth k l d.
Proof.
  revert i k. induction l as [|a l IH]; intros i k Hik; simpl.
  - reflexivity.
  - destruct i, k; simpl; trivial; try lia. apply IH. lia.
Qed.

Lemma length_list_set {A} (l : list A) (i : nat) (x : A) :
  length (list_set l i x) = length l.
Proof.
  revert i. induction l as [|a l IH]; intros i; simpl; trivial.
  destruct i; simpl; auto.
Qed.

Section Pattern.
Variable pat : list Z.
Let n := length pat.
Let pre (k : nat) := firstn k pat.

Lemma pre_length (k : nat) : (k <= n)%nat -> length (pre k) = k.
Proof. intros H. unfold pre. rewrite length_firstn. fold n. lia. Qed.

Lemma pre_full : pre n = pat.
Proof. apply firstn_all. Qed.

Lemma suffix_pre_snoc (k : nat) (w : list Z) (c : Z) :
  (k < n)%nat ->
  suffix_of (pre (S k)) (w ++ [c]) <-> suffix_of (pre k) w /\ nth k pat 0 = c.
Proof.
  intros Hk. unfold pre. rewrite firstn_snoc_nth by assumption. apply suffix_of_snoc.
Qed.

Lemma suffix_pre_total (b j : nat) (w : list Z) :
  (b <= j)%nat -> (j <= n)%nat ->
  suffix_of (pre b) w -> suffix_of (pre j) w -> suffix_of (pre b) (pre j).
Proof.
  intros Hb Hj H1 H2. eapply suffix_of_total; eauto.
  rewrite !pre_length by lia. assumption.
Qed.

(** What the failure table must hold below position [i]. *)
Definition lps_spec (lps : list nat) (i : nat) : Prop :=
  forall j, (1 <= j <= i)%nat ->
    (nth (j - 1) lps 0 < j)%nat /\
    suffix_of (pre (nth (j - 1) lps 0%nat)) (pre j) /\
    forall b, (b < j)%nat -> suffix_of (pre b) (pre j) -> (b <= nth (j - 1) lps 0)%nat.



Lemma lps_spec_set (lps : list nat) (i v : nat) :
  (1 <= i)%nat -> (i < length lps)%nat ->
  lps_spec lps i ->
  (v < S i)%nat -> suffix_of (pre v) (pre (S i)) ->
  (forall b, (b < S i)%nat -> suffix_of (pre b) (pre (S i)) -> (b <= v)%nat) ->
  lps_spec (list_set lps i v) (S i).
Proof.
  intros Hi Hlen Hspec Hv Hsuf Hmax j Hj.
  destruct (Nat.eq_dec j (S i)) as [->|Hne].
  - replace (S i - 1)%nat with i by lia. rewrite nth_list_set_eq by assumption. auto.
  - rewrite nth_list_set_ne by lia. apply Hspec. lia.
Qed.

(** The loop of [reset] fills the table correctly, given fuel for the rounds left. *)
Lemma lps_loop_spec (fuel : nat) :
  forall lps i len,
    (1 <= i <= n)%nat -> (len < i)%nat -> length lps = n ->
    lps_spec lps i ->
    suffix_of (pre len) (pre i) ->
    (forall b, (b < i)%nat -> (i < n)%nat -> suffix_of (pre b) (pre i) ->
               nth b pat 0 = nth i pat 0 -> (b <= len)%nat) ->
    (2 * (n - i) + len <= fuel)%nat ->
    lps_spec (lps_loop fuel pat lps i len) n.
Proof.
  induction fuel as [|fuel IH]; intros lps i len Hi Hlen Hl Hspec Hsuf Hcand Hfuel.
  - simpl. replace n with i by lia. assumption.
  - simpl. fold n. destruct (Nat.ltb_spec i n) as [Hin|Hin].
    2:{ replace n with i by lia. assumption. }
    destruct (Z.eqb_spec (nth i pat 0) (nth len pat 0)) as [Heq|Hneq].
    + (* extend the border *)
      assert (Hsuf' : suffix_of (pre (S len)) (pre (S i))).
      { unfold pre at 2. rewrite firstn_snoc_nth by assumption.
        apply suffix_pre_snoc; [lia|]. auto. }
      assert (Hmax : forall b, (b < S i)%nat -> suffix_of (pre b) (pre (S i)) ->
                               (b <= S len)%nat).
      { intros b Hb Hs. destruct b as [|b]; [lia|].
        unfold pre at 2 in Hs. rewrite firstn_snoc_nth in Hs by assumption.
        apply suffix_pre_snoc in Hs as [Hs1 Hs2]; [|lia].
        specialize (Hcand b ltac:(lia) Hin Hs1 Hs2). lia. }
      apply IH; try lia; trivial.
      * now rewrite length_list_set.
      * apply lps_spec_set; trivial; lia.
      * intros b Hb _ Hs _. apply Hmax; trivial.
    + destruct (Nat.eqb_spec len 0) as [Hz|Hnz]; simpl.
      * (* no border can be extended *)
        subst len.
        assert (Hmax : forall b, (b < S i)%nat -> suffix_of (pre b) (pre (S i)) ->
                                 (b <= 0)%nat).
        { intros b Hb Hs. destruct b as [|b]; [lia|].
          unfold pre at 2 in Hs. rewrite firstn_snoc_nth in Hs by assumption.
          apply suffix_pre_snoc in Hs as [Hs1 Hs2]; [|lia].
          specialize (Hcand b ltac:(lia) Hin Hs1 Hs2).
          assert (b = 0%nat) by lia. subst b. congruence. }
        apply IH; try lia; trivial.
        -- now rewrite length_list_set.
        -- apply lps_spec_set; trivial; try lia. apply suffix_of_nil.
        -- apply suffix_of_nil.
        -- intros b Hb _ Hs _. apply Hmax; trivial.
      * (* fall back to the next shorter border *)
        destruct (Hspec len ltac:(lia)) as (Hlt & Hs & Hm).
        apply IH; try lia; trivial.
        -- eapply suffix_of_trans; eauto.
        -- intros b Hb _ Hsb Hnb.
           specialize (Hcand b Hb Hin Hsb Hnb).
           assert (b <> len) by congruence.
           apply Hm; [lia|].
           apply (suffix_pre_total b len (pre i)); trivial; lia.
Qed.

Lemma reset_lps_spec : lps_spec (lps_ (reset pat)) n.
Proof.
  unfold reset; simpl. fold n.
  destruct (Nat.eq_dec n 0) as [Hz|Hnz].
  - intros j Hj. lia.
  - apply lps_loop_spec; try lia.
    + apply repeat_length.
    + intros j Hj. assert (j = 1%nat) by lia. subst j. simpl.
      destruct n eqn:E; [lia|]. simpl. repeat split; try lia.
      * apply suffix_of_nil.
    + apply suffix_of_nil.
Qed.

(** The matcher's state after the text [w]: the longest prefix of the
    pattern, short of the whole pattern, that [w] ends with. *)
Definition state_ok (w : list Z) (j : nat) : Prop :=
  (j < n)%nat /\ suffix_of (pre j) w /\
  forall b, (b < n)%nat -> suffix_of (pre b) w -> (b <= j)%nat.

Lemma fall_back_spec (lps : list nat) (w : list Z) (c : Z) (fuel : nat) :
  lps_spec lps n ->
  forall j, (j <= fuel)%nat -> (j < n)%nat -> suffix_of (pre j) w ->
    (forall b, (b < n)%nat -> suffix_of (pre b) w -> nth b pat 0 = c -> (b <= j)%nat) ->
    let j' := fall_back fuel pat lps c j in
    (j' < n)%nat /\ suffix_of (pre j') w /\
    (forall b, (b < n)%nat -> suffix_of (pre b) w -> nth b pat 0 = c -> (b <= j')%nat) /\
    (j' = 0%nat \/ c = nth j' pat 0).
Proof.
  intros Hspec. induction fuel as [|fuel IH]; intros j Hf Hj Hs Hc; simpl.
  - repeat split; trivial. left. lia.
  - destruct (Nat.ltb_spec 0 j) as [Hpos|Hzero]; simpl.
    2:{ repeat split; trivial. left. lia. }
    destruct (Z.eqb_spec c (nth j pat 0)) as [Heq|Hneq]; simpl.
    { repeat split; trivial. now right. }
    destruct (Hspec j ltac:(lia)) as (Hlt & Hsj & Hm).
    apply IH; try lia.
    + eapply suffix_of_trans; eauto.
    + intros b Hb Hsb Hnb.
      specialize (Hc b Hb Hsb Hnb).
      assert (b <> j) by congruence.
      apply Hm; [lia|].
      apply (suffix_pre_total b j w); trivial; lia.
Qed.

Lemma feed_spec (k : BitKMP) (w : list Z) (c : Z) :
  pat_ k = pat -> lps_spec (lps_ k) n -> state_ok w (j_ k) ->
  (fst (feed k c) = true <-> suffix_of pat (w ++ [c])) /\
  pat_ (snd (feed k c)) = pat /\ lps_ (snd (feed k c)) = lps_ k /\
  state_ok (w ++ [c]) (j_ (snd (feed k c))).
Proof.
  intros Hp Hspec (Hj & Hs & Hmax). unfold feed. rewrite Hp. fold n.
  destruct (fall_back_spec (lps_ k) w c (j_ k) Hspec (j_ k) (le_n _) Hj Hs
              ltac:(intros; auto)) as (Hj' & Hs' & Hc' & Hex).
  set (j' := fall_back (j_ k) pat (lps_ k) c (j_ k)) in *.
  assert (Hpos : (0 < n)%nat) by lia.
  assert (Hgen : forall b, (b <= n)%nat -> suffix_of (pre b) (w ++ [c]) ->
                   b = 0%nat \/ exists b', b = S b' /\ (b' <= j')%nat /\ nth b' pat 0 = c).
  { intros b Hb Hsb. destruct b as [|b']; [now left|right].
    apply suffix_pre_snoc in Hsb as [H1 H2]; [|lia].
    exists b'. repeat split; trivial. apply Hc'; trivial; lia. }
  destruct (Z.eqb_spec c (nth j' pat 0)) as [Heq|Hneq].
  - assert (Hext : suffix_of (pre (S j')) (w ++ [c])).
    { apply suffix_pre_snoc; auto. }
    destruct (Nat.eqb_spec (S j') n) as [Hfull|Hpart]; simpl.
    + rewrite Hfull in Hext. rewrite pre_full in Hext.
      split; [tauto|]. repeat split; trivial.
      * replace (j' - 0)%nat with (n - 1)%nat by lia.
        apply (Hspec n). lia.
      * replace (j' - 0)%nat with (n - 1)%nat by lia.
        eapply suffix_of_trans; [apply (Hspec n); lia|].
        now rewrite pre_full.
      * intros b Hb Hsb.
        replace (j' - 0)%nat with (n - 1)%nat by lia.
        apply (Hspec n); [lia|lia|].
        rewrite pre_full. eapply suffix_of_total; eauto.
        rewrite pre_length; lia.
    + split.
      * split; [discriminate|]. intros Hm.
        rewrite <- pre_full in Hm.
        destruct (Hgen n (le_n _) Hm) as [Hz|(b' & Hb1 & Hb2 & _)]; lia.
      * repeat split; trivial; try lia.
        intros b Hb Hsb.
        destruct (Hgen b ltac:(lia) Hsb) as [Hz|(b' & Hb1 & Hb2 & _)]; lia.
  - assert (Hj0 : j' = 0%nat) by (destruct Hex; congruence).
    assert (Hnone : forall b, (b <= n)%nat -> suffix_of (pre b) (w ++ [c]) -> b = 0%nat).
    { intros b Hb Hsb.
      destruct (Hgen b Hb Hsb) as [Hz|(b' & Hb1 & Hb2 & Hb3)]; trivial.
      assert (b' = 0%nat) by lia. subst b'. rewrite Hj0 in Hneq. congruence. }
    simpl. split.
    + split; [discriminate|]. intros Hm. rewrite <- pre_full in Hm.
      specialize (Hnone n (le_n _) Hm). lia.
    + repeat split; trivial.
      * rewrite Hj0. apply suffix_of_nil.
      * intros b Hb Hsb. rewrite (Hnone b) by (trivial; lia). lia.
Qed.

Lemma state_ok_start : (0 < n)%nat -> state_ok [] 0.
Proof.
  intros Hn. repeat split; trivial.
  - apply suffix_of_nil.
  - intros b Hb Hs. apply suffix_of_length in Hs. rewrite pre_length in Hs by lia.
    simpl in Hs. lia.
Qed.

Lemma feed_all_spec (text : list Z) :
  forall (k : BitKMP) (w : list Z),
    pat_ k = pat -> lps_spec (lps_ k) n -> state_ok w (j_ k) ->
    length (feed_all k text) = length text /\
    forall i, (i < length text)%nat ->
      (nth i (feed_all k text) false = true <-> suffix_of pat (w ++ firstn (S i) text)).
Proof.
  induction text as [|c text IH]; intros k w Hp Hl Hst; simpl.
  - split; trivial. intros i Hi. lia.
  - destruct (feed_spec k w c Hp Hl Hst) as (Hm & Hp' & Hl' & Hst').
    destruct (feed k c) as [m k'] eqn:E. simpl in *.
    rewrite <- Hl' in Hl.
    destruct (IH k' (w ++ [c]) Hp' Hl Hst') as [Hlen Hrest].
    split; [now rewrite Hlen|].
    intros i Hi. destruct i as [|i].
    + simpl. exact Hm.
    + rewrite (Hrest i) by lia. rewrite <- app_assoc. reflexivity.
Qed.

End Pattern.

Lemma reset_state_ok (pat : list Z) :
  pat <> [] -> state_ok pat [] (j_ (reset pat)).
Proof.
  intros H. apply state_ok_start. destruct pat; [congruence|simpl; lia].
Qed.

Lemma lps_spec_longest_border (pat : list Z) (lps : list nat) (j : nat) :
  lps_spec pat lps (length pat) -> (1 <= j <= length pat)%nat ->
  longest_border (firstn j pat) (nth (j - 1) lps 0%nat).
Proof.
  intros Hspec Hj. destruct (Hspec j Hj) as (H1 & H2 & H3).
  assert (Hlen : length (firstn j pat) = j) by (rewrite length_firstn; lia).
  unfold longest_border. rewrite Hlen.
  assert (Hpre : forall b, (b <= j)%nat -> firstn b (firstn j pat) = firstn b pat).
  { intros b Hb. rewrite firstn_firstn. f_equal. lia. }
  repeat split; trivial.
  - rewrite Hpre by lia. exact H2.
  - intros b' Hb' Hs. rewrite Hpre in Hs by lia. now apply H3.
Qed.

End KMPFacts.

(** ** The bit streams behind [BitWriter] and [BitReader] *)

Module BitIOFacts.
Import BitIO.

#[local] Arguments write_bit : simpl never.
#[local] Arguments write_byte_bits : simpl never.
#[local] Arguments byte_bits : simpl never.
#[local] Arguments writer_ok : simpl never.

Lemma list_eqb_eq (a b : list Z) : list_eqb a b = true <-> a = b.
Proof.
  unfold list_eqb. revert b. induction a as [|x a IH]; intros [|y b]; simpl.
  - split; trivial.
  - split; intros H; discriminate.
  - split; intros H; discriminate.
  - specialize (IH b). rewrite !andb_true_iff in *.
    rewrite Z.eqb_eq, Nat.eqb_eq in *. split.
    + intros (Hl & Hx & Hr). f_equal; trivial. apply IH. auto.
    + intros E. injection E as -> ->. repeat split; trivial; apply IH; trivial.
Qed.

Lemma fold_left_map_comp {A B C} (f : A -> B -> A) (g : C -> B) (l : list C) (a : A) :
  fold_left f (map g l) a = fold_left (fun a x => f a (g x)) l a.
Proof. revert a. induction l as [|x l IH]; intros a; simpl; auto. Qed.

Lemma in_byte_range (x : Z) : 0 <= x < 256 -> In x (map Z.of_nat (seq 0 256)).
Proof.
  intros H. apply in_map_iff. exists (Z.to_nat x). split; [lia|].
  apply in_seq. lia.
Qed.

Lemma land_1_cases (b : Z) : Z.land b 1 = 0 \/ Z.land b 1 = 1.
Proof.
  change (Z.land b 1) with (Z.land b (Z.ones 1)). rewrite Z.land_ones by lia.
  change (2 ^ 1) with 2. pose proof (Z.mod_pos_bound b 2). lia.
Qed.

Lemma land_1_land_1 (b : Z) : Z.land (Z.land b 1) 1 = Z.land b 1.
Proof. rewrite <- Z.land_assoc. reflexivity. Qed.

Lemma bytes_bits_app (a b : list Z) : bytes_bits (a ++ b) = bytes_bits a ++ bytes_bits b.
Proof. apply flat_map_app. Qed.

Lemma length_byte_bits (v : Z) : length (byte_bits v) = 8%nat.
Proof. reflexivity. Qed.

Lemma length_bytes_bits (l : list Z) : length (bytes_bits l) = (8 * length l)%nat.
Proof.
  induction l as [|v l IH]; trivial.
  change (bytes_bits (v :: l)) with (byte_bits v ++ bytes_bits l).
  rewrite length_app, IH, length_byte_bits. simpl. lia.
Qed.

(** *** The writer *)

Definition bare (acc off : Z) : BitWriter := {| out_ := []; acc_ := acc; bit_off_ := off |}.

Lemma write_bit_out (w : BitWriter) (b : Z) :
  write_bit w b =
  let w0 := write_bit (bare (acc_ w) (bit_off_ w)) b in
  {| out_ := out_ w ++ out_ w0; acc_ := acc_ w0; bit_off_ := bit_off_ w0 |}.
Proof.
  unfold write_bit, bare, flush_byte_; simpl.
  destruct (u8 (bit_off_ w + 1) =? 8); simpl; trivial.
  now rewrite app_nil_r.
Qed.

Definition write_bit_check (acc off c : Z) : bool :=
  let w := bare acc off in
  let w' := write_bit w c in
  implb (writer_ok w)
        (writer_ok w' && list_eqb (writer_bits w') (writer_bits w ++ [c])
         && bytes_ok (out_ w')
         && (bit_off_ w' =? (off + 1) mod 8)).

Lemma write_bit_check_all :
  forallb (fun acc => forallb (fun off => write_bit_check acc off 0 && write_bit_check acc off 1)
                              [0;1;2;3;4;5;6;7])
          (map Z.of_nat (seq 0 256)) = true.
Proof. vm_compute. reflexivity. Qed.

Lemma writer_ok_range (w : BitWriter) :
  writer_ok w = true -> 0 <= bit_off_ w < 8 /\ 0 <= acc_ w < 256.
Proof. unfold writer_ok. rewrite !andb_true_iff. lia. Qed.

Lemma write_bit_bare (acc off b : Z) :
  writer_ok (bare acc off) = true ->
  let w' := write_bit (bare acc off) b in
  writer_ok w' = true /\
  writer_bits w' = writer_bits (bare acc off) ++ [Z.land b 1] /\
  bytes_ok (out_ w') = true /\
  bit_off_ w' = (off + 1) mod 8.
Proof.
  intros Hok.
  assert (Hc : write_bit (bare acc off) b = write_bit (bare acc off) (Z.land b 1)).
  { unfold write_bit. now rewrite land_1_land_1. }
  simpl. rewrite Hc.
  destruct (writer_ok_range _ Hok) as [Hoff Hacc]. simpl in Hoff, Hacc.
  pose proof write_bit_check_all as Hall.
  rewrite forallb_forall in Hall. specialize (Hall acc (in_byte_range _ Hacc)).
  rewrite forallb_forall in Hall.
  assert (Hin : In off [0;1;2;3;4;5;6;7]) by (simpl; lia).
  specialize (Hall off Hin). apply andb_prop in Hall as [H0 H1].
  assert (Hchk : write_bit_check acc off (Z.land b 1) = true).
  { destruct (land_1_cases b) as [-> | ->]; assumption. }
  unfold write_bit_check in Hchk. rewrite Hok in Hchk. simpl implb in Hchk.
  rewrite !andb_true_iff in Hchk. destruct Hchk as [[[Ha Hb] Hd] He].
  apply list_eqb_eq in Hb. apply Z.eqb_eq in He. auto.
Qed.

#[local] Opaque write_bit.

Lemma writer_ok_bare (w : BitWriter) :
  writer_ok (bare (acc_ w) (bit_off_ w)) = writer_ok w.
Proof. reflexivity. Qed.

Lemma writer_bits_bare (w : BitWriter) :
  writer_bits w = bytes_bits (out_ w) ++ writer_bits (bare (acc_ w) (bit_off_ w)).
Proof. reflexivity. Qed.

Lemma write_bit_spec (w : BitWriter) (b : Z) :
  writer_ok w = true ->
  writer_ok (write_bit w b) = true /\
  writer_bits (write_bit w b) = writer_bits w ++ [Z.land b 1] /\
  bit_off_ (write_bit w b) = (bit_off_ w + 1) mod 8 /\
  (bytes_ok (out_ w) = true -> bytes_ok (out_ (write_bit w b)) = true).
Proof.
  intros Hok. rewrite <- writer_ok_bare in Hok.
  destruct (write_bit_bare (acc_ w) (bit_off_ w) b Hok) as (H1 & H2 & H3 & H4).
  rewrite write_bit_out. cbv zeta.
  set (w0 := write_bit (bare (acc_ w) (bit_off_ w)) b) in *.
  repeat split.
  - exact H1.
  - rewrite (writer_bits_bare w), <- app_assoc, <- H2.
    unfold writer_bits at 1. simpl out_. rewrite bytes_bits_app, <- app_assoc.
    reflexivity.
  - exact H4.
  - intros Hb. simpl. now rewrite bytes_ok_app, Hb, H3.
Qed.

(** Folding a step that appends to a bit stream: stated for any step, so
    that folds over [write_bit] are never unfolded by conversion. *)
Lemma fold_left_stream {A B} (f : A -> B -> A) (I : A -> Prop)
    (bits : A -> list Z) (enc : B -> list Z) :
  (forall a x, I a -> I (f a x) /\ bits (f a x) = bits a ++ enc x) ->
  forall l a, I a -> I (fold_left f l a) /\ bits (fold_left f l a) = bits a ++ flat_map enc l.
Proof.
  intros Hstep. induction l as [|x l IH]; intros a Ha.
  - simpl. now rewrite app_nil_r.
  - destruct (Hstep a x Ha) as [H1 H2].
    destruct (IH _ H1) as [I1 I2].
    split; [exact I1|].
    change (fold_left f (x :: l) a) with (fold_left f l (f a x)).
    rewrite I2, H2, <- app_assoc. reflexivity.
Qed.

Lemma flat_map_single {A} (g : A -> Z) (l : list A) :
  flat_map (fun x => [g x]) l = map g l.
Proof. induction l as [|x l IH]; simpl; congruence. Qed.

(** A writer in any state the class allows, whose bytes so far are bytes. *)
Definition writer_inv (w : BitWriter) : Prop :=
  writer_ok w = true /\ bytes_ok (out_ w) = true.

Lemma write_bit_inv (w : BitWriter) (b : Z) :
  writer_inv w ->
  writer_inv (write_bit w b) /\ writer_bits (write_bit w b) = writer_bits w ++ [Z.land b 1].
Proof.
  intros [H1 H2]. destruct (write_bit_spec w b H1) as (A1 & A2 & A3 & A4).
  repeat split; auto.
Qed.

Lemma write_bit_okb (w : BitWriter) (b : Z) :
  writer_ok w = true ->
  writer_ok (write_bit w b) = true /\ writer_bits (write_bit w b) = writer_bits w ++ [Z.land b 1].
Proof.
  intros H1. destruct (write_bit_spec w b H1) as (A1 & A2 & A3 & A4). auto.
Qed.

Lemma bit_off_of_bits (w : BitWriter) :
  writer_ok w = true -> bit_off_ w = Z.of_nat (length (writer_bits w)) mod 8.
Proof.
  intros Hok. destruct (writer_ok_range _ Hok) as [Hoff _].
  unfold writer_bits, pending_bits.
  rewrite length_app, length_bytes_bits, length_firstn, length_byte_bits.
  rewrite Nat2Z.inj_add, Nat2Z.inj_mul, Nat2Z.inj_min, Z2Nat.id by lia.
  rewrite Z.min_l by (simpl; lia).
  change (Z.of_nat 8) with 8. rewrite Z.add_comm, Z.mul_comm, Z.mod_add by lia.
  symmetry. apply Z.mod_small. lia.
Qed.

Lemma write_bits_inv (bits : list Z) (w : BitWriter) :
  writer_inv w ->
  writer_inv (write_bits w bits) /\
  writer_bits (write_bits w bits) = writer_bits w ++ map (fun b => Z.land b 1) bits.
Proof.
  intros Hw. unfold write_bits.
  rewrite <- flat_map_single.
  apply (fold_left_stream write_bit writer_inv writer_bits); trivial.
  intros a x. apply write_bit_inv.
Qed.

Lemma write_bits_okb (bits : list Z) (w : BitWriter) :
  writer_ok w = true ->
  writer_ok (write_bits w bits) = true /\
  writer_bits (write_bits w bits) = writer_bits w ++ map (fun b => Z.land b 1) bits.
Proof.
  intros Hw. unfold write_bits.
  rewrite <- flat_map_single.
  apply (fold_left_stream write_bit (fun w => writer_ok w = true) writer_bits); trivial.
  intros a x. apply write_bit_okb.
Qed.

Lemma write_byte_bits_eq (w : BitWriter) (v : Z) :
  write_byte_bits w v = write_bits w (byte_bits v).
Proof.
  unfold write_byte_bits, write_bits, byte_bits. now rewrite fold_left_map_comp.
Qed.

Lemma byte_bits_land (v : Z) : map (fun b => Z.land b 1) (byte_bits v) = byte_bits v.
Proof.
  unfold byte_bits. rewrite map_map. apply map_ext. intros a. apply land_1_land_1.
Qed.

Lemma write_byte_bits_inv (w : BitWriter) (v : Z) :
  writer_inv w ->
  writer_inv (write_byte_bits w v) /\
  writer_bits (write_byte_bits w v) = writer_bits w ++ byte_bits v.
Proof.
  intros Hw. rewrite write_byte_bits_eq.
  destruct (write_bits_inv (byte_bits v) w Hw) as [H1 H2].
  split; trivial. now rewrite H2, byte_bits_land.
Qed.

Lemma write_byte_bits_okb (w : BitWriter) (v : Z) :
  writer_ok w = true ->
  writer_ok (write_byte_bits w v) = true /\
  writer_bits (write_byte_bits w v) = writer_bits w ++ byte_bits v.
Proof.
  intros Hw. rewrite write_byte_bits_eq.
  destruct (write_bits_okb (byte_bits v) w Hw) as [H1 H2].
  split; trivial. now rewrite H2, byte_bits_land.
Qed.

#[local] Opaque write_byte_bits.

Lemma write_bytes_as_bits_inv (bytes : list Z) (w : BitWriter) :
  writer_inv w ->
  writer_inv (write_bytes_as_bits_ w bytes) /\
  writer_bits (write_bytes_as_bits_ w bytes) = writer_bits w ++ bytes_bits bytes.
Proof.
  intros Hw. unfold write_bytes_as_bits_, bytes_bits.
  apply (fold_left_stream write_byte_bits writer_inv writer_bits); trivial.
  intros a x. apply write_byte_bits_inv.
Qed.

Lemma write_bytes_as_bits_okb (bytes : list Z) (w : BitWriter) :
  writer_ok w = true ->
  writer_ok (write_bytes_as_bits_ w bytes) = true /\
  writer_bits (write_bytes_as_bits_ w bytes) = writer_bits w ++ bytes_bits bytes.
Proof.
  intros Hw. unfold write_bytes_as_bits_, bytes_bits.
  apply (fold_left_stream write_byte_bits (fun w => writer_ok w = true) writer_bits); trivial.
  intros a x. apply write_byte_bits_okb.
Qed.

Lemma pending_aligned (w : BitWriter) : bit_off_ w = 0 -> pending_bits w = [].
Proof. intros H. unfold pending_bits. now rewrite H. Qed.

Lemma write_full_bytes_okb (w : BitWriter) (bytes : list Z) :
  writer_ok w = true ->
  writer_ok (write_full_bytes w bytes) = true /\
  writer_bits (write_full_bytes w bytes) = writer_bits w ++ bytes_bits bytes.
Proof.
  intros Hok. unfold write_full_bytes.
  destruct (Z.eqb_spec (bit_off_ w) 0) as [Hz|Hnz].
  - split; trivial.
    unfold writer_bits, pending_bits. cbn [out_ acc_ bit_off_]. rewrite Hz.
    change (Z.to_nat 0) with 0%nat. cbn [firstn].
    now rewrite !app_nil_r, bytes_bits_app.
  - now apply write_bytes_as_bits_okb.
Qed.

Lemma write_full_bytes_inv (w : BitWriter) (bytes : list Z) :
  writer_inv w -> bytes_ok bytes = true ->
  writer_inv (write_full_bytes w bytes) /\
  writer_bits (write_full_bytes w bytes) = writer_bits w ++ bytes_bits bytes.
Proof.
  intros Hw Hb. split; [|apply write_full_bytes_okb, Hw].
  unfold write_full_bytes.
  destruct (Z.eqb_spec (bit_off_ w) 0) as [Hz|Hnz].
  - destruct Hw as [H1 H2]. split; trivial.
    cbn [out_]. now rewrite bytes_ok_app, H2, Hb.
  - now apply write_bytes_as_bits_inv.
Qed.

Lemma pad_loop_S (fuel : nat) (w : BitWriter) :
  pad_loop (S fuel) w = if bit_off_ w =? 0 then w else pad_loop fuel (write_bit w 0).
Proof. reflexivity. Qed.

Lemma pad_loop_spec (fuel : nat) :
  forall w, writer_ok w = true ->
    (bit_off_ w = 0 \/ 8 - bit_off_ w <= Z.of_nat fuel) ->
    writer_ok (pad_loop fuel w) = true /\ bit_off_ (pad_loop fuel w) = 0 /\
    writer_bits (pad_loop fuel w)
      = writer_bits w ++ repeat 0 (Z.to_nat ((8 - bit_off_ w) mod 8)) /\
    (bytes_ok (out_ w) = true -> bytes_ok (out_ (pad_loop fuel w)) = true).
Proof.
  induction fuel as [|fuel IH]; intros w Hok Hf.
  - destruct (writer_ok_range _ Hok) as [Hoff _].
    assert (Hz : bit_off_ w = 0) by lia.
    cbn [pad_loop]. rewrite Hz. change (Z.to_nat ((8 - 0) mod 8)) with 0%nat.
    cbn [repeat]. rewrite app_nil_r. auto.
  - destruct (writer_ok_range _ Hok) as [Hoff _].
    rewrite pad_loop_S.
    destruct (Z.eqb_spec (bit_off_ w) 0) as [Hz|Hnz].
    + rewrite Hz. change (Z.to_nat ((8 - 0) mod 8)) with 0%nat.
      cbn [repeat]. rewrite app_nil_r. auto.
    + destruct (write_bit_spec w 0 Hok) as (H1 & H2 & H3 & H4).
      change (Z.land 0 1) with 0 in H2.
      assert (Hf' : bit_off_ (write_bit w 0) = 0 \/
                    8 - bit_off_ (write_bit w 0) <= Z.of_nat fuel).
      { rewrite H3. destruct (Z.eq_dec (bit_off_ w) 7) as [H7|H7].
        - left. rewrite H7. reflexivity.
        - right. rewrite Z.mod_small by lia. lia. }
      destruct (IH _ H1 Hf') as (I1 & I2 & I3 & I4).
      split; [exact I1|]. split; [exact I2|]. split; [|auto].
      rewrite I3, H2, H3, <- app_assoc. f_equal.
      rewrite (Z.mod_small (8 - bit_off_ w)) by lia.
      destruct (Z.eq_dec (bit_off_ w) 7) as [H7|H7].
      * rewrite H7. reflexivity.
      * rewrite (Z.mod_small (bit_off_ w + 1)) by lia.
        rewrite (Z.mod_small (8 - (bit_off_ w + 1))) by lia.
        replace (Z.to_nat (8 - bit_off_ w)) with (S (Z.to_nat (8 - (bit_off_ w + 1)))) by lia.
        reflexivity.
Qed.

Lemma pad_to_byte_spec (w : BitWriter) :
  writer_ok w = true ->
  writer_ok (pad_to_byte w) = true /\ bit_off_ (pad_to_byte w) = 0 /\
  writer_bits (pad_to_byte w)
    = writer_bits w ++ repeat 0 (Z.to_nat ((8 - bit_off_ w) mod 8)) /\
  (bytes_ok (out_ w) = true -> bytes_ok (out_ (pad_to_byte w)) = true).
Proof.
  intros Hok. unfold pad_to_byte.
  destruct (Z.eqb_spec (bit_off_ w) 0) as [Hz|Hnz].
  - rewrite Hz. change (Z.to_nat ((8 - 0) mod 8)) with 0%nat.
    cbn [repeat]. rewrite app_nil_r. auto.
  - apply pad_loop_spec; trivial. destruct (writer_ok_range _ Hok).
    right. change (Z.of_nat 8) with 8. lia.
Qed.

Lemma writer_bits_aligned (w : BitWriter) :
  bit_off_ w = 0 -> writer_bits w = bytes_bits (out_ w).
Proof. intros H. unfold writer_bits. now rewrite pending_aligned, app_nil_r. Qed.

Lemma writer_new_ok : writer_ok BitWriter_new = true.
Proof. reflexivity. Qed.

End BitIOFacts.

(** ** The reader delivers the bits of the file in order *)

Module ReaderFacts.
Import BitIO BitIOFacts.

Definition is_bit (b : Z) : Prop := b = 0 \/ b = 1.

Lemma takeZ_dropZ (l : list Z) : forall n, takeZ n l ++ dropZ n l = l.
Proof.
  induction l as [|x l IH]; intros n; simpl; trivial.
  destruct (0 <? n); simpl; [now rewrite IH|trivial].
Qed.

Lemma takeZ_nil (l : list Z) (n : Z) : 0 < n -> takeZ n l = [] -> l = [].
Proof.
  intros Hn. destruct l as [|x l]; simpl; trivial.
  destruct (Z.ltb_spec 0 n); [discriminate|lia].
Qed.

Lemma length_dropZ (l : list Z) : forall n, (length (dropZ n l) <= length l)%nat.
Proof.
  induction l as [|x l IH]; intros n; simpl; trivial.
  destruct (0 <? n); simpl; [specialize (IH (n - 1)); lia|lia].
Qed.

Lemma length_dropZ_lt (l : list Z) (n : Z) :
  0 < n -> l <> [] -> (length (dropZ n l) < length l)%nat.
Proof.
  intros Hn Hl. destruct l as [|x l]; [congruence|]. simpl.
  destruct (Z.ltb_spec 0 n); [|lia]. pose proof (length_dropZ l (n - 1)). lia.
Qed.

Lemma byte_bits_is_bit (v : Z) : Forall is_bit (byte_bits v).
Proof.
  unfold byte_bits. apply Forall_forall. intros b Hb.
  apply in_map_iff in Hb as (k & <- & _). apply land_1_cases.
Qed.

Lemma bytes_bits_is_bit (l : list Z) : Forall is_bit (bytes_bits l).
Proof.
  induction l as [|v l IH]; [constructor|].
  change (bytes_bits (v :: l)) with (byte_bits v ++ bytes_bits l).
  apply Forall_app. split; [apply byte_bits_is_bit|assumption].
Qed.

Lemma skipn_byte_bits_is_bit (k : nat) (v : Z) : Forall is_bit (skipn k (byte_bits v)).
Proof.
  pose proof (byte_bits_is_bit v) as H.
  rewrite <- (firstn_skipn k (byte_bits v)) in H. now apply Forall_app in H.
Qed.

Lemma reader_bits_is_bit (r : BitReader) : Forall is_bit (reader_bits r).
Proof.
  unfold reader_bits. repeat (apply Forall_app; split).
  - apply skipn_byte_bits_is_bit.
  - apply bytes_bits_is_bit.
  - apply bytes_bits_is_bit.
Qed.

(** One bit out of the current byte. *)
Lemma take_bit_spec (r : BitReader) :
  0 <= bit_idx_ r < 8 ->
  exists t,
    skipn (Z.to_nat (bit_idx_ r)) (byte_bits (cur_byte_ r)) = fst (take_bit r) :: t /\
    skipn (Z.to_nat (bit_idx_ (snd (take_bit r)))) (byte_bits (cur_byte_ (snd (take_bit r)))) = t /\
    0 <= bit_idx_ (snd (take_bit r)) <= 8.
Proof.
  intros Hi. unfold take_bit. cbn [fst snd bit_idx_ cur_byte_].
  assert (Hc : bit_idx_ r = 0 \/ bit_idx_ r = 1 \/ bit_idx_ r = 2 \/ bit_idx_ r = 3 \/
               bit_idx_ r = 4 \/ bit_idx_ r = 5 \/ bit_idx_ r = 6 \/ bit_idx_ r = 7) by lia.
  destruct Hc as [H|[H|[H|[H|[H|[H|[H|H]]]]]]]; rewrite H;
    (eexists; split; [reflexivity|split; [reflexivity|unfold u8; rewrite Z.mod_small by lia; lia]]).
Qed.

Lemma skipn_S_nth (l : list Z) (p : nat) :
  (p < length l)%nat -> skipn p l = nth p l 0 :: skipn (S p) l.
Proof.
  revert p. induction l as [|x l IH]; intros p Hp; simpl in Hp; [lia|].
  destruct p; [reflexivity|]. simpl. apply IH. lia.
Qed.

(** Fetching a byte [c] and taking its first bit. *)
Lemma fetch_take_spec (r1 : BitReader) (c : Z) (rest : list Z) :
  cur_byte_ r1 = c -> bit_idx_ r1 = 0 ->
  bytes_bits (skipn (pos_ r1) (buf_ r1)) ++ bytes_bits (in_ r1) = rest ->
  exists t,
    byte_bits c ++ rest = fst (take_bit r1) :: t /\
    reader_bits (snd (take_bit r1)) = t /\
    0 <= bit_idx_ (snd (take_bit r1)) <= 8.
Proof.
  intros Hc Hb Hrest.
  destruct (take_bit_spec r1 ltac:(lia)) as (t & E1 & E2 & E3).
  rewrite Hc, Hb in E1. change (skipn (Z.to_nat 0) (byte_bits c)) with (byte_bits c) in E1.
  exists (t ++ rest). split; [now rewrite E1|]. split; [|exact E3].
  unfold reader_bits. rewrite E2. f_equal. exact Hrest.
Qed.

(** What [next_bit] does, read on the stream of bits left. *)
Lemma next_bit_spec (r : BitReader) :
  reader_ok r ->
  match reader_bits r with
  | [] => fst (next_bit r) = -1
  | b :: t =>
    fst (next_bit r) = b /\ reader_bits (snd (next_bit r)) = t /\
    reader_ok (snd (next_bit r))
  end.
Proof.
  intros (Hidx & Hcap & Hfill & Hpos).
  unfold next_bit.
  destruct (Z.leb_spec 8 (bit_idx_ r)) as [H8|H8].
  - assert (Hi8 : bit_idx_ r = 8) by lia.
    assert (Hskip : skipn (Z.to_nat (bit_idx_ r)) (byte_bits (cur_byte_ r)) = [])
      by (rewrite Hi8; reflexivity).
    destruct (Nat.leb_spec (filled_ r) (pos_ r)) as [Hge|Hlt].
    + (* the buffer is used up: refill *)
      assert (Hnil : skipn (pos_ r) (buf_ r) = [])
        by (apply skipn_all2; lia).
      assert (Hrb : reader_bits r
                    = bytes_bits (takeZ (buf_bytes r) (in_ r))
                      ++ bytes_bits (dropZ (buf_bytes r) (in_ r))).
      { unfold reader_bits. rewrite Hskip, Hnil. cbn [bytes_bits flat_map app].
        now rewrite <- bytes_bits_app, takeZ_dropZ. }
      rewrite Hrb.
      assert (Hf : filled_ (refill_ r) = length (takeZ (buf_bytes r) (in_ r))) by reflexivity.
      rewrite Hf.
      destruct (takeZ (buf_bytes r) (in_ r)) as [|c got] eqn:Egot.
      * cbn [length Nat.ltb Nat.leb].
        apply takeZ_nil in Egot; [|assumption]. rewrite Egot. reflexivity.
      * cbn [length Nat.ltb Nat.leb].
        set (r1 := fetch_byte (refill_ r)).
        assert (Hc : cur_byte_ r1 = c)
          by (unfold r1, fetch_byte, refill_; cbn; now rewrite Egot).
        assert (Hb : bit_idx_ r1 = 0) by reflexivity.
        assert (Hrest : bytes_bits (skipn (pos_ r1) (buf_ r1)) ++ bytes_bits (in_ r1)
                        = bytes_bits got ++ bytes_bits (dropZ (buf_bytes r) (in_ r))).
        { unfold r1, fetch_byte, refill_; cbn. now rewrite Egot. }
        destruct (fetch_take_spec r1 c _ Hc Hb Hrest) as (t & E1 & E2 & E3).
        change (bytes_bits (c :: got)) with (byte_bits c ++ bytes_bits got).
        rewrite <- app_assoc, E1. split; [reflexivity|]. split; [exact E2|].
        repeat split; try apply E3;
          unfold r1, take_bit, fetch_byte, refill_; cbn; rewrite ?Egot; cbn;
          first [assumption | reflexivity | lia].
    + (* the next byte of the buffer *)
      set (c := nth (pos_ r) (buf_ r) 0).
      set (r1 := fetch_byte r).
      assert (Hrb : reader_bits r
                    = byte_bits c ++ bytes_bits (skipn (pos_ r1) (buf_ r1))
                      ++ bytes_bits (in_ r1)).
      { unfold reader_bits. rewrite Hskip. cbn [app].
        rewrite (skipn_S_nth (buf_ r) (pos_ r)) by lia. fold c.
        change (bytes_bits (c :: skipn (S (pos_ r)) (buf_ r)))
          with (byte_bits c ++ bytes_bits (skipn (S (pos_ r)) (buf_ r))).
        now rewrite <- app_assoc. }
      destruct (fetch_take_spec r1 c _ eq_refl eq_refl eq_refl) as (t & E1 & E2 & E3).
      rewrite Hrb, E1. split; [reflexivity|]. split; [exact E2|].
      repeat split; try apply E3;
        unfold r1, take_bit, fetch_byte; cbn; first [assumption | lia].
  - destruct (take_bit_spec r ltac:(lia)) as (t & E1 & E2 & E3).
    unfold reader_bits at 1. rewrite E1. cbn [app]. split; [reflexivity|]. split.
    + unfold reader_bits. rewrite E2. reflexivity.
    + repeat split; try apply E3; unfold take_bit; cbn; first [assumption | lia].
Qed.

Lemma reader_new_ok (input : list Z) (size : Z) :
  0 < size -> reader_ok (BitReader_new input size).
Proof. intros H. repeat split; simpl; lia. Qed.

Lemma reader_new_bits (input : list Z) (size : Z) :
  reader_bits (BitReader_new input size) = bytes_bits input.
Proof. reflexivity. Qed.

End ReaderFacts.

(** ** The two scanning loops of [unwrap_file_bits] *)

Module UnwrapFacts.
Import BitIO KMP Bitwrap BitIOFacts KMPFacts ReaderFacts.

Lemma ends_with_iff (pat w : list Z) : ends_with pat w = true <-> suffix_of pat w.
Proof.
  unfold ends_with. rewrite andb_true_iff, Nat.leb_le, list_eqb_eq. split.
  - intros [Hl E]. exists (firstn (length w - length pat) w).
    rewrite E at 2. symmetry. apply firstn_skipn.
  - intros [v ->]. rewrite length_app. split; [lia|].
    replace (length v + length pat - length pat)%nat with (length v) by lia.
    rewrite skipn_app, skipn_all, Nat.sub_diag. reflexivity.
Qed.

Lemma first_end_from_range (pat : list Z) (rest : list Z) :
  forall seen e, first_end_from pat seen rest = Some e ->
    (length seen < e <= length seen + length rest)%nat.
Proof.
  induction rest as [|b t IH]; intros seen e H; simpl in H; [discriminate|].
  destruct (ends_with pat (seen ++ [b])).
  - injection H as <-. rewrite length_app. simpl. lia.
  - apply IH in H. rewrite length_app in H. simpl in *. lia.
Qed.

(** The first occurrence is found in a prefix of the text as well as in the text. *)
Lemma first_end_from_app (pat : list Z) (a b : list Z) :
  forall seen e, first_end_from pat seen a = Some e ->
    first_end_from pat seen (a ++ b) = Some e.
Proof.
  induction a as [|x a IH]; intros seen e H; simpl in *; [discriminate|].
  destruct (ends_with pat (seen ++ [x])); auto.
Qed.

Lemma first_end_from_spec (pat : list Z) (rest : list Z) :
  forall seen,
    match first_end_from pat seen rest with
    | Some e =>
      suffix_of pat (seen ++ firstn (e - length seen) rest) /\
      forall k, (0 < k < e - length seen)%nat -> ~ suffix_of pat (seen ++ firstn k rest)
    | None =>
      forall k, (0 < k <= length rest)%nat -> ~ suffix_of pat (seen ++ firstn k rest)
    end.
Proof.
  induction rest as [|b t IH]; intros seen; simpl.
  - intros k Hk. lia.
  - destruct (ends_with pat (seen ++ [b])) eqn:E.
    + rewrite length_app. simpl.
      replace (length seen + 1 - length seen)%nat with 1%nat by lia.
      split; [now apply ends_with_iff|]. intros k Hk. lia.
    + assert (Hn : ~ suffix_of pat (seen ++ [b])).
      { intros H. apply ends_with_iff in H. congruence. }
      specialize (IH (seen ++ [b])).
      destruct (first_end_from pat (seen ++ [b]) t) as [e|] eqn:Ef.
      * pose proof (first_end_from_range _ _ _ _ Ef) as Hr.
        rewrite length_app in Hr, IH. simpl in Hr, IH.
        destruct IH as [I1 I2].
        replace (e - length seen)%nat with (S (e - (length seen + 1))) by lia.
        split.
        -- simpl. now rewrite <- app_assoc in I1.
        -- intros k Hk. destruct k as [|k]; [lia|]. simpl.
           destruct k as [|k]; [exact Hn|].
           specialize (I2 (S k) ltac:(lia)). now rewrite <- app_assoc in I2.
      * intros k Hk. destruct k as [|k]; [lia|]. simpl.
        destruct k as [|k]; [exact Hn|].
        specialize (IH (S k) ltac:(simpl in *; lia)). now rewrite <- app_assoc in IH.
Qed.

Lemma u64_add_l (a b : Z) : u64 (u64 a + b) = u64 (a + b).
Proof. unfold u64. apply Zplus_mod_idemp_l. Qed.

Lemma is_bit_u8 (b : Z) : is_bit b -> u8 b = b.
Proof. intros [-> | ->]; reflexivity. Qed.

Lemma is_bit_nonneg (b : Z) : is_bit b -> (b <? 0) = false.
Proof. intros [-> | ->]; reflexivity. Qed.

Lemma is_bit_land (b : Z) : is_bit b -> Z.land b 1 = b.
Proof. intros [-> | ->]; reflexivity. Qed.

Lemma map_land_bits (l : list Z) : Forall is_bit l -> map (fun b => Z.land b 1) l = l.
Proof.
  induction 1 as [|b l Hb Hl IH]; simpl; trivial. now rewrite IH, is_bit_land.
Qed.

Lemma scan_start_S fuel br kmp bit_index :
  scan_start (S fuel) br kmp bit_index =
  let (bit, br1) := next_bit br in
  if bit <? 0 then StartEof
  else
    let bit_index1 := u64 (bit_index + 1) in
    let (m, kmp1) := feed kmp (u8 bit) in
    if m then StartFound br1 bit_index1
    else scan_start fuel br1 kmp1 bit_index1.
Proof. reflexivity. Qed.

Section Scan.
Variable pat : list Z.

(** The first loop stops at the first occurrence of the start pattern. *)
Lemma scan_start_spec (fuel : nat) :
  forall br kmp seen bidx,
    reader_ok br -> pat_ kmp = pat -> lps_spec pat (lps_ kmp) (length pat) ->
    state_ok pat seen (j_ kmp) ->
    (length (reader_bits br) < fuel)%nat ->
    match first_end_from pat seen (reader_bits br) with
    | Some e =>
      exists br',
        scan_start fuel br kmp bidx
          = StartFound br' (u64 (bidx + Z.of_nat (e - length seen))) /\
        reader_ok br' /\
        reader_bits br' = skipn (e - length seen) (reader_bits br)
    | None => scan_start fuel br kmp bidx = StartEof
    end.
Proof.
  induction fuel as [|fuel IH]; intros br kmp seen bidx Hr Hp Hl Hst Hf; [lia|].
  rewrite scan_start_S.
  pose proof (next_bit_spec br Hr) as Hn.
  pose proof (reader_bits_is_bit br) as Hbits.
  destruct (next_bit br) as [bit br1] eqn:En. cbn [fst snd] in Hn.
  destruct (reader_bits br) as [|b t] eqn:Eb.
  - cbn [first_end_from]. rewrite Hn. reflexivity.
  - destruct Hn as (-> & Ht & Hr1).
    apply Forall_inv in Hbits.
    rewrite is_bit_nonneg, is_bit_u8 by assumption.
    pose proof (feed_spec pat kmp seen b Hp Hl Hst) as (Hm & Hp' & Hl' & Hst').
    destruct (feed kmp b) as [m kmp1] eqn:Ef. cbn [fst snd] in *.
    cbn [first_end_from].
    destruct (ends_with pat (seen ++ [b])) eqn:Ee.
    + assert (m = true) by (apply Hm, ends_with_iff, Ee). subst m.
      exists br1. rewrite length_app. cbn [length].
      replace (length seen + 1 - length seen)%nat with 1%nat by lia.
      split; [reflexivity|]. split; [assumption|]. exact Ht.
    + assert (m = false).
      { destruct m; trivial. destruct Hm as [Hm _].
        specialize (Hm eq_refl). apply ends_with_iff in Hm. congruence. }
      subst m. rewrite <- Hl' in Hl.
      simpl in Hf. rewrite <- Ht in Hf.
      specialize (IH br1 kmp1 (seen ++ [b]) (u64 (bidx + 1)) Hr1 Hp' Hl Hst' ltac:(lia)).
      rewrite Ht in IH.
      destruct (first_end_from pat (seen ++ [b]) t) as [e|] eqn:Efe; [|exact IH].
      pose proof (first_end_from_range _ _ _ _ Efe) as Hrange.
      rewrite length_app in Hrange, IH. cbn [length] in Hrange, IH.
      destruct IH as (br' & I1 & I2 & I3). exists br'.
      replace (e - length seen)%nat with (S (e - (length seen + 1))) by lia.
      split; [|split; [assumption|]].
      * rewrite I1. f_equal. rewrite u64_add_l. f_equal. lia.
      * rewrite I3. reflexivity.
Qed.

Lemma iter_removelast (k : nat) (l : list Z) :
  Nat.iter k (@removelast Z) l = firstn (length l - k) l.
Proof.
  induction k as [|k IH].
  - simpl. rewrite Nat.sub_0_r. symmetry. apply firstn_all.
  - rewrite Nat.iter_succ, IH.
    destruct (Nat.le_gt_cases (length l) k) as [Hle|Hgt].
    + replace (length l - k)%nat with 0%nat by lia.
      replace (length l - S k)%nat with 0%nat by lia. reflexivity.
    + replace (length l - k)%nat with (S (length l - S k)) by lia.
      apply removelast_firstn. lia.
Qed.

Lemma scan_end_S fuel br kmp bw tail bit_index Lend :
  scan_end (S fuel) br kmp bw tail bit_index Lend =
  let (bit, br1) := next_bit br in
  if bit <? 0 then EndEof bw
  else
    let bit_index1 := u64 (bit_index + 1) in
    let b := u8 bit in
    let tail1 := tail ++ [b] in
    let (m, kmp1) := feed kmp b in
    if m then
      let tail2 := if (Lend <=? length tail1)%nat
                   then Nat.iter Lend (@removelast Z) tail1
                   else [] in
      EndFound bw tail2 bit_index1
    else if (Lend <? length tail1)%nat then
      match tail1 with
      | outb :: tail3 => scan_end fuel br1 kmp1 (write_bit bw outb) tail3 bit_index1 Lend
      | [] => scan_end fuel br1 kmp1 bw tail1 bit_index1 Lend
      end
    else scan_end fuel br1 kmp1 bw tail1 bit_index1 Lend.
Proof. reflexivity. Qed.

Lemma firstn_app_exact (a b : list Z) (k : nat) :
  firstn (length a + k) (a ++ b) = a ++ firstn k b.
Proof.
  rewrite firstn_app, firstn_all2 by lia. f_equal. f_equal. lia.
Qed.

(** Cutting the same number of symbols off the end of two spellings of a word. *)
Lemma cut_tail (a t b s : list Z) (k : nat) :
  a ++ t = b ++ s -> (k <= length t)%nat -> (k <= length s)%nat ->
  a ++ firstn (length t - k) t = b ++ firstn (length s - k) s.
Proof.
  intros E Ht Hs.
  rewrite <- (firstn_app_exact a t), <- (firstn_app_exact b s), E.
  f_equal. apply (f_equal (@length Z)) in E. rewrite !length_app in E. lia.
Qed.

(** The second loop: what has been written plus what waits in [tail] is
    what has been read, and [tail] holds the last [Lend] bits read. *)
Lemma scan_end_spec (B0 : list Z) (fuel : nat) :
  forall br kmp bw tail seen bidx,
    reader_ok br -> pat_ kmp = pat -> lps_spec pat (lps_ kmp) (length pat) ->
    state_ok pat seen (j_ kmp) ->
    writer_inv bw -> Forall is_bit tail ->
    writer_bits bw ++ tail = B0 ++ seen ->
    length tail = Nat.min (length seen) (length pat) ->
    (length (reader_bits br) < fuel)%nat ->
    match first_end_from pat seen (reader_bits br) with
    | Some e =>
      exists bw' tail',
        scan_end fuel br kmp bw tail bidx (length pat)
          = EndFound bw' tail' (u64 (bidx + Z.of_nat (e - length seen))) /\
        writer_inv bw' /\ Forall is_bit tail' /\
        writer_bits bw' ++ tail'
          = B0 ++ firstn (e - length pat) (seen ++ reader_bits br)
    | None =>
      exists bw',
        scan_end fuel br kmp bw tail bidx (length pat) = EndEof bw' /\
        writer_inv bw' /\
        writer_bits bw'
          = B0 ++ firstn (length (seen ++ reader_bits br) - length pat)
                         (seen ++ reader_bits br)
    end.
Proof.
  induction fuel as [|fuel IH];
    intros br kmp bw tail seen bidx Hr Hp Hl Hst Hw Htb Hinv Hlen Hf; [lia|].
  rewrite scan_end_S.
  pose proof (next_bit_spec br Hr) as Hn.
  pose proof (reader_bits_is_bit br) as Hbits.
  destruct (next_bit br) as [bit br1] eqn:En. cbn [fst snd] in Hn.
  destruct (reader_bits br) as [|b t] eqn:Eb.
  - (* end of file *)
    cbn [first_end_from]. rewrite Hn. cbn [Z.ltb Z.compare].
    exists bw. split; [reflexivity|]. split; [assumption|].
    rewrite app_nil_r.
    assert (E : writer_bits bw = firstn (length (writer_bits bw)) (B0 ++ seen)).
    { rewrite <- Hinv, firstn_app, Nat.sub_diag, firstn_all. cbn [firstn].
      now rewrite app_nil_r. }
    rewrite E at 1.
    apply (f_equal (@length Z)) in Hinv. rewrite !length_app in Hinv.
    replace (length (writer_bits bw)) with (length B0 + (length seen - length pat))%nat by lia.
    apply firstn_app_exact.
  - destruct Hn as (-> & Ht & Hr1).
    pose proof (Forall_inv Hbits) as Hb.
    rewrite is_bit_nonneg by assumption. cbv zeta. rewrite is_bit_u8 by assumption.
    pose proof (feed_spec pat kmp seen b Hp Hl Hst) as (Hm & Hp' & Hl' & Hst').
    destruct (feed kmp b) as [m kmp1] eqn:Ef. cbn [fst snd] in *.
    cbn [first_end_from].
    assert (Hinv1 : writer_bits bw ++ tail ++ [b] = B0 ++ seen ++ [b])
      by (now rewrite !app_assoc, Hinv).
    assert (Htb1 : Forall is_bit (tail ++ [b]))
      by (apply Forall_app; split; [assumption|now constructor]).
    destruct (ends_with pat (seen ++ [b])) eqn:Ee.
    + (* the end pattern is complete *)
      assert (m = true) by (apply Hm, ends_with_iff, Ee). subst m.
      apply ends_with_iff, suffix_of_length in Ee.
      rewrite length_app in Ee. cbn [length] in Ee.
      assert (Hge : (length pat <= length (tail ++ [b]))%nat)
        by (rewrite length_app; cbn [length]; lia).
      apply Nat.leb_le in Hge as Hge'. rewrite Hge'.
      rewrite iter_removelast.
      exists bw, (firstn (length (tail ++ [b]) - length pat) (tail ++ [b])).
      assert (Hls : length (seen ++ [b]) = S (length seen))
        by (rewrite length_app; cbn [length]; lia).
      rewrite Hls.
      replace (S (length seen) - length seen)%nat with 1%nat by lia.
      split; [reflexivity|]. split; [assumption|]. split.
      * rewrite <- (firstn_skipn (length (tail ++ [b]) - length pat) (tail ++ [b])) in Htb1.
        now apply Forall_app in Htb1.
      * rewrite (cut_tail (writer_bits bw) (tail ++ [b]) B0 (seen ++ [b]) (length pat));
          trivial; [|lia].
        f_equal. rewrite Hls.
        replace (seen ++ b :: t) with ((seen ++ [b]) ++ t) by (now rewrite <- app_assoc).
        rewrite (firstn_app _ (seen ++ [b]) t).
        replace (S (length seen) - length pat - length (seen ++ [b]))%nat with 0%nat by lia.
        cbn [firstn]. now rewrite app_nil_r.
    + assert (m = false).
      { destruct m; trivial. destruct Hm as [Hm _].
        specialize (Hm eq_refl). apply ends_with_iff in Hm. congruence. }
      subst m. rewrite <- Hl' in Hl.
      simpl in Hf. rewrite <- Ht in Hf.
      assert (Hlen1 : length (tail ++ [b]) = S (Nat.min (length seen) (length pat)))
        by (rewrite length_app; cbn [length]; lia).
      assert (Hfinal : forall bw2 tail2,
                 writer_inv bw2 -> Forall is_bit tail2 ->
                 writer_bits bw2 ++ tail2 = B0 ++ seen ++ [b] ->
                 length tail2 = Nat.min (length (seen ++ [b])) (length pat) ->
                 match first_end_from pat (seen ++ [b]) t with
                 | Some e =>
                   exists bw' tail',
                     scan_end fuel br1 kmp1 bw2 tail2 (u64 (bidx + 1)) (length pat)
                       = EndFound bw' tail' (u64 (bidx + Z.of_nat (e - length seen))) /\
                     writer_inv bw' /\ Forall is_bit tail' /\
                     writer_bits bw' ++ tail'
                       = B0 ++ firstn (e - length pat) (seen ++ b :: t)
                 | None =>
                   exists bw',
                     scan_end fuel br1 kmp1 bw2 tail2 (u64 (bidx + 1)) (length pat)
                       = EndEof bw' /\
                     writer_inv bw' /\
                     writer_bits bw'
                       = B0 ++ firstn (length (seen ++ b :: t) - length pat) (seen ++ b :: t)
                 end).
      { intros bw2 tail2 Hw2 Htb2 Hinv2 Hlen2.
        specialize (IH br1 kmp1 bw2 tail2 (seen ++ [b]) (u64 (bidx + 1))
                       Hr1 Hp' Hl Hst' Hw2 Htb2 Hinv2 Hlen2 ltac:(lia)).
        rewrite Ht in IH.
        replace ((seen ++ [b]) ++ t) with (seen ++ b :: t) in IH
          by (now rewrite <- app_assoc).
        destruct (first_end_from pat (seen ++ [b]) t) as [e|] eqn:Efe; [|exact IH].
        pose proof (first_end_from_range _ _ _ _ Efe) as Hrange.
        rewrite length_app in Hrange, IH. cbn [length] in Hrange, IH.
        destruct IH as (bw' & tail' & I1 & I2 & I3 & I4). exists bw', tail'.
        split; [|split; [assumption|split; [assumption|exact I4]]].
        rewrite I1. f_equal. rewrite u64_add_l. f_equal. lia. }
      destruct (Nat.ltb_spec (length pat) (length (tail ++ [b]))) as [Hgt|Hle].
      * (* the oldest bit of the window is payload *)
        destruct (tail ++ [b]) as [|outb tail3] eqn:Et; [cbn [length] in Hgt; lia|].
        try rewrite Et in Hlen1. try rewrite Et in Hinv1. try rewrite Et in Htb1.
        try rewrite Et in Hgt.
        destruct (write_bit_inv bw outb Hw) as [Hw3 Hb3].
        apply Forall_inv in Htb1 as Hob. apply Forall_inv_tail in Htb1 as Ht3.
        rewrite is_bit_land in Hb3 by assumption.
        apply Hfinal; trivial.
        -- rewrite Hb3, <- app_assoc. exact Hinv1.
        -- cbn [length] in Hlen1, Hgt. rewrite length_app. cbn [length]. lia.
      * apply Hfinal; trivial.
        rewrite Hlen1 in Hle |- *. rewrite length_app. cbn [length]. lia.
Qed.

End Scan.

End UnwrapFacts.

(** ** [unwrap_file_bits] as a function of the input's bit stream *)

Module UnwrapTop.
Import BitIO KMP Bitwrap BitIOFacts KMPFacts ReaderFacts UnwrapFacts.

Lemma parse_chars_Some (str : string) (bits : list Z) :
  parse_chars str = Some bits ->
  bits = pattern_bits (Some str) /\
  forall c, In c (list_ascii_of_string str) -> c = "0"%char \/ c = "1"%char.
Proof.
  revert bits. induction str as [|c t IH]; intros bits H; simpl in *.
  - injection H as <-. split; trivial. intros c [].
  - destruct (Ascii.eqb_spec c "0"%char) as [->|H0].
    + destruct (parse_chars t) as [l|]; [|discriminate]. injection H as <-.
      destruct (IH l eq_refl) as [-> I2]. split; trivial.
      intros c [<-|Hc]; auto.
    + destruct (Ascii.eqb_spec c "1"%char) as [->|H1]; [|discriminate].
      destruct (parse_chars t) as [l|]; [|discriminate]. injection H as <-.
      destruct (IH l eq_refl) as [-> I2]. split; trivial.
      intros c [<-|Hc]; auto.
Qed.

Lemma parse_chars_valid (str : string) :
  (forall c, In c (list_ascii_of_string str) -> c = "0"%char \/ c = "1"%char) ->
  parse_chars str = Some (pattern_bits (Some str)).
Proof.
  induction str as [|c t IH]; intros H; simpl in *; trivial.
  rewrite IH by auto.
  destruct (H c (or_introl eq_refl)) as [-> | ->]; reflexivity.
Qed.

Lemma pattern_bits_nil (str : string) :
  pattern_bits (Some str) = [] <-> str = EmptyString.
Proof. destruct str; simpl; split; congruence. Qed.

Lemma pattern_bits_is_bit (s : option string) : Forall is_bit (pattern_bits s).
Proof.
  destruct s as [str|]; [|constructor]. simpl.
  apply Forall_forall. intros b Hb. apply in_map_iff in Hb as (c & <- & _).
  destruct (Ascii.eqb c "1"%char); [now right|now left].
Qed.

(** A valid pattern is one that parses to a non-empty sequence. *)
Lemma valid_pattern_parse (s : option string) :
  valid_pattern s <->
  parse_bitstring_ s = Some (pattern_bits s) /\ pattern_bits s <> [].
Proof.
  destruct s as [str|]; simpl.
  - split.
    + intros [Hne Hc]. split; [now apply parse_chars_valid|].
      intros E. apply (pattern_bits_nil str) in E. contradiction.
    + intros [Hp Hne]. split.
      * intros E. apply Hne. now apply (pattern_bits_nil str).
      * now apply parse_chars_Some in Hp.
  - split; [tauto|]. intros [_ H]. now apply H.
Qed.

Lemma parse_bitstring_Some (s : option string) (bits : list Z) :
  parse_bitstring_ s = Some bits -> bits = pattern_bits s.
Proof.
  destruct s as [str|]; simpl.
  - intros H. now apply parse_chars_Some in H.
  - congruence.
Qed.

Lemma invalid_pattern_parse (s : option string) :
  ~ valid_pattern s <-> parse_bitstring_ s = None \/ parse_bitstring_ s = Some [].
Proof.
  rewrite valid_pattern_parse. split.
  - intros H. destruct (parse_bitstring_ s) as [bits|] eqn:E; [|now left].
    right. pose proof (parse_bitstring_Some _ _ E) as ->.
    destruct (pattern_bits s) eqn:Ep; trivial.
    exfalso. apply H. split; [reflexivity|discriminate].
  - intros [H|H] [H1 H2]; rewrite H in H1; [discriminate|].
    injection H1 as H1. congruence.
Qed.

(** Whether both patterns are acceptable can be decided by parsing them. *)
Lemma classic_valid (ss es : option string) :
  (valid_pattern ss /\ valid_pattern es) \/ ~ (valid_pattern ss /\ valid_pattern es).
Proof.
  assert (D : forall s, valid_pattern s \/ ~ valid_pattern s).
  { intros s. destruct (parse_bitstring_ s) as [bits|] eqn:E.
    - destruct bits as [|b t] eqn:Eb.
      + right. apply invalid_pattern_parse. now right.
      + left. apply valid_pattern_parse.
        pose proof (parse_bitstring_Some _ _ E) as <-. split; [exact E|discriminate].
    - right. apply invalid_pattern_parse. now left. }
  destruct (D ss), (D es); tauto.
Qed.

(** [first_end] finds the first occurrence. *)
Lemma first_end_None (pat text : list Z) :
  first_end pat text = None <-> never_occurs pat text.
Proof.
  unfold first_end, never_occurs, occurs_end.
  pose proof (first_end_from_spec pat text []) as H. cbn [app length] in H.
  destruct (first_end_from pat [] text) as [e|] eqn:E.
  - split; [discriminate|]. intros Hn. exfalso.
    pose proof (first_end_from_range _ _ _ _ E) as Hr. cbn [length] in Hr.
    destruct H as [H1 _]. rewrite Nat.sub_0_r in H1.
    apply (Hn (e - 1)%nat); [lia|]. now replace (S (e - 1)) with e by lia.
  - split; trivial. intros _ i Hi. apply H. lia.
Qed.

Lemma first_end_Some (pat text : list Z) (e : nat) :
  first_end pat text = Some e <-> first_occurrence pat text e.
Proof.
  unfold first_end, first_occurrence, occurs_end.
  pose proof (first_end_from_spec pat text []) as H. cbn [app length] in H.
  destruct (first_end_from pat [] text) as [e'|] eqn:E.
  - pose proof (first_end_from_range _ _ _ _ E) as Hr. cbn [length] in Hr.
    destruct H as [H1 H2]. rewrite Nat.sub_0_r in H1, H2. split.
    + intros [= <-]. split; [lia|]. split.
      * now replace (S (e' - 1)) with e' by lia.
      * intros i Hi. apply H2. lia.
    + intros (Hr' & F1 & F2). f_equal.
      replace (S (e - 1)) with e in F1 by lia.
      destruct (Nat.lt_trichotomy e e') as [Hlt|[Heq|Hgt]]; [|lia|].
      * exfalso. apply (H2 e); [lia|assumption].
      * exfalso. apply (F2 (e' - 1)%nat); [lia|].
        now replace (S (e' - 1)) with e' by lia.
  - split; [discriminate|]. intros (Hr' & F1 & _). exfalso.
    apply (H e); [lia|]. now replace (S (e - 1)) with e in F1 by lia.
Qed.

Lemma u64_sub_l (a b : Z) : u64 (u64 a - b) = u64 (a - b).
Proof. unfold u64. apply Zminus_mod_idemp_l. Qed.

(** What one run of [unwrap_file_bits] does, once both patterns are
    accepted, read on the bit stream [bytes_bits input]. *)
Lemma unwrap_run (input : list Z) (ss es : option string) :
  valid_pattern ss -> valid_pattern es ->
  let sb := pattern_bits ss in
  let eb := pattern_bits es in
  let S := bytes_bits input in
  match first_end sb S with
  | None =>
    unwrap_file_bits (Some input) true ss es
      = Some {| u_ret := -4; u_out := Some []; u_start_pos := 0; u_end_pos := 0 |}
  | Some e1 =>
    let start_pos := u64 (Z.of_nat e1 - Z.of_nat (length sb)) in
    match first_end eb (skipn e1 S) with
    | None =>
      exists out pending,
        unwrap_file_bits (Some input) true ss es
          = Some {| u_ret := -4; u_out := Some out;
                    u_start_pos := start_pos; u_end_pos := 0 |} /\
        bytes_ok out = true /\ (length pending < 8)%nat /\
        bytes_bits out ++ pending
          = firstn (length (skipn e1 S) - length eb) (skipn e1 S)
    | Some e2 =>
      exists out,
        unwrap_file_bits (Some input) true ss es
          = Some {| u_ret := 0; u_out := Some out;
                    u_start_pos := start_pos;
                    u_end_pos := u64 (Z.of_nat e1 + Z.of_nat e2 - Z.of_nat (length eb)) |} /\
        bytes_ok out = true /\
        bytes_bits out
          = firstn (e2 - length eb) (skipn e1 S)
            ++ repeat 0 (Z.to_nat ((8 - Z.of_nat (e2 - length eb) mod 8) mod 8))
    end
  end.
Proof.
  intros Hvs Hve sb eb S.
  apply valid_pattern_parse in Hvs as [Hps Hns], Hve as [Hpe Hne].
  fold sb in Hps, Hns. fold eb in Hpe, Hne.
  unfold unwrap_file_bits. cbn [negb]. rewrite Hps, Hpe.
  assert (Hls : (length sb =? 0)%nat = false)
    by (apply Nat.eqb_neq; destruct sb; [congruence|discriminate]).
  assert (Hle : (length eb =? 0)%nat = false)
    by (apply Nat.eqb_neq; destruct eb; [congruence|discriminate]).
  rewrite Hls, Hle. cbn [orb].
  set (br := BitReader_new input IO_BUF).
  assert (Hbr : reader_ok br) by (apply reader_new_ok; reflexivity).
  assert (Hbits : reader_bits br = S) by reflexivity.
  assert (HlenS : length S = (8 * length input)%nat) by apply length_bytes_bits.
  pose proof (scan_start_spec sb (Datatypes.S (8 * length input)) br (reset sb) [] 0
                Hbr eq_refl (reset_lps_spec sb) (reset_state_ok sb Hns)
                ltac:(rewrite Hbits, HlenS; lia)) as Hs.
  rewrite Hbits in Hs. unfold first_end.
  destruct (first_end_from sb [] S) as [e1|] eqn:E1.
  2:{ rewrite Hs. reflexivity. }
  destruct Hs as (br1 & Hs1 & Hr1 & Hb1).
  cbn [length] in Hs1, Hb1. rewrite Nat.sub_0_r in Hs1, Hb1. rewrite Z.add_0_l in Hs1.
  rewrite Hs1. cbv zeta.
  assert (Hlen1 : (length (reader_bits br1) < Datatypes.S (8 * length input))%nat).
  { rewrite Hb1, length_skipn, HlenS. lia. }
  assert (Hw0 : writer_inv BitWriter_new) by (split; reflexivity).
  pose proof (scan_end_spec eb [] (Datatypes.S (8 * length input)) br1 (reset eb)
                BitWriter_new [] [] (u64 (Z.of_nat e1))
                Hr1 eq_refl (reset_lps_spec eb) (reset_state_ok eb Hne)
                Hw0 (Forall_nil _) eq_refl eq_refl Hlen1) as He.
  rewrite Hb1 in He. cbn [app length] in He. unfold need. cbn [pat_ reset].
  rewrite u64_sub_l.
  destruct (first_end_from eb [] (skipn e1 S)) as [e2|] eqn:E2.
  - destruct He as (bw' & tail' & He1 & Hw' & Ht' & Hb').
    rewrite Nat.sub_0_r in He1. rewrite He1.
    set (bw2 := fold_left write_bit tail' bw').
    destruct (write_bits_inv tail' bw' Hw') as [Hw2 Hb2]. fold bw2 in Hw2, Hb2.
    unfold write_bits in Hw2, Hb2. fold bw2 in Hw2, Hb2.
    rewrite map_land_bits in Hb2 by assumption. rewrite Hb' in Hb2.
    destruct Hw2 as [Hok2 Hby2].
    destruct (pad_to_byte_spec bw2 Hok2) as (P1 & P2 & P3 & P4).
    exists (out_ (pad_to_byte bw2)). split; [|split].
    + rewrite u64_add_l, u64_sub_l. reflexivity.
    + auto.
    + pose proof (first_end_from_range _ _ _ _ E2) as Hr2. cbn [length] in Hr2.
      assert (Hlen : length (firstn (e2 - length eb) (skipn e1 S)) = (e2 - length eb)%nat)
        by (rewrite length_firstn; lia).
      cbn [app] in Hb2.
      rewrite <- writer_bits_aligned by assumption.
      rewrite P3, (bit_off_of_bits bw2 Hok2), Hb2, Hlen. reflexivity.
  - destruct He as (bw' & He1 & [Hok' Hby'] & Hb').
    rewrite He1. exists (out_ bw'), (pending_bits bw').
    split; [reflexivity|]. split; [assumption|]. split.
    + unfold pending_bits. rewrite length_firstn, length_byte_bits.
      destruct (writer_ok_range _ Hok'). lia.
    + exact Hb'.
Qed.

(** When a pattern is refused, nothing is read or written. *)
Lemma unwrap_refused (input : list Z) (ss es : option string) :
  ~ (valid_pattern ss /\ valid_pattern es) ->
  unwrap_file_bits (Some input) true ss es
    = Some {| u_ret := -3; u_out := Some []; u_start_pos := 0; u_end_pos := 0 |}.
Proof.
  intros H. unfold unwrap_file_bits. cbn [negb].
  destruct (parse_bitstring_ ss) as [sb|] eqn:Es; [|reflexivity].
  destruct (parse_bitstring_ es) as [eb|] eqn:Ee; [|reflexivity].
  destruct (Nat.eqb_spec (length sb) 0) as [Hs|Hs]; [reflexivity|].
  destruct (Nat.eqb_spec (length eb) 0) as [He|He]; [reflexivity|].
  exfalso. apply H.
  pose proof (parse_bitstring_Some _ _ Es) as ->.
  pose proof (parse_bitstring_Some _ _ Ee) as ->.
  split; apply valid_pattern_parse; split; trivial; intros E; rewrite E in *;
    simpl in *; congruence.
Qed.

End UnwrapTop.

(** ** The bit stream [wrap_file_bits] writes *)

Module WrapFacts.
Import BitIO KMP Bitwrap BitIOFacts KMPFacts ReaderFacts UnwrapFacts UnwrapTop.

(** Reading a byte back from its eight bits. *)
Definition bits_byte (bits : list Z) : Z := fold_left (fun a b => 2 * a + b) bits 0.

Lemma bits_byte_bits_all :
  forallb (fun v => bits_byte (byte_bits v) =? v) (map Z.of_nat (seq 0 256)) = true.
Proof. vm_compute. reflexivity. Qed.

Lemma bits_byte_bits (v : Z) : 0 <= v < 256 -> bits_byte (byte_bits v) = v.
Proof.
  intros H. pose proof bits_byte_bits_all as Hall.
  rewrite forallb_forall in Hall. apply Z.eqb_eq, Hall, in_byte_range, H.
Qed.

Lemma bytes_bits_inj (a : list Z) :
  forall b, bytes_ok a = true -> bytes_ok b = true -> bytes_bits a = bytes_bits b -> a = b.
Proof.
  induction a as [|x a IH]; intros [|y b] Ha Hb E; trivial.
  - apply (f_equal (@length Z)) in E. rewrite !length_bytes_bits in E. simpl in E. lia.
  - apply (f_equal (@length Z)) in E. rewrite !length_bytes_bits in E. simpl in E. lia.
  - change (bytes_bits (x :: a)) with (byte_bits x ++ bytes_bits a) in E.
    change (bytes_bits (y :: b)) with (byte_bits y ++ bytes_bits b) in E.
    apply app_eq_app in E as [l [[E1 E2]|[E1 E2]]].
    + assert (l = []).
      { apply (f_equal (@length Z)) in E1. rewrite length_app, !length_byte_bits in E1.
        destruct l; trivial. simpl in E1. lia. }
      subst l. rewrite app_nil_r in E1. cbn [app] in E2.
      simpl in Ha, Hb. apply andb_prop in Ha as [Hx Ha], Hb as [Hy Hb].
      apply is_byte_range in Hx, Hy. f_equal.
      * rewrite <- (bits_byte_bits x), <- (bits_byte_bits y) by assumption. now rewrite E1.
      * apply IH; auto.
    + assert (l = []).
      { apply (f_equal (@length Z)) in E1. rewrite length_app, !length_byte_bits in E1.
        destruct l; trivial. simpl in E1. lia. }
      subst l. rewrite app_nil_r in E1. cbn [app] in E2.
      simpl in Ha, Hb. apply andb_prop in Ha as [Hx Ha], Hb as [Hy Hb].
      apply is_byte_range in Hx, Hy. f_equal.
      * rewrite <- (bits_byte_bits x), <- (bits_byte_bits y) by assumption. now rewrite E1.
      * apply IH; auto.
Qed.

Lemma bytes_ok_takeZ (l : list Z) : forall n, bytes_ok l = true -> bytes_ok (takeZ n l) = true.
Proof.
  induction l as [|x l IH]; intros n H; simpl in *; trivial.
  apply andb_prop in H as [H1 H2].
  destruct (0 <? n); simpl; [now rewrite H1, IH|reflexivity].
Qed.

Lemma bytes_ok_dropZ (l : list Z) : forall n, bytes_ok l = true -> bytes_ok (dropZ n l) = true.
Proof.
  induction l as [|x l IH]; intros n H; trivial. simpl.
  destruct (0 <? n); [|exact H].
  simpl in H. apply andb_prop in H as [H1 H2]. now apply IH.
Qed.

Lemma copy_chunks_S fuel bw fin :
  copy_chunks (S fuel) bw fin =
  if (length (takeZ IO_BUF fin) =? 0)%nat then bw
  else copy_chunks fuel (write_full_bytes bw (takeZ IO_BUF fin)) (dropZ IO_BUF fin).
Proof. reflexivity. Qed.

(** The copy loop appends the bits of the whole input. *)
Lemma copy_chunks_spec (fuel : nat) :
  forall bw fin,
    writer_inv bw -> bytes_ok fin = true -> (length fin < fuel)%nat ->
    writer_inv (copy_chunks fuel bw fin) /\
    writer_bits (copy_chunks fuel bw fin) = writer_bits bw ++ bytes_bits fin.
Proof.
  induction fuel as [|fuel IH]; intros bw fin Hw Hb Hf; [lia|].
  rewrite copy_chunks_S.
  destruct (Nat.eqb_spec (length (takeZ IO_BUF fin)) 0) as [Hz|Hnz].
  - assert (fin = []).
    { apply (takeZ_nil fin IO_BUF); [reflexivity|].
      destruct (takeZ IO_BUF fin); [trivial|discriminate]. }
    subst fin. cbn [bytes_bits flat_map]. rewrite app_nil_r. auto.
  - assert (Hne : fin <> []) by (intros ->; apply Hnz; reflexivity).
    destruct (write_full_bytes_inv bw (takeZ IO_BUF fin) Hw (bytes_ok_takeZ _ _ Hb))
      as [Hw1 Hb1].
    pose proof (length_dropZ_lt fin IO_BUF ltac:(reflexivity) Hne) as Hlt.
    destruct (IH _ (dropZ IO_BUF fin) Hw1 (bytes_ok_dropZ _ _ Hb) ltac:(lia)) as [I1 I2].
    split; [exact I1|].
    rewrite I2, Hb1, <- app_assoc, <- bytes_bits_app, takeZ_dropZ. reflexivity.
Qed.

Section Generator.
Context {R : Type}.
Variable rng_next : R -> Z * R.
Variable rng_seed : Z -> R.

Lemma gen_bytes_S (n : nat) (g : R) :
  gen_bytes rng_next (S n) g =
  let (v, g1) := rng_next g in
  let (l, g2) := gen_bytes rng_next n g1 in
  (Z.land v 0xFF :: l, g2).
Proof. reflexivity. Qed.

Lemma gen_bytes_add (a b : nat) :
  forall g,
    gen_bytes rng_next (a + b) g =
    let (l1, g1) := gen_bytes rng_next a g in
    let (l2, g2) := gen_bytes rng_next b g1 in
    (l1 ++ l2, g2).
Proof.
  induction a as [|a IH]; intros g.
  - cbn [Nat.add gen_bytes]. destruct (gen_bytes rng_next b g). reflexivity.
  - change (S a + b)%nat with (S (a + b)). rewrite !gen_bytes_S.
    destruct (rng_next g) as [v g1]. rewrite IH.
    destruct (gen_bytes rng_next a g1) as [l1 g2].
    destruct (gen_bytes rng_next b g2) as [l2 g3]. reflexivity.
Qed.

Lemma gen_bytes_ok (n : nat) :
  forall g, bytes_ok (fst (gen_bytes rng_next n g)) = true.
Proof.
  induction n as [|n IH]; intros g; [reflexivity|].
  rewrite gen_bytes_S. destruct (rng_next g) as [v g1].
  specialize (IH g1). destruct (gen_bytes rng_next n g1) as [l g2].
  cbn [fst bytes_ok forallb] in *. rewrite IH, andb_true_r.
  apply is_byte_range. change 255 with (Z.ones 8). rewrite Z.land_ones by lia.
  apply Z.mod_pos_bound. lia.
Qed.

Lemma dummy_chunks_S fuel bw remaining g :
  dummy_chunks rng_next (S fuel) bw remaining g =
  if 0 <? remaining then
    let chunk := Z.min remaining DUMMY_BUF in
    let (tmp, g1) := gen_bytes rng_next (Z.to_nat chunk) g in
    dummy_chunks rng_next fuel (write_full_bytes bw tmp) (remaining - chunk) g1
  else (bw, g).
Proof. reflexivity. Qed.

(** The chunked generation loop writes the bytes an unchunked one would. *)
Lemma dummy_chunks_spec (fuel : nat) :
  forall bw remaining g,
    writer_inv bw -> 0 <= remaining -> remaining <= Z.of_nat fuel * DUMMY_BUF ->
    let res := dummy_chunks rng_next fuel bw remaining g in
    let gen := gen_bytes rng_next (Z.to_nat remaining) g in
    writer_inv (fst res) /\
    writer_bits (fst res) = writer_bits bw ++ bytes_bits (fst gen) /\
    snd res = snd gen.
Proof.
  induction fuel as [|fuel IH]; intros bw remaining g Hw H0 Hf; cbv zeta.
  - assert (remaining = 0) by lia. subst remaining. cbn.
    rewrite app_nil_r. auto.
  - rewrite dummy_chunks_S.
    destruct (Z.ltb_spec 0 remaining) as [Hpos|Hz].
    + cbv zeta. set (chunk := Z.min remaining DUMMY_BUF).
      assert (Hc : 0 < chunk <= remaining) by (unfold chunk, DUMMY_BUF; lia).
      replace (Z.to_nat remaining)
        with (Z.to_nat chunk + Z.to_nat (remaining - chunk))%nat by lia.
      rewrite gen_bytes_add.
      pose proof (gen_bytes_ok (Z.to_nat chunk) g) as Hok.
      destruct (gen_bytes rng_next (Z.to_nat chunk) g) as [tmp g1]. cbn [fst] in Hok.
      destruct (write_full_bytes_inv bw tmp Hw Hok) as [Hw1 Hb1].
      specialize (IH (write_full_bytes bw tmp) (remaining - chunk) g1 Hw1 ltac:(lia)).
      assert (Hf' : remaining - chunk <= Z.of_nat fuel * DUMMY_BUF).
      { unfold chunk, DUMMY_BUF in *. lia. }
      specialize (IH Hf'). cbv zeta in IH. destruct IH as (I1 & I2 & I3).
      destruct (gen_bytes rng_next (Z.to_nat (remaining - chunk)) g1) as [l2 g2].
      cbv beta iota. cbn [fst snd] in *.
      split; [exact I1|]. split; [|exact I3].
      rewrite I2, Hb1, <- app_assoc, bytes_bits_app. reflexivity.
    + assert (remaining = 0) by lia. subst remaining. cbn.
      rewrite app_nil_r. auto.
Qed.

Lemma tail_bits_eq (last t : Z) :
  0 < t < 8 ->
  map (fun b => Z.land (Z.shiftr last b) 1) (tail_idx t)
  = firstn (Z.to_nat t) (byte_bits last).
Proof.
  intros Ht.
  assert (Hc : t = 1 \/ t = 2 \/ t = 3 \/ t = 4 \/ t = 5 \/ t = 6 \/ t = 7) by lia.
  destruct Hc as [H|[H|[H|[H|[H|[H|H]]]]]]; rewrite H; reflexivity.
Qed.

Lemma write_dummy_bits_spec (bw : BitWriter) (nbits : Z) (g : R) :
  writer_inv bw -> 0 <= nbits ->
  let res := write_dummy_bits_ rng_next bw nbits g in
  writer_inv (fst res) /\
  writer_bits (fst res) = writer_bits bw ++ dummy_bits rng_next nbits g /\
  snd res = dummy_state rng_next nbits g.
Proof.
  intros Hw Hn. cbv zeta. unfold write_dummy_bits_, dummy_bits, dummy_state.
  destruct (Z.eqb_spec nbits 0) as [Hz|Hnz].
  - cbn [fst snd]. rewrite app_nil_r. auto.
  - assert (Hfull : 0 <= nbits / 8) by (apply Z.div_pos; lia).
    assert (Hfuel : nbits / 8 <= Z.of_nat (S (Z.to_nat (nbits / 8 / DUMMY_BUF))) * DUMMY_BUF).
    { assert (0 <= nbits / 8 / DUMMY_BUF) by (apply Z.div_pos; unfold DUMMY_BUF; lia).
      rewrite Nat2Z.inj_succ, Z2Nat.id by assumption.
      pose proof (Z.mod_pos_bound (nbits / 8) DUMMY_BUF ltac:(reflexivity)).
      pose proof (Z.div_mod (nbits / 8) DUMMY_BUF ltac:(discriminate)).
      unfold DUMMY_BUF in *. lia. }
    pose proof (dummy_chunks_spec _ bw (nbits / 8) g Hw Hfull Hfuel) as Hd.
    cbv zeta in Hd.
    destruct (dummy_chunks rng_next _ bw (nbits / 8) g) as [bw1 g1].
    destruct (gen_bytes rng_next (Z.to_nat (nbits / 8)) g) as [bytes g1'].
    cbn [fst snd] in Hd. destruct Hd as (Hw1 & Hb1 & ->).
    pose proof (Z.mod_pos_bound nbits 8 ltac:(lia)) as Hm.
    destruct (Z.eqb_spec (nbits mod 8) 0) as [Ht|Ht]; cbn [negb].
    + cbn [fst snd]. rewrite app_nil_r. auto.
    + destruct (rng_next g1') as [v g2]. cbn [fst snd].
      set (last := Z.land v 255).
      pose proof (write_bits_inv
                    (map (fun b => Z.land (Z.shiftr last b) 1) (tail_idx (nbits mod 8)))
                    bw1 Hw1) as [Hw2 Hb2].
      unfold write_bits in Hw2, Hb2. rewrite fold_left_map_comp in Hw2, Hb2.
      split; [exact Hw2|]. split; [|reflexivity].
      rewrite Hb2, Hb1, <- app_assoc. f_equal. f_equal.
      rewrite tail_bits_eq by lia.
      apply map_land_bits.
      pose proof (byte_bits_is_bit last) as Hbb.
      rewrite <- (firstn_skipn (Z.to_nat (nbits mod 8)) (byte_bits last)) in Hbb.
      apply Forall_app in Hbb. apply Hbb.
Qed.

Lemma length_gen_bytes (n : nat) : forall g, length (fst (gen_bytes rng_next n g)) = n.
Proof.
  induction n as [|n IH]; intros g; [reflexivity|].
  rewrite gen_bytes_S. destruct (rng_next g) as [v g1].
  specialize (IH g1). destruct (gen_bytes rng_next n g1). cbn [fst length] in *. lia.
Qed.

Lemma length_dummy_bits (nbits : Z) (g : R) :
  0 <= nbits -> length (dummy_bits rng_next nbits g) = Z.to_nat nbits.
Proof.
  intros Hn. unfold dummy_bits.
  destruct (Z.eqb_spec nbits 0) as [->|Hnz]; [reflexivity|].
  pose proof (length_gen_bytes (Z.to_nat (nbits / 8)) g) as Hl.
  destruct (gen_bytes rng_next (Z.to_nat (nbits / 8)) g) as [bytes g1]. cbn [fst] in Hl.
  rewrite length_app, length_bytes_bits, Hl.
  pose proof (Z.mod_pos_bound nbits 8 ltac:(lia)) as Hm.
  pose proof (Z.div_mod nbits 8 ltac:(lia)) as Hdm.
  assert (0 <= nbits / 8) by (apply Z.div_pos; lia).
  destruct (Z.eqb_spec (nbits mod 8) 0) as [Ht|Ht].
  - cbn [length]. lia.
  - rewrite length_firstn, length_byte_bits. lia.
Qed.

(** The bit stream of the wrapped file. *)
Definition wrapped_bits (input : list Z) (ss es : option string)
    (dl dr seed : Z) (entropy : R) : list Z :=
  let g0 := if seed =? 0 then entropy else rng_seed seed in
  let body := dummy_bits rng_next dl g0 ++ pattern_bits ss ++ bytes_bits input
              ++ pattern_bits es
              ++ dummy_bits rng_next dr (dummy_state rng_next dl g0) in
  body ++ repeat 0 (Z.to_nat ((8 - Z.of_nat (length body) mod 8) mod 8)).

Lemma wrap_run (input : list Z) (ss es : option string) (dl dr seed : Z) (entropy : R) :
  parse_bitstring_ ss = Some (pattern_bits ss) ->
  parse_bitstring_ es = Some (pattern_bits es) ->
  bytes_ok input = true -> 0 <= dl -> 0 <= dr ->
  exists out,
    wrap_file_bits rng_next rng_seed (Some input) true ss es dl dr seed entropy
      = {| w_ret := 0; w_out := Some out |} /\
    bytes_ok out = true /\
    bytes_bits out = wrapped_bits input ss es dl dr seed entropy.
Proof.
  intros Hps Hpe Hin Hdl Hdr.
  unfold wrap_file_bits, wrapped_bits. cbn [negb]. rewrite Hps, Hpe.
  set (g0 := if seed =? 0 then entropy else rng_seed seed).
  assert (Hw0 : writer_inv BitWriter_new) by (split; reflexivity).
  pose proof (write_dummy_bits_spec BitWriter_new dl g0 Hw0 Hdl) as Hd1. cbv zeta in Hd1.
  destruct (write_dummy_bits_ rng_next BitWriter_new dl g0) as [bw1 g1].
  cbn [fst snd] in Hd1. destruct Hd1 as (Hw1 & Hb1 & ->).
  change (writer_bits BitWriter_new) with (@nil Z) in Hb1. cbn [app] in Hb1.
  set (bw2 := if (length (pattern_bits ss) =? 0)%nat then bw1
              else write_bits bw1 (pattern_bits ss)).
  assert (H2 : writer_inv bw2 /\ writer_bits bw2 = writer_bits bw1 ++ pattern_bits ss).
  { unfold bw2. destruct (Nat.eqb_spec (length (pattern_bits ss)) 0) as [Hz|Hnz].
    - destruct (pattern_bits ss); [|discriminate]. rewrite app_nil_r. auto.
    - destruct (write_bits_inv (pattern_bits ss) bw1 Hw1) as [A B].
      split; trivial. rewrite B. f_equal. apply map_land_bits, pattern_bits_is_bit. }
  destruct H2 as [Hw2 Hb2].
  destruct (copy_chunks_spec (S (length input)) bw2 input Hw2 Hin ltac:(lia)) as [Hw3 Hb3].
  set (bw3 := copy_chunks (S (length input)) bw2 input) in *.
  set (bw4 := if (length (pattern_bits es) =? 0)%nat then bw3
              else write_bits bw3 (pattern_bits es)).
  assert (H4 : writer_inv bw4 /\ writer_bits bw4 = writer_bits bw3 ++ pattern_bits es).
  { unfold bw4. destruct (Nat.eqb_spec (length (pattern_bits es)) 0) as [Hz|Hnz].
    - destruct (pattern_bits es); [|discriminate]. rewrite app_nil_r. auto.
    - destruct (write_bits_inv (pattern_bits es) bw3 Hw3) as [A B].
      split; trivial. rewrite B. f_equal. apply map_land_bits, pattern_bits_is_bit. }
  destruct H4 as [Hw4 Hb4].
  pose proof (write_dummy_bits_spec bw4 dr (dummy_state rng_next dl g0) Hw4 Hdr) as Hd5.
  cbv zeta in Hd5.
  destruct (write_dummy_bits_ rng_next bw4 dr (dummy_state rng_next dl g0)) as [bw5 g5].
  cbn [fst snd] in Hd5. destruct Hd5 as ([Hok5 Hby5] & Hb5 & _).
  destruct (pad_to_byte_spec bw5 Hok5) as (P1 & P2 & P3 & P4).
  exists (out_ (pad_to_byte bw5)). split; [reflexivity|]. split; [auto|].
  rewrite <- writer_bits_aligned by assumption.
  assert (Hbody : writer_bits bw5
                  = dummy_bits rng_next dl g0 ++ pattern_bits ss ++ bytes_bits input
                    ++ pattern_bits es
                    ++ dummy_bits rng_next dr (dummy_state rng_next dl g0)).
  { rewrite Hb5, Hb4, Hb3, Hb2, Hb1. now rewrite <- !app_assoc. }
  rewrite P3, (bit_off_of_bits bw5 Hok5), Hbody. reflexivity.
Qed.

End Generator.

End WrapFacts.

(** ** The RS container: layout of the records *)

Module RSLayout.
Import RS.

Lemma length_le_bytes (n : nat) : forall x, length (le_bytes n x) = n.
Proof. induction n as [|n IH]; intros x; simpl; [trivial|now rewrite IH]. Qed.

Lemma le_value_le_bytes (n : nat) :
  forall x, le_value (le_bytes n x) = x mod 256 ^ Z.of_nat n.
Proof.
  induction n as [|n IH]; intros x.
  - simpl. now rewrite Z.mod_1_r.
  - cbn [le_bytes le_value]. rewrite IH, Nat2Z.inj_succ, Z.pow_succ_r by lia.
    rewrite Z.rem_mul_r; [reflexivity|lia|]. apply Z.pow_pos_nonneg; lia.
Qed.

Lemma le_value_le_bytes_small (n : nat) (x : Z) :
  0 <= x < 256 ^ Z.of_nat n -> le_value (le_bytes n x) = x.
Proof. intros H. rewrite le_value_le_bytes. now apply Z.mod_small. Qed.

Lemma length_sub (l : list Z) (off len : Z) :
  0 <= off -> 0 <= len -> off + len <= Z.of_nat (length l) ->
  length (sub l off len) = Z.to_nat len.
Proof.
  intros Ho Hl H. unfold sub. rewrite length_firstn, length_skipn. lia.
Qed.

Lemma sub_nil (l : list Z) (off : Z) : sub l off 0 = [].
Proof. reflexivity. Qed.

Lemma sub_app_r (a b : list Z) (off len : Z) :
  Z.of_nat (length a) <= off ->
  sub (a ++ b) off len = sub b (off - Z.of_nat (length a)) len.
Proof.
  intros H. unfold sub. rewrite skipn_app.
  rewrite (skipn_all2 a) by lia. simpl.
  replace (Z.to_nat off - length a)%nat with (Z.to_nat (off - Z.of_nat (length a))) by lia.
  reflexivity.
Qed.

Lemma sub_app_l (a b : list Z) (off len : Z) :
  0 <= off -> 0 <= len -> off + len <= Z.of_nat (length a) ->
  sub (a ++ b) off len = sub a off len.
Proof.
  intros Ho Hl H. unfold sub. rewrite skipn_app, firstn_app, length_skipn.
  replace (Z.to_nat len - (length a - Z.to_nat off))%nat with 0%nat by lia.
  replace (Z.to_nat off - length a)%nat with 0%nat by lia.
  simpl. now rewrite app_nil_r.
Qed.

Lemma sub_whole (l : list Z) (len : Z) :
  len = Z.of_nat (length l) -> sub l 0 len = l.
Proof. intros ->. unfold sub. simpl. rewrite Nat2Z.id. apply firstn_all. Qed.

Lemma sub_app_whole (a b : list Z) (len : Z) :
  len = Z.of_nat (length a) -> sub (a ++ b) 0 len = a.
Proof.
  intros ->. rewrite sub_app_l by lia. now apply sub_whole.
Qed.

(** The headers read back what was written. *)
Definition gh_in_range (h : rsct_header_v4_t) : Prop :=
  0 <= gh_magic h < 2 ^ 32 /\ 0 <= gh_version h < 2 ^ 16 /\ 0 <= gh_k h < 2 ^ 16 /\
  0 <= gh_r h < 2 ^ 16 /\ 0 <= gh_shard_len h < 2 ^ 16 /\ 0 <= gh_pad h < 2 ^ 16 /\
  0 <= gh_original_size h < 2 ^ 64 /\ 0 <= gh_frame_count h < 2 ^ 64 /\
  0 <= gh_il_depth h < 2 ^ 16 /\ 0 <= gh_slice_bytes h < 2 ^ 16 /\
  0 <= gh_reserved h < 2 ^ 16.

Lemma length_gh_bytes (h : rsct_header_v4_t) : Z.of_nat (length (gh_bytes h)) = gh_size.
Proof. reflexivity. Qed.

Lemma le2 (x : Z) : 0 <= x < 2 ^ 16 -> x mod 256 + 256 * ((x / 256) mod 256 + 256 * 0) = x.
Proof. intros H. apply (le_value_le_bytes_small 2 x). exact H. Qed.

Lemma le4 (x : Z) :
  0 <= x < 2 ^ 32 ->
  x mod 256 + 256 * ((x / 256) mod 256 + 256 * ((x / 256 / 256) mod 256
    + 256 * ((x / 256 / 256 / 256) mod 256 + 256 * 0))) = x.
Proof. intros H. apply (le_value_le_bytes_small 4 x). exact H. Qed.

Lemma le8 (x : Z) :
  0 <= x < 2 ^ 64 ->
  x mod 256 + 256 * ((x / 256) mod 256 + 256 * ((x / 256 / 256) mod 256
    + 256 * ((x / 256 / 256 / 256) mod 256
    + 256 * ((x / 256 / 256 / 256 / 256) mod 256
    + 256 * ((x / 256 / 256 / 256 / 256 / 256) mod 256
    + 256 * ((x / 256 / 256 / 256 / 256 / 256 / 256) mod 256
    + 256 * ((x / 256 / 256 / 256 / 256 / 256 / 256 / 256) mod 256 + 256 * 0))))))) = x.
Proof. intros H. apply (le_value_le_bytes_small 8 x). exact H. Qed.

Lemma gh_parse_bytes (h : rsct_header_v4_t) (rest : list Z) :
  gh_in_range h -> gh_parse (sub (gh_bytes h ++ rest) 0 gh_size) = h.
Proof.
  intros (H1 & H2 & H3 & H4 & H5 & H6 & H7 & H8 & H9 & H10 & H11).
  rewrite sub_app_whole by reflexivity.
  destruct h; cbn [gh_magic gh_version gh_k gh_r gh_shard_len gh_pad gh_original_size
    gh_frame_count gh_il_depth gh_slice_bytes gh_reserved] in *.
  unfold gh_parse, gh_bytes, sub. simpl.
  rewrite !le8 by assumption. rewrite !le4 by assumption.
  rewrite !le2 by assumption. reflexivity.
Qed.


Definition fh_in_range (h : frame_hdr_v4_t) : Prop :=
  fh_magic h = FRAME_MAGIC_V4 /\ 0 <= fh_index h < 2 ^ 64 /\
  0 <= fh_data_len h < 2 ^ 16 /\ 0 <= fh_parity_len h < 2 ^ 16 /\
  0 <= fh_crc32_data h < 2 ^ 32 /\ 0 <= fh_crc32_par h < 2 ^ 32.

Definition sh_in_range (h : slice_hdr_v4_t) : Prop :=
  sh_magic h = SLICE_MAGIC_V4 /\ 0 <= sh_frame_index h < 2 ^ 64 /\
  0 <= sh_offset h < 2 ^ 32 /\ 0 <= sh_size h < 2 ^ 16 /\
  0 <= sh_crc32_slice h < 2 ^ 32.

Lemma find_frame_magic (t : list Z) :
  find_next_magic (le_bytes 4 FRAME_MAGIC_V4 ++ t) = Some (FRAME_MAGIC_V4, t).
Proof. destruct t; reflexivity. Qed.

Lemma find_slice_magic (t : list Z) :
  find_next_magic (le_bytes 4 SLICE_MAGIC_V4 ++ t) = Some (SLICE_MAGIC_V4, t).
Proof. destruct t; reflexivity. Qed.

Lemma find_next_magic_nil : find_next_magic [] = None.
Proof. reflexivity. Qed.

(** The part of a header after its magic. *)
Definition fh_rest (h : frame_hdr_v4_t) : list Z :=
  le_bytes 8 (fh_index h) ++ le_bytes 2 (fh_data_len h)
  ++ le_bytes 2 (fh_parity_len h) ++ le_bytes 4 (fh_crc32_data h)
  ++ le_bytes 4 (fh_crc32_par h).

Definition sh_rest (h : slice_hdr_v4_t) : list Z :=
  le_bytes 8 (sh_frame_index h) ++ le_bytes 4 (sh_offset h)
  ++ le_bytes 2 (sh_size h) ++ le_bytes 4 (sh_crc32_slice h).

Lemma fh_bytes_split (h : frame_hdr_v4_t) :
  fh_bytes h = le_bytes 4 (fh_magic h) ++ fh_rest h.
Proof. reflexivity. Qed.

Lemma sh_bytes_split (h : slice_hdr_v4_t) :
  sh_bytes h = le_bytes 4 (sh_magic h) ++ sh_rest h.
Proof. reflexivity. Qed.

Lemma length_fh_bytes (h : frame_hdr_v4_t) : length (fh_bytes h) = 24%nat.
Proof. reflexivity. Qed.

Lemma length_sh_bytes (h : slice_hdr_v4_t) : length (sh_bytes h) = 22%nat.
Proof. reflexivity. Qed.

Lemma fh_parse_rest_bytes (h : frame_hdr_v4_t) (t : list Z) :
  fh_in_range h -> fh_parse_rest (firstn 20 (fh_rest h ++ t)) = h.
Proof.
  intros (H1 & H2 & H3 & H4 & H5 & H6).
  destruct h; cbn [fh_magic fh_index fh_data_len fh_parity_len fh_crc32_data
    fh_crc32_par] in *.
  unfold fh_parse_rest, fh_rest, sub. simpl.
  rewrite !le8 by assumption. rewrite !le4 by assumption.
  rewrite !le2 by assumption. now subst.
Qed.

Lemma sh_parse_rest_bytes (h : slice_hdr_v4_t) (t : list Z) :
  sh_in_range h -> sh_parse_rest (firstn 18 (sh_rest h ++ t)) = h.
Proof.
  intros (H1 & H2 & H3 & H4 & H5).
  destruct h; cbn [sh_magic sh_frame_index sh_offset sh_size sh_crc32_slice] in *.
  unfold sh_parse_rest, sh_rest, sub. simpl.
  rewrite !le8 by assumption. rewrite !le4 by assumption.
  rewrite !le2 by assumption. now subst.
Qed.

Lemma skipn_fh_rest (h : frame_hdr_v4_t) (t : list Z) : skipn 20 (fh_rest h ++ t) = t.
Proof. reflexivity. Qed.

Lemma skipn_sh_rest (h : slice_hdr_v4_t) (t : list Z) : skipn 18 (sh_rest h ++ t) = t.
Proof. reflexivity. Qed.

(** One round of the first loop on a record that is whole. *)
Lemma parse_loop_frame_hdr (fuel : nat) (r F orig : Z) (h : frame_hdr_v4_t)
    (t : list Z) (st : parse_state) :
  fh_in_range h ->
  parse_loop (S fuel) r F orig (fh_bytes h ++ t) st
  = parse_loop fuel r F orig t (on_frame_hdr r F h st).
Proof.
  intros Hh. pose proof Hh as (Hm & _).
  rewrite fh_bytes_split, Hm, <- app_assoc.
  cbn [parse_loop]. rewrite find_frame_magic.
  change (FRAME_MAGIC_V4 =? FRAME_MAGIC_V4) with true. cbv iota.
  replace (length (fh_rest h ++ t) <? 20)%nat with false
    by (symmetry; apply Nat.ltb_ge; rewrite length_app; unfold fh_rest;
        rewrite !length_app, !length_le_bytes; lia).
  now rewrite fh_parse_rest_bytes, skipn_fh_rest.
Qed.

Lemma parse_loop_slice (fuel : nat) (r F orig : Z) (h : slice_hdr_v4_t)
    (buf t : list Z) (st : parse_state) :
  sh_in_range h -> sh_size h = Z.of_nat (length buf) -> buf <> [] ->
  parse_loop (S fuel) r F orig (sh_bytes h ++ buf ++ t) st
  = match on_slice r F orig h buf st with
    | None => None
    | Some st1 => parse_loop fuel r F orig t st1
    end.
Proof.
  intros Hh Hsz Hne. pose proof Hh as (Hm & _).
  rewrite sh_bytes_split, Hm, <- app_assoc.
  cbn [parse_loop]. rewrite find_slice_magic.
  change (SLICE_MAGIC_V4 =? FRAME_MAGIC_V4) with false. cbv iota.
  replace (length (sh_rest h ++ buf ++ t) <? 18)%nat with false
    by (symmetry; apply Nat.ltb_ge; rewrite length_app; unfold sh_rest;
        rewrite !length_app, !length_le_bytes; lia).
  rewrite sh_parse_rest_bytes, skipn_sh_rest by assumption.
  cbv zeta. rewrite Hsz.
  destruct (Z.eqb_spec (Z.of_nat (length buf)) 0) as [E|_].
  { destruct buf; [congruence|simpl in E; lia]. }
  replace (Z.of_nat (length (buf ++ t)) <? Z.of_nat (length buf)) with false
    by (symmetry; apply Z.ltb_ge; rewrite length_app; lia).
  rewrite Nat2Z.id, firstn_app, Nat.sub_diag, firstn_all, firstn_O, app_nil_r.
  rewrite skipn_app, Nat.sub_diag, skipn_all. reflexivity.
Qed.

Lemma parse_loop_nil (fuel : nat) (r F orig : Z) (st : parse_state) :
  parse_loop (S fuel) r F orig [] st = Some st.
Proof. reflexivity. Qed.

(** [parses body st st']: the first loop, on a stream that starts with
    [body], comes to the end of [body] in the state [st'], with fuel left
    for what follows. *)
Definition parses (r F orig : Z) (body : list Z) (st st' : parse_state) : Prop :=
  forall (rest : list Z) (fuel : nat),
    (length body + length rest < fuel)%nat ->
    exists fuel', (length rest < fuel')%nat /\
      parse_loop fuel r F orig (body ++ rest) st = parse_loop fuel' r F orig rest st'.

Section Parses.

Variables r F orig : Z.

Lemma parses_nil (st : parse_state) : parses r F orig [] st st.
Proof. intros rest fuel H. exists fuel. split; [simpl in H; lia|reflexivity]. Qed.

Lemma parses_app (b1 b2 : list Z) (st st1 st2 : parse_state) :
  parses r F orig b1 st st1 -> parses r F orig b2 st1 st2 ->
  parses r F orig (b1 ++ b2) st st2.
Proof.
  intros H1 H2 rest fuel Hf. rewrite <- app_assoc.
  destruct (H1 (b2 ++ rest) fuel) as (f1 & Hf1 & E1).
  { rewrite !length_app in *. lia. }
  destruct (H2 rest f1) as (f2 & Hf2 & E2).
  { rewrite length_app in Hf1. lia. }
  exists f2. split; [exact Hf2|]. now rewrite E1.
Qed.

Lemma parses_frame_hdr (h : frame_hdr_v4_t) (st : parse_state) :
  fh_in_range h -> parses r F orig (fh_bytes h) st (on_frame_hdr r F h st).
Proof.
  intros Hh rest fuel Hf. rewrite length_fh_bytes in Hf.
  destruct fuel as [|fuel]; [lia|]. exists fuel. split; [lia|].
  now apply parse_loop_frame_hdr.
Qed.

Lemma parses_slice (h : slice_hdr_v4_t) (buf : list Z) (st st1 : parse_state) :
  sh_in_range h -> sh_size h = Z.of_nat (length buf) -> buf <> [] ->
  on_slice r F orig h buf st = Some st1 ->
  parses r F orig (sh_bytes h ++ buf) st st1.
Proof.
  intros Hh Hsz Hne Hon rest fuel Hf. rewrite length_app, length_sh_bytes in Hf.
  destruct fuel as [|fuel]; [lia|]. exists fuel. split; [lia|].
  rewrite <- app_assoc, parse_loop_slice, Hon by assumption. reflexivity.
Qed.

Lemma parses_run (body : list Z) (st st' : parse_state) :
  parses r F orig body st st' ->
  parse_loop (S (length body)) r F orig body st = Some st'.
Proof.
  intros H. destruct (H [] (S (length body))) as (f & Hf & E); [simpl; lia|].
  rewrite app_nil_r in E. rewrite E. destruct f; [simpl in Hf; lia|].
  apply parse_loop_nil.
Qed.

(** The fuel of the first loop suffices: above the length of the stream,
    more fuel changes nothing. *)
Lemma slide_magic_length (rest : list Z) :
  forall win m f1, slide_magic win rest = Some (m, f1) -> (length f1 <= length rest)%nat.
Proof.
  induction rest as [|c rest IH]; intros win m f1; simpl.
  - destruct (is_magic win); [intros [= _ <-]; simpl; lia|discriminate].
  - destruct (is_magic win); [intros [= _ <-]; simpl; lia|].
    intros H. apply IH in H. lia.
Qed.

Lemma find_next_magic_length (f : list Z) (m : Z) (f1 : list Z) :
  find_next_magic f = Some (m, f1) -> (length f1 + 4 <= length f)%nat.
Proof.
  unfold find_next_magic. destruct (Nat.ltb_spec (length f) 4); [discriminate|].
  intros H0. apply slide_magic_length in H0. rewrite length_skipn in H0. lia.
Qed.

Lemma parse_loop_fuel (n : nat) :
  forall (f : list Z) (st : parse_state) (fuel : nat),
  (length f <= n)%nat -> (length f < fuel)%nat ->
  parse_loop fuel r F orig f st = parse_loop (S (length f)) r F orig f st.
Proof.
  induction n as [|n IH]; intros f st fuel Hn Hf.
  - destruct f; [|simpl in Hn; lia]. destruct fuel; [lia|]. reflexivity.
  - destruct fuel as [|fuel]; [lia|]. cbn [parse_loop].
    destruct (find_next_magic f) as [[m f1]|] eqn:E; [|reflexivity].
    apply find_next_magic_length in E.
    assert (R : forall g s, (length g <= length f1)%nat ->
                parse_loop fuel r F orig g s = parse_loop (length f) r F orig g s).
    { intros g s Hg. rewrite (IH g s fuel), (IH g s (length f)) by lia. reflexivity. }
    destruct (m =? FRAME_MAGIC_V4).
    + destruct (length f1 <? 20)%nat; [reflexivity|].
      apply R. rewrite length_skipn. lia.
    + destruct (length f1 <? 18)%nat; [reflexivity|]. cbv zeta.
      destruct (_ =? 0); [apply R; rewrite length_skipn; lia|].
      destruct (_ <? _); [reflexivity|].
      destruct (on_slice _ _ _ _ _ _); [|reflexivity].
      apply R. rewrite !length_skipn. lia.
Qed.

(** A sequence of pieces, each taking the invariant one step on. *)
Lemma parses_flat_map {A} (f : A -> list Z) (Inv : nat -> parse_state -> Prop) :
  forall (l : list A) (base : nat),
  (forall k x st, nth_error l k = Some x -> Inv (base + k)%nat st ->
     exists st', parses r F orig (f x) st st' /\ Inv (S (base + k)) st') ->
  forall st, Inv base st ->
  exists st', parses r F orig (flat_map f l) st st' /\ Inv (base + length l)%nat st'.
Proof.
  induction l as [|x l IH]; intros base Hstep st H0.
  - exists st. split; [apply parses_nil|]. now rewrite Nat.add_0_r.
  - destruct (Hstep 0%nat x st eq_refl) as (st1 & P1 & I1); [now rewrite Nat.add_0_r|].
    rewrite Nat.add_0_r in I1.
    destruct (IH (S base)) with (st := st1) as (st2 & P2 & I2); trivial.
    { intros k y s Hk Hs.
      replace (S (S base + k)) with (S (base + S k)) by lia.
      apply (Hstep (S k) y s Hk).
      now replace (base + S k)%nat with (S base + k)%nat by lia. }
    exists st2. split.
    + simpl. eapply parses_app; eassumption.
    + simpl length. now replace (base + S (length l))%nat with (S base + length l)%nat by lia.
Qed.

End Parses.

End RSLayout.

(** ** The RS container: slices of a frame payload

    The four blocks that cut a slice out of the buffers of a frame, and
    the four that copy it back, in closed form: region [B, B + n) of the
    payload holds one buffer of [n] bytes. *)

Module RSSlices.
Import RS RSLayout.

(** Where the part of the slice [off, off + len) in the region starts,
    how long it is, and how much of the slice lies before [E]. *)
Definition seg_off (B off : Z) : Z := Z.max off B - B.
Definition seg_len (B n off len : Z) : Z :=
  Z.max 0 (Z.min (off + len) (B + n) - Z.max off B).
Definition upto (E off len : Z) : Z := Z.max 0 (Z.min (off + len) E - off).

(** [piece] written over [c] at [soff]. *)
Definition put (c : list Z) (soff : Z) (piece : list Z) : list Z :=
  firstn (Z.to_nat soff) c ++ piece ++ skipn (Z.to_nat soff + length piece) c.

Lemma put_nil (c : list Z) (soff : Z) : put c soff [] = c.
Proof.
  unfold put. simpl. rewrite Nat.add_0_r. apply firstn_skipn.
Qed.

Lemma length_put (c : list Z) (soff : Z) (piece : list Z) :
  0 <= soff -> soff + Z.of_nat (length piece) <= Z.of_nat (length c) ->
  length (put c soff piece) = length c.
Proof.
  intros H0 H. unfold put. rewrite !length_app, length_firstn, length_skipn. lia.
Qed.

Lemma mem_write_put (c : list Z) (soff : Z) (piece : list Z) :
  0 <= soff -> soff + Z.of_nat (length piece) <= Z.of_nat (length c) ->
  mem_write c soff piece = Some (put c soff piece).
Proof.
  intros H0 H. unfold mem_write.
  destruct (Z.leb_spec 0 soff); [|lia].
  destruct (Z.leb_spec (soff + Z.of_nat (length piece)) (Z.of_nat (length c))); [|lia].
  reflexivity.
Qed.

Lemma length_sub_Z (l : list Z) (off len : Z) :
  0 <= off -> 0 <= len -> len = 0 \/ off + len <= Z.of_nat (length l) ->
  Z.of_nat (length (sub l off len)) = len.
Proof.
  intros Ho Hl H. unfold sub. rewrite length_firstn, length_skipn. lia.
Qed.

Lemma sub_zero (l : list Z) (off len : Z) : len = 0 -> sub l off len = [].
Proof. intros ->. reflexivity. Qed.

Definition B1 : Z := FRAME_BYTES.
Definition B2 (r : Z) : Z := FRAME_BYTES + r * SHARD_LEN.
Definition B3 (r : Z) : Z := FRAME_BYTES + r * SHARD_LEN + K_SHARDS * 2.
Definition PAY (r : Z) : Z := payload_len_bytes r.

Lemma PAY_eq (r : Z) : PAY r = B3 r + r * 2.
Proof. reflexivity. Qed.

Ltac consts :=
  unfold PAY, payload_len_bytes, B3, B2, B1, FRAME_BYTES, K_SHARDS, SHARD_LEN, MAX_R,
    u64 in *.

Ltac segs := unfold seg_off, seg_len, upto in *.

Ltac zcmp :=
  repeat match goal with
  | |- context [?a <? ?b] => destruct (Z.ltb_spec a b)
  | |- context [?a <=? ?b] => destruct (Z.leb_spec a b)
  end.

Section Gather.

Variables (r off chunk : Z).
Hypothesis r_pos : 0 <= r <= MAX_R.
Hypothesis off_pos : 0 <= off.
Hypothesis chunk_pos : 0 < chunk.
Hypothesis in_pay : off + chunk <= PAY r.

Lemma gather_data_eq (data : list Z) :
  Z.of_nat (length data) = B1 ->
  gather_data data off chunk []
  = sub data (seg_off 0 off) (seg_len 0 B1 off chunk)
  /\ Z.of_nat (length (gather_data data off chunk [])) = upto B1 off chunk.
Proof using All.
  intros Hd. unfold gather_data.
  assert (E : gather_data data off chunk []
              = sub data (seg_off 0 off) (seg_len 0 B1 off chunk)).
  { unfold gather_data. consts. segs. zcmp; cbn [app];
      try (rewrite sub_zero by lia; reflexivity); f_equal; lia. }
  unfold gather_data in E. rewrite E. split; [reflexivity|].
  rewrite length_sub_Z; consts; segs; lia.
Qed.

Lemma gather_par_eq (par ptmp : list Z) :
  Z.of_nat (length par) = r * SHARD_LEN ->
  Z.of_nat (length ptmp) = upto B1 off chunk ->
  gather_par par r off chunk ptmp
  = ptmp ++ sub par (seg_off B1 off) (seg_len B1 (r * SHARD_LEN) off chunk)
  /\ Z.of_nat (length (gather_par par r off chunk ptmp)) = upto (B2 r) off chunk.
Proof using All.
  intros Hd Hp.
  assert (E : gather_par par r off chunk ptmp
              = ptmp ++ sub par (seg_off B1 off) (seg_len B1 (r * SHARD_LEN) off chunk)).
  { unfold gather_par. rewrite Hp. consts. segs. zcmp; cbn [andb];
      try (rewrite sub_zero by lia; now rewrite app_nil_r);
      zcmp; try (rewrite sub_zero by lia; now rewrite app_nil_r);
      f_equal; f_equal; lia. }
  rewrite E. split; [reflexivity|].
  rewrite length_app, Nat2Z.inj_add, Hp, length_sub_Z; consts; segs; lia.
Qed.

Lemma gather_crcD_eq (crcD ptmp : list Z) :
  Z.of_nat (length crcD) = K_SHARDS * 2 ->
  Z.of_nat (length ptmp) = upto (B2 r) off chunk ->
  gather_crcD crcD r off chunk ptmp
  = ptmp ++ sub crcD (seg_off (B2 r) off) (seg_len (B2 r) (K_SHARDS * 2) off chunk)
  /\ Z.of_nat (length (gather_crcD crcD r off chunk ptmp)) = upto (B3 r) off chunk.
Proof using All.
  intros Hd Hp.
  assert (E : gather_crcD crcD r off chunk ptmp
              = ptmp ++ sub crcD (seg_off (B2 r) off)
                                 (seg_len (B2 r) (K_SHARDS * 2) off chunk)).
  { unfold gather_crcD. rewrite Hp. consts. segs. zcmp; cbn [andb];
      try (rewrite sub_zero by lia; now rewrite app_nil_r);
      zcmp; try (rewrite sub_zero by lia; now rewrite app_nil_r);
      f_equal; f_equal; lia. }
  rewrite E. split; [reflexivity|].
  rewrite length_app, Nat2Z.inj_add, Hp, length_sub_Z; consts; segs; lia.
Qed.

Lemma gather_crcP_eq (crcP ptmp : list Z) :
  Z.of_nat (length crcP) = r * 2 ->
  Z.of_nat (length ptmp) = upto (B3 r) off chunk ->
  gather_crcP crcP r off chunk ptmp
  = ptmp ++ sub crcP (seg_off (B3 r) off) (seg_len (B3 r) (r * 2) off chunk)
  /\ Z.of_nat (length (gather_crcP crcP r off chunk ptmp)) = chunk.
Proof using All.
  intros Hd Hp.
  assert (E : gather_crcP crcP r off chunk ptmp
              = ptmp ++ sub crcP (seg_off (B3 r) off)
                                 (seg_len (B3 r) (r * 2) off chunk)).
  { unfold gather_crcP. rewrite Hp. consts. segs.
    destruct (Z.ltb_spec (Z.max 0 (Z.min (off + chunk) (192 * 64 + r * 64 + 192 * 2) - off))
                         chunk);
      [|rewrite sub_zero by lia; now rewrite app_nil_r].
    destruct (Z.leb_spec (192 * 64 + r * 64 + 192 * 2)
                (off + Z.max 0 (Z.min (off + chunk) (192 * 64 + r * 64 + 192 * 2) - off)));
      [|rewrite sub_zero by lia; now rewrite app_nil_r].
    rewrite Z.mod_small by lia.
    zcmp; f_equal; f_equal; lia. }
  rewrite E. split; [reflexivity|].
  rewrite length_app, Nat2Z.inj_add, Hp, length_sub_Z; consts; segs; lia.
Qed.

End Gather.

(** The buffers of a frame have their sizes. *)
Definition sized (r : Z) (data par crcD crcP : list Z) : Prop :=
  Z.of_nat (length data) = B1 /\ Z.of_nat (length par) = r * SHARD_LEN /\
  Z.of_nat (length crcD) = K_SHARDS * 2 /\ Z.of_nat (length crcP) = r * 2.

Definition slice_of (r : Z) (data par crcD crcP : list Z) (off chunk : Z) : list Z :=
  sub data (seg_off 0 off) (seg_len 0 B1 off chunk)
  ++ sub par (seg_off B1 off) (seg_len B1 (r * SHARD_LEN) off chunk)
  ++ sub crcD (seg_off (B2 r) off) (seg_len (B2 r) (K_SHARDS * 2) off chunk)
  ++ sub crcP (seg_off (B3 r) off) (seg_len (B3 r) (r * 2) off chunk).

Lemma gather_slice_eq (r off chunk : Z) (data par crcD crcP : list Z) :
  0 <= r <= MAX_R -> 0 <= off -> 0 < chunk -> off + chunk <= PAY r ->
  sized r data par crcD crcP ->
  gather_slice data par crcD crcP r off chunk = slice_of r data par crcD crcP off chunk
  /\ Z.of_nat (length (gather_slice data par crcD crcP r off chunk)) = chunk.
Proof.
  intros Hr Ho Hc Hp (H1 & H2 & H3 & H4). unfold gather_slice, slice_of.
  destruct (gather_data_eq r off chunk Hr Ho Hc Hp data H1) as (E1 & L1).
  destruct (gather_par_eq r off chunk Hr Ho Hc Hp par _ H2 L1) as (E2 & L2).
  destruct (gather_crcD_eq r off chunk Hr Ho Hc Hp crcD _ H3 L2) as (E3 & L3).
  destruct (gather_crcP_eq r off chunk Hr Ho Hc Hp crcP _ H4 L3) as (E4 & L4).
  split; [|exact L4].
  rewrite E4, E3, E2, E1. now rewrite <- !app_assoc.
Qed.


Lemma set_data_id (fb : frame_buf_t) : set_data fb (fb_data fb) = fb.
Proof. now destruct fb. Qed.

Lemma set_par_id (fb : frame_buf_t) : set_par fb (fb_par fb) = fb.
Proof. now destruct fb. Qed.

Lemma set_crcD_id (fb : frame_buf_t) (n : Z) :
  n = fb_crcD_filled_bytes fb -> set_crcD fb (fb_crcD fb) n = fb.
Proof. intros ->. now destruct fb. Qed.

Lemma set_crcP_id (fb : frame_buf_t) (n : Z) :
  n = fb_crcP_filled_bytes fb -> set_crcP fb (fb_crcP fb) n = fb.
Proof. intros ->. now destruct fb. Qed.

Lemma copy_state_eq (fb fb' : frame_buf_t) (c c' : Z) :
  fb = fb' -> c = c' ->
  Some {| cs_fb := fb; cs_copied := c |} = Some {| cs_fb := fb'; cs_copied := c' |}.
Proof. now intros -> ->. Qed.

Lemma put_eq (c : list Z) (s s' : Z) (src : list Z) (a a' t t' : Z) :
  s = s' -> a = a' -> t = t' -> put c s (sub src a t) = put c s' (sub src a' t').
Proof. now intros -> -> ->. Qed.

Section Copy.

Variables (r off : Z) (src : list Z).
Hypothesis r_pos : 0 <= r <= MAX_R.
Hypothesis off_pos : 0 <= off.
Hypothesis len_pos : 0 < Z.of_nat (length src).
Hypothesis in_pay : off + Z.of_nat (length src) <= PAY r.

Lemma copy_data_eq (fb : frame_buf_t) :
  Z.of_nat (length (fb_data fb)) = B1 ->
  copy_data off src {| cs_fb := fb; cs_copied := 0 |}
  = Some {| cs_fb := set_data fb
                       (put (fb_data fb) (seg_off 0 off)
                            (sub src (upto 0 off (Z.of_nat (length src))) (seg_len 0 B1 off (Z.of_nat (length src)))));
            cs_copied := upto B1 off (Z.of_nat (length src)) |}.
Proof using All.
  intros Hd. unfold copy_data. cbn [cs_fb cs_copied]. consts.
  destruct (Z.ltb_spec off (192 * 64)).
  - rewrite mem_write_put.
    + cbn [option_map]. apply copy_state_eq.
      * f_equal. apply put_eq; segs; zcmp; lia.
      * segs; zcmp; lia.
    + lia.
    + rewrite length_sub_Z; zcmp; lia.
  - apply copy_state_eq; [|segs; lia].
    rewrite sub_zero by (segs; lia). now rewrite put_nil, set_data_id.
Qed.

Lemma copy_par_eq (fb : frame_buf_t) :
  Z.of_nat (length (fb_par fb)) = r * SHARD_LEN ->
  copy_par r off src {| cs_fb := fb; cs_copied := upto B1 off (Z.of_nat (length src)) |}
  = Some {| cs_fb := set_par fb
                       (put (fb_par fb) (seg_off B1 off)
                            (sub src (upto B1 off (Z.of_nat (length src)))
                                 (seg_len B1 (r * SHARD_LEN) off (Z.of_nat (length src)))));
            cs_copied := upto (B2 r) off (Z.of_nat (length src)) |}.
Proof using All.
  intros Hd. unfold copy_par. cbn [cs_fb cs_copied]. consts.
  assert (Skip : seg_len (192 * 64) (r * 64) off (Z.of_nat (length src)) = 0 ->
                 upto (192 * 64) off (Z.of_nat (length src)) = upto (192 * 64 + r * 64) off (Z.of_nat (length src)) ->
    Some {| cs_fb := fb; cs_copied := upto (192 * 64) off (Z.of_nat (length src)) |}
    = Some {| cs_fb := set_par fb
                (put (fb_par fb) (seg_off (192 * 64) off)
                   (sub src (upto (192 * 64) off (Z.of_nat (length src)))
                      (seg_len (192 * 64) (r * 64) off (Z.of_nat (length src)))));
              cs_copied := upto (192 * 64 + r * 64) off (Z.of_nat (length src)) |}).
  { intros E1 E2. apply copy_state_eq; [|exact E2].
    rewrite sub_zero by exact E1. now rewrite put_nil, set_par_id. }
  destruct (Z.ltb_spec (off + upto (192 * 64) off (Z.of_nat (length src))) (192 * 64 + r * 64));
    [|apply Skip; segs; lia].
  destruct (Z.ltb_spec (upto (192 * 64) off (Z.of_nat (length src))) (Z.of_nat (length src))); [|apply Skip; segs; lia].
  cbn [andb].
  destruct (Z.leb_spec (192 * 64) (off + upto (192 * 64) off (Z.of_nat (length src))));
    [|apply Skip; segs; lia].
  rewrite mem_write_put.
  - cbn [option_map]. apply copy_state_eq.
    + f_equal. apply put_eq; segs; zcmp; lia.
    + segs; zcmp; lia.
  - segs; lia.
  - rewrite length_sub_Z; segs; zcmp; lia.
Qed.

Lemma copy_crcD_eq (fb : frame_buf_t) :
  Z.of_nat (length (fb_crcD fb)) = K_SHARDS * 2 ->
  copy_crcD r off src {| cs_fb := fb; cs_copied := upto (B2 r) off (Z.of_nat (length src)) |}
  = Some {| cs_fb := set_crcD fb
                       (put (fb_crcD fb) (seg_off (B2 r) off)
                            (sub src (upto (B2 r) off (Z.of_nat (length src)))
                                 (seg_len (B2 r) (K_SHARDS * 2) off (Z.of_nat (length src)))))
                       (fb_crcD_filled_bytes fb + seg_len (B2 r) (K_SHARDS * 2) off (Z.of_nat (length src)));
            cs_copied := upto (B3 r) off (Z.of_nat (length src)) |}.
Proof using All.
  intros Hd. unfold copy_crcD. cbn [cs_fb cs_copied]. consts.
  assert (Skip : seg_len (192 * 64 + r * 64) (192 * 2) off (Z.of_nat (length src)) = 0 ->
                 upto (192 * 64 + r * 64) off (Z.of_nat (length src))
                 = upto (192 * 64 + r * 64 + 192 * 2) off (Z.of_nat (length src)) ->
    Some {| cs_fb := fb; cs_copied := upto (192 * 64 + r * 64) off (Z.of_nat (length src)) |}
    = Some {| cs_fb := set_crcD fb
                (put (fb_crcD fb) (seg_off (192 * 64 + r * 64) off)
                   (sub src (upto (192 * 64 + r * 64) off (Z.of_nat (length src)))
                      (seg_len (192 * 64 + r * 64) (192 * 2) off (Z.of_nat (length src)))))
                (fb_crcD_filled_bytes fb + seg_len (192 * 64 + r * 64) (192 * 2) off (Z.of_nat (length src)));
              cs_copied := upto (192 * 64 + r * 64 + 192 * 2) off (Z.of_nat (length src)) |}).
  { intros E1 E2. apply copy_state_eq; [|exact E2].
    rewrite sub_zero by exact E1. rewrite put_nil, E1. symmetry. apply set_crcD_id. lia. }
  destruct (Z.ltb_spec (off + upto (192 * 64 + r * 64) off (Z.of_nat (length src)))
                       (192 * 64 + r * 64 + 192 * 2));
    [|apply Skip; segs; lia].
  destruct (Z.ltb_spec (upto (192 * 64 + r * 64) off (Z.of_nat (length src))) (Z.of_nat (length src)));
    [|apply Skip; segs; lia].
  cbn [andb].
  destruct (Z.leb_spec (192 * 64 + r * 64) (off + upto (192 * 64 + r * 64) off (Z.of_nat (length src))));
    [|apply Skip; segs; lia].
  rewrite mem_write_put.
  - cbn [option_map]. apply copy_state_eq.
    + f_equal; [apply put_eq|]; segs; zcmp; lia.
    + segs; zcmp; lia.
  - segs; lia.
  - rewrite length_sub_Z; segs; zcmp; lia.
Qed.

Lemma copy_crcP_eq (fb : frame_buf_t) :
  Z.of_nat (length (fb_crcP fb)) = r * 2 ->
  copy_crcP r off src {| cs_fb := fb; cs_copied := upto (B3 r) off (Z.of_nat (length src)) |}
  = Some {| cs_fb := set_crcP fb
                       (put (fb_crcP fb) (seg_off (B3 r) off)
                            (sub src (upto (B3 r) off (Z.of_nat (length src)))
                                 (seg_len (B3 r) (r * 2) off (Z.of_nat (length src)))))
                       (fb_crcP_filled_bytes fb + seg_len (B3 r) (r * 2) off (Z.of_nat (length src)));
            cs_copied := (Z.of_nat (length src)) |}.
Proof using All.
  intros Hd. unfold copy_crcP. cbn [cs_fb cs_copied]. consts.
  assert (Skip : seg_len (192 * 64 + r * 64 + 192 * 2) (r * 2) off (Z.of_nat (length src)) = 0 ->
                 upto (192 * 64 + r * 64 + 192 * 2) off (Z.of_nat (length src)) = (Z.of_nat (length src)) ->
    Some {| cs_fb := fb; cs_copied := upto (192 * 64 + r * 64 + 192 * 2) off (Z.of_nat (length src)) |}
    = Some {| cs_fb := set_crcP fb
                (put (fb_crcP fb) (seg_off (192 * 64 + r * 64 + 192 * 2) off)
                   (sub src (upto (192 * 64 + r * 64 + 192 * 2) off (Z.of_nat (length src)))
                      (seg_len (192 * 64 + r * 64 + 192 * 2) (r * 2) off (Z.of_nat (length src)))))
                (fb_crcP_filled_bytes fb
                 + seg_len (192 * 64 + r * 64 + 192 * 2) (r * 2) off (Z.of_nat (length src)));
              cs_copied := (Z.of_nat (length src)) |}).
  { intros E1 E2. apply copy_state_eq; [|exact E2].
    rewrite sub_zero by exact E1. rewrite put_nil, E1. symmetry. apply set_crcP_id. lia. }
  destruct (Z.ltb_spec (upto (192 * 64 + r * 64 + 192 * 2) off (Z.of_nat (length src))) (Z.of_nat (length src)));
    [|apply Skip; segs; lia].
  destruct (Z.leb_spec (192 * 64 + r * 64 + 192 * 2)
                       (off + upto (192 * 64 + r * 64 + 192 * 2) off (Z.of_nat (length src))));
    [|apply Skip; segs; lia].
  rewrite (Z.mod_small (r * 2 - _)) by (segs; lia).
  rewrite mem_write_put.
  - cbn [option_map]. apply copy_state_eq.
    + f_equal; [apply put_eq|]; segs; zcmp; lia.
    + segs; zcmp; lia.
  - segs; lia.
  - rewrite length_sub_Z; segs; zcmp; lia.
Qed.

(** The frame buffer after the slice. *)
Definition copied_frame (fb : frame_buf_t) : frame_buf_t :=
  {| fb_init := fb_init fb; fb_data_len := fb_data_len fb;
     fb_data := put (fb_data fb) (seg_off 0 off)
                    (sub src (upto 0 off (Z.of_nat (length src))) (seg_len 0 B1 off (Z.of_nat (length src))));
     fb_par := put (fb_par fb) (seg_off B1 off)
                   (sub src (upto B1 off (Z.of_nat (length src))) (seg_len B1 (r * SHARD_LEN) off (Z.of_nat (length src))));
     fb_crcD := put (fb_crcD fb) (seg_off (B2 r) off)
                    (sub src (upto (B2 r) off (Z.of_nat (length src)))
                         (seg_len (B2 r) (K_SHARDS * 2) off (Z.of_nat (length src))));
     fb_crcP := put (fb_crcP fb) (seg_off (B3 r) off)
                    (sub src (upto (B3 r) off (Z.of_nat (length src))) (seg_len (B3 r) (r * 2) off (Z.of_nat (length src))));
     fb_crc32_data := fb_crc32_data fb; fb_crc32_par := fb_crc32_par fb;
     fb_crcD_filled_bytes :=
       fb_crcD_filled_bytes fb + seg_len (B2 r) (K_SHARDS * 2) off (Z.of_nat (length src));
     fb_crcP_filled_bytes :=
       fb_crcP_filled_bytes fb + seg_len (B3 r) (r * 2) off (Z.of_nat (length src)) |}.

Lemma copy_slice_into_frame_eq (fb : frame_buf_t) :
  sized r (fb_data fb) (fb_par fb) (fb_crcD fb) (fb_crcP fb) ->
  copy_slice_into_frame fb r off src = Some (copied_frame fb).
Proof using All.
  intros (H1 & H2 & H3 & H4). unfold copy_slice_into_frame.
  rewrite copy_data_eq by exact H1. cbn [bind_opt].
  rewrite copy_par_eq by exact H2. cbn [bind_opt].
  rewrite copy_crcD_eq by exact H3. cbn [bind_opt].
  rewrite copy_crcP_eq by exact H4. reflexivity.
Qed.

End Copy.


(** *** A frame buffer filling up *)

Lemma firstn_firstn_skipn {A} (l : list A) (a t : nat) :
  firstn a l ++ firstn t (skipn a l) = firstn (a + t) l.
Proof.
  revert l. induction a as [|a IH]; intros l; simpl; trivial.
  destruct l as [|x l]; simpl; [now rewrite firstn_nil|]. now rewrite IH.
Qed.

Lemma put_agree_nat (c cpf : list Z) (a t m : nat) :
  length c = length cpf -> firstn a c = firstn a cpf ->
  (a + t <= length c)%nat -> (m = a + t \/ a + t = length c)%nat ->
  firstn m (firstn a c ++ firstn t (skipn a cpf) ++ skipn (a + t) c) = firstn m cpf.
Proof.
  intros Hl Ha Hat Hm. rewrite Ha, app_assoc, firstn_firstn_skipn.
  destruct Hm as [->|E].
  - rewrite firstn_app, length_firstn.
    replace (a + t - Nat.min (a + t) (length cpf))%nat with 0%nat by lia.
    rewrite firstn_firstn, Nat.min_id. simpl. apply app_nil_r.
  - rewrite skipn_all2 by lia. rewrite app_nil_r.
    rewrite (firstn_all2 (n := (a + t)%nat) cpf) by lia. reflexivity.
Qed.

(** [c] holds what [cpf] holds in the part of region [B] below [p]. *)
Definition agree (B p : Z) (c cpf : list Z) : Prop :=
  firstn (Z.to_nat (p - B)) c = firstn (Z.to_nat (p - B)) cpf.

Lemma agree_put (B n off len : Z) (c cpf : list Z) :
  0 <= B -> 0 <= n -> 0 <= off -> 0 < len ->
  Z.of_nat (length c) = n -> Z.of_nat (length cpf) = n ->
  agree B off c cpf ->
  agree B (off + len)
        (put c (seg_off B off) (sub cpf (seg_off B off) (seg_len B n off len))) cpf
  /\ length (put c (seg_off B off) (sub cpf (seg_off B off) (seg_len B n off len)))
     = length c.
Proof.
  intros HB Hn Ho Hl Hc Hp Ha. unfold agree in *.
  destruct (Z.le_gt_cases (off + len) B) as [C1|C1].
  { rewrite (sub_zero _ _ (seg_len B n off len)) by (segs; lia).
    rewrite put_nil. split; trivial.
    now replace (Z.to_nat (off + len - B)) with 0%nat by lia. }
  destruct (Z.le_gt_cases (B + n) off) as [C2|C2].
  { rewrite (sub_zero _ _ (seg_len B n off len)) by (segs; lia).
    rewrite put_nil. split; trivial.
    rewrite !firstn_all2 in Ha by lia. subst c. reflexivity. }
  assert (Lp : length (sub cpf (seg_off B off) (seg_len B n off len))
               = Z.to_nat (seg_len B n off len)).
  { apply length_sub; segs; lia. }
  split.
  - unfold put. rewrite Lp. unfold sub.
    replace (Z.to_nat (seg_off B off)) with (Z.to_nat (off - B)) by (segs; lia).
    apply put_agree_nat; trivial; segs; lia.
  - apply length_put; [segs; lia|]. rewrite Lp. segs; lia.
Qed.

Lemma sub_app_exact (a b rest : list Z) (o t : Z) :
  o = Z.of_nat (length a) -> t = Z.of_nat (length b) ->
  sub (a ++ b ++ rest) o t = b.
Proof.
  intros -> ->. rewrite sub_app_r by lia. rewrite Z.sub_diag.
  now apply sub_app_whole.
Qed.

Lemma sub_app_exact_end (a b : list Z) (o t : Z) :
  o = Z.of_nat (length a) -> t = Z.of_nat (length b) -> sub (a ++ b) o t = b.
Proof.
  intros Ho Ht. rewrite <- (app_nil_r b) at 1. now apply sub_app_exact.
Qed.

Section SegArith.

Variables (r off len : Z).
Hypothesis r_pos : 0 <= r <= MAX_R.
Hypothesis off_pos : 0 <= off.
Hypothesis len_pos : 0 < len.

Lemma upto_0 : upto 0 off len = 0.
Proof using off_pos len_pos. segs. lia. Qed.

Lemma upto_B1 : upto B1 off len = seg_len 0 B1 off len.
Proof using off_pos len_pos. consts. segs. lia. Qed.

Lemma upto_B2 :
  upto (B2 r) off len = seg_len 0 B1 off len + seg_len B1 (r * SHARD_LEN) off len.
Proof using All. consts. segs. lia. Qed.

Lemma upto_B3 :
  upto (B3 r) off len
  = seg_len 0 B1 off len + seg_len B1 (r * SHARD_LEN) off len
    + seg_len (B2 r) (K_SHARDS * 2) off len.
Proof using All. consts. segs. lia. Qed.

Lemma seg_bounds (B n : Z) :
  0 <= B -> 0 <= n ->
  0 <= seg_off B off /\ 0 <= seg_len B n off len /\
  (seg_len B n off len = 0 \/ seg_off B off + seg_len B n off len <= n).
Proof using off_pos len_pos. intros HB Hn. segs. lia. Qed.

Lemma filled_D_step :
  Z.max 0 (Z.min off (B3 r) - B2 r) + seg_len (B2 r) (K_SHARDS * 2) off len
  = Z.max 0 (Z.min (off + len) (B3 r) - B2 r).
Proof using All. consts. segs. lia. Qed.

Lemma filled_P_step :
  off + len <= PAY r ->
  Z.max 0 (Z.min off (PAY r) - B3 r) + seg_len (B3 r) (r * 2) off len
  = Z.max 0 (Z.min (off + len) (PAY r) - B3 r).
Proof using All. consts. segs. lia. Qed.

Lemma bases_nonneg :
  0 <= B1 /\ 0 <= B2 r /\ 0 <= B3 r /\ 0 <= r * SHARD_LEN /\ 0 <= K_SHARDS * 2 /\ 0 <= r * 2.
Proof using r_pos. consts. lia. Qed.

End SegArith.

Definition pf_sized (r : Z) (pf : packed_frame) : Prop :=
  sized r (pf_data pf) (pf_par pf) (pf_crcD pf) (pf_crcP pf).

(** The state of the buffer of a frame whose header and whose slices
    below [p] have arrived. *)
Definition frame_at (r : Z) (pf : packed_frame) (p : Z) (fb : frame_buf_t) : Prop :=
  fb_init fb = 1 /\ fb_data_len fb = fh_data_len (pf_hdr pf) /\
  sized r (fb_data fb) (fb_par fb) (fb_crcD fb) (fb_crcP fb) /\
  agree 0 p (fb_data fb) (pf_data pf) /\
  agree B1 p (fb_par fb) (pf_par pf) /\
  agree (B2 r) p (fb_crcD fb) (pf_crcD pf) /\
  agree (B3 r) p (fb_crcP fb) (pf_crcP pf) /\
  fb_crcD_filled_bytes fb = Z.max 0 (Z.min p (B3 r) - B2 r) /\
  fb_crcP_filled_bytes fb = Z.max 0 (Z.min p (PAY r) - B3 r).

Lemma slice_pieces (r off len : Z) (pf : packed_frame) :
  0 <= r <= MAX_R -> 0 <= off -> 0 < len -> off + len <= PAY r -> pf_sized r pf ->
  let src := slice_of r (pf_data pf) (pf_par pf) (pf_crcD pf) (pf_crcP pf) off len in
  sub src (upto 0 off len) (seg_len 0 B1 off len)
  = sub (pf_data pf) (seg_off 0 off) (seg_len 0 B1 off len) /\
  sub src (upto B1 off len) (seg_len B1 (r * SHARD_LEN) off len)
  = sub (pf_par pf) (seg_off B1 off) (seg_len B1 (r * SHARD_LEN) off len) /\
  sub src (upto (B2 r) off len) (seg_len (B2 r) (K_SHARDS * 2) off len)
  = sub (pf_crcD pf) (seg_off (B2 r) off) (seg_len (B2 r) (K_SHARDS * 2) off len) /\
  sub src (upto (B3 r) off len) (seg_len (B3 r) (r * 2) off len)
  = sub (pf_crcP pf) (seg_off (B3 r) off) (seg_len (B3 r) (r * 2) off len).
Proof.
  intros Hr Ho Hl Hp (H1 & H2 & H3 & H4). cbv zeta. unfold slice_of.
  destruct (bases_nonneg r Hr) as (N1 & N2 & N3 & N4 & N5 & N6).
  rewrite (upto_0 off len Ho Hl), (upto_B1 off len Ho Hl), (upto_B2 r off len Hr Ho Hl),
    (upto_B3 r off len Hr Ho Hl).
  assert (L1 : Z.of_nat (length (sub (pf_data pf) (seg_off 0 off) (seg_len 0 B1 off len)))
               = seg_len 0 B1 off len).
  { destruct (seg_bounds off len Ho Hl 0 B1 (Z.le_refl 0) N1) as (X & Y & Z0).
    apply length_sub_Z; trivial. rewrite H1. exact Z0. }
  assert (L2 : Z.of_nat (length (sub (pf_par pf) (seg_off B1 off)
                                     (seg_len B1 (r * SHARD_LEN) off len)))
               = seg_len B1 (r * SHARD_LEN) off len).
  { destruct (seg_bounds off len Ho Hl B1 (r * SHARD_LEN) N1 N4) as (X & Y & Z0).
    apply length_sub_Z; trivial. rewrite H2. exact Z0. }
  assert (L3 : Z.of_nat (length (sub (pf_crcD pf) (seg_off (B2 r) off)
                                     (seg_len (B2 r) (K_SHARDS * 2) off len)))
               = seg_len (B2 r) (K_SHARDS * 2) off len).
  { destruct (seg_bounds off len Ho Hl (B2 r) (K_SHARDS * 2) N2 N5) as (X & Y & Z0).
    apply length_sub_Z; trivial. rewrite H3. exact Z0. }
  assert (L4 : Z.of_nat (length (sub (pf_crcP pf) (seg_off (B3 r) off)
                                     (seg_len (B3 r) (r * 2) off len)))
               = seg_len (B3 r) (r * 2) off len).
  { destruct (seg_bounds off len Ho Hl (B3 r) (r * 2) N3 N6) as (X & Y & Z0).
    apply length_sub_Z; trivial. rewrite H4. exact Z0. }
  set (g1 := sub (pf_data pf) _ _) in *. set (g2 := sub (pf_par pf) _ _) in *.
  set (g3 := sub (pf_crcD pf) _ _) in *. set (g4 := sub (pf_crcP pf) _ _) in *.
  split; [|split; [|split]].
  - apply (sub_app_exact [] g1); [reflexivity|now rewrite L1].
  - apply (sub_app_exact g1 g2); [now rewrite L1|now rewrite L2].
  - rewrite app_assoc. apply (sub_app_exact (g1 ++ g2) g3); [|now rewrite L3].
    now rewrite length_app, Nat2Z.inj_add, L1, L2.
  - rewrite !app_assoc.
    apply (sub_app_exact_end ((g1 ++ g2) ++ g3) g4); [|now rewrite L4].
    now rewrite !length_app, !Nat2Z.inj_add, L1, L2, L3.
Qed.

Lemma frame_at_slice (r off len : Z) (pf : packed_frame) (fb : frame_buf_t) :
  0 <= r <= MAX_R -> 0 <= off -> 0 < len -> off + len <= PAY r -> pf_sized r pf ->
  frame_at r pf off fb ->
  exists fb',
    copy_slice_into_frame fb r off
      (gather_slice (pf_data pf) (pf_par pf) (pf_crcD pf) (pf_crcP pf) r off len)
    = Some fb'
    /\ frame_at r pf (off + len) fb'.
Proof.
  intros Hr Ho Hl Hp Hpf (Hi & Hdl & Hs & A1 & A2 & A3 & A4 & F3 & F4).
  destruct (gather_slice_eq r off len _ _ _ _ Hr Ho Hl Hp Hpf) as (Eg & Lg).
  destruct (slice_pieces r off len pf Hr Ho Hl Hp Hpf) as (P1 & P2 & P3 & P4).
  cbv zeta in P1, P2, P3, P4. rewrite <- Eg in P1, P2, P3, P4.
  destruct (bases_nonneg r Hr) as (N1 & N2 & N3 & N4 & N5 & N6).
  pose proof (filled_D_step r off len Hr Ho Hl) as FD.
  pose proof (filled_P_step r off len Hr Ho Hl Hp) as FP.
  clear Eg.
  set (src := gather_slice _ _ _ _ r off len) in *.
  exists (copied_frame r off src fb). split.
  { apply copy_slice_into_frame_eq; trivial; rewrite Lg; trivial. }
  pose proof Hs as (S1 & S2 & S3 & S4). pose proof Hpf as (T1 & T2 & T3 & T4).
  unfold copied_frame, frame_at.
  cbn [fb_init fb_data_len fb_data fb_par fb_crcD fb_crcP fb_crcD_filled_bytes
       fb_crcP_filled_bytes].
  rewrite Lg, P1, P2, P3, P4.
  destruct (agree_put 0 B1 off len _ _ (Z.le_refl 0) N1 Ho Hl S1 T1 A1) as (A1' & L1').
  destruct (agree_put B1 (r * SHARD_LEN) off len _ _ N1 N4 Ho Hl S2 T2 A2) as (A2' & L2').
  destruct (agree_put (B2 r) (K_SHARDS * 2) off len _ _ N2 N5 Ho Hl S3 T3 A3)
    as (A3' & L3').
  destruct (agree_put (B3 r) (r * 2) off len _ _ N3 N6 Ho Hl S4 T4 A4) as (A4' & L4').
  split; [exact Hi|]. split; [exact Hdl|].
  split; [unfold sized; rewrite L1', L2', L3', L4'; exact Hs|].
  split; [exact A1'|]. split; [exact A2'|]. split; [exact A3'|]. split; [exact A4'|].
  split; [rewrite F3; exact FD|rewrite F4; exact FP].
Qed.

Lemma frame_at_done (r : Z) (pf : packed_frame) (fb : frame_buf_t) :
  0 <= r -> pf_sized r pf -> frame_at r pf (PAY r) fb ->
  fb_init fb = 1 /\ fb_data_len fb = fh_data_len (pf_hdr pf) /\
  fb_data fb = pf_data pf /\ fb_par fb = pf_par pf /\
  fb_crcD fb = pf_crcD pf /\ fb_crcP fb = pf_crcP pf /\
  fb_crcD_filled_bytes fb = K_SHARDS * 2 /\ fb_crcP_filled_bytes fb = r * 2.
Proof.
  intros Hr (T1 & T2 & T3 & T4) (Hi & Hdl & (S1 & S2 & S3 & S4) & A1 & A2 & A3 & A4 & F3 & F4).
  unfold agree in *.
  rewrite !firstn_all2 in A1, A2, A3, A4 by (consts; lia).
  repeat split; trivial.
  - rewrite F3. consts; lia.
  - rewrite F4. consts; lia.
Qed.

End RSSlices.

(** ** The RS container: the frames pack writes *)

Module RSFrames.
Import RS RSLayout RSSlices.

Lemma takeZ_firstn (l : list Z) : forall n, takeZ n l = firstn (Z.to_nat n) l.
Proof.
  induction l as [|x l IH]; intros n; simpl.
  - now rewrite firstn_nil.
  - destruct (Z.ltb_spec 0 n).
    + rewrite IH. replace (Z.to_nat n) with (S (Z.to_nat (n - 1))) by lia. reflexivity.
    + now replace (Z.to_nat n) with 0%nat by lia.
Qed.

Lemma dropZ_skipn (l : list Z) : forall n, dropZ n l = skipn (Z.to_nat n) l.
Proof.
  induction l as [|x l IH]; intros n.
  - now rewrite skipn_nil.
  - cbn [dropZ]. destruct (Z.ltb_spec 0 n).
    + rewrite IH. replace (Z.to_nat n) with (S (Z.to_nat (n - 1))) by lia. reflexivity.
    + now replace (Z.to_nat n) with 0%nat by lia.
Qed.

Lemma map_nth_seq (l : list Z) (n : nat) :
  n = length l -> map (fun j => nth j l 0) (seq 0 n) = l.
Proof.
  intros ->. apply (nth_ext _ _ 0 0).
  - now rewrite length_map, length_seq.
  - intros k Hk. rewrite length_map, length_seq in Hk. now rewrite nth_map_seq.
Qed.

Lemma list_set_nth_id {A} (l : list A) (k : nat) (d : A) : list_set l k (nth k l d) = l.
Proof.
  revert k. induction l as [|x l IH]; intros k; simpl; trivial.
  destruct k; simpl; [trivial|now rewrite IH].
Qed.

Lemma fold_left_id {A B} (f : A -> B -> A) (l : list B) (a : A) :
  (forall x, In x l -> f a x = a) -> fold_left f l a = a.
Proof.
  induction l as [|x l IH]; intros H; simpl; trivial.
  rewrite (H x) by now left. apply IH. intros y Hy. apply H. now right.
Qed.

(** Blocks laid out as rows of [c] entries. *)
Section Rows.

Variables (f : nat -> list Z) (c : nat).
Hypothesis row_length : forall k, length (f k) = c.

Lemma length_rows (n a : nat) : length (flat_map f (seq a n)) = (n * c)%nat.
Proof.
  revert a. induction n as [|n IH]; intros a; simpl; trivial.
  now rewrite length_app, row_length, IH.
Qed.

Lemma skipn_rows (j : nat) :
  forall n a, (j < n)%nat ->
  skipn (j * c) (flat_map f (seq a n))
  = f (a + j)%nat ++ flat_map f (seq (S (a + j)) (n - S j)).
Proof.
  induction j as [|j IH]; intros n a Hj.
  - destruct n as [|n]; [lia|]. simpl. now rewrite Nat.add_0_r, Nat.sub_0_r.
  - destruct n as [|n]; [lia|]. cbn [seq flat_map].
    replace (S j * c)%nat with (j * c + c)%nat by lia.
    rewrite <- skipn_skipn. rewrite skipn_app, row_length, Nat.sub_diag.
    rewrite (skipn_all2 (f a)) by (rewrite row_length; lia). cbn [app skipn].
    rewrite IH by lia. now replace (S a + j)%nat with (a + S j)%nat by lia.
Qed.

Lemma row_of_rows (n j : nat) :
  (j < n)%nat -> firstn c (skipn (j * c) (flat_map f (seq 0 n))) = f j.
Proof.
  intros Hj. rewrite skipn_rows by assumption. simpl.
  rewrite firstn_app, row_length, Nat.sub_diag, firstn_O, app_nil_r.
  apply firstn_all2. now rewrite row_length.
Qed.

Lemma nth_rows (n j i : nat) :
  (j < n)%nat -> (i < c)%nat ->
  nth (j * c + i) (flat_map f (seq 0 n)) 0 = nth i (f j) 0.
Proof.
  intros Hj Hi.
  rewrite <- (firstn_skipn (j * c) (flat_map f (seq 0 n))) at 1.
  rewrite app_nth2; rewrite length_firstn, length_rows; [|nia].
  replace (j * c + i - Nat.min (j * c) (n * c))%nat with i by nia.
  rewrite skipn_rows by assumption. simpl.
  apply app_nth1. now rewrite row_length.
Qed.

End Rows.


Ltac consts :=
  unfold PAY, payload_len_bytes, B3, B2, B1, FRAME_BYTES, K_SHARDS, SHARD_LEN, MAX_R,
    u64, u32, u16 in *.

Lemma length_zeros (n : Z) : length (zeros n) = Z.to_nat n.
Proof. apply repeat_length. Qed.

Lemma bytes_ok_zeros (n : Z) : bytes_ok (zeros n) = true.
Proof.
  unfold zeros. induction (Z.to_nat n) as [|k IH]; simpl; trivial.
Qed.

Lemma bytes_ok_firstn (l : list Z) (n : nat) :
  bytes_ok l = true -> bytes_ok (firstn n l) = true.
Proof.
  intros H. rewrite <- (firstn_skipn n l), bytes_ok_app in H.
  now apply andb_prop in H.
Qed.

Lemma bytes_ok_skipn (l : list Z) (n : nat) :
  bytes_ok l = true -> bytes_ok (skipn n l) = true.
Proof.
  intros H. rewrite <- (firstn_skipn n l), bytes_ok_app in H.
  now apply andb_prop in H.
Qed.

Lemma bytes_ok_nth (l : list Z) (k : nat) :
  bytes_ok l = true -> 0 <= nth k l 0 < 256.
Proof.
  intros H. apply bytes_ok_Forall in H. rewrite Forall_forall in H.
  destruct (Nat.lt_ge_cases k (length l)) as [Hk|Hk].
  - apply H. now apply nth_In.
  - rewrite nth_overflow by assumption. lia.
Qed.

(** The CRCs fit their fields. *)
Lemma crc32_build_range : forallb (fun x => (0 <=? x) && (x <? 2 ^ 32)) CRC.crc32_build = true.
Proof. vm_compute. reflexivity. Qed.

Lemma crc32_entry_range (k : nat) : 0 <= nth k CRC.crc32_build 0 < 2 ^ 32.
Proof.
  pose proof crc32_build_range as H. rewrite forallb_forall in H.
  destruct (Nat.lt_ge_cases k (length CRC.crc32_build)) as [Hk|Hk].
  - specialize (H _ (nth_In _ 0 Hk)). lia.
  - rewrite nth_overflow by assumption. lia.
Qed.

Lemma crc32_fold_range (buf : list Z) :
  forall c, 0 <= c < 2 ^ 32 ->
  0 <= fold_left (CRC.crc32_update CRC.crc32_build) buf c < 2 ^ 32.
Proof.
  induction buf as [|b buf IH]; intros c Hc; simpl; trivial.
  apply IH. unfold CRC.crc32_update. apply lxor_range; [lia|apply crc32_entry_range|].
  rewrite Z.shiftr_div_pow2 by lia. split.
  - apply Z.div_pos; lia.
  - apply Z.div_lt_upper_bound; lia.
Qed.

Lemma crc32_calc_range (buf : list Z) : 0 <= crc32_calc buf < 2 ^ 32.
Proof.
  unfold crc32_calc, CRC.crc32_calc. cbn [fst].
  change (CRC.crc32_table (CRC.crc32_init crc_ready)) with CRC.crc32_build.
  apply lxor_range; [lia| |lia]. apply crc32_fold_range. lia.
Qed.

Lemma crc16_ccitt_range (buf : list Z) : 0 <= crc16_ccitt buf < 2 ^ 16.
Proof.
  unfold crc16_ccitt, CRC.crc16_ccitt. cbn [fst].
  generalize (CRC.crc16_table (CRC.crc16_init crc_ready)). intros tbl.
  assert (H : forall c, 0 <= c < 2 ^ 16 -> 0 <= fold_left (CRC.crc16_update tbl) buf c < 2 ^ 16).
  { induction buf as [|b buf IH]; intros c Hc; simpl; trivial.
    apply IH. apply CRCFacts.crc16_update_range. }
  apply H. lia.
Qed.

(** The CRC-16 tables of a block match the block. *)
Lemma length_shard_crcs (block : list Z) (rows : Z) :
  0 <= rows -> Z.of_nat (length (shard_crcs block rows)) = rows * 2.
Proof.
  intros Hr. unfold shard_crcs.
  rewrite (length_rows _ 2) by (intros k; apply length_le_bytes). lia.
Qed.

Lemma u16_at_shard_crcs (block : list Z) (rows j : Z) :
  0 <= j < rows ->
  u16_at (shard_crcs block rows) j = crc16_ccitt (sub block (j * SHARD_LEN) SHARD_LEN).
Proof.
  intros Hj. unfold u16_at, shard_crcs, sub at 1.
  replace (Z.to_nat (2 * j)) with (Z.to_nat j * 2)%nat by lia.
  change (Z.to_nat 2) with 2%nat.
  rewrite (row_of_rows _ 2) by (try (intros k; apply length_le_bytes); lia).
  rewrite Z2Nat.id by lia.
  apply le_value_le_bytes_small. apply crc16_ccitt_range.
Qed.

Lemma shard_bad_own (block : list Z) (rows j : Z) :
  0 <= j < rows -> shard_bad block (shard_crcs block rows) j = false.
Proof.
  intros Hj. unfold shard_bad. rewrite u16_at_shard_crcs by assumption.
  now rewrite Z.eqb_refl.
Qed.

Lemma in_zrange (a b x : Z) : In x (zrange a b) <-> a <= x < b.
Proof.
  unfold zrange. rewrite in_map_iff. split.
  - intros (k & <- & Hk). apply in_seq in Hk. lia.
  - intros Hx. exists (Z.to_nat (x - a)). split; [lia|]. apply in_seq. lia.
Qed.

Lemma filter_none {A} (f : A -> bool) (l : list A) :
  (forall x, In x l -> f x = false) -> filter f l = [].
Proof.
  induction l as [|x l IH]; intros H; simpl; trivial.
  rewrite (H x) by now left. apply IH. intros y Hy. apply H. now right.
Qed.

Lemma no_bad_shards (block : list Z) (rows : Z) :
  filter (shard_bad block (shard_crcs block rows)) (zrange 0 rows) = [].
Proof.
  apply filter_none. intros j Hj. apply in_zrange in Hj. now apply shard_bad_own.
Qed.

Section Frames.

Context {rs_handle : Type}.
Variable encode_rs_char : rs_handle -> list Z -> list Z.
Variables (rs : rs_handle) (r : Z) (input : list Z).

Hypothesis r_rng : 1 <= r <= MAX_R.
Hypothesis input_len : Z.of_nat (length input) < 2 ^ 63.

Definition orig : Z := Z.of_nat (length input).
Definition frames : Z := (orig + FRAME_BYTES - 1) / FRAME_BYTES.

(** The valid bytes of frame [idx] and the frame pack makes of them. *)
Definition frame_len (idx : Z) : Z := Z.min FRAME_BYTES (orig - idx * FRAME_BYTES).

Definition the_data (idx : Z) : list Z :=
  sub input (idx * FRAME_BYTES) (frame_len idx) ++ zeros (FRAME_BYTES - frame_len idx).

Definition the_par (idx : Z) : list Z :=
  encode_frame_parity encode_rs_char rs (the_data idx) (frame_len idx) r.

Definition the_frame (idx : Z) : packed_frame :=
  {| pf_data := the_data idx; pf_par := the_par idx;
     pf_crcD := shard_crcs (the_data idx) K_SHARDS;
     pf_crcP := shard_crcs (the_par idx) r;
     pf_hdr := {| fh_magic := FRAME_MAGIC_V4; fh_index := idx;
                  fh_data_len := u16 (frame_len idx);
                  fh_parity_len := u16 (r * SHARD_LEN);
                  fh_crc32_data := crc32_calc (the_data idx);
                  fh_crc32_par := crc32_calc (the_par idx) |} |}.

Lemma frames_bounds :
  0 <= frames /\ FRAME_BYTES * frames - FRAME_BYTES < orig <= FRAME_BYTES * frames
  /\ frames < 2 ^ 50.
Proof using input_len.
  unfold frames. consts.
  pose proof (Z.mul_div_le (orig + 192 * 64 - 1) (192 * 64) ltac:(lia)).
  pose proof (Z.mul_succ_div_gt (orig + 192 * 64 - 1) (192 * 64) ltac:(lia)).
  assert (0 <= orig) by (unfold orig; lia).
  assert (orig < 2 ^ 63) by exact input_len.
  assert (0 <= (orig + 192 * 64 - 1) / (192 * 64)) by (apply Z.div_pos; lia).
  lia.
Qed.

Lemma frame_len_bounds (idx : Z) :
  0 <= idx < frames ->
  0 < frame_len idx <= FRAME_BYTES /\ idx * FRAME_BYTES + frame_len idx <= orig
  /\ (idx < frames - 1 -> frame_len idx = FRAME_BYTES)
  /\ (idx = frames - 1 -> idx * FRAME_BYTES + frame_len idx = orig).
Proof using input_len.
  intros Hi. pose proof frames_bounds as (F0 & F1 & _).
  unfold frame_len. consts. lia.
Qed.

Lemma length_the_data (idx : Z) :
  0 <= idx < frames -> Z.of_nat (length (the_data idx)) = FRAME_BYTES.
Proof using input_len.
  intros Hi. pose proof (frame_len_bounds idx Hi) as (L1 & L2 & _).
  unfold the_data. rewrite length_app, length_zeros, Nat2Z.inj_add.
  rewrite length_sub_Z; fold orig; consts; lia.
Qed.

Lemma pack_frame_eq (idx : Z) :
  0 <= idx < frames ->
  pack_frame encode_rs_char rs r frames orig idx
             (skipn (Z.to_nat (idx * FRAME_BYTES)) input)
  = (the_frame idx, skipn (Z.to_nat ((idx + 1) * FRAME_BYTES)) input).
Proof using input_len.
  intros Hi. pose proof (frame_len_bounds idx Hi) as (L1 & L2 & L3 & L4).
  pose proof frames_bounds as (F0 & F1 & F2).
  unfold pack_frame.
  assert (E : (if idx =? frames - 1
               then if u64 (orig - idx * FRAME_BYTES) <? FRAME_BYTES
                    then u64 (orig - idx * FRAME_BYTES) else FRAME_BYTES
               else FRAME_BYTES) = frame_len idx).
  { destruct (Z.eqb_spec idx (frames - 1)) as [E|E].
    - specialize (L4 E). unfold u64. rewrite Z.mod_small by (consts; lia).
      destruct (Z.ltb_spec (orig - idx * FRAME_BYTES) FRAME_BYTES); consts; lia.
    - symmetry. apply L3. lia. }
  rewrite E. cbv zeta.
  rewrite takeZ_firstn, dropZ_skipn.
  assert (Eg : firstn (Z.to_nat (frame_len idx)) (skipn (Z.to_nat (idx * FRAME_BYTES)) input)
               = sub input (idx * FRAME_BYTES) (frame_len idx)) by reflexivity.
  rewrite Eg.
  assert (Lg : Z.of_nat (length (sub input (idx * FRAME_BYTES) (frame_len idx)))
               = frame_len idx).
  { apply length_sub_Z; fold orig; consts; lia. }
  rewrite Lg. f_equal.
  rewrite skipn_skipn.
  destruct (Z.eq_dec idx (frames - 1)) as [El|El].
  - specialize (L4 El). rewrite !skipn_all2; trivial; unfold orig in *; consts; lia.
  - f_equal. rewrite L3 by lia. consts. lia.
Qed.

Definition frames_of (fbase : Z) (gis : list nat) : list packed_frame :=
  map (fun gi => the_frame (fbase + Z.of_nat gi)) gis.

Lemma pack_group_frames_eq (fbase : Z) :
  0 <= fbase ->
  forall (n a : nat), fbase + Z.of_nat a + Z.of_nat n <= frames ->
  pack_group_frames encode_rs_char rs r frames orig fbase (seq a n)
    (skipn (Z.to_nat ((fbase + Z.of_nat a) * FRAME_BYTES)) input)
  = (frames_of fbase (seq a n),
     skipn (Z.to_nat ((fbase + Z.of_nat a + Z.of_nat n) * FRAME_BYTES)) input).
Proof using input_len.
  intros Hb. induction n as [|n IH]; intros a Hn.
  - simpl. now rewrite Z.add_0_r.
  - cbn [seq pack_group_frames]. rewrite pack_frame_eq by lia.
    replace (fbase + Z.of_nat a + 1) with (fbase + Z.of_nat (S a)) by lia.
    rewrite IH by lia. cbn [frames_of map]. f_equal. f_equal. f_equal. lia.
Qed.

Hypothesis input_ok : bytes_ok input = true.
Hypothesis enc_len : forall data,
  length data = Z.to_nat K_SHARDS -> bytes_ok data = true ->
  length (encode_rs_char rs data) = Z.to_nat r.

Lemma bytes_ok_the_data (idx : Z) : bytes_ok (the_data idx) = true.
Proof using input_ok.
  unfold the_data, sub. rewrite bytes_ok_app, bytes_ok_zeros, andb_true_r.
  apply bytes_ok_firstn, bytes_ok_skipn, input_ok.
Qed.

Lemma length_column (block : list Z) (rows i : Z) :
  length (column block rows i) = Z.to_nat rows.
Proof. unfold column. now rewrite length_map, length_seq. Qed.

Lemma bytes_ok_column (block : list Z) (rows i : Z) :
  bytes_ok block = true -> bytes_ok (column block rows i) = true.
Proof.
  intros H. apply bytes_ok_Forall, Forall_forall. intros x Hx.
  unfold column in Hx. apply in_map_iff in Hx as (j & <- & _).
  now apply bytes_ok_nth.
Qed.

Lemma the_data_tail (idx : Z) (k : nat) :
  0 <= idx < frames -> frame_len idx <= Z.of_nat k -> nth k (the_data idx) 0 = 0.
Proof using input_len.
  intros Hi Hk. pose proof (frame_len_bounds idx Hi) as (L1 & L2 & _).
  assert (Lg : Z.of_nat (length (sub input (idx * FRAME_BYTES) (frame_len idx)))
               = frame_len idx).
  { apply length_sub_Z; unfold orig in *; consts; lia. }
  unfold the_data. rewrite app_nth2 by lia. unfold zeros. apply nth_repeat.
Qed.

Lemma length_the_par (idx : Z) : Z.of_nat (length (the_par idx)) = r * SHARD_LEN.
Proof using r_rng.
  unfold the_par, encode_frame_parity.
  rewrite (length_rows _ (Z.to_nat SHARD_LEN))
    by (intros k; now rewrite length_map, length_seq).
  consts. lia.
Qed.

Lemma column_the_par (idx i : Z) :
  0 <= idx < frames -> 0 <= i < SHARD_LEN ->
  column (the_par idx) r i = encode_rs_char rs (column (the_data idx) K_SHARDS i).
Proof using All.
  intros Hi Hc.
  assert (Ecw : map (fun j : nat =>
                  let id := Z.of_nat j * SHARD_LEN + i in
                  if id <? frame_len idx then nth (Z.to_nat id) (the_data idx) 0 else 0)
                  (seq 0 (Z.to_nat K_SHARDS))
                = column (the_data idx) K_SHARDS i).
  { unfold column. apply map_ext. intros j. cbv zeta.
    destruct (Z.ltb_spec (Z.of_nat j * SHARD_LEN + i) (frame_len idx)); trivial.
    symmetry. apply the_data_tail; trivial. consts. lia. }
  set (E := encode_rs_char rs (column (the_data idx) K_SHARDS i)).
  assert (LE : length E = Z.to_nat r).
  { apply enc_len; [apply length_column|apply bytes_ok_column, bytes_ok_the_data]. }
  rewrite <- (map_nth_seq E (Z.to_nat r)) by (symmetry; exact LE).
  unfold column at 1. apply map_ext_in. intros j Hj. apply in_seq in Hj.
  unfold the_par, encode_frame_parity.
  replace (Z.to_nat (Z.of_nat j * SHARD_LEN + i))
    with (j * Z.to_nat SHARD_LEN + Z.to_nat i)%nat by (consts; lia).
  rewrite (nth_rows _ (Z.to_nat SHARD_LEN))
    by (try (intros k; now rewrite length_map, length_seq); consts; lia).
  rewrite nth_map_seq by (consts; lia).
  rewrite (nth_map_seq _ _ _ []) by (consts; lia).
  rewrite Z2Nat.id by lia. fold E. unfold E.
  f_equal. f_equal. exact Ecw.
Qed.

Lemma the_frame_sized (idx : Z) : 0 <= idx < frames -> pf_sized r (the_frame idx).
Proof using r_rng input_len.
  intros Hi. unfold pf_sized, sized. cbn [the_frame pf_data pf_par pf_crcD pf_crcP].
  split; [now apply length_the_data|]. split; [apply length_the_par|].
  split; apply length_shard_crcs; consts; lia.
Qed.

Lemma the_frame_hdr_range (idx : Z) :
  0 <= idx < frames -> fh_in_range (pf_hdr (the_frame idx)).
Proof using input_len.
  intros Hi. pose proof frames_bounds as (_ & _ & F2).
  unfold fh_in_range. cbn [the_frame pf_hdr fh_magic fh_index fh_data_len fh_parity_len
    fh_crc32_data fh_crc32_par].
  split; [reflexivity|]. split; [lia|].
  split; [apply Z.mod_pos_bound; lia|]. split; [apply Z.mod_pos_bound; lia|].
  split; apply crc32_calc_range.
Qed.

End Frames.

End RSFrames.

(** ** The RS container: unpack reads what pack wrote *)

Module RSParse.
Import RS RSLayout RSSlices RSFrames.

Lemma nth_error_seq_0 (n k x : nat) : nth_error (seq 0 n) k = Some x -> x = k /\ (k < n)%nat.
Proof.
  intros H. assert (Hk : (k < n)%nat).
  { assert (Hn : nth_error (seq 0 n) k <> None) by congruence.
    apply nth_error_Some in Hn. now rewrite length_seq in Hn. }
  split; trivial.
  apply (nth_error_nth _ _ 0%nat) in H. rewrite seq_nth in H by assumption. lia.
Qed.

Lemma flat_map_map {A B C} (g : A -> B) (f : B -> list C) (l : list A) :
  flat_map f (map g l) = flat_map (fun x => f (g x)) l.
Proof. induction l as [|x l IH]; simpl; [trivial|now rewrite IH]. Qed.

Lemma PAY_bounds (r : Z) : 1 <= r <= MAX_R -> 0 < PAY r < 2 ^ 15.
Proof.
  unfold MAX_R, PAY, payload_len_bytes, FRAME_BYTES, K_SHARDS, SHARD_LEN. lia.
Qed.

Section Parse.

Context {rs_handle : Type}.
Variable encode_rs_char : rs_handle -> list Z -> list Z.
Variables (rs : rs_handle) (r : Z) (input : list Z) (sb : Z).

Hypothesis r_rng : 1 <= r <= MAX_R.
Hypothesis input_len : Z.of_nat (length input) < 2 ^ 63.
Hypothesis sb_rng : 1 <= sb < 2 ^ 16.

Definition F : Z := frames input.
Definition frame (idx : Z) : packed_frame := the_frame encode_rs_char rs r input idx.

(** Where the frames stand: those below [lo] are complete, those of the
    group [lo, hi) have their slices below [p_hi] (the first [gi]) or below
    [p_lo] (the others), those from [hi] on have not been seen. *)
Definition tab_inv (tab : list frame_buf_t) (lo hi gi p_hi p_lo : Z) : Prop :=
  Z.of_nat (length tab) = F /\
  forall idx, 0 <= idx < F ->
    let fb := nth (Z.to_nat idx) tab frame_buf_zero in
    (idx < lo -> frame_at r (frame idx) (PAY r) fb) /\
    (lo <= idx < lo + gi -> frame_at r (frame idx) p_hi fb) /\
    (lo + gi <= idx < hi -> frame_at r (frame idx) p_lo fb) /\
    (hi <= idx -> fb = frame_buf_zero).

Definition st_inv (st : parse_state) (lo hi gi p_hi p_lo c : Z) : Prop :=
  tab_inv (ps_tab st) lo hi gi p_hi p_lo /\ ps_slices_ok st = c /\ ps_slices_bad st = 0.

Lemma tab_inv_init : tab_inv (repeat frame_buf_zero (Z.to_nat F)) 0 0 0 0 0.
Proof using input_len.
  pose proof (frames_bounds input input_len) as (F0 & _). fold F in F0.
  split; [rewrite repeat_length; lia|].
  intros idx Hi. cbv zeta. rewrite nth_repeat.
  split; [|split; [|split]]; intros; try lia. reflexivity.
Qed.

Lemma tab_inv_turn (tab : list frame_buf_t) (lo hi p p' x y : Z) :
  tab_inv tab lo hi (hi - lo) p' p -> tab_inv tab lo hi 0 x p'.
Proof.
  intros (L & H). split; trivial. intros idx Hi. specialize (H idx Hi). cbv zeta in *.
  destruct H as (H1 & H2 & H3 & H4).
  split; [|split; [|split]]; trivial; intros; try lia.
  apply H2. lia.
Qed.

Lemma tab_inv_next (tab : list frame_buf_t) (lo hi x : Z) :
  tab_inv tab lo hi 0 x (PAY r) -> tab_inv tab hi hi 0 0 0.
Proof.
  intros (L & H). split; trivial. intros idx Hi. specialize (H idx Hi). cbv zeta in *.
  destruct H as (H1 & H2 & H3 & H4).
  split; [|split; [|split]]; trivial; intros; try lia.
  destruct (Z.lt_ge_cases idx lo); [now apply H1|apply H3; lia].
Qed.

Lemma frame_at_fresh (idx : Z) :
  0 <= idx < F ->
  frame_at r (frame idx) 0
    (set_frame_hdr (alloc_frame r frame_buf_zero 1 0) (pf_hdr (frame idx))).
Proof using r_rng.
  intros Hi. unfold frame_at, set_frame_hdr, alloc_frame, sized, agree.
  cbn [fb_init fb_data_len fb_data fb_par fb_crcD fb_crcP fb_crcD_filled_bytes
       fb_crcP_filled_bytes frame_buf_zero].
  rewrite !length_zeros.
  destruct (bases_nonneg r ltac:(lia)) as (N1 & N2 & N3 & N4 & N5 & N6).
  replace (Z.to_nat (0 - 0)) with 0%nat by lia.
  replace (Z.to_nat (0 - B1)) with 0%nat by lia.
  replace (Z.to_nat (0 - B2 r)) with 0%nat by lia.
  replace (Z.to_nat (0 - B3 r)) with 0%nat by lia.
  assert (N0 : 0 <= PAY r) by (rewrite PAY_eq; lia).
  assert (Nd : 0 <= FRAME_BYTES) by exact N1.
  repeat split; try lia; try reflexivity.
Qed.

Lemma on_frame_hdr_step (st : parse_state) (lo k c : Z) :
  0 <= lo -> 0 <= k -> lo + k < F ->
  st_inv st lo (lo + k) k 0 0 c ->
  st_inv (on_frame_hdr r F (pf_hdr (frame (lo + k))) st) lo (lo + k + 1) (k + 1) 0 0 c.
Proof using r_rng input_len.
  intros Hlo Hk Hlt ((L & H) & Hc & Hb).
  assert (Hi : 0 <= lo + k < frames input) by (fold F; lia).
  pose proof (frame_len_bounds input input_len (lo + k) Hi) as (L1 & _).
  unfold on_frame_hdr.
  cbn [frame the_frame pf_hdr fh_index fh_parity_len fh_data_len].
  destruct (Z.leb_spec F (lo + k)); [lia|].
  rewrite Z.eqb_refl. cbn [negb].
  replace (FRAME_BYTES <? u16 (frame_len input (lo + k))) with false
    by (symmetry; apply Z.ltb_ge; unfold u16; rewrite Z.mod_small;
        RSFrames.consts; lia).
  destruct (H (lo + k) ltac:(lia)) as (_ & _ & _ & Hz). cbv zeta in Hz.
  rewrite Hz by lia. cbn [frame_buf_zero fb_init fb_data_len]. 
  change (0 =? 0) with true. cbv iota.
  split; [|split; trivial].
  unfold set_tab. cbn [ps_tab]. split; [now rewrite KMPFacts.length_list_set|].
  intros idx Hidx. cbv zeta.
  destruct (Z.eq_dec idx (lo + k)) as [->|Hne].
  - rewrite KMPFacts.nth_list_set_eq by lia.
    split; [|split; [|split]]; intros; try lia. apply (frame_at_fresh (lo + k)). lia.
  - rewrite KMPFacts.nth_list_set_ne by lia.
    destruct (H idx Hidx) as (H1 & H2 & H3 & H4). cbv zeta in *.
    split; [|split; [|split]]; intros; try lia; auto.
    + apply H2. lia.
    + apply H4. lia.
Qed.

Lemma slice_record_parses (st : parse_state) (o lo hi gi p chunk c : Z) :
  0 <= lo -> 0 <= gi -> lo + gi < hi -> hi <= F ->
  0 <= p -> 0 < chunk -> p + chunk <= PAY r -> 0 <= c < 2 ^ 64 - 1 ->
  st_inv st lo hi gi (p + chunk) p c ->
  exists st',
    parses r F o (slice_record (frame (lo + gi)) r p chunk) st st'
    /\ st_inv st' lo hi (gi + 1) (p + chunk) p (c + 1).
Proof using r_rng input_len.
  intros Hlo Hgi Hlt Hhi Hp Hch Hpay Hc ((L & H) & Hok & Hbad).
  pose proof (PAY_bounds r r_rng) as HP.
  assert (Hi : 0 <= lo + gi < frames input) by (fold F; lia).
  pose proof (the_frame_sized encode_rs_char rs r input r_rng input_len (lo + gi) Hi) as Hsz.
  fold (frame (lo + gi)) in Hsz.
  destruct (H (lo + gi) ltac:(lia)) as (_ & _ & Hat & _). cbv zeta in Hat.
  specialize (Hat ltac:(lia)).
  destruct (frame_at_slice r p chunk (frame (lo + gi)) _ ltac:(lia) Hp Hch Hpay Hsz Hat)
    as (fb' & Hcopy & Hat').
  destruct (gather_slice_eq r p chunk _ _ _ _ ltac:(lia) Hp Hch Hpay Hsz) as (_ & Lg).
  unfold slice_record.
  set (buf := gather_slice _ _ _ _ r p chunk) in *.
  set (sh := {| sh_magic := SLICE_MAGIC_V4;
                sh_frame_index := fh_index (pf_hdr (frame (lo + gi)));
                sh_offset := u32 p; sh_size := u16 chunk;
                sh_crc32_slice := crc32_calc buf |}).
  assert (Eoff : u32 p = p) by (unfold u32; apply Z.mod_small; lia).
  assert (Esz : u16 chunk = chunk) by (unfold u16; apply Z.mod_small; lia).
  assert (Hon : on_slice r F o sh buf st
                = Some (set_tab {| ps_tab := ps_tab st; ps_slices_ok := c + 1;
                                   ps_slices_bad := ps_slices_bad st |} (lo + gi) fb')).
  { unfold on_slice. cbn [sh sh_crc32_slice sh_frame_index sh_offset].
    rewrite Z.eqb_refl. cbn [negb].
    cbn [frame the_frame pf_hdr fh_index]. cbn [ps_tab].
    destruct (Z.ltb_spec (lo + gi) F); [|lia].
    destruct Hat as (Hinit & _). fold (frame (lo + gi)). rewrite Hinit.
    change (1 =? 0) with false. cbv iota.
    rewrite Eoff, Hcopy, Hok. cbn [option_map]. f_equal. f_equal.
    unfold u64. rewrite Z.mod_small by lia. reflexivity. }
  eexists. split.
  - apply parses_slice; [| | |exact Hon].
    + unfold sh_in_range, sh. cbn [sh_magic sh_frame_index sh_offset sh_size sh_crc32_slice].
      cbn [frame the_frame pf_hdr fh_index].
      pose proof (frames_bounds input input_len) as (_ & _ & F2).
      pose proof (crc32_calc_range buf).
      rewrite Eoff, Esz. repeat split; try lia; reflexivity.
    + cbn [sh sh_size]. rewrite Esz. now rewrite Lg.
    + intros E. rewrite E in Lg. simpl in Lg. lia.
  - split; [|split; trivial].
    unfold set_tab. cbn [ps_tab]. split; [now rewrite KMPFacts.length_list_set|].
    intros idx Hidx. cbv zeta.
    destruct (Z.eq_dec idx (lo + gi)) as [->|Hne].
    + rewrite KMPFacts.nth_list_set_eq by lia.
      split; [|split; [|split]]; intros; try lia. exact Hat'.
    + rewrite KMPFacts.nth_list_set_ne by lia.
      destruct (H idx Hidx) as (H1 & H2 & H3 & H4). cbv zeta in *.
      split; [|split; [|split]]; intros; try lia; auto.
      * apply H2. lia.
      * apply H3. lia.
Qed.

Lemma frame_hdr_parses (st : parse_state) (o lo k c : Z) :
  0 <= lo -> 0 <= k -> lo + k < F ->
  st_inv st lo (lo + k) k 0 0 c ->
  exists st',
    parses r F o (fh_bytes (pf_hdr (frame (lo + k)))) st st'
    /\ st_inv st' lo (lo + k + 1) (k + 1) 0 0 c.
Proof using r_rng input_len.
  intros Hlo Hk Hlt Hinv. eexists. split.
  - apply parses_frame_hdr. apply the_frame_hdr_range; trivial. fold F. lia.
  - now apply on_frame_hdr_step.
Qed.

Lemma tab_inv_hi (tab : list frame_buf_t) (lo hi x y p : Z) :
  tab_inv tab lo hi 0 x p -> tab_inv tab lo hi 0 y p.
Proof.
  intros (L & H). split; trivial. intros idx Hi. specialize (H idx Hi). cbv zeta in *.
  destruct H as (H1 & H2 & H3 & H4).
  split; [|split; [|split]]; trivial; intros; lia.
Qed.

Definition headers_of (fs : list packed_frame) : list Z :=
  flat_map (fun f => fh_bytes (pf_hdr f)) fs.

Definition group (lo : Z) (n : nat) : list packed_frame :=
  frames_of encode_rs_char rs r input lo (seq 0 n).

Lemma headers_parse (st : parse_state) (o lo c : Z) (n : nat) :
  0 <= lo -> lo + Z.of_nat n <= F ->
  st_inv st lo lo 0 0 0 c ->
  exists st',
    parses r F o (headers_of (group lo n)) st st'
    /\ st_inv st' lo (lo + Z.of_nat n) 0 0 0 c.
Proof using r_rng input_len.
  intros Hlo Hn Hinv.
  unfold headers_of, group, frames_of. rewrite flat_map_map.
  destruct (parses_flat_map r F o
              (fun gi : nat => fh_bytes (pf_hdr (frame (lo + Z.of_nat gi))))
              (fun k st => st_inv st lo (lo + Z.of_nat k) (Z.of_nat k) 0 0 c)
              (seq 0 n) 0%nat) with (st := st) as (st' & P & I).
  - intros k x s Hnth Hs. apply nth_error_seq_0 in Hnth as (-> & Hk).
    cbn [Nat.add] in *.
    destruct (frame_hdr_parses s o lo (Z.of_nat k) c) as (s' & P' & I'); trivial; try lia.
    exists s'. split; trivial.
    replace (Z.of_nat (Datatypes.S k)) with (Z.of_nat k + 1) by lia.
    now rewrite Z.add_assoc.
  - cbn [Z.of_nat]. now rewrite Z.add_0_r.
  - exists st'. split; [exact P|].
    rewrite length_seq in I. cbn [Nat.add] in I.
    destruct I as (T & I2). split; trivial.
    apply (tab_inv_turn _ lo (lo + Z.of_nat n) 0 0 0 0).
    now replace (lo + Z.of_nat n - lo) with (Z.of_nat n) by lia.
Qed.

Lemma slices_row_parses (st : parse_state) (o lo p chunk c : Z) (n : nat) :
  0 <= lo -> lo + Z.of_nat n <= F ->
  0 <= p -> 0 < chunk -> p + chunk <= PAY r -> 0 <= c -> c + Z.of_nat n <= 2 ^ 64 - 1 ->
  st_inv st lo (lo + Z.of_nat n) 0 0 p c ->
  exists st',
    parses r F o (flat_map (fun f => slice_record f r p chunk) (group lo n)) st st'
    /\ st_inv st' lo (lo + Z.of_nat n) 0 0 (p + chunk) (c + Z.of_nat n).
Proof using r_rng input_len.
  intros Hlo Hn Hp Hch Hpay Hc Hcn Hinv.
  unfold group, frames_of. rewrite flat_map_map.
  destruct (parses_flat_map r F o
              (fun gi : nat => slice_record (frame (lo + Z.of_nat gi)) r p chunk)
              (fun k st => st_inv st lo (lo + Z.of_nat n) (Z.of_nat k) (p + chunk) p
                                  (c + Z.of_nat k))
              (seq 0 n) 0%nat) with (st := st) as (st' & P & I).
  - intros k x s Hnth Hs. apply nth_error_seq_0 in Hnth as (-> & Hk).
    cbn [Nat.add] in *.
    destruct (slice_record_parses s o lo (lo + Z.of_nat n) (Z.of_nat k) p chunk
                (c + Z.of_nat k)) as (s' & P' & I'); trivial; try lia.
    exists s'. split; trivial.
    replace (Z.of_nat (Datatypes.S k)) with (Z.of_nat k + 1) by lia.
    now rewrite Z.add_assoc.
  - cbn [Z.of_nat]. rewrite Z.add_0_r. destruct Hinv as (T & I2). split; trivial.
    now apply (tab_inv_hi _ _ _ 0).
  - exists st'. split; [exact P|].
    rewrite length_seq in I. cbn [Nat.add] in I.
    destruct I as (T & I2). split; trivial.
    apply (tab_inv_turn _ lo (lo + Z.of_nat n) p (p + chunk) 0 0).
    now replace (lo + Z.of_nat n - lo) with (Z.of_nat n) by lia.
Qed.

(** The number of slices of a frame, and where slice [k] starts. *)
Definition nsl : Z := (PAY r + sb - 1) / sb.
Definition pk (k : Z) : Z := Z.min (k * sb) (PAY r).

Lemma nsl_spec : 0 < nsl /\ sb * (nsl - 1) < PAY r <= sb * nsl /\ nsl <= PAY r.
Proof.
  pose proof (PAY_bounds r r_rng) as HP. unfold nsl.
  pose proof (Z.mul_div_le (PAY r + sb - 1) sb ltac:(lia)).
  pose proof (Z.mul_succ_div_gt (PAY r + sb - 1) sb ltac:(lia)).
  assert (0 < (PAY r + sb - 1) / sb) by (apply Z.div_str_pos; lia).
  split; [trivial|]. split; [lia|].
  apply Z.div_le_upper_bound; nia.
Qed.

Lemma pk_step (k : Z) :
  0 <= k < nsl ->
  pk k = k * sb /\ k * sb < PAY r /\
  pk (k + 1) = k * sb + (if k * sb + sb <=? PAY r then sb else PAY r - k * sb) /\
  0 < (if k * sb + sb <=? PAY r then sb else PAY r - k * sb).
Proof.
  intros Hk. pose proof nsl_spec as (N0 & N1 & _).
  assert (k * sb <= (nsl - 1) * sb) by (apply Z.mul_le_mono_nonneg_r; lia).
  unfold pk. destruct (Z.leb_spec (k * sb + sb) (PAY r)); lia.
Qed.

Lemma pk_last : pk nsl = PAY r.
Proof. pose proof nsl_spec as (N0 & N1 & _). unfold pk. lia. Qed.

Lemma group_slices_parses (st : parse_state) (o lo c : Z) (n : nat) :
  0 <= lo -> lo + Z.of_nat n <= F ->
  0 <= c -> c + nsl * Z.of_nat n <= 2 ^ 64 - 1 ->
  st_inv st lo (lo + Z.of_nat n) 0 0 0 c ->
  exists st',
    parses r F o (group_slices (group lo n) r (payload_len_bytes r) sb) st st'
    /\ st_inv st' lo (lo + Z.of_nat n) 0 0 (PAY r) (c + nsl * Z.of_nat n).
Proof using r_rng sb_rng input_len.
  intros Hlo Hn Hc Hcn Hinv. pose proof nsl_spec as (N0 & N1 & N2).
  unfold group_slices, slice_offsets. rewrite flat_map_map.
  fold (PAY r). fold nsl.
  destruct (parses_flat_map r F o
              (fun k : nat =>
                 let chunk := if Z.of_nat k * sb + sb <=? PAY r then sb
                              else PAY r - Z.of_nat k * sb in
                 flat_map (fun f => slice_record f r (Z.of_nat k * sb) chunk) (group lo n))
              (fun k st => st_inv st lo (lo + Z.of_nat n) 0 0 (pk (Z.of_nat k))
                                  (c + Z.of_nat k * Z.of_nat n))
              (seq 0 (Z.to_nat nsl)) 0%nat) with (st := st) as (st' & P & I).
  - intros k x s Hnth Hs. apply nth_error_seq_0 in Hnth as (-> & Hk).
    cbn [Nat.add] in *. cbv zeta.
    destruct (pk_step (Z.of_nat k) ltac:(lia)) as (E1 & E2 & E3 & E4).
    rewrite E1 in Hs.
    assert (Z.of_nat k * Z.of_nat n + Z.of_nat n <= nsl * Z.of_nat n).
    { replace (Z.of_nat k * Z.of_nat n + Z.of_nat n) with ((Z.of_nat k + 1) * Z.of_nat n)
        by lia.
      apply Z.mul_le_mono_nonneg_r; lia. }
    assert (0 <= Z.of_nat k * Z.of_nat n) by (apply Z.mul_nonneg_nonneg; lia).
    destruct (slices_row_parses s o lo (Z.of_nat k * sb)
                (if Z.of_nat k * sb + sb <=? PAY r then sb else PAY r - Z.of_nat k * sb)
                (c + Z.of_nat k * Z.of_nat n) n) as (s' & P' & I'); trivial; try lia.
    { destruct (Z.leb_spec (Z.of_nat k * sb + sb) (PAY r)); lia. }
    exists s'. split; trivial.
    replace (Z.of_nat (Datatypes.S k)) with (Z.of_nat k + 1) by lia.
    rewrite E3.
    now replace (c + (Z.of_nat k + 1) * Z.of_nat n)
      with (c + Z.of_nat k * Z.of_nat n + Z.of_nat n) by lia.
  - cbn [Z.of_nat]. unfold pk. RSFrames.consts.
    replace (Z.min (0 * sb) (192 * 64 + r * 64 + 192 * 2 + r * 2)) with 0 by lia.
    now rewrite Z.mul_0_l, Z.add_0_r.
  - exists st'. split; [exact P|].
    rewrite length_seq in I. cbn [Nat.add] in I.
    rewrite Z2Nat.id, pk_last in I by lia. exact I.
Qed.

Lemma group_parses (st : parse_state) (o lo : Z) (n : nat) :
  0 <= lo -> lo + Z.of_nat n <= F -> (lo + Z.of_nat n) * nsl <= 2 ^ 64 - 1 ->
  st_inv st lo lo 0 0 0 (lo * nsl) ->
  exists st',
    parses r F o (headers_of (group lo n)
                  ++ group_slices (group lo n) r (payload_len_bytes r) sb) st st'
    /\ st_inv st' (lo + Z.of_nat n) (lo + Z.of_nat n) 0 0 0 ((lo + Z.of_nat n) * nsl).
Proof using r_rng sb_rng input_len.
  intros Hlo Hn Hb Hinv. pose proof nsl_spec as (N0 & _).
  assert (0 <= lo * nsl) by (apply Z.mul_nonneg_nonneg; lia).
  destruct (headers_parse st o lo (lo * nsl) n Hlo Hn Hinv) as (s1 & P1 & I1).
  destruct (group_slices_parses s1 o lo (lo * nsl) n) as (s2 & P2 & I2); trivial; try lia.
  exists s2. split; [eapply parses_app; eassumption|].
  destruct I2 as (T & C1 & C2). split; [|split; [lia|trivial]].
  eapply tab_inv_next. exact T.
Qed.

Lemma slices_total_bound : F * nsl <= 2 ^ 64 - 1.
Proof.
  pose proof nsl_spec as (N0 & _ & N2).
  assert (HP : PAY r <= 16830).
  { pose proof r_rng as R. unfold MAX_R in R.
    unfold PAY, payload_len_bytes, FRAME_BYTES, K_SHARDS, SHARD_LEN. lia. }
  pose proof (frames_bounds input input_len) as (F0 & F1 & _). fold F in F0, F1.
  unfold FRAME_BYTES, K_SHARDS, SHARD_LEN, orig in F1.
  assert (F * nsl <= F * 16830) by (apply Z.mul_le_mono_nonneg_l; lia).
  lia.
Qed.

Lemma pack_groups_parses (D o : Z) :
  1 <= D < 2 ^ 16 ->
  forall (fuel : nat) (fbase : Z) (out : list Z) (st : parse_state),
  0 <= fbase <= F -> F - fbase <= Z.of_nat fuel ->
  st_inv st fbase fbase 0 0 0 (fbase * nsl) ->
  exists body st',
    pack_groups encode_rs_char fuel rs r D sb F (orig input) fbase
                (skipn (Z.to_nat (fbase * FRAME_BYTES)) input) out
    = Some (out ++ body)
    /\ parses r F o body st st'
    /\ st_inv st' F F 0 0 0 (F * nsl).
Proof using r_rng sb_rng input_len.
  intros HD. pose proof slices_total_bound as HT. pose proof nsl_spec as (N0 & _).
  induction fuel as [|fuel IH]; intros fbase out st Hb Hfuel Hinv.
  - assert (fbase = F) by lia. subst fbase. exists [], st. cbn [pack_groups].
    rewrite Z.ltb_irrefl, app_nil_r. split; [reflexivity|]. split; [apply parses_nil|exact Hinv].
  - cbn [pack_groups]. destruct (Z.ltb_spec fbase F) as [Hlt|Hge].
    + set (n := if D <=? F - fbase then D else F - fbase).
      assert (Hn : 1 <= n <= F - fbase /\ n < 2 ^ 16).
      { unfold n. destruct (Z.leb_spec D (F - fbase)); lia. }
      assert (En : u16 n = n) by (unfold u16; apply Z.mod_small; lia).
      rewrite En.
      replace (fbase * FRAME_BYTES) with ((fbase + Z.of_nat 0) * FRAME_BYTES)
        by (f_equal; lia).
      unfold F. rewrite pack_group_frames_eq; trivial; fold F; try lia.
      fold (group fbase (Z.to_nat n)).
      destruct (group_parses st o fbase (Z.to_nat n)) as (s1 & P1 & I1); trivial; try lia.
      { assert ((fbase + Z.of_nat (Z.to_nat n)) * nsl <= F * nsl)
          by (apply Z.mul_le_mono_nonneg_r; lia). lia. }
      replace (fbase + Z.of_nat (Z.to_nat n)) with (fbase + n) in I1 by lia.
      replace (fbase + Z.of_nat 0 + Z.of_nat (Z.to_nat n)) with (fbase + n) by lia.
      destruct (IH (fbase + n)
                   ((out ++ flat_map (fun f => fh_bytes (pf_hdr f)) (group fbase (Z.to_nat n)))
                    ++ group_slices (group fbase (Z.to_nat n)) r (payload_len_bytes r) sb)
                   s1) as (body & s2 & E & P2 & I2); trivial; try lia.
      exists ((headers_of (group fbase (Z.to_nat n))
               ++ group_slices (group fbase (Z.to_nat n)) r (payload_len_bytes r) sb)
              ++ body), s2.
      split; [|split; [eapply parses_app; eassumption|exact I2]].
      rewrite E. f_equal. unfold headers_of. now rewrite <- !app_assoc.
    + assert (fbase = F) by lia. subst fbase. exists [], st.
      rewrite app_nil_r. split; [reflexivity|]. split; [apply parses_nil|exact Hinv].
Qed.

End Parse.

End RSParse.

(** ** The RS container: decoding the frames of an intact container *)

Module RSDecode.
Import RS RSLayout RSSlices RSFrames RSParse.

Lemma set_column_own (data : list Z) (i : Z) :
  0 <= i -> set_column data i (column data K_SHARDS i) = data.
Proof.
  intros Hi. unfold set_column. apply fold_left_id. intros j Hj. apply in_seq in Hj.
  unfold column. rewrite nth_map_seq by lia. apply list_set_nth_id.
Qed.

Lemma length_fill_erasures (src : list Z) (r : Z) :
  forall acc, (length acc <= length (fill_erasures src r acc))%nat.
Proof.
  induction src as [|e src IH]; intros acc; simpl; trivial.
  destruct (Z.of_nat (length acc) <? r); trivial.
  specialize (IH (acc ++ [e])). rewrite length_app in IH. simpl in IH. lia.
Qed.

Lemma length_zrange (a b : Z) : length (zrange a b) = Z.to_nat (b - a).
Proof. unfold zrange. now rewrite length_map, length_seq. Qed.

Section Decode.

Context {rs_handle : Type}.
Variable encode_rs_char : rs_handle -> list Z -> list Z.
Variable decode_rs_char : rs_handle -> list Z -> list Z -> Z * list Z * list Z.
Variables (rs : rs_handle) (r : Z) (input : list Z).

Hypothesis r_rng : 1 <= r <= MAX_R.
Hypothesis input_len : Z.of_nat (length input) < 2 ^ 63.
Hypothesis input_ok : bytes_ok input = true.
Hypothesis enc_len : forall data,
  length data = Z.to_nat K_SHARDS -> bytes_ok data = true ->
  length (encode_rs_char rs data) = Z.to_nat r.
Hypothesis dec_ok : forall data erasures,
  length data = Z.to_nat K_SHARDS -> bytes_ok data = true ->
  fst (decode_rs_char rs (data ++ encode_rs_char rs data) erasures)
  = (0, data ++ encode_rs_char rs data).

Local Abbreviation frame := (the_frame encode_rs_char rs r input).
Local Abbreviation Fr := (frames input).

(** A frame buffer that holds a frame as it was packed. *)
Definition holds (idx : Z) (fb : frame_buf_t) : Prop :=
  fb_init fb = 1 /\ fb_data_len fb = fh_data_len (pf_hdr (frame idx)) /\
  fb_data fb = pf_data (frame idx) /\ fb_par fb = pf_par (frame idx) /\
  fb_crcD fb = pf_crcD (frame idx) /\ fb_crcP fb = pf_crcP (frame idx) /\
  fb_crcD_filled_bytes fb = K_SHARDS * 2 /\ fb_crcP_filled_bytes fb = r * 2.

Lemma holds_erasures (idx : Z) (fb : frame_buf_t) :
  0 <= idx < Fr -> holds idx fb ->
  exists erasures, frame_erasures fb r = Some erasures.
Proof using r_rng input_len.
  intros Hi (H1 & H2 & H3 & H4 & H5 & H6 & H7 & H8).
  pose proof (frame_len_bounds input input_len idx Hi) as (L1 & _).
  unfold frame_erasures, eras_data, crc_tables_present.
  rewrite H7, H8, !Z.leb_refl. cbn [andb].
  rewrite H3, H5. cbn [the_frame pf_data pf_crcD].
  rewrite no_bad_shards, app_nil_r.
  match goal with
  | |- context [if ?c then None else _] => destruct c eqn:E
  end; [|eexists; reflexivity].
  exfalso. apply Z.ltb_lt in E. revert E.
  rewrite H2. cbn [the_frame pf_hdr fh_data_len].
  unfold u16. rewrite Z.mod_small by (RSFrames.consts; lia).
  destruct (Z.ltb_spec FRAME_BYTES (frame_len input idx)); [RSFrames.consts; lia|].
  destruct (Z.ltb_spec (frame_len input idx) FRAME_BYTES); [|simpl; RSFrames.consts; lia].
  rewrite length_app, length_zrange.
  assert (0 <= frame_len input idx / SHARD_LEN) by (apply Z.div_pos; RSFrames.consts; lia).
  destruct (Z.eqb_spec (frame_len input idx mod SHARD_LEN) 0); simpl length;
    RSFrames.consts; lia.
Qed.

Lemma decode_column_intact (idx i : Z) (pad_mode : Z) (prev : option (list Z))
    (n_eras : Z) (st : col_state) :
  0 <= idx < Fr -> 0 <= i < SHARD_LEN ->
  cl_data st = pf_data (frame idx) -> cl_corrected st = 0 -> cl_fail st = 0 ->
  let st' := decode_column decode_rs_char rs r pad_mode (pf_par (frame idx)) prev
                           n_eras st i in
  cl_data st' = pf_data (frame idx) /\ cl_corrected st' = 0 /\ cl_fail st' = 0.
Proof using All.
  intros Hi Hc Hd Hco Hf. cbv zeta. unfold decode_column.
  rewrite Hd. cbn [the_frame pf_data pf_par].
  rewrite (column_the_par encode_rs_char rs r input r_rng input_len input_ok enc_len idx i Hi Hc).
  pose proof (dec_ok (column (the_data input idx) K_SHARDS i) (cl_erasures st)
                (length_column _ _ _)
                (bytes_ok_column _ _ _ (bytes_ok_the_data input input_ok idx))) as Hdec.
  destruct (decode_rs_char rs _ (cl_erasures st)) as [[ret code1] written].
  cbn [fst] in Hdec.
  pose proof (f_equal fst Hdec) as Hret. pose proof (f_equal snd Hdec) as Hcode.
  cbn [fst snd] in Hret, Hcode. clear Hdec. subst ret code1.
  cbv beta iota. change (0 <? 0) with false. cbv iota.
  cbn [cl_data cl_corrected cl_fail].
  rewrite firstn_app, length_column, Nat.sub_diag, firstn_O, app_nil_r.
  rewrite firstn_all2 by (rewrite length_column; lia).
  rewrite set_column_own by lia. rewrite Hco, Hf. repeat split; reflexivity.
Qed.

Lemma decode_columns_intact (idx : Z) (pad_mode : Z) (prev : option (list Z))
    (n_eras : Z) :
  0 <= idx < Fr ->
  forall (cols : list Z) (st : col_state),
  (forall i, In i cols -> 0 <= i < SHARD_LEN) ->
  cl_data st = pf_data (frame idx) -> cl_corrected st = 0 -> cl_fail st = 0 ->
  let st' := fold_left (decode_column decode_rs_char rs r pad_mode (pf_par (frame idx))
                                      prev n_eras)
                       cols st in
  cl_data st' = pf_data (frame idx) /\ cl_corrected st' = 0 /\ cl_fail st' = 0.
Proof using All.
  intros Hi. induction cols as [|i cols IH]; intros st Hin Hd Hco Hf; cbv zeta.
  - simpl. auto.
  - cbn [fold_left].
    destruct (decode_column_intact idx i pad_mode prev n_eras st Hi
                (Hin i (or_introl eq_refl)) Hd Hco Hf) as (D1 & D2 & D3).
    apply IH; trivial. intros j Hj. apply Hin. now right.
Qed.

(** What has been written when frame [k] is about to be decoded. *)
Definition wr (k : Z) : Z := Z.min (k * FRAME_BYTES) (orig input).

Definition tab_holds (tab : list frame_buf_t) : Prop :=
  Z.of_nat (length tab) = Fr /\
  forall idx, 0 <= idx < Fr -> holds idx (nth (Z.to_nat idx) tab frame_buf_zero).

Definition dec_inv (tab : list frame_buf_t) (k : Z) (st : decode_state) : Prop :=
  ds_tab st = tab /\ ds_out st = firstn (Z.to_nat (wr k)) input /\
  ds_written st = wr k /\ ds_total_written st = wr k /\
  ds_residual st = 0 /\ ds_corrected st = 0 /\ ds_fail st = 0.

Lemma to_write_frame (idx : Z) :
  0 <= idx < Fr ->
  wr idx = idx * FRAME_BYTES /\
  to_write (orig input) (wr idx) = frame_len input idx /\
  u64 (wr idx + frame_len input idx) = wr (idx + 1) /\
  wr idx + frame_len input idx = wr (idx + 1).
Proof using input_len.
  intros Hi. pose proof (frame_len_bounds input input_len idx Hi) as (L1 & L2 & _).
  pose proof (frames_bounds input input_len) as (F0 & F1 & _).
  assert (E : wr idx = idx * FRAME_BYTES) by (unfold wr; RSFrames.consts; lia).
  assert (E2 : wr idx + frame_len input idx = wr (idx + 1)).
  { rewrite E. unfold wr, frame_len. RSFrames.consts. lia. }
  split; [exact E|]. split; [|split; [|exact E2]].
  - unfold to_write. rewrite E. unfold u64.
    rewrite Z.mod_small by (unfold orig in *; RSFrames.consts; lia).
    unfold frame_len. destruct (Z.leb_spec FRAME_BYTES (orig input - idx * FRAME_BYTES)); lia.
  - rewrite E2. unfold u64. apply Z.mod_small. unfold wr, orig in *. RSFrames.consts. lia.
Qed.

Lemma decode_frame_intact (tab : list frame_buf_t) (pad_mode step : Z)
    (st : decode_state) (idx : Z) :
  0 <= idx < Fr -> tab_holds tab -> dec_inv tab idx st ->
  exists st',
    decode_frame decode_rs_char rs r pad_mode (orig input) step st idx = Some st'
    /\ dec_inv tab (idx + 1) st'.
Proof using All.
  intros Hi (TL & TH) (I1 & I2 & I3 & I4 & I5 & I6 & I7).
  pose proof (TH idx Hi) as Hh.
  destruct (holds_erasures idx _ Hi Hh) as (erasures & He).
  pose proof Hh as (H1 & H2 & H3 & H4 & H5 & H6 & H7 & H8).
  destruct (to_write_frame idx Hi) as (W1 & W2 & W3 & W4).
  pose proof (frame_len_bounds input input_len idx Hi) as (L1 & L2 & _).
  unfold decode_frame. rewrite I1.
  set (fb := nth (Z.to_nat idx) tab frame_buf_zero) in *.
  rewrite H1. change (1 =? 0) with false. cbv iota. rewrite He.
  rewrite I3, W2, W3, I4, W3, I5, I6, I7, H4.
  match goal with
  | |- context [fold_left ?f ?l ?s] =>
    destruct (decode_columns_intact idx pad_mode
                (if 0 <? idx
                 then if fb_init (nth (Z.to_nat (idx - 1)) tab frame_buf_zero) =? 0
                      then None
                      else Some (fb_data (nth (Z.to_nat (idx - 1)) tab frame_buf_zero))
                 else None)
                (Z.of_nat (length erasures)) Hi l s) as (C1 & C2 & C3);
      [intros i Hin; now apply in_zrange in Hin|exact H3|reflexivity|reflexivity|];
    set (c := fold_left f l s) in *
  end.
  cbv zeta in C1, C2, C3.
  eexists. split; [reflexivity|].
  unfold dec_inv. cbn [ds_tab ds_out ds_written ds_total_written ds_residual
                       ds_corrected ds_fail ds_used_erasures].
  split; [|split; [|split; [|split; [|split; [|split]]]]]; trivial.
  - rewrite C1, <- H3, set_data_id. apply list_set_nth_id.
  - rewrite I2, C1. cbn [the_frame pf_data]. unfold the_data.
    rewrite sub_app_whole
      by (symmetry; apply length_sub_Z; unfold orig in *; RSFrames.consts; lia).
    unfold sub. rewrite <- W4, W1.
    rewrite firstn_firstn_skipn. f_equal. RSFrames.consts. lia.
  - unfold crc_tables_present. rewrite H7, H8, !Z.leb_refl. cbn [andb].
    rewrite C1, H5. cbn [the_frame pf_data pf_crcD].
    rewrite no_bad_shards. reflexivity.
Qed.

Lemma decode_frames_intact (tab : list frame_buf_t) (pad_mode step : Z) :
  tab_holds tab ->
  forall (n a : nat) (st : decode_state),
  Z.of_nat a + Z.of_nat n = Fr -> dec_inv tab (Z.of_nat a) st ->
  exists st',
    decode_frames decode_rs_char rs r pad_mode (orig input) step
                  (map (fun k => 0 + Z.of_nat k) (seq a n)) st = Some st'
    /\ dec_inv tab Fr st'.
Proof using All.
  intros Ht. induction n as [|n IH]; intros a st Ha Hinv.
  - exists st. split; [reflexivity|]. now replace Fr with (Z.of_nat a) by lia.
  - cbn [seq map decode_frames]. rewrite Z.add_0_l.
    destruct (decode_frame_intact tab pad_mode step st (Z.of_nat a) ltac:(lia) Ht Hinv)
      as (st1 & E1 & I1).
    rewrite E1. apply IH; [lia|].
    now replace (Z.of_nat (Datatypes.S a)) with (Z.of_nat a + 1) by lia.
Qed.

Lemma wr_last : wr Fr = orig input.
Proof using input_len.
  pose proof (frames_bounds input input_len) as (F0 & F1 & _).
  unfold wr. RSFrames.consts. lia.
Qed.

Lemma tab_inv_holds (tab : list frame_buf_t) :
  tab_inv encode_rs_char rs r input tab Fr Fr 0 0 0 -> tab_holds tab.
Proof using r_rng input_len.
  intros (L & H). split; [exact L|]. intros idx Hi.
  destruct (H idx Hi) as (H1 & _). cbv zeta in H1.
  apply frame_at_done; [lia| |apply H1; lia].
  now apply the_frame_sized.
Qed.

End Decode.

End RSDecode.

(** ** The RS container: pack, then unpack *)

Module RSRound.
Import RS RSSpec RSLayout RSSlices RSFrames RSParse RSDecode.

Lemma skipn_header {A} (a b : list A) (n : nat) :
  n = length a -> skipn n (a ++ b) = b.
Proof.
  intros ->. rewrite skipn_app, skipn_all, Nat.sub_diag. reflexivity.
Qed.

Section RoundTrip.

Context {rs_handle : Type}.
Variable init_rs_char : Z -> Z -> Z -> Z -> Z -> Z -> option rs_handle.
Variable encode_rs_char : rs_handle -> list Z -> list Z.
Variable decode_rs_char : rs_handle -> list Z -> list Z -> Z * list Z * list Z.

Variables (rs : rs_handle) (r il sb : Z) (input : list Z).

Hypothesis r_rng : 1 <= r <= MAX_R.
Hypothesis il_rng : 1 <= il < 2 ^ 16.
Hypothesis sb_rng : 1 <= sb < 2 ^ 16.
Hypothesis input_len : Z.of_nat (length input) < 2 ^ 63.
Hypothesis input_ok : bytes_ok input = true.
Hypothesis init_ok : init_rs_char 8 0x11d 1 1 r (compute_pad r) = Some rs.
Hypothesis enc_len : forall data,
  length data = Z.to_nat K_SHARDS -> bytes_ok data = true ->
  length (encode_rs_char rs data) = Z.to_nat r.
Hypothesis dec_ok : forall data erasures,
  length data = Z.to_nat K_SHARDS -> bytes_ok data = true ->
  fst (decode_rs_char rs (data ++ encode_rs_char rs data) erasures)
  = (0, data ++ encode_rs_char rs data).

(** The global header pack writes. *)
Definition the_header : rsct_header_v4_t :=
  {| gh_magic := GLOBAL_MAGIC; gh_version := 4; gh_k := K_SHARDS;
     gh_r := u16 r; gh_shard_len := SHARD_LEN; gh_pad := u16 (compute_pad r);
     gh_original_size := orig input; gh_frame_count := frames input;
     gh_il_depth := u16 il; gh_slice_bytes := u16 sb; gh_reserved := 0 |}.

Lemma the_header_range : gh_in_range the_header.
Proof using r_rng input_len.
  pose proof (frames_bounds input input_len) as (F0 & _ & F2).
  unfold gh_in_range, the_header.
  cbn [gh_magic gh_version gh_k gh_r gh_shard_len gh_pad gh_original_size
       gh_frame_count gh_il_depth gh_slice_bytes gh_reserved].
  unfold u16, orig, GLOBAL_MAGIC, K_SHARDS, SHARD_LEN.
  pose proof (Z.mod_pos_bound r 65536 ltac:(lia)).
  pose proof (Z.mod_pos_bound (compute_pad r) 65536 ltac:(lia)).
  pose proof (Z.mod_pos_bound il 65536 ltac:(lia)).
  pose proof (Z.mod_pos_bound sb 65536 ltac:(lia)).
  repeat split; lia.
Qed.

Lemma pack_impl_intact :
  exists body st',
    pack_impl init_rs_char encode_rs_char false (Some input) true r il sb
    = Some (0, Some (gh_bytes the_header ++ body))
    /\ parses r (frames input) (orig input) body
              {| ps_tab := repeat frame_buf_zero (Z.to_nat (frames input));
                 ps_slices_ok := 0; ps_slices_bad := 0 |} st'
    /\ st_inv encode_rs_char rs r input st' (frames input) (frames input) 0 0 0
              (frames input * nsl r sb).
Proof using r_rng il_rng sb_rng input_len init_ok.
  pose proof (frames_bounds input input_len) as (F0 & F1 & F2).
  destruct (pack_groups_parses encode_rs_char rs r input sb r_rng input_len sb_rng
              il (orig input) il_rng (Z.to_nat (frames input)) 0 (gh_bytes the_header)
              {| ps_tab := repeat frame_buf_zero (Z.to_nat (frames input));
                 ps_slices_ok := 0; ps_slices_bad := 0 |})
    as (body & st' & E & P & I).
  { unfold F. lia. }
  { unfold F. lia. }
  { split; [apply tab_inv_init; exact input_len|]. split; reflexivity. }
  exists body, st'. split; [|split; [exact P|exact I]].
  unfold pack_impl.
  replace ((r <=? 0) || (MAX_R <? r)) with false
    by (symmetry; apply orb_false_iff; split; [apply Z.leb_gt|apply Z.ltb_ge]; lia).
  replace (il <=? 0) with false by (symmetry; apply Z.leb_gt; lia).
  replace (sb <=? 0) with false by (symmetry; apply Z.leb_gt; lia).
  replace (compute_pad r <? 0) with false
    by (symmetry; apply Z.ltb_ge; unfold compute_pad, K_SHARDS, MAX_R in *; lia).
  rewrite init_ok. cbn [negb]. cbv zeta.
  cbn [gh_il_depth gh_slice_bytes].
  replace (u16 sb =? 0) with false
    by (symmetry; apply Z.eqb_neq; unfold u16; rewrite Z.mod_small; lia).
  replace (u64 (Z.of_nat (length input) + FRAME_BYTES - 1) / FRAME_BYTES)
    with (frames input)
    by (unfold frames, orig, u64; rewrite Z.mod_small;
        unfold FRAME_BYTES, K_SHARDS, SHARD_LEN; try reflexivity; lia).
  fold (orig input). fold the_header.
  replace (u16 il) with il by (unfold u16; rewrite Z.mod_small; lia).
  replace (u16 sb) with sb by (unfold u16; rewrite Z.mod_small; lia).
  change (skipn (Z.to_nat (0 * FRAME_BYTES)) input) with input in E.
  unfold F in E. rewrite E. reflexivity.
Qed.

Lemma unpack_intact (body : list Z) (st' : parse_state) (step pad_mode : Z) :
  parses r (frames input) (orig input) body
         {| ps_tab := repeat frame_buf_zero (Z.to_nat (frames input));
            ps_slices_ok := 0; ps_slices_bad := 0 |} st' ->
  st_inv encode_rs_char rs r input st' (frames input) (frames input) 0 0 0
         (frames input * nsl r sb) ->
  exists u,
    rs_unpack_internal init_rs_char decode_rs_char false step
                       (Some (gh_bytes the_header ++ body)) true pad_mode = Some u
    /\ un_ret u = 0 /\ un_out u = Some input
    /\ frames_total (un_stats u) = frames input
    /\ slices_ok (un_stats u) = frames input * nsl r sb
    /\ slices_bad (un_stats u) = 0
    /\ rs_fail_columns (un_stats u) = 0
    /\ corrected_symbols (un_stats u) = 0
    /\ ber_est (un_stats u) = 0%Q.
Proof using All.
  intros P (T & Cok & Cbad).
  pose proof (frames_bounds input input_len) as (F0 & F1 & F2).
  pose proof (tab_inv_holds encode_rs_char rs r input r_rng input_len _ T) as Hh.
  destruct (decode_frames_intact encode_rs_char decode_rs_char rs r input r_rng input_len
              input_ok enc_len dec_ok (ps_tab st') pad_mode step Hh
              (Z.to_nat (frames input - 0)) 0%nat
              {| ds_tab := ps_tab st'; ds_out := []; ds_written := 0;
                 ds_total_written := 0; ds_residual := 0; ds_corrected := 0;
                 ds_used_erasures := 0; ds_fail := 0 |})
    as (ds & Ed & (D1 & D2 & D3 & D4 & D5 & D6 & D7)).
  { lia. }
  { unfold dec_inv, wr. cbn [ds_tab ds_out ds_written ds_total_written ds_residual
      ds_corrected ds_fail Z.of_nat].
    assert (E0 : Z.min (0 * FRAME_BYTES) (orig input) = 0) by (unfold orig; lia).
    rewrite E0. repeat split; reflexivity. }
  unfold rs_unpack_internal. cbn [negb].
  replace (Z.of_nat (length (gh_bytes the_header ++ body)) <? gh_size) with false
    by (symmetry; apply Z.ltb_ge; rewrite length_app, Nat2Z.inj_add, length_gh_bytes; lia).
  rewrite (gh_parse_bytes the_header body the_header_range).
  replace (skipn (Z.to_nat gh_size) (gh_bytes the_header ++ body)) with body
    by (symmetry; apply (skipn_header (gh_bytes the_header) body); reflexivity).
  cbv zeta.
  cbn [the_header gh_magic gh_version gh_k gh_shard_len gh_r gh_pad gh_frame_count
       gh_original_size gh_slice_bytes].
  rewrite !Z.eqb_refl. cbn [negb orb].
  replace (u16 r) with r by (unfold u16; rewrite Z.mod_small; unfold MAX_R in *; lia).
  replace (u16 (compute_pad r)) with (compute_pad r)
    by (unfold u16; rewrite Z.mod_small; unfold compute_pad, K_SHARDS, MAX_R in *; lia).
  replace ((r <=? 0) || (MAX_R <? r)) with false
    by (symmetry; apply orb_false_iff; split; [apply Z.leb_gt|apply Z.ltb_ge]; lia).
  rewrite init_ok.
  replace (negb (calloc_fits (frames input) sizeof_frame_buf_t)) with false
    by (symmetry; apply negb_false_iff, Z.ltb_lt; unfold sizeof_frame_buf_t; lia).
  rewrite (parses_run _ _ _ _ _ _ P).
  unfold zrange at 1. rewrite Ed.
  eexists. split; [reflexivity|].
  cbn [un_ret un_out un_stats frames_total slices_ok slices_bad rs_fail_columns
       corrected_symbols ber_est].
  rewrite D2, D4, D5, D6, D7, Cok, Cbad.
  rewrite (wr_last input input_len).
  split; [reflexivity|]. split.
  { f_equal. unfold orig. rewrite Nat2Z.id. apply firstn_all. }
  repeat split; try reflexivity.
  now rewrite andb_false_r.
Qed.

End RoundTrip.

(** Pack and unpack with one codec, on files that can be opened, without a
    cancellation: the container unpacks to the input, every slice is
    accepted, nothing fails and nothing is corrected. *)
Lemma round_trip {rs_handle : Type}
    (init_rs_char : Z -> Z -> Z -> Z -> Z -> Z -> option rs_handle)
    (encode_rs_char : rs_handle -> list Z -> list Z)
    (decode_rs_char : rs_handle -> list Z -> list Z -> Z * list Z * list Z)
    (r il sb step pad_mode : Z) (input : list Z) :
  1 <= r <= MAX_R -> 1 <= il < 2 ^ 16 -> 1 <= sb < 2 ^ 16 ->
  codec_ok init_rs_char encode_rs_char decode_rs_char r ->
  bytes_ok input = true -> Z.of_nat (length input) < 2 ^ 63 ->
  exists c u,
    pack_impl init_rs_char encode_rs_char false (Some input) true r il sb
    = Some (0, Some c)
    /\ rs_unpack_internal init_rs_char decode_rs_char false step (Some c) true pad_mode
       = Some u
    /\ un_ret u = 0 /\ un_out u = Some input
    /\ frames_total (un_stats u) = frames input
    /\ slices_ok (un_stats u) = frames input * slices_per_frame r sb
    /\ slices_bad (un_stats u) = 0
    /\ rs_fail_columns (un_stats u) = 0
    /\ corrected_symbols (un_stats u) = 0
    /\ ber_est (un_stats u) = 0%Q.
Proof.
  intros Hr Hil Hsb (rs & Hinit & Henc & Hdec) Hok Hlen.
  destruct (pack_impl_intact init_rs_char encode_rs_char rs r il sb input
              Hr Hil Hsb Hlen Hinit) as (body & st' & Ep & P & I).
  destruct (unpack_intact init_rs_char encode_rs_char decode_rs_char rs r il sb input
              Hr Hil Hsb Hlen Hok Hinit Henc Hdec body st' step pad_mode P I)
    as (u & Eu & U).
  exists (gh_bytes (the_header r il sb input) ++ body), u.
  split; [exact Ep|]. split; [exact Eu|exact U].
Qed.

End RSRound.

(** ** The codec over GF(256) meets the contract *)

Module CodecFacts.
Import RS RSSpec Codec.

Lemma length_xor_lists (a : list Z) :
  forall b, length a = length b -> length (xor_lists a b) = length a.
Proof.
  induction a as [|x a IH]; intros [|y b] H; simpl in *; try lia.
  now rewrite IH by lia.
Qed.

Lemma length_genpoly (n : nat) : length (genpoly n) = Datatypes.S n.
Proof.
  induction n as [|n IH]; [reflexivity|].
  cbn [genpoly]. rewrite length_xor_lists; simpl length.
  - now rewrite IH.
  - rewrite length_app, length_map. simpl. lia.
Qed.

Lemma length_lfsr_step (g parity : list Z) (d : Z) :
  parity <> [] -> length g = length parity ->
  length (lfsr_step g parity d) = length parity.
Proof.
  intros Hne Hg. unfold lfsr_step.
  assert (L : length (tl parity ++ [0]) = length parity).
  { destruct parity; [congruence|]. simpl. rewrite length_app. simpl. lia. }
  rewrite length_xor_lists; [exact L|].
  now rewrite L, length_map, length_rev.
Qed.

Lemma length_lfsr_fold (g : list Z) (data : list Z) :
  forall parity, parity <> [] -> length g = length parity ->
  length (fold_left (lfsr_step g) data parity) = length parity.
Proof.
  induction data as [|d data IH]; intros parity Hne Hg; simpl; trivial.
  assert (L := length_lfsr_step g parity d Hne Hg).
  rewrite IH; trivial.
  - intros E. rewrite E in L. destruct parity; [congruence|]. simpl in L. lia.
  - lia.
Qed.

Lemma list_Z_eqb_refl (l : list Z) : list_Z_eqb l l = true.
Proof. induction l as [|x l IH]; simpl; [trivial|now rewrite Z.eqb_refl]. Qed.

Lemma init_rs_char_ok (r : Z) :
  1 <= r <= MAX_R ->
  init_rs_char 8 0x11d 1 1 r (compute_pad r)
  = Some {| h_nroots := r; h_pad := compute_pad r; h_genpoly := genpoly (Z.to_nat r) |}.
Proof.
  intros Hr. unfold init_rs_char, compute_pad, K_SHARDS, MAX_R in *.
  change (8 =? 8) with true. change (285 =? 285) with true. change (1 =? 1) with true.
  cbn [andb].
  destruct (Z.leb_spec 0 r); [|lia]. destruct (Z.ltb_spec r 256); [|lia].
  destruct (Z.leb_spec 0 (255 - (192 + r))); [|lia].
  destruct (Z.ltb_spec (255 - (192 + r)) (255 - r)); [|lia].
  reflexivity.
Qed.

Lemma codec_meets_contract (r : Z) :
  1 <= r <= MAX_R -> codec_ok init_rs_char encode_rs_char decode_rs_char r.
Proof.
  intros Hr. eexists. split; [now apply init_rs_char_ok|].
  assert (Hk : Z.to_nat (255 - r - compute_pad r) = Z.to_nat K_SHARDS).
  { unfold compute_pad, K_SHARDS. f_equal. lia. }
  assert (Henc : forall data, length (encode_rs_char
                   {| h_nroots := r; h_pad := compute_pad r;
                      h_genpoly := genpoly (Z.to_nat r) |} data) = Z.to_nat r).
  { intros data. unfold encode_rs_char. cbn [h_nroots h_pad h_genpoly].
    rewrite length_lfsr_fold; rewrite ?repeat_length; trivial.
    - intros E. apply (f_equal (@length Z)) in E. rewrite repeat_length in E.
      simpl in E. unfold MAX_R in Hr. lia.
    - rewrite length_firstn, length_genpoly. lia. }
  split.
  - intros data _ _. apply Henc.
  - intros data erasures Hd _. unfold decode_rs_char. cbn [h_nroots h_pad].
    rewrite Hk, <- Hd.
    rewrite skipn_app, skipn_all, Nat.sub_diag, skipn_O.
    rewrite firstn_app, Nat.sub_diag, firstn_O, firstn_all, app_nil_r.
    cbn [app]. now rewrite list_Z_eqb_refl.
Qed.

End CodecFacts.

(** ** The RS container: the erasure list and the parameters of pack *)

Module RSErasures.
Import RS RSSpec.

Lemma fill_erasures_firstn (src : list Z) (r : Z) :
  forall acc,
  fill_erasures src r acc = acc ++ firstn (Z.to_nat (r - Z.of_nat (length acc))) src.
Proof.
  induction src as [|e src IH]; intros acc.
  - simpl. now rewrite firstn_nil, app_nil_r.
  - cbn [fill_erasures]. destruct (Z.ltb_spec (Z.of_nat (length acc)) r).
    + rewrite IH, length_app, <- app_assoc. cbn [length app]. f_equal.
      replace (Z.to_nat (r - Z.of_nat (length acc)))
        with (Datatypes.S (Z.to_nat (r - Z.of_nat (length acc + 1)))) by lia.
      reflexivity.
    + replace (Z.to_nat (r - Z.of_nat (length acc))) with 0%nat by lia.
      simpl. now rewrite app_nil_r.
Qed.

Lemma frame_erasures_firstn (fb : frame_buf_t) (r : Z) :
  frame_erasures fb r
  = if K_SHARDS <? Z.of_nat (length (eras_data fb r)) then None
    else Some (firstn (Z.to_nat r) (eras_data fb r ++ eras_par fb r)).
Proof.
  unfold frame_erasures. destruct (K_SHARDS <? _); [reflexivity|]. f_equal.
  rewrite !fill_erasures_firstn. cbn [app length]. rewrite Z.sub_0_r.
  rewrite firstn_app, length_firstn. f_equal. f_equal. lia.
Qed.

(** Lists in increasing order. *)
Fixpoint ascending (l : list Z) : Prop :=
  match l with
  | [] => True
  | x :: t => (forall y, In y t -> x <= y) /\ ascending t
  end.

Lemma ascending_seq (a : Z) (n : nat) :
  forall s, ascending (map (fun k => a + Z.of_nat k) (seq s n)).
Proof.
  induction n as [|n IH]; intros s; simpl; [trivial|]. split; [|apply IH].
  intros y Hy. apply in_map_iff in Hy as (k & <- & Hk). apply in_seq in Hk. lia.
Qed.

Lemma ascending_zrange (a b : Z) : ascending (zrange a b).
Proof. apply ascending_seq. Qed.

Lemma ascending_filter (f : Z -> bool) (l : list Z) :
  ascending l -> ascending (filter f l).
Proof.
  induction l as [|x l IH]; simpl; trivial. intros (H1 & H2).
  destruct (f x); simpl; auto. split; auto.
  intros y Hy. apply filter_In in Hy as (Hy & _). auto.
Qed.

Lemma ascending_map_add (c : Z) (l : list Z) :
  ascending l -> ascending (map (fun j => c + j) l).
Proof.
  induction l as [|x l IH]; simpl; trivial. intros (H1 & H2). split; auto.
  intros y Hy. apply in_map_iff in Hy as (z & <- & Hz). specialize (H1 z Hz). lia.
Qed.

Lemma increasing_ascending (l : list Z) : ascending l -> increasing l = l.
Proof.
  induction l as [|x l IH]; simpl; trivial. intros (H1 & H2).
  unfold increasing in *. simpl. rewrite IH by assumption.
  destruct l as [|y t]; simpl; trivial.
  destruct (Z.leb_spec x y); trivial. specialize (H1 y (or_introl eq_refl)). lia.
Qed.

Lemma zrange_snoc (n : nat) : zrange 0 (Z.of_nat (S n)) = zrange 0 (Z.of_nat n) ++ [Z.of_nat n].
Proof.
  unfold zrange. rewrite !Z.sub_0_r, !Nat2Z.id, seq_S, map_app. reflexivity.
Qed.

(** Rounding a quotient up, the way the code does it and as a formula. *)
Lemma ceil_div (a b : Z) :
  0 < b -> a / b + (if a mod b =? 0 then 0 else 1) = (a + b - 1) / b.
Proof.
  intros Hb. pose proof (Z.div_mod a b ltac:(lia)) as E.
  pose proof (Z.mod_pos_bound a b Hb) as M.
  destruct (Z.eqb_spec (a mod b) 0) as [Z0|N0].
  - apply (Z.div_unique_pos _ _ _ (b - 1)); lia.
  - apply (Z.div_unique_pos _ _ _ (a mod b - 1)); lia.
Qed.

Lemma eras_par_ascending (fb : frame_buf_t) (r : Z) : ascending (eras_par fb r).
Proof.
  unfold eras_par. destruct (crc_tables_present fb r); [|exact I].
  apply ascending_map_add, ascending_filter, ascending_zrange.
Qed.

Ltac zcases :=
  repeat match goal with
  | |- context [Z.leb ?a ?b] => destruct (Z.leb_spec a b)
  | |- context [Z.ltb ?a ?b] => destruct (Z.ltb_spec a b)
  end; cbn [andb orb]; try lia; try reflexivity.

(** The parameters pack works with. *)
Lemma pack_impl_defaults {rs_handle : Type}
    (init_rs_char : Z -> Z -> Z -> Z -> Z -> Z -> option rs_handle)
    (encode_rs_char : rs_handle -> list Z -> list Z)
    (g_cancel : bool) (input : option (list Z)) (out_ok : bool) (r il sb : Z) :
  pack_impl init_rs_char encode_rs_char g_cancel input out_ok r il sb
  = pack_impl init_rs_char encode_rs_char g_cancel input out_ok
              (default_r r) (default_il_depth il) (default_slice_bytes sb).
Proof.
  unfold pack_impl.
  assert (Er : (if (default_r r <=? 0) || (MAX_R <? default_r r) then 16 else default_r r)
               = (if (r <=? 0) || (MAX_R <? r) then 16 else r)).
  { unfold default_r, MAX_R.
    destruct (Z.leb_spec 1 r), (Z.leb_spec r 63); cbn [andb]; zcases. }
  assert (Ei : (if default_il_depth il <=? 0 then IL_DEPTH_DEFAULT else default_il_depth il)
               = (if il <=? 0 then IL_DEPTH_DEFAULT else il)).
  { unfold default_il_depth, IL_DEPTH_DEFAULT. destruct (Z.ltb_spec 0 il); zcases. }
  assert (Es : (if default_slice_bytes sb <=? 0 then SLICE_BYTES_DEFAULT
                else default_slice_bytes sb)
               = (if sb <=? 0 then SLICE_BYTES_DEFAULT else sb)).
  { unfold default_slice_bytes, SLICE_BYTES_DEFAULT. destruct (Z.ltb_spec 0 sb); zcases. }
  rewrite Er, Ei, Es. reflexivity.
Qed.

Lemma pack_impl_no_validation_error {rs_handle : Type}
    (init_rs_char : Z -> Z -> Z -> Z -> Z -> Z -> option rs_handle)
    (encode_rs_char : rs_handle -> list Z -> list Z)
    (g_cancel : bool) (input : option (list Z)) (out_ok : bool) (r il sb : Z)
    (ret : Z) (out : option (list Z)) :
  pack_impl init_rs_char encode_rs_char g_cancel input out_ok r il sb = Some (ret, out) ->
  ret = -1 \/ ret = -2 \/ ret = -3 \/ ret = 0 \/ ret = 1.
Proof.
  unfold pack_impl.
  set (r1 := if (r <=? 0) || (MAX_R <? r) then 16 else r).
  assert (Hr1 : 1 <= r1 <= 63).
  { unfold r1, MAX_R. destruct (Z.leb_spec r 0), (Z.ltb_spec 63 r); cbn [orb]; lia. }
  replace (compute_pad r1 <? 0) with false
    by (symmetry; apply Z.ltb_ge; unfold compute_pad, K_SHARDS; lia).
  destruct (init_rs_char 8 285 1 1 r1 (compute_pad r1)); [|intros [= <- _]; auto].
  destruct input; [|intros [= <- _]; auto].
  destruct out_ok; cbn [negb]; [|intros [= <- _]; auto 6].
  cbv zeta. destruct (_ =? 0); [discriminate|].
  destruct g_cancel; [intros [= <- _]; auto 6|].
  destruct (pack_groups _ _ _ _ _ _ _ _ _ _ _); [intros [= <- _]; auto 6|discriminate].
Qed.

(** The loop over the groups ends: a group takes at least one frame when
    the interleave depth is not 0. *)
Lemma pack_groups_returns {rs_handle : Type}
    (encode_rs_char : rs_handle -> list Z -> list Z)
    (rs : rs_handle) (r D S frames orig : Z) :
  1 <= D < 2 ^ 16 ->
  forall (fuel : nat) (fbase : Z) (fi out : list Z),
  frames - fbase <= Z.of_nat fuel ->
  exists out', pack_groups encode_rs_char fuel rs r D S frames orig fbase fi out = Some out'.
Proof.
  intros HD. induction fuel as [|fuel IH]; intros fbase fi out Hf; cbn [pack_groups].
  - destruct (Z.ltb_spec fbase frames); [lia|]. now exists out.
  - destruct (Z.ltb_spec fbase frames); [|now exists out].
    set (n := if D <=? frames - fbase then D else frames - fbase).
    assert (Hn : 1 <= n < 2 ^ 16) by (unfold n; destruct (Z.leb_spec D (frames - fbase)); lia).
    assert (En : u16 n = n) by (unfold u16; apply Z.mod_small; lia).
    rewrite En.
    destruct (pack_group_frames _ _ _ _ _ _ _ _) as [fs fi1].
    apply IH. lia.
Qed.

Lemma pack_impl_returns {rs_handle : Type}
    (init_rs_char : Z -> Z -> Z -> Z -> Z -> Z -> option rs_handle)
    (encode_rs_char : rs_handle -> list Z -> list Z)
    (g_cancel : bool) (input : option (list Z)) (out_ok : bool) (r il sb : Z) :
  u16 (default_il_depth il) <> 0 -> u16 (default_slice_bytes sb) <> 0 ->
  exists ret out,
    pack_impl init_rs_char encode_rs_char g_cancel input out_ok r il sb = Some (ret, out).
Proof.
  intros Hil Hsb. rewrite pack_impl_defaults. unfold pack_impl.
  destruct (_ <? 0); [eauto|].
  destruct (init_rs_char _ _ _ _ _ _) as [rs|]; [|eauto].
  destruct input as [fi|]; [|eauto].
  destruct out_ok; cbn [negb]; [|eauto].
  cbv zeta. cbn [gh_il_depth gh_slice_bytes].
  assert (Ei : (if default_il_depth il <=? 0 then IL_DEPTH_DEFAULT else default_il_depth il)
               = default_il_depth il).
  { unfold default_il_depth, IL_DEPTH_DEFAULT. destruct (Z.ltb_spec 0 il); zcases. }
  assert (Es : (if default_slice_bytes sb <=? 0 then SLICE_BYTES_DEFAULT
                else default_slice_bytes sb) = default_slice_bytes sb).
  { unfold default_slice_bytes, SLICE_BYTES_DEFAULT. destruct (Z.ltb_spec 0 sb); zcases. }
  rewrite Ei, Es.
  destruct (Z.eqb_spec (u16 (default_slice_bytes sb)) 0); [contradiction|].
  destruct g_cancel; [eauto|].
  match goal with
  | |- context [pack_groups ?e ?n ?h ?a ?D ?S ?fr ?og ?fb ?l ?o] =>
    assert (X : 1 <= D < 2 ^ 16 -> fr - fb <= Z.of_nat n ->
                exists out', pack_groups e n h a D S fr og fb l o = Some out')
      by (intros X1 X2; now apply pack_groups_returns);
    destruct X as (out' & E)
  end.
  - pose proof (Z.mod_pos_bound (default_il_depth il) 65536 ltac:(lia)).
    unfold u16 in *. lia.
  - assert (0 <= u64 (Z.of_nat (length fi) + FRAME_BYTES - 1) / FRAME_BYTES).
    { apply Z.div_pos; [unfold u64; apply Z.mod_pos_bound; lia|unfold FRAME_BYTES, K_SHARDS, SHARD_LEN; lia]. }
    lia.
  - rewrite E. eauto.
Qed.

End RSErasures.

(** * The claims about the CRC engines and the bit-wrap codec *)

Module BitClaims.
Import CRC CRCFacts BitIO KMP Bitwrap BitIOFacts KMPFacts ReaderFacts UnwrapFacts
       UnwrapTop WrapFacts.

(** The check values of the two CRCs on the ASCII string 123456789. *)
Example crc32_check_value :
  crc32_ref [49;50;51;52;53;54;55;56;57] = 0xCBF43926.
Proof. reflexivity. Qed.

Example crc16_check_value :
  crc16_ref [49;50;51;52;53;54;55;56;57] = 0x29B1.
Proof. reflexivity. Qed.

(** C6.  In every state the tables can be in, and for every sequence of
    bytes, [crc32_calc] returns the reflected IEEE 802.3 CRC-32 (polynomial
    0xEDB88320, initial value 0xFFFFFFFF, final xor 0xFFFFFFFF) and
    [crc16_ccitt] returns CRC-16-CCITT (polynomial 0x1021, initial value
    0xFFFF, no reflection, no final xor); a call leaves the tables in a good
    state, and a second call on the same bytes returns the same value. *)
Theorem crc_engines_compute_reference (st : crc_state) (buf : list Z) :
  crc_state_ok st -> bytes_ok buf = true ->
  fst (crc32_calc st buf) = crc32_ref buf /\
  fst (crc16_ccitt st buf) = crc16_ref buf /\
  crc_state_ok (snd (crc32_calc st buf)) /\
  crc_state_ok (snd (crc16_ccitt st buf)) /\
  fst (crc32_calc (snd (crc32_calc st buf)) buf) = fst (crc32_calc st buf) /\
  fst (crc16_ccitt (snd (crc16_ccitt st buf)) buf) = fst (crc16_ccitt st buf).
Proof.
  intros Hst Hb.
  assert (H32 : crc_state_ok (snd (crc32_calc st buf))) by (apply crc32_init_ok, Hst).
  assert (H16 : crc_state_ok (snd (crc16_ccitt st buf))) by (apply crc16_init_ok, Hst).
  repeat split; try apply H32; try apply H16.
  - now apply crc32_calc_ref.
  - now apply crc16_ccitt_ref.
  - now rewrite !crc32_calc_ref.
  - now rewrite !crc16_ccitt_ref.
Qed.

Lemma crc_engines_compute_reference_witness :
  fst (crc32_calc crc_state0 [49;50;51]) = crc32_ref [49;50;51] /\
  fst (crc16_ccitt crc_state0 [49;50;51]) = crc16_ref [49;50;51] /\
  crc_state_ok (snd (crc32_calc crc_state0 [49;50;51])) /\
  crc_state_ok (snd (crc16_ccitt crc_state0 [49;50;51])) /\
  fst (crc32_calc (snd (crc32_calc crc_state0 [49;50;51])) [49;50;51])
    = fst (crc32_calc crc_state0 [49;50;51]) /\
  fst (crc16_ccitt (snd (crc16_ccitt crc_state0 [49;50;51])) [49;50;51])
    = fst (crc16_ccitt crc_state0 [49;50;51]).
Proof.
  apply (crc_engines_compute_reference crc_state0 [49;50;51]).
  - split; simpl; discriminate.
  - reflexivity.
Defined.

(** C7.  For a non-empty pattern and any sequence fed one symbol at a time
    from a freshly reset matcher, [feed] answers true at position [i]
    exactly when an occurrence of the pattern ends at [i], overlapping
    occurrences included; the failure table gives, for every non-empty
    prefix of the pattern, the length of its longest proper prefix that is
    also its suffix; and after a match the state is the table's last entry. *)
Theorem kmp_feed_finds_every_occurrence (pat text : list Z) :
  pat <> [] ->
  length (feed_all (reset pat) text) = length text /\
  (forall i, (i < length text)%nat ->
     (nth i (feed_all (reset pat) text) false = true <-> occurs_end pat text i)) /\
  (forall j, (1 <= j <= length pat)%nat ->
     longest_border (firstn j pat) (nth (j - 1) (lps_ (reset pat)) 0%nat)) /\
  (forall k b, fst (feed k b) = true ->
     j_ (snd (feed k b)) = nth (length (pat_ k) - 1) (lps_ k) 0%nat).
Proof.
  intros Hne.
  destruct (feed_all_spec pat text (reset pat) [] eq_refl (reset_lps_spec pat)
              (reset_state_ok pat Hne)) as [Hlen Hocc].
  split; [exact Hlen|]. split; [exact Hocc|]. split.
  - intros j Hj. apply lps_spec_longest_border; trivial. apply reset_lps_spec.
  - intros k b. unfold feed.
    destruct (b =? nth _ (pat_ k) 0); [|discriminate].
    destruct (Nat.eqb_spec (S (fall_back (j_ k) (pat_ k) (lps_ k) b (j_ k)))
                           (length (pat_ k))) as [E|E]; [|discriminate].
    intros _. cbn [snd j_]. now rewrite E.
Qed.

Lemma kmp_feed_finds_every_occurrence_witness :
  length (feed_all (reset [1;0;1]) [1;0;1;0;1]) = length [1;0;1;0;1] /\
  (forall i, (i < length [1;0;1;0;1])%nat ->
     (nth i (feed_all (reset [1;0;1]) [1;0;1;0;1]) false = true
      <-> occurs_end [1;0;1] [1;0;1;0;1] i)) /\
  (forall j, (1 <= j <= length [1;0;1])%nat ->
     longest_border (firstn j [1;0;1]) (nth (j - 1) (lps_ (reset [1;0;1])) 0%nat)) /\
  (forall k b, fst (feed k b) = true ->
     j_ (snd (feed k b)) = nth (length (pat_ k) - 1) (lps_ k) 0%nat).
Proof.
  apply (kmp_feed_finds_every_occurrence [1;0;1] [1;0;1;0;1]). discriminate.
Defined.

(** The matcher on 10101 with the pattern 101: matches end at positions 2
    and 4, the second overlapping the first. *)
Example kmp_overlap :
  feed_all (reset [1;0;1]) [1;0;1;0;1] = [false; false; true; false; true].
Proof. reflexivity. Qed.

(** C10.  For every writer the class can be in (any bit offset 0..7) and
    every byte sequence, [write_full_bytes] appends exactly the bits of the
    bytes, most significant bit first; the bit-by-bit path does the same
    from any offset, so on an aligned writer the verbatim path and the
    bit-by-bit path append the same bits. *)
Theorem write_full_bytes_appends_bits (w : BitWriter) (bytes : list Z) :
  writer_ok w = true ->
  writer_bits (write_full_bytes w bytes) = writer_bits w ++ bytes_bits bytes /\
  writer_bits (write_bytes_as_bits_ w bytes) = writer_bits w ++ bytes_bits bytes /\
  writer_bits (write_full_bytes w bytes) = writer_bits (write_bytes_as_bits_ w bytes) /\
  writer_ok (write_full_bytes w bytes) = true.
Proof.
  intros Hok.
  destruct (write_full_bytes_okb w bytes Hok) as [H1 H2].
  destruct (write_bytes_as_bits_okb bytes w Hok) as [H3 H4].
  repeat split; trivial. now rewrite H2, H4.
Qed.

Lemma write_full_bytes_appends_bits_witness :
  writer_bits (write_full_bytes (write_bits BitWriter_new [1;0;1]) [0xAB; 0xCD])
    = writer_bits (write_bits BitWriter_new [1;0;1]) ++ bytes_bits [0xAB; 0xCD] /\
  writer_bits (write_bytes_as_bits_ (write_bits BitWriter_new [1;0;1]) [0xAB; 0xCD])
    = writer_bits (write_bits BitWriter_new [1;0;1]) ++ bytes_bits [0xAB; 0xCD] /\
  writer_bits (write_full_bytes (write_bits BitWriter_new [1;0;1]) [0xAB; 0xCD])
    = writer_bits (write_bytes_as_bits_ (write_bits BitWriter_new [1;0;1]) [0xAB; 0xCD]) /\
  writer_ok (write_full_bytes (write_bits BitWriter_new [1;0;1]) [0xAB; 0xCD]) = true.
Proof.
  apply (write_full_bytes_appends_bits (write_bits BitWriter_new [1;0;1]) [0xAB; 0xCD]).
  vm_compute. reflexivity.
Defined.

(** Whole bytes at the head of a bit stream. *)
Lemma whole_bytes_of_prefix (out : list Z) (pending rest : list Z) (n : nat) :
  (length pending < 8)%nat -> (n <= length rest)%nat ->
  bytes_bits out ++ pending = firstn n rest ->
  length out = (n / 8)%nat /\ bytes_bits out = firstn (8 * length out) rest.
Proof.
  intros Hp Hn E.
  assert (L : (8 * length out + length pending = n)%nat).
  { apply (f_equal (@length Z)) in E.
    rewrite length_app, length_bytes_bits, length_firstn in E. lia. }
  split.
  - apply (Nat.div_unique n 8 (length out) (length pending)); lia.
  - assert (H : bytes_bits out
                = firstn (length (bytes_bits out)) (bytes_bits out ++ pending))
      by (rewrite firstn_app, firstn_all, Nat.sub_diag; cbn [firstn];
          now rewrite app_nil_r).
    rewrite E, firstn_firstn, length_bytes_bits in H.
    rewrite H at 1. f_equal. lia.
Qed.

(** C8, as the code has it.  With both files openable, [unwrap_file_bits]
    returns; it returns -3 exactly when the start or the end pattern is not
    a non-empty string of 0 and 1; with both patterns accepted it returns
    -4 exactly when the start pattern never completes in the input's bit
    stream, or it does and the end pattern never completes in the bits
    after it.  On -3, and on -4 before a start match, the output file is
    empty.  On -4 after a start match the output file is not empty in
    general: of the m bits that follow the start pattern all but the last
    [|end|] have been passed to the writer, and the file is left holding
    the floor((m - |end|) / 8) whole bytes of them (none while m is at
    most |end|); only the bits of an unfinished last byte are lost. *)
Theorem unwrap_error_codes (input : list Z) (ss es : option string) :
  exists r,
    unwrap_file_bits (Some input) true ss es = Some r /\
    (u_ret r = -3 <-> ~ (valid_pattern ss /\ valid_pattern es)) /\
    (valid_pattern ss -> valid_pattern es ->
     (u_ret r = -4 <->
      never_occurs (pattern_bits ss) (bytes_bits input) \/
      exists e1, first_occurrence (pattern_bits ss) (bytes_bits input) e1 /\
                 never_occurs (pattern_bits es) (skipn e1 (bytes_bits input)))) /\
    (u_ret r = -3 -> u_out r = Some []) /\
    (u_ret r = -4 -> never_occurs (pattern_bits ss) (bytes_bits input) ->
     u_out r = Some []) /\
    (u_ret r = -4 ->
     forall e1, first_occurrence (pattern_bits ss) (bytes_bits input) e1 ->
       let rest := skipn e1 (bytes_bits input) in
       exists out,
         u_out r = Some out /\ bytes_ok out = true /\
         length out = ((length rest - length (pattern_bits es)) / 8)%nat /\
         bytes_bits out = firstn (8 * length out) rest).
Proof.
  destruct (classic_valid ss es) as [[Hs He]|Hbad].
  2:{ eexists. split; [apply unwrap_refused, Hbad|]. cbn [u_ret u_out].
      repeat split; try tauto; try discriminate. }
  pose proof (unwrap_run input ss es Hs He) as Hrun. cbv zeta in Hrun.
  destruct (first_end (pattern_bits ss) (bytes_bits input)) as [e1|] eqn:E1.
  - apply first_end_Some in E1.
    destruct (first_end (pattern_bits es) (skipn e1 (bytes_bits input))) as [e2|] eqn:E2.
    + destruct Hrun as (out & Hrun & _). eexists. split; [exact Hrun|]. cbn [u_ret u_out].
      apply first_end_Some in E2.
      split; [split; [discriminate|tauto]|]. split.
      * intros _ _. split; [discriminate|]. intros [Hn|(e1' & F1 & Hn)].
        -- exfalso. destruct E1 as (Hr & Ho & _). apply (Hn (e1 - 1)%nat); [lia|exact Ho].
        -- assert (e1' = e1).
           { apply first_end_Some in E1, F1. congruence. }
           subst e1'. exfalso. destruct E2 as (Hr & Ho & _).
           apply (Hn (e2 - 1)%nat); [lia|exact Ho].
      * repeat split; discriminate.
    + destruct Hrun as (out & pending & Hrun & Hok & Hp & Hb).
      eexists. split; [exact Hrun|]. cbn [u_ret u_out].
      apply first_end_None in E2.
      split; [split; [discriminate|tauto]|]. split.
      * intros _ _. split; trivial. intros _. right. exists e1. auto.
      * split; [discriminate|]. split.
        -- intros _ Hn. exfalso. destruct E1 as (Hr & Ho & _).
           apply (Hn (e1 - 1)%nat); [lia|exact Ho].
        -- intros _ e1' F1. cbv zeta.
           assert (e1' = e1) by (apply first_end_Some in E1, F1; congruence).
           subst e1'. exists out. split; [reflexivity|]. split; [exact Hok|].
           apply (whole_bytes_of_prefix out pending); [exact Hp|lia|exact Hb].
  - eexists. split; [exact Hrun|]. cbn [u_ret u_out].
    apply first_end_None in E1.
    split; [split; [discriminate|tauto]|]. split.
    + intros _ _. split; trivial. intros _. now left.
    + split; [discriminate|]. split; [trivial|].
      intros _ e1 F1. exfalso. destruct F1 as (Hr & Ho & _).
      apply (E1 (e1 - 1)%nat); [lia|exact Ho].
Qed.

(** C8, as stated, fails in its last clause: the bits 11000101 10100101
    10100101 hold the start pattern 11 at once and the end pattern 111
    nowhere after it; unwrap returns -4, and the output file holds the two
    bytes 0x16 0x96, which are the first 16 of the 22 bits after the start
    pattern - bytes of the payload, written before the failure was known. *)
Lemma unwrap_failure_counterexample :
  unwrap_file_bits (Some [0xC5; 0xA5; 0xA5]) true (Some "11"%string) (Some "111"%string)
  = Some {| u_ret := -4; u_out := Some [0x16; 0x96]; u_start_pos := 0; u_end_pos := 0 |}
  /\ bytes_bits [0x16; 0x96] = firstn 16 (skipn 2 (bytes_bits [0xC5; 0xA5; 0xA5])).
Proof. split; vm_compute; reflexivity. Qed.

(** *** The round trip *)

Lemma first_end_app (pat a b : list Z) (e : nat) :
  first_end pat a = Some e -> first_end pat (a ++ b) = Some e.
Proof. apply first_end_from_app. Qed.

Lemma skipn_app_exact (a b : list Z) : skipn (length a) (a ++ b) = b.
Proof. rewrite skipn_app, skipn_all, Nat.sub_diag. reflexivity. Qed.

Lemma firstn_app_all (a b : list Z) : firstn (length a) (a ++ b) = a.
Proof. rewrite firstn_app, firstn_all, Nat.sub_diag. cbn [firstn]. apply app_nil_r. Qed.

(** C2, as the code has it.  Wrapping and then unwrapping with the same
    two accepted patterns returns the input bytes, with the start position
    equal to the number of left dummy bits and the end position equal to
    the number of bits before the end flag, PROVIDED the first place where
    the start pattern is complete in (left dummy bits ++ start flag) is the
    end of the flag, and the first place where the end pattern is complete
    in (payload bits ++ end flag) is the end of the flag.  The scan has no
    other way to tell a flag from dummy or payload bits that spell it. *)
Theorem bitwrap_round_trip {R : Type} (rng_next : R -> Z * R) (rng_seed : Z -> R)
    (input : list Z) (ss es : option string) (dl dr seed : Z) (entropy : R) :
  bytes_ok input = true -> valid_pattern ss -> valid_pattern es ->
  0 <= dl -> 0 <= dr ->
  first_end (pattern_bits ss)
            (dummy_bits rng_next dl (if seed =? 0 then entropy else rng_seed seed)
             ++ pattern_bits ss)
    = Some (Z.to_nat dl + length (pattern_bits ss))%nat ->
  first_end (pattern_bits es) (bytes_bits input ++ pattern_bits es)
    = Some (8 * length input + length (pattern_bits es))%nat ->
  exists out,
    wrap_file_bits rng_next rng_seed (Some input) true ss es dl dr seed entropy
      = {| w_ret := 0; w_out := Some out |} /\
    unwrap_file_bits (Some out) true ss es
      = Some {| u_ret := 0; u_out := Some input;
                u_start_pos := u64 dl;
                u_end_pos := u64 (dl + Z.of_nat (length (pattern_bits ss))
                                  + 8 * Z.of_nat (length input)) |}.
Proof.
  intros Hin Hvs Hve Hdl Hdr H1 H2.
  pose proof Hvs as Hvs'. pose proof Hve as Hve'.
  apply valid_pattern_parse in Hvs' as [Hps _], Hve' as [Hpe _].
  destruct (wrap_run rng_next rng_seed input ss es dl dr seed entropy Hps Hpe Hin Hdl Hdr)
    as (out & Hw & Hok & Hbits).
  exists out. split; [exact Hw|].
  pose proof (unwrap_run out ss es Hvs Hve) as Hrun. cbv zeta in Hrun.
  rewrite Hbits in Hrun. unfold wrapped_bits in Hrun.
  set (g0 := if seed =? 0 then entropy else rng_seed seed) in *.
  set (DL := dummy_bits rng_next dl g0) in *.
  set (sb := pattern_bits ss) in *. set (eb := pattern_bits es) in *.
  set (P := bytes_bits input) in *.
  set (DR := dummy_bits rng_next dr (dummy_state rng_next dl g0)) in *.
  set (pad := repeat 0 _) in Hrun.
  assert (HDL : length DL = Z.to_nat dl) by (apply length_dummy_bits; assumption).
  assert (HP : length P = (8 * length input)%nat) by apply length_bytes_bits.
  replace ((DL ++ sb ++ P ++ eb ++ DR) ++ pad)
    with ((DL ++ sb) ++ (P ++ eb) ++ DR ++ pad) in Hrun
    by (now rewrite <- !app_assoc).
  rewrite (first_end_app sb (DL ++ sb) _ _ H1) in Hrun.
  replace (Z.to_nat dl + length sb)%nat with (length (DL ++ sb)) in Hrun
    by (rewrite length_app; lia).
  rewrite skipn_app_exact in Hrun.
  rewrite (first_end_app eb (P ++ eb) _ _ H2) in Hrun.
  destruct Hrun as (out' & Hu & Hok' & Hbits').
  replace (8 * length input + length eb - length eb)%nat with (length P) in Hbits' by lia.
  rewrite <- app_assoc, firstn_app_all in Hbits'.
  replace (Z.to_nat ((8 - Z.of_nat (length P) mod 8) mod 8)) with 0%nat in Hbits'.
  2:{ rewrite HP, Nat2Z.inj_mul. change (Z.of_nat 8) with 8.
      rewrite Z.mul_comm, Z.mod_mul by lia. reflexivity. }
  cbn [repeat] in Hbits'. rewrite app_nil_r in Hbits'.
  apply bytes_bits_inj in Hbits'; trivial. subst out'.
  rewrite Hu. f_equal. rewrite length_app.
  f_equal; f_equal; lia.
Qed.

Lemma bitwrap_round_trip_witness :
  exists out,
    wrap_file_bits Mt19937_64.next Mt19937_64.seed (Some [0xAA; 0xBB; 0xCC]) true
      (Some "00001111"%string) (Some "11110000"%string) 5 7 42 (Mt19937_64.seed 42)
      = {| w_ret := 0; w_out := Some out |} /\
    unwrap_file_bits (Some out) true (Some "00001111"%string) (Some "11110000"%string)
      = Some {| u_ret := 0; u_out := Some [0xAA; 0xBB; 0xCC];
                u_start_pos := u64 5;
                u_end_pos := u64 (5 + Z.of_nat (length (pattern_bits (Some "00001111"%string)))
                                  + 8 * Z.of_nat (length [0xAA; 0xBB; 0xCC])) |}.
Proof.
  apply (bitwrap_round_trip Mt19937_64.next Mt19937_64.seed [0xAA; 0xBB; 0xCC]
           (Some "00001111"%string) (Some "11110000"%string) 5 7 42 (Mt19937_64.seed 42)).
  - reflexivity.
  - split; [discriminate|]. simpl. intuition.
  - split; [discriminate|]. simpl. intuition.
  - lia.
  - lia.
  - vm_compute. reflexivity.
  - vm_compute. reflexivity.
Defined.

(** C2, as stated, fails: with no dummy bits, start pattern 1, end pattern
    01010101 and the one input byte 0x55, whose bits spell the end pattern,
    the scan takes the payload for the end flag and unwrap succeeds with an
    empty output. *)
Lemma bitwrap_round_trip_counterexample :
  exists out r,
    wrap_file_bits Mt19937_64.next Mt19937_64.seed (Some [0x55]) true
      (Some "1"%string) (Some "01010101"%string) 0 0 1 (Mt19937_64.seed 1)
      = {| w_ret := 0; w_out := Some out |} /\
    unwrap_file_bits (Some out) true (Some "1"%string) (Some "01010101"%string) = Some r /\
    u_ret r = 0 /\ u_out r = Some [] /\ u_out r <> Some [0x55].
Proof.
  eexists. eexists. split; [vm_compute; reflexivity|].
  split; [vm_compute; reflexivity|]. cbn [u_ret u_out].
  split; [reflexivity|]. split; [reflexivity|]. discriminate.
Qed.

(** *** Scenario E: AA BB CC, start 10101010, end 01010101, L = 5, R = 7,
    seed 42 *)

Definition scenario_E_wrapped : wrap_result :=
  wrap_file_bits Mt19937_64.next Mt19937_64.seed (Some [0xAA; 0xBB; 0xCC]) true
    (Some "10101010"%string) (Some "01010101"%string) 5 7 42 (Mt19937_64.seed 42).

Definition scenario_E_unwrapped : option unwrap_result :=
  unwrap_file_bits (w_out scenario_E_wrapped) true
    (Some "10101010"%string) (Some "01010101"%string).

(** C4, as the code has it.  The wrapped file is the 7 bytes
    D5 55 55 DE 62 AD 40.  The left dummy bits 11010 followed by the start
    flag spell the start pattern four bits early, and the rest of the flag
    followed by the payload spells the end pattern at once: unwrap returns
    0, writes the single byte 0x80, and reports start position 1 and end
    position 10 (each the number of bits read before the pattern began). *)
Theorem scenario_E_outcome :
  scenario_E_wrapped
    = {| w_ret := 0; w_out := Some [0xD5; 0x55; 0x55; 0xDE; 0x62; 0xAD; 0x40] |} /\
  scenario_E_unwrapped
    = Some {| u_ret := 0; u_out := Some [0x80]; u_start_pos := 1; u_end_pos := 10 |}.
Proof. split; vm_compute; reflexivity. Qed.

(** C4, as stated, fails: the file is 7 bytes long, but unwrap does not
    yield AA BB CC and the positions are not 6 and 38. *)
Lemma scenario_E_counterexample :
  exists out r,
    w_out scenario_E_wrapped = Some out /\ length out = 7%nat /\
    scenario_E_unwrapped = Some r /\
    u_out r <> Some [0xAA; 0xBB; 0xCC] /\ u_start_pos r <> 6 /\ u_end_pos r <> 38.
Proof.
  eexists. eexists. split; [vm_compute; reflexivity|]. split; [reflexivity|].
  split; [vm_compute; reflexivity|]. cbn [u_out u_start_pos u_end_pos].
  repeat split; discriminate.
Qed.

(** The first output of the engine seeded with 42. *)
Example mt19937_64_seed_42 :
  fst (Mt19937_64.next (Mt19937_64.seed 42)) = 13930160852258120406.
Proof. vm_compute. reflexivity. Qed.

End BitClaims.

(** * The claims about the RS container *)

Module RSClaims.
Import RS RSSpec RSFrames RSRound CodecFacts RSErasures.

(** The generator polynomial for two parity symbols,
    (x + 2)(x + 4) = x^2 + 6x + 8 over GF(256). *)
Example genpoly_two : Codec.genpoly 2 = [8; 6; 1].
Proof. reflexivity. Qed.

(** *** The round trip *)

(** C1.  Take any codec that meets the contract for [r] parity symbols,
    1 <= r <= 63, and any sequence of bytes (shorter than 2^63, as the
    size of a file is).  With files that can be opened and no cancellation,
    [rs_pack_container] returns 0 and writes a container; on that
    container [rs_unpack_container] returns 0, its output is the input
    byte for byte, and the statistics show no failed column and no
    corrected symbol. *)
Theorem rs_round_trip {rs_handle : Type}
    (init_rs_char : Z -> Z -> Z -> Z -> Z -> Z -> option rs_handle)
    (encode_rs_char : rs_handle -> list Z -> list Z)
    (decode_rs_char : rs_handle -> list Z -> list Z -> Z * list Z * list Z)
    (r residual_step : Z) (input : list Z) :
  1 <= r <= MAX_R ->
  codec_ok init_rs_char encode_rs_char decode_rs_char r ->
  bytes_ok input = true -> Z.of_nat (length input) < 2 ^ 63 ->
  exists c u,
    rs_pack_container init_rs_char encode_rs_char false (Some input) true r
    = Some (0, Some c)
    /\ rs_unpack_container init_rs_char decode_rs_char false residual_step (Some c) true
       = Some u
    /\ un_ret u = 0 /\ un_out u = Some input
    /\ rs_fail_columns (un_stats u) = 0
    /\ corrected_symbols (un_stats u) = 0.
Proof.
  intros Hr Hc Hok Hlen.
  destruct (round_trip init_rs_char encode_rs_char decode_rs_char r
              IL_DEPTH_DEFAULT SLICE_BYTES_DEFAULT residual_step RS_PAD_MODE input Hr
              ltac:(unfold IL_DEPTH_DEFAULT; lia) ltac:(unfold SLICE_BYTES_DEFAULT; lia)
              Hc Hok Hlen)
    as (c & u & Ep & Eu & U1 & U2 & _ & _ & _ & U6 & U7 & _).
  exists c, u. repeat split; assumption.
Qed.

Lemma rs_round_trip_witness :
  exists c u,
    rs_pack_container Codec.init_rs_char Codec.encode_rs_char false
                      (Some [82; 83; 67; 84]) true 16
    = Some (0, Some c)
    /\ rs_unpack_container Codec.init_rs_char Codec.decode_rs_char false 25 (Some c) true
       = Some u
    /\ un_ret u = 0 /\ un_out u = Some [82; 83; 67; 84]
    /\ rs_fail_columns (un_stats u) = 0
    /\ corrected_symbols (un_stats u) = 0.
Proof.
  apply (rs_round_trip Codec.init_rs_char Codec.encode_rs_char Codec.decode_rs_char
                       16 25 [82; 83; 67; 84]).
  - unfold MAX_R. lia.
  - apply codec_meets_contract. unfold MAX_R. lia.
  - reflexivity.
  - simpl. lia.
Defined.

(** *** Scenario A: the bytes 00 .. FF repeated to 10,000 bytes, r = 16,
    default interleave depth and slice size *)

Lemma scenario_A_input_ok :
  bytes_ok scenario_A_input = true /\ Z.of_nat (length scenario_A_input) = 10000.
Proof. split; vm_compute; reflexivity. Qed.

Lemma scenario_A_run {rs_handle : Type}
    (init_rs_char : Z -> Z -> Z -> Z -> Z -> Z -> option rs_handle)
    (encode_rs_char : rs_handle -> list Z -> list Z)
    (decode_rs_char : rs_handle -> list Z -> list Z -> Z * list Z * list Z)
    (residual_step : Z) :
  codec_ok init_rs_char encode_rs_char decode_rs_char 16 ->
  exists c u,
    rs_pack_container init_rs_char encode_rs_char false (Some scenario_A_input) true 16
    = Some (0, Some c)
    /\ rs_unpack_container init_rs_char decode_rs_char false residual_step (Some c) true
       = Some u
    /\ un_ret u = 0 /\ un_out u = Some scenario_A_input
    /\ frames_total (un_stats u) = 1
    /\ slices_ok (un_stats u) = 27
    /\ rs_fail_columns (un_stats u) = 0
    /\ ber_est (un_stats u) = 0%Q.
Proof.
  intros Hc. destruct scenario_A_input_ok as (Hok & Hlen).
  destruct (round_trip init_rs_char encode_rs_char decode_rs_char 16
              IL_DEPTH_DEFAULT SLICE_BYTES_DEFAULT residual_step RS_PAD_MODE
              scenario_A_input ltac:(unfold MAX_R; lia)
              ltac:(unfold IL_DEPTH_DEFAULT; lia) ltac:(unfold SLICE_BYTES_DEFAULT; lia)
              Hc Hok ltac:(rewrite Hlen; lia))
    as (c & u & Ep & Eu & U1 & U2 & U3 & U4 & _ & U6 & _ & U8).
  exists c, u.
  assert (Ef : frames scenario_A_input = 1) by (unfold frames, orig; now rewrite Hlen).
  rewrite Ef in U3, U4.
  repeat split; assumption.
Qed.

(** C5, as the code has it.  With a codec that meets the contract for 16
    parity symbols, packing the input of scenario A and unpacking the
    container give the input back, with [frames_total] = 1,
    [rs_fail_columns] = 0 and [ber_est] = 0; the payload of the frame is
    12288 + 1024 + 384 + 32 = 13728 bytes, which makes 27 slices of at most
    512 bytes, and [slices_ok] = 27. *)
Theorem scenario_A_outcome {rs_handle : Type}
    (init_rs_char : Z -> Z -> Z -> Z -> Z -> Z -> option rs_handle)
    (encode_rs_char : rs_handle -> list Z -> list Z)
    (decode_rs_char : rs_handle -> list Z -> list Z -> Z * list Z * list Z)
    (residual_step : Z) :
  codec_ok init_rs_char encode_rs_char decode_rs_char 16 ->
  payload_len_bytes 16 = 13728 /\ slices_per_frame 16 SLICE_BYTES_DEFAULT = 27 /\
  exists c u,
    rs_pack_container init_rs_char encode_rs_char false (Some scenario_A_input) true 16
    = Some (0, Some c)
    /\ rs_unpack_container init_rs_char decode_rs_char false residual_step (Some c) true
       = Some u
    /\ un_ret u = 0 /\ un_out u = Some scenario_A_input
    /\ frames_total (un_stats u) = 1
    /\ slices_ok (un_stats u) = 27
    /\ rs_fail_columns (un_stats u) = 0
    /\ ber_est (un_stats u) = 0%Q.
Proof.
  intros Hc. split; [reflexivity|]. split; [reflexivity|].
  now apply scenario_A_run.
Qed.

Lemma scenario_A_outcome_witness :
  payload_len_bytes 16 = 13728 /\ slices_per_frame 16 SLICE_BYTES_DEFAULT = 27 /\
  exists c u,
    rs_pack_container Codec.init_rs_char Codec.encode_rs_char false
                      (Some scenario_A_input) true 16
    = Some (0, Some c)
    /\ rs_unpack_container Codec.init_rs_char Codec.decode_rs_char false 25 (Some c) true
       = Some u
    /\ un_ret u = 0 /\ un_out u = Some scenario_A_input
    /\ frames_total (un_stats u) = 1
    /\ slices_ok (un_stats u) = 27
    /\ rs_fail_columns (un_stats u) = 0
    /\ ber_est (un_stats u) = 0%Q.
Proof.
  apply (scenario_A_outcome Codec.init_rs_char Codec.encode_rs_char Codec.decode_rs_char 25).
  apply codec_meets_contract. unfold MAX_R. lia.
Defined.

(** C5, as stated, fails: the unpack of scenario A accepts 27 slices, not
    25. *)
Lemma scenario_A_counterexample :
  exists c u,
    rs_pack_container Codec.init_rs_char Codec.encode_rs_char false
                      (Some scenario_A_input) true 16
    = Some (0, Some c)
    /\ rs_unpack_container Codec.init_rs_char Codec.decode_rs_char false 25 (Some c) true
       = Some u
    /\ slices_ok (un_stats u) = 27
    /\ slices_ok (un_stats u) <> 25.
Proof.
  destruct (scenario_A_run Codec.init_rs_char Codec.encode_rs_char Codec.decode_rs_char 25)
    as (c & u & Ep & Eu & _ & _ & _ & U & _).
  { apply codec_meets_contract. unfold MAX_R. lia. }
  exists c, u. repeat split; trivial. rewrite U. discriminate.
Qed.

(** *** The erasure list *)

(** The columns of a frame after the first [k] turns of the column loop
    of [rs_unpack_internal], started on the frame buffer [fb] with the
    erasure array holding [erasures]. *)
Definition columns_after {rs_handle : Type}
    (decode_rs_char : rs_handle -> list Z -> list Z -> Z * list Z * list Z)
    (rs : rs_handle) (r pad_mode : Z) (st : decode_state) (idx : Z)
    (erasures : list Z) (k : nat) : col_state :=
  let fb := nth (Z.to_nat idx) (ds_tab st) frame_buf_zero in
  let prev :=
    if 0 <? idx then
      let pfb := nth (Z.to_nat (idx - 1)) (ds_tab st) frame_buf_zero in
      if fb_init pfb =? 0 then None else Some (fb_data pfb)
    else None in
  fold_left (decode_column decode_rs_char rs r pad_mode (fb_par fb) prev
                           (Z.of_nat (length erasures)))
            (zrange 0 (Z.of_nat k))
            {| cl_data := fb_data fb; cl_erasures := erasures;
               cl_corrected := ds_corrected st;
               cl_used_erasures := ds_used_erasures st;
               cl_fail := ds_fail st |}.

(** C3, as the code has it.  Let [fb] be the buffer of frame [idx] in the
    second loop of unpack, [dlen] its [data_len] capped at 12288.

    - The candidate data erasures are, in this order: the shards past the
      data, ceil(dlen / 64) .. 191; the boundary shard floor(dlen / 64)
      when dlen is not a multiple of 64; and, when both CRC-16 tables
      have arrived, the data shards whose CRC-16 does not match.  The
      candidate parity erasures are 192 + j for the parity shards j whose
      CRC-16 does not match, when both tables have arrived.
    - Each of the three runs (past the data, data mismatches, parity
      mismatches) is in increasing index; the boundary shard comes after
      the shards past the data and is lower than each of them.
    - The erasure list is the first [r] entries of the data candidates
      followed by the parity candidates, unless there are more than 192
      data candidates, which overflow their array.
    - For a frame that has arrived, the list is built once: with the
      overflow the frame has no defined result; otherwise the 64 columns
      are decoded in turn, column 0 is handed the list, and column i + 1
      is handed the array as the decoder's call for column i left it
      (its first n entries, n the length of the list; nothing is handed
      over and nothing changes when n = 0); the data of the frame written
      out is what the 64 columns leave. *)
Theorem erasure_list_truncation {rs_handle : Type}
    (decode_rs_char : rs_handle -> list Z -> list Z -> Z * list Z * list Z)
    (rs : rs_handle) (r pad_mode orig residual_step : Z)
    (st : decode_state) (idx : Z) :
  let fb := nth (Z.to_nat idx) (ds_tab st) frame_buf_zero in
  let dlen := Z.min (fb_data_len fb) FRAME_BYTES in
  let past := zrange ((dlen + SHARD_LEN - 1) / SHARD_LEN) K_SHARDS in
  let boundary := if dlen mod SHARD_LEN =? 0 then [] else [dlen / SHARD_LEN] in
  let mismatch :=
    if crc_tables_present fb r
    then filter (shard_bad (fb_data fb) (fb_crcD fb)) (zrange 0 K_SHARDS) else [] in
  let parity :=
    if crc_tables_present fb r
    then map (fun j => K_SHARDS + j)
             (filter (shard_bad (fb_par fb) (fb_crcP fb)) (zrange 0 r))
    else [] in
  let after := columns_after decode_rs_char rs r pad_mode st idx in
  (eras_data fb r = past ++ boundary ++ mismatch /\ eras_par fb r = parity)
  /\ (increasing past = past /\ increasing mismatch = mismatch
      /\ increasing parity = parity
      /\ forall b j, In b boundary -> In j past -> b < j)
  /\ frame_erasures fb r
     = (if K_SHARDS <? Z.of_nat (length (past ++ boundary ++ mismatch)) then None
        else Some (firstn (Z.to_nat r) ((past ++ boundary ++ mismatch) ++ parity)))
  /\ (fb_init fb <> 0 ->
      match frame_erasures fb r with
      | None => decode_frame decode_rs_char rs r pad_mode orig residual_step st idx = None
      | Some erasures =>
        let n := Z.of_nat (length erasures) in
        cl_erasures (after erasures 0%nat) = erasures
        /\ (forall i : nat,
             let c := after erasures i in
             let code := column (cl_data c) K_SHARDS (Z.of_nat i)
                         ++ column (fb_par fb) r (Z.of_nat i) in
             let written := snd (decode_rs_char rs code (cl_erasures c)) in
             cl_erasures (after erasures (S i))
             = if n =? 0 then cl_erasures c
               else firstn (Z.to_nat n)
                           (written ++ skipn (length written) (cl_erasures c)))
        /\ exists st',
             decode_frame decode_rs_char rs r pad_mode orig residual_step st idx = Some st'
             /\ ds_out st'
                = ds_out st
                  ++ sub (cl_data (after erasures (Z.to_nat SHARD_LEN))) 0
                         (to_write orig (ds_written st))
      end).
Proof.
  cbv zeta.
  set (fb := nth (Z.to_nat idx) (ds_tab st) frame_buf_zero).
  set (dlen := Z.min (fb_data_len fb) FRAME_BYTES).
  assert (Ed : eras_data fb r
               = zrange ((dlen + SHARD_LEN - 1) / SHARD_LEN) K_SHARDS
                 ++ (if dlen mod SHARD_LEN =? 0 then [] else [dlen / SHARD_LEN])
                 ++ (if crc_tables_present fb r
                     then filter (shard_bad (fb_data fb) (fb_crcD fb)) (zrange 0 K_SHARDS)
                     else [])).
  { unfold eras_data. cbv zeta.
    replace (if FRAME_BYTES <? fb_data_len fb then FRAME_BYTES else fb_data_len fb)
      with dlen
      by (unfold dlen; destruct (Z.ltb_spec FRAME_BYTES (fb_data_len fb)); lia).
    rewrite <- (ceil_div dlen SHARD_LEN) by reflexivity.
    destruct (Z.ltb_spec dlen FRAME_BYTES) as [_|Hge]; [now rewrite app_assoc|].
    assert (E : dlen = FRAME_BYTES) by (unfold dlen in *; lia).
    rewrite E. reflexivity. }
  assert (Ef : frame_erasures fb r
               = if K_SHARDS <? Z.of_nat (length (eras_data fb r)) then None
                 else Some (firstn (Z.to_nat r) (eras_data fb r ++ eras_par fb r)))
    by apply frame_erasures_firstn.
  split; [split; [exact Ed|reflexivity]|].
  split.
  { split; [apply increasing_ascending, ascending_zrange|].
    split; [destruct (crc_tables_present fb r);
            [apply increasing_ascending, ascending_filter, ascending_zrange|reflexivity]|].
    split; [apply increasing_ascending, (eras_par_ascending fb r)|].
    intros b j Hb Hj. apply in_zrange in Hj.
    rewrite <- (ceil_div dlen SHARD_LEN) in Hj by reflexivity.
    destruct (dlen mod SHARD_LEN =? 0); [destruct Hb|].
    destruct Hb as [<-|[]]. lia. }
  split; [rewrite Ef, Ed; reflexivity|].
  intros Hinit.
  assert (Hi : (fb_init fb =? 0) = false) by now apply Z.eqb_neq.
  destruct (frame_erasures fb r) as [erasures|] eqn:Ee.
  2: { unfold decode_frame. cbv zeta. fold fb. rewrite Hi, Ee. reflexivity. }
  split; [reflexivity|]. split.
  - intros i. unfold columns_after. cbv zeta. fold fb.
    rewrite zrange_snoc, fold_left_app. cbn [fold_left].
    set (c := fold_left _ (zrange 0 (Z.of_nat i)) _).
    unfold decode_column at 1.
    destruct (decode_rs_char rs _ (cl_erasures c)) as [[ret code1] written].
    cbn [snd]. destruct (ret <? 0); reflexivity.
  - unfold decode_frame. cbv zeta. fold fb. rewrite Hi, Ee.
    eexists. split; [reflexivity|]. cbn [ds_out].
    unfold columns_after. cbv zeta. fold fb.
    change (Z.of_nat (Z.to_nat SHARD_LEN)) with SHARD_LEN. reflexivity.
Qed.

(** The buffer of the frame of scenario A when its header has arrived and
    no slice has. *)
Definition header_only_frame : frame_buf_t :=
  nth 0 (ps_tab (on_frame_hdr 16 1
                   {| fh_magic := FRAME_MAGIC_V4; fh_index := 0; fh_data_len := 10000;
                      fh_parity_len := 1024; fh_crc32_data := 0; fh_crc32_par := 0 |}
                   {| ps_tab := [frame_buf_zero]; ps_slices_ok := 0;
                      ps_slices_bad := 0 |}))
      frame_buf_zero.

(** C3, as stated, fails: a frame of 10,000 bytes has the 36 candidates
    157 .. 191 and 156, in this order; with r = 16 the decoder is handed
    157 .. 172, and the candidate of lowest index, 156, is dropped, where
    increasing index would keep 156 .. 171. *)
Lemma erasure_list_counterexample :
  frame_erasures header_only_frame 16
  = Some [157; 158; 159; 160; 161; 162; 163; 164; 165; 166; 167; 168; 169; 170; 171; 172]
  /\ spec_erasures header_only_frame 16
     = [156; 157; 158; 159; 160; 161; 162; 163; 164; 165; 166; 167; 168; 169; 170; 171]
  /\ eras_data header_only_frame 16 = zrange 157 192 ++ [156].
Proof. vm_compute. repeat split; reflexivity. Qed.

(** The array of data candidates can overflow: in a frame that announces
    no data, whose two CRC-16 tables have arrived and whose 192 data
    shards all fail their CRC-16, every shard is a candidate twice. *)
Example erasure_array_overflow :
  let fb := {| fb_init := 1; fb_data_len := 0;
               fb_data := zeros FRAME_BYTES; fb_par := zeros (16 * SHARD_LEN);
               fb_crcD := zeros (K_SHARDS * 2); fb_crcP := zeros (16 * 2);
               fb_crc32_data := 0; fb_crc32_par := 0;
               fb_crcD_filled_bytes := 384; fb_crcP_filled_bytes := 32 |} in
  Z.of_nat (length (eras_data fb 16)) = 384 /\ frame_erasures fb 16 = None.
Proof. vm_compute. split; reflexivity. Qed.

(** *** The parameters of pack *)

(** C9.  For all values of [r], [il_depth] and [slice_bytes],
    [rs_pack_container_ex] does what it does on the parameters with every
    value out of range replaced by its default (16 for [r] outside 1 .. 63,
    16 for [il_depth] <= 0, 512 for [slice_bytes] <= 0): the same return
    value and the same container.  When it returns, the value is 0, 1
    (cancelled), -1 (the codec), -2 or -3 (a file that cannot be opened),
    never -101 or another rejection of a parameter; and with [il_depth] <= 0
    and [slice_bytes] <= 0 it does return. *)
Theorem pack_ex_parameter_defaults {rs_handle : Type}
    (init_rs_char : Z -> Z -> Z -> Z -> Z -> Z -> option rs_handle)
    (encode_rs_char : rs_handle -> list Z -> list Z)
    (g_cancel : bool) (input : option (list Z)) (out_ok : bool)
    (r il_depth slice_bytes : Z) :
  rs_pack_container_ex init_rs_char encode_rs_char g_cancel input out_ok
                       r il_depth slice_bytes
  = rs_pack_container_ex init_rs_char encode_rs_char g_cancel input out_ok
                         (default_r r) (default_il_depth il_depth)
                         (default_slice_bytes slice_bytes)
  /\ match rs_pack_container_ex init_rs_char encode_rs_char g_cancel input out_ok
                                r il_depth slice_bytes with
     | Some (ret, _) => ret = -1 \/ ret = -2 \/ ret = -3 \/ ret = 0 \/ ret = 1
     | None => True
     end
  /\ (il_depth <= 0 -> slice_bytes <= 0 ->
      exists ret out,
        rs_pack_container_ex init_rs_char encode_rs_char g_cancel input out_ok
                             r il_depth slice_bytes = Some (ret, out)).
Proof.
  split; [apply pack_impl_defaults|]. split.
  - unfold rs_pack_container_ex.
    destruct (pack_impl _ _ _ _ _ _ _ _) as [[ret out]|] eqn:E; [|exact I].
    eapply pack_impl_no_validation_error. exact E.
  - intros Hil Hsb. apply pack_impl_returns.
    + unfold default_il_depth. destruct (Z.ltb_spec 0 il_depth); [lia|discriminate].
    + unfold default_slice_bytes. destruct (Z.ltb_spec 0 slice_bytes); [lia|discriminate].
Qed.

(** With every parameter out of range the call is the call with the
    defaults. *)
Example pack_ex_all_defaults :
  rs_pack_container_ex Codec.init_rs_char Codec.encode_rs_char false
                       (Some [82; 83; 67; 84]) true 0 0 (-1)
  = rs_pack_container Codec.init_rs_char Codec.encode_rs_char false
                      (Some [82; 83; 67; 84]) true 16.
Proof. apply pack_impl_defaults. Qed.

End RSClaims.

(** * Further properties of the RS container

    ** The payload of a frame as one run of bytes

    The payload of a frame is its four buffers one after the other: the
    data, the parity, the CRC-16 table of the data shards and the CRC-16
    table of the parity shards. *)

Module RSPayload.
Import RS RSLayout RSSlices RSParse.

Definition payload_image (data par crcD crcP : list Z) : list Z :=
  data ++ par ++ crcD ++ crcP.

Definition fb_image (fb : frame_buf_t) : list Z :=
  payload_image (fb_data fb) (fb_par fb) (fb_crcD fb) (fb_crcP fb).

Lemma length_payload_image (r : Z) (data par crcD crcP : list Z) :
  sized r data par crcD crcP ->
  Z.of_nat (length (payload_image data par crcD crcP)) = PAY r.
Proof.
  intros (H1 & H2 & H3 & H4). unfold payload_image.
  rewrite !length_app, !Nat2Z.inj_add, H1, H2, H3, H4. consts. lia.
Qed.

Lemma firstn_clip {A} (l : list A) (n m : nat) :
  Nat.min n (length l) = Nat.min m (length l) -> firstn n l = firstn m l.
Proof.
  intros H.
  destruct (Nat.le_gt_cases n (length l)) as [Hn|Hn];
    destruct (Nat.le_gt_cases m (length l)) as [Hm|Hm].
  - f_equal. lia.
  - rewrite (firstn_all2 (n := m)) by lia.
    replace n with (length l) by lia. apply firstn_all.
  - rewrite (firstn_all2 (n := n)) by lia.
    replace m with (length l) by lia. symmetry. apply firstn_all.
  - now rewrite !firstn_all2 by lia.
Qed.

(** A range of [a ++ b] is a range of [a], then a range of [b]. *)
Lemma sub_app_cut (a b : list Z) (off len : Z) :
  0 <= off -> 0 <= len ->
  sub (a ++ b) off len
  = sub a (seg_off 0 off) (seg_len 0 (Z.of_nat (length a)) off len)
    ++ sub b (seg_off (Z.of_nat (length a)) off)
             (len - seg_len 0 (Z.of_nat (length a)) off len).
Proof.
  intros Ho Hl. unfold sub. rewrite skipn_app, firstn_app. f_equal.
  - replace (Z.to_nat (seg_off 0 off)) with (Z.to_nat off) by (segs; lia).
    apply firstn_clip. rewrite length_skipn. segs. lia.
  - rewrite length_skipn. f_equal; [segs; lia|]. f_equal. segs. lia.
Qed.

Lemma sub_eq (l : list Z) (a a' n n' : Z) :
  a = a' -> n = n' -> sub l a n = sub l a' n'.
Proof. now intros -> ->. Qed.

Lemma app_eq {A} (a a' b b' : list A) : a = a' -> b = b' -> a ++ b = a' ++ b'.
Proof. now intros -> ->. Qed.

(** Region [B, B + n) of the payload, seen from the region that starts at
    [B]. *)
Section RegionArith.

Variables (B n off c : Z).
Hypothesis B_pos : 0 <= B.
Hypothesis n_pos : 0 <= n.
Hypothesis off_pos : 0 <= off.
Hypothesis c_pos : 0 <= c.

Lemma seg_off_0 : seg_off 0 (seg_off B off) = seg_off B off.
Proof using B_pos off_pos. segs. lia. Qed.

Lemma seg_len_0 : seg_len 0 n (seg_off B off) (c - upto B off c) = seg_len B n off c.
Proof using All. segs. lia. Qed.

Lemma seg_off_next : seg_off n (seg_off B off) = seg_off (B + n) off.
Proof using B_pos n_pos off_pos. segs. lia. Qed.

Lemma upto_next : upto B off c + seg_len B n off c = upto (B + n) off c.
Proof using All. segs. lia. Qed.

Lemma upto_le : 0 <= upto B off c <= c.
Proof using B_pos off_pos c_pos. segs. lia. Qed.

End RegionArith.

Lemma sub_app_region (a b : list Z) (B off c : Z) :
  0 <= B -> 0 <= off -> 0 <= c ->
  sub (a ++ b) (seg_off B off) (c - upto B off c)
  = sub a (seg_off B off) (seg_len B (Z.of_nat (length a)) off c)
    ++ sub b (seg_off (B + Z.of_nat (length a)) off)
             (c - upto (B + Z.of_nat (length a)) off c).
Proof.
  intros HB Ho Hc.
  pose proof (upto_le B off c HB Ho Hc) as U.
  rewrite sub_app_cut by (try apply Z.le_0_sub; segs; lia).
  rewrite (seg_off_0 B off HB Ho).
  rewrite (seg_len_0 B (Z.of_nat (length a)) off c HB ltac:(lia) Ho Hc).
  rewrite (seg_off_next B (Z.of_nat (length a)) off HB ltac:(lia) Ho).
  apply app_eq; [reflexivity|]. apply sub_eq; [reflexivity|].
  rewrite <- (upto_next B (Z.of_nat (length a)) off c HB ltac:(lia) Ho Hc). lia.
Qed.

Lemma last_region (r off c : Z) :
  0 <= r -> 0 <= off -> 0 <= c -> off + c <= PAY r ->
  c - upto (B3 r) off c = seg_len (B3 r) (r * 2) off c.
Proof. intros Hr Ho Hc Hp. consts. segs. lia. Qed.

Lemma slice_of_image (r off len : Z) (data par crcD crcP : list Z) :
  0 <= r -> 0 <= off -> 0 <= len -> off + len <= PAY r ->
  sized r data par crcD crcP ->
  slice_of r data par crcD crcP off len = sub (payload_image data par crcD crcP) off len.
Proof.
  intros Hr Ho Hl Hp (H1 & H2 & H3 & H4). unfold slice_of, payload_image.
  assert (N1 : 0 <= B1) by (consts; lia).
  assert (N2 : 0 <= B2 r) by (consts; lia).
  assert (N3 : 0 <= B3 r) by (consts; lia).
  replace (sub (data ++ par ++ crcD ++ crcP) off len)
    with (sub (data ++ par ++ crcD ++ crcP) (seg_off 0 off) (len - upto 0 off len))
    by (apply sub_eq; segs; lia).
  rewrite (sub_app_region data) by lia. rewrite H1.
  change (0 + B1) with B1.
  rewrite (sub_app_region par) by lia. rewrite H2.
  change (B1 + r * SHARD_LEN) with (B2 r).
  rewrite (sub_app_region crcD) by lia. rewrite H3.
  change (B2 r + K_SHARDS * 2) with (B3 r).
  do 3 (apply app_eq; [reflexivity|]).
  apply sub_eq; [reflexivity|]. symmetry. apply last_region; lia.
Qed.

(** *** A slice that starts inside the payload

    The four blocks in closed form for every slice that starts at or before
    the end of the payload, also when it reaches beyond it. *)

Section CopyAny.

Variables (r off : Z) (src : list Z).
Hypothesis r_pos : 0 <= r <= MAX_R.
Hypothesis off_pos : 0 <= off.
Hypothesis len_pos : 0 < Z.of_nat (length src).
Hypothesis off_pay : off <= PAY r.

Lemma copy_data_any (fb : frame_buf_t) :
  Z.of_nat (length (fb_data fb)) = B1 ->
  copy_data off src {| cs_fb := fb; cs_copied := 0 |}
  = Some {| cs_fb := set_data fb
                       (put (fb_data fb) (seg_off 0 off)
                            (sub src (upto 0 off (Z.of_nat (length src))) (seg_len 0 B1 off (Z.of_nat (length src)))));
            cs_copied := upto B1 off (Z.of_nat (length src)) |}.
Proof using All.
  intros Hd. unfold copy_data. cbn [cs_fb cs_copied]. consts.
  destruct (Z.ltb_spec off (192 * 64)).
  - rewrite mem_write_put.
    + cbn [option_map]. apply copy_state_eq.
      * f_equal. apply put_eq; segs; zcmp; lia.
      * segs; zcmp; lia.
    + lia.
    + rewrite length_sub_Z; zcmp; lia.
  - apply copy_state_eq; [|segs; lia].
    rewrite sub_zero by (segs; lia). now rewrite put_nil, set_data_id.
Qed.

Lemma copy_par_any (fb : frame_buf_t) :
  Z.of_nat (length (fb_par fb)) = r * SHARD_LEN ->
  copy_par r off src {| cs_fb := fb; cs_copied := upto B1 off (Z.of_nat (length src)) |}
  = Some {| cs_fb := set_par fb
                       (put (fb_par fb) (seg_off B1 off)
                            (sub src (upto B1 off (Z.of_nat (length src)))
                                 (seg_len B1 (r * SHARD_LEN) off (Z.of_nat (length src)))));
            cs_copied := upto (B2 r) off (Z.of_nat (length src)) |}.
Proof using All.
  intros Hd. unfold copy_par. cbn [cs_fb cs_copied]. consts.
  assert (Skip : seg_len (192 * 64) (r * 64) off (Z.of_nat (length src)) = 0 ->
                 upto (192 * 64) off (Z.of_nat (length src)) = upto (192 * 64 + r * 64) off (Z.of_nat (length src)) ->
    Some {| cs_fb := fb; cs_copied := upto (192 * 64) off (Z.of_nat (length src)) |}
    = Some {| cs_fb := set_par fb
                (put (fb_par fb) (seg_off (192 * 64) off)
                   (sub src (upto (192 * 64) off (Z.of_nat (length src)))
                      (seg_len (192 * 64) (r * 64) off (Z.of_nat (length src)))));
              cs_copied := upto (192 * 64 + r * 64) off (Z.of_nat (length src)) |}).
  { intros E1 E2. apply copy_state_eq; [|exact E2].
    rewrite sub_zero by exact E1. now rewrite put_nil, set_par_id. }
  destruct (Z.ltb_spec (off + upto (192 * 64) off (Z.of_nat (length src))) (192 * 64 + r * 64));
    [|apply Skip; segs; lia].
  destruct (Z.ltb_spec (upto (192 * 64) off (Z.of_nat (length src))) (Z.of_nat (length src))); [|apply Skip; segs; lia].
  cbn [andb].
  destruct (Z.leb_spec (192 * 64) (off + upto (192 * 64) off (Z.of_nat (length src))));
    [|apply Skip; segs; lia].
  rewrite mem_write_put.
  - cbn [option_map]. apply copy_state_eq.
    + f_equal. apply put_eq; segs; zcmp; lia.
    + segs; zcmp; lia.
  - segs; lia.
  - rewrite length_sub_Z; segs; zcmp; lia.
Qed.

Lemma copy_crcD_any (fb : frame_buf_t) :
  Z.of_nat (length (fb_crcD fb)) = K_SHARDS * 2 ->
  copy_crcD r off src {| cs_fb := fb; cs_copied := upto (B2 r) off (Z.of_nat (length src)) |}
  = Some {| cs_fb := set_crcD fb
                       (put (fb_crcD fb) (seg_off (B2 r) off)
                            (sub src (upto (B2 r) off (Z.of_nat (length src)))
                                 (seg_len (B2 r) (K_SHARDS * 2) off (Z.of_nat (length src)))))
                       (fb_crcD_filled_bytes fb + seg_len (B2 r) (K_SHARDS * 2) off (Z.of_nat (length src)));
            cs_copied := upto (B3 r) off (Z.of_nat (length src)) |}.
Proof using All.
  intros Hd. unfold copy_crcD. cbn [cs_fb cs_copied]. consts.
  assert (Skip : seg_len (192 * 64 + r * 64) (192 * 2) off (Z.of_nat (length src)) = 0 ->
                 upto (192 * 64 + r * 64) off (Z.of_nat (length src))
                 = upto (192 * 64 + r * 64 + 192 * 2) off (Z.of_nat (length src)) ->
    Some {| cs_fb := fb; cs_copied := upto (192 * 64 + r * 64) off (Z.of_nat (length src)) |}
    = Some {| cs_fb := set_crcD fb
                (put (fb_crcD fb) (seg_off (192 * 64 + r * 64) off)
                   (sub src (upto (192 * 64 + r * 64) off (Z.of_nat (length src)))
                      (seg_len (192 * 64 + r * 64) (192 * 2) off (Z.of_nat (length src)))))
                (fb_crcD_filled_bytes fb + seg_len (192 * 64 + r * 64) (192 * 2) off (Z.of_nat (length src)));
              cs_copied := upto (192 * 64 + r * 64 + 192 * 2) off (Z.of_nat (length src)) |}).
  { intros E1 E2. apply copy_state_eq; [|exact E2].
    rewrite sub_zero by exact E1. rewrite put_nil, E1. symmetry. apply set_crcD_id. lia. }
  destruct (Z.ltb_spec (off + upto (192 * 64 + r * 64) off (Z.of_nat (length src)))
                       (192 * 64 + r * 64 + 192 * 2));
    [|apply Skip; segs; lia].
  destruct (Z.ltb_spec (upto (192 * 64 + r * 64) off (Z.of_nat (length src))) (Z.of_nat (length src)));
    [|apply Skip; segs; lia].
  cbn [andb].
  destruct (Z.leb_spec (192 * 64 + r * 64) (off + upto (192 * 64 + r * 64) off (Z.of_nat (length src))));
    [|apply Skip; segs; lia].
  rewrite mem_write_put.
  - cbn [option_map]. apply copy_state_eq.
    + f_equal; [apply put_eq|]; segs; zcmp; lia.
    + segs; zcmp; lia.
  - segs; lia.
  - rewrite length_sub_Z; segs; zcmp; lia.
Qed.

Lemma copy_crcP_any (fb : frame_buf_t) :
  Z.of_nat (length (fb_crcP fb)) = r * 2 ->
  copy_crcP r off src {| cs_fb := fb; cs_copied := upto (B3 r) off (Z.of_nat (length src)) |}
  = Some {| cs_fb := set_crcP fb
                       (put (fb_crcP fb) (seg_off (B3 r) off)
                            (sub src (upto (B3 r) off (Z.of_nat (length src)))
                                 (seg_len (B3 r) (r * 2) off (Z.of_nat (length src)))))
                       (fb_crcP_filled_bytes fb + seg_len (B3 r) (r * 2) off (Z.of_nat (length src)));
            cs_copied := upto (PAY r) off (Z.of_nat (length src)) |}.
Proof using All.
  intros Hd. unfold copy_crcP. cbn [cs_fb cs_copied]. consts.
  assert (Skip : seg_len (192 * 64 + r * 64 + 192 * 2) (r * 2) off (Z.of_nat (length src)) = 0 ->
                 upto (192 * 64 + r * 64 + 192 * 2) off (Z.of_nat (length src))
                 = upto (192 * 64 + r * 64 + 192 * 2 + r * 2) off (Z.of_nat (length src)) ->
    Some {| cs_fb := fb; cs_copied := upto (192 * 64 + r * 64 + 192 * 2) off (Z.of_nat (length src)) |}
    = Some {| cs_fb := set_crcP fb
                (put (fb_crcP fb) (seg_off (192 * 64 + r * 64 + 192 * 2) off)
                   (sub src (upto (192 * 64 + r * 64 + 192 * 2) off (Z.of_nat (length src)))
                      (seg_len (192 * 64 + r * 64 + 192 * 2) (r * 2) off (Z.of_nat (length src)))))
                (fb_crcP_filled_bytes fb
                 + seg_len (192 * 64 + r * 64 + 192 * 2) (r * 2) off (Z.of_nat (length src)));
              cs_copied := upto (192 * 64 + r * 64 + 192 * 2 + r * 2) off (Z.of_nat (length src)) |}).
  { intros E1 E2. apply copy_state_eq; [|exact E2].
    rewrite sub_zero by exact E1. rewrite put_nil, E1. symmetry. apply set_crcP_id. lia. }
  destruct (Z.ltb_spec (upto (192 * 64 + r * 64 + 192 * 2) off (Z.of_nat (length src))) (Z.of_nat (length src)));
    [|apply Skip; segs; lia].
  destruct (Z.leb_spec (192 * 64 + r * 64 + 192 * 2)
                       (off + upto (192 * 64 + r * 64 + 192 * 2) off (Z.of_nat (length src))));
    [|apply Skip; segs; lia].
  rewrite (Z.mod_small (r * 2 - _)) by (segs; lia).
  rewrite mem_write_put.
  - cbn [option_map]. apply copy_state_eq.
    + f_equal; [apply put_eq|]; segs; zcmp; lia.
    + segs; zcmp; lia.
  - segs; lia.
  - rewrite length_sub_Z; segs; zcmp; lia.
Qed.

(** The frame buffer after the slice. *)
Definition clipped_frame (fb : frame_buf_t) : frame_buf_t :=
  {| fb_init := fb_init fb; fb_data_len := fb_data_len fb;
     fb_data := put (fb_data fb) (seg_off 0 off)
                    (sub src (upto 0 off (Z.of_nat (length src))) (seg_len 0 B1 off (Z.of_nat (length src))));
     fb_par := put (fb_par fb) (seg_off B1 off)
                   (sub src (upto B1 off (Z.of_nat (length src))) (seg_len B1 (r * SHARD_LEN) off (Z.of_nat (length src))));
     fb_crcD := put (fb_crcD fb) (seg_off (B2 r) off)
                    (sub src (upto (B2 r) off (Z.of_nat (length src)))
                         (seg_len (B2 r) (K_SHARDS * 2) off (Z.of_nat (length src))));
     fb_crcP := put (fb_crcP fb) (seg_off (B3 r) off)
                    (sub src (upto (B3 r) off (Z.of_nat (length src))) (seg_len (B3 r) (r * 2) off (Z.of_nat (length src))));
     fb_crc32_data := fb_crc32_data fb; fb_crc32_par := fb_crc32_par fb;
     fb_crcD_filled_bytes :=
       fb_crcD_filled_bytes fb + seg_len (B2 r) (K_SHARDS * 2) off (Z.of_nat (length src));
     fb_crcP_filled_bytes :=
       fb_crcP_filled_bytes fb + seg_len (B3 r) (r * 2) off (Z.of_nat (length src)) |}.

Lemma copy_slice_into_frame_any (fb : frame_buf_t) :
  sized r (fb_data fb) (fb_par fb) (fb_crcD fb) (fb_crcP fb) ->
  copy_slice_into_frame fb r off src = Some (clipped_frame fb).
Proof using All.
  intros (H1 & H2 & H3 & H4). unfold copy_slice_into_frame.
  rewrite copy_data_any by exact H1. cbn [bind_opt].
  rewrite copy_par_any by exact H2. cbn [bind_opt].
  rewrite copy_crcD_any by exact H3. cbn [bind_opt].
  rewrite copy_crcP_any by exact H4. reflexivity.
Qed.

End CopyAny.

(** *** Writing into the payload *)

Lemma put_app_nat (a b src : list Z) (o : nat) :
  let t := Nat.min (length src) (length a - o) in
  firstn o (a ++ b) ++ src ++ skipn (o + length src) (a ++ b)
  = (firstn o a ++ firstn t src ++ skipn (o + t) a)
    ++ (firstn (o - length a) b ++ skipn t src
        ++ skipn (o - length a + (length src - t)) b).
Proof.
  cbv zeta. rewrite firstn_app, skipn_app.
  destruct (Nat.le_gt_cases (o + length src) (length a)) as [A|A].
  - replace (Nat.min (length src) (length a - o)) with (length src) by lia.
    rewrite firstn_all, skipn_all.
    replace (o - length a)%nat with 0%nat by lia.
    replace (o + length src - length a)%nat with 0%nat by lia.
    replace (length src - length src)%nat with 0%nat by lia.
    cbn [firstn skipn app Nat.add]. rewrite app_nil_r. now rewrite <- !app_assoc.
  - destruct (Nat.le_gt_cases (length a) o) as [B|B].
    + replace (Nat.min (length src) (length a - o)) with 0%nat by lia.
      rewrite (firstn_all2 (n := o) a) by lia.
      rewrite !(skipn_all2 (n := (o + length src)%nat) a) by lia.
      rewrite (skipn_all2 (n := (o + 0)%nat) a) by lia.
      cbn [firstn skipn app]. rewrite !app_nil_r, Nat.sub_0_r, <- !app_assoc.
      do 3 f_equal. f_equal. lia.
    + replace (Nat.min (length src) (length a - o)) with (length a - o)%nat by lia.
      replace (o - length a)%nat with 0%nat by lia.
      rewrite (skipn_all2 (n := (o + length src)%nat) a) by lia.
      rewrite (skipn_all2 (n := (o + (length a - o))%nat) a) by lia.
      cbn [firstn skipn app Nat.add]. rewrite !app_nil_r, <- !app_assoc.
      f_equal. rewrite app_assoc, firstn_skipn. do 2 f_equal. lia.
Qed.

Lemma put_app_cut (a b : list Z) (off : Z) (src : list Z) :
  0 <= off ->
  put (a ++ b) off src
  = put a (seg_off 0 off)
          (sub src 0 (seg_len 0 (Z.of_nat (length a)) off (Z.of_nat (length src))))
    ++ put b (seg_off (Z.of_nat (length a)) off)
             (skipn (Z.to_nat (seg_len 0 (Z.of_nat (length a)) off (Z.of_nat (length src))))
                    src).
Proof.
  intros Ho. unfold put, sub. cbn [skipn Z.to_nat].
  pose proof (put_app_nat a b src (Z.to_nat off)) as H. cbv zeta in H.
  replace (Z.to_nat (seg_len 0 (Z.of_nat (length a)) off (Z.of_nat (length src))))
    with (Nat.min (length src) (length a - Z.to_nat off)) by (segs; lia).
  replace (Z.to_nat (seg_off 0 off)) with (Z.to_nat off) by (segs; lia).
  replace (Z.to_nat (seg_off (Z.of_nat (length a)) off))
    with (Z.to_nat off - length a)%nat by (segs; lia).
  rewrite length_firstn, length_skipn.
  replace (Nat.min (Nat.min (length src) (length a - Z.to_nat off)) (length src))
    with (Nat.min (length src) (length a - Z.to_nat off)) by lia.
  exact H.
Qed.

Lemma sub_sub_head (l : list Z) (s n t : Z) :
  0 <= t <= n -> sub (sub l s n) 0 t = sub l s t.
Proof.
  intros H. unfold sub. cbn [Z.to_nat skipn]. rewrite firstn_firstn. f_equal. lia.
Qed.

Lemma skipn_sub (l : list Z) (s n t : Z) :
  0 <= s -> 0 <= t <= n ->
  skipn (Z.to_nat t) (sub l s n) = sub l (s + t) (n - t).
Proof.
  intros Hs Ht. unfold sub. rewrite skipn_firstn_comm, skipn_skipn.
  f_equal; [lia|]. f_equal. lia.
Qed.

(** The same for a source that is itself a range. *)
Lemma put_app_sub (a b l : list Z) (off s n : Z) :
  0 <= off -> 0 <= s -> 0 <= n -> s + n <= Z.of_nat (length l) ->
  put (a ++ b) off (sub l s n)
  = put a (seg_off 0 off) (sub l s (seg_len 0 (Z.of_nat (length a)) off n))
    ++ put b (seg_off (Z.of_nat (length a)) off)
             (sub l (s + seg_len 0 (Z.of_nat (length a)) off n)
                    (n - seg_len 0 (Z.of_nat (length a)) off n)).
Proof.
  intros Ho Hs Hn Hl. rewrite put_app_cut by exact Ho.
  rewrite length_sub_Z by lia.
  rewrite sub_sub_head by (segs; lia). rewrite skipn_sub by (segs; lia). reflexivity.
Qed.

Lemma put_eq3 (c : list Z) (s s' : Z) (src : list Z) (a a' t t' : Z) :
  s = s' -> a = a' -> t = t' -> put c s (sub src a t) = put c s' (sub src a' t').
Proof. now intros -> -> ->. Qed.

Lemma put_app_region (a b l : list Z) (B off c : Z) :
  0 <= B -> 0 <= off -> 0 <= c <= Z.of_nat (length l) ->
  put (a ++ b) (seg_off B off) (sub l (upto B off c) (c - upto B off c))
  = put a (seg_off B off) (sub l (upto B off c) (seg_len B (Z.of_nat (length a)) off c))
    ++ put b (seg_off (B + Z.of_nat (length a)) off)
             (sub l (upto (B + Z.of_nat (length a)) off c)
                    (c - upto (B + Z.of_nat (length a)) off c)).
Proof.
  intros HB Ho Hc.
  pose proof (upto_le B off c HB Ho ltac:(lia)) as U.
  rewrite put_app_sub by (try apply Z.le_0_sub; segs; lia).
  rewrite (seg_off_0 B off HB Ho).
  rewrite (seg_len_0 B (Z.of_nat (length a)) off c HB ltac:(lia) Ho ltac:(lia)).
  rewrite (seg_off_next B (Z.of_nat (length a)) off HB ltac:(lia) Ho).
  rewrite (upto_next B (Z.of_nat (length a)) off c HB ltac:(lia) Ho ltac:(lia)).
  apply app_eq; [reflexivity|]. apply put_eq3; [reflexivity|reflexivity|].
  rewrite <- (upto_next B (Z.of_nat (length a)) off c HB ltac:(lia) Ho ltac:(lia)). lia.
Qed.

(** Cutting the slice at the end of the payload changes no block. *)
Lemma seg_clip (r B n off len : Z) :
  0 <= B -> 0 <= n -> B + n <= PAY r -> 0 <= off <= PAY r -> 0 <= len ->
  upto B off (Z.min len (PAY r - off)) = upto B off len /\
  seg_len B n off (Z.min len (PAY r - off)) = seg_len B n off len.
Proof. intros HB Hn Hp Ho Hl. segs. lia. Qed.

(** The payload after a slice that starts inside it: the slice, cut at the
    end of the payload, written over the bytes from [off]. *)
Lemma clipped_frame_image (r off : Z) (src : list Z) (fb : frame_buf_t) :
  0 <= r <= MAX_R -> 0 <= off <= PAY r -> 0 < Z.of_nat (length src) ->
  sized r (fb_data fb) (fb_par fb) (fb_crcD fb) (fb_crcP fb) ->
  fb_image (clipped_frame r off src fb)
  = put (fb_image fb) off (sub src 0 (Z.min (Z.of_nat (length src)) (PAY r - off))).
Proof.
  intros Hr Ho Hl (H1 & H2 & H3 & H4). unfold fb_image, payload_image, clipped_frame.
  cbn [fb_data fb_par fb_crcD fb_crcP].
  set (len := Z.of_nat (length src)) in *.
  set (c := Z.min len (PAY r - off)).
  assert (Hc : 0 <= c <= len) by (subst c; lia).
  assert (N1 : 0 <= B1) by (consts; lia).
  assert (N2 : 0 <= B2 r) by (consts; lia).
  assert (N3 : 0 <= B3 r) by (consts; lia).
  assert (P1 : B1 <= PAY r) by (consts; lia).
  assert (P2 : B2 r <= PAY r) by (consts; lia).
  assert (P3 : B3 r <= PAY r) by (consts; lia).
  replace (put (fb_data fb ++ fb_par fb ++ fb_crcD fb ++ fb_crcP fb) off (sub src 0 c))
    with (put (fb_data fb ++ fb_par fb ++ fb_crcD fb ++ fb_crcP fb) (seg_off 0 off)
              (sub src (upto 0 off c) (c - upto 0 off c)))
    by (apply put_eq3; segs; lia).
  rewrite (put_app_region (fb_data fb)) by (fold len; lia). rewrite H1.
  change (0 + B1) with B1.
  rewrite (put_app_region (fb_par fb)) by (fold len; lia). rewrite H2.
  change (B1 + r * SHARD_LEN) with (B2 r).
  rewrite (put_app_region (fb_crcD fb)) by (fold len; lia). rewrite H3.
  change (B2 r + K_SHARDS * 2) with (B3 r).
  destruct (seg_clip r 0 B1 off len ltac:(lia) N1 ltac:(lia) Ho ltac:(lia)) as (C1 & D1).
  destruct (seg_clip r B1 (r * SHARD_LEN) off len N1 ltac:(consts; lia)
              ltac:(consts; lia) Ho ltac:(lia)) as (C2 & D2).
  destruct (seg_clip r (B2 r) (K_SHARDS * 2) off len N2 ltac:(consts; lia)
              ltac:(consts; lia) Ho ltac:(lia)) as (C3 & D3).
  destruct (seg_clip r (B3 r) (r * 2) off len N3 ltac:(lia)
              ltac:(consts; lia) Ho ltac:(lia)) as (C4 & D4).
  fold c in C1, D1, C2, D2, C3, D3, C4, D4.
  rewrite C1, D1, C2, D2, C3, D3, C4.
  do 3 (apply app_eq; [reflexivity|]).
  apply put_eq3; [reflexivity|reflexivity|].
  rewrite <- D4, <- C4. symmetry. apply last_region; subst c; lia.
Qed.

Lemma length_clipped_frame (r off : Z) (src : list Z) (fb : frame_buf_t) :
  0 <= r <= MAX_R -> 0 <= off <= PAY r -> 0 < Z.of_nat (length src) ->
  sized r (fb_data fb) (fb_par fb) (fb_crcD fb) (fb_crcP fb) ->
  sized r (fb_data (clipped_frame r off src fb)) (fb_par (clipped_frame r off src fb))
          (fb_crcD (clipped_frame r off src fb)) (fb_crcP (clipped_frame r off src fb)).
Proof.
  intros Hr Ho Hl (H1 & H2 & H3 & H4). unfold clipped_frame, sized.
  cbn [fb_data fb_par fb_crcD fb_crcP].
  set (len := Z.of_nat (length src)) in *.
  assert (L : forall B n s x, 0 <= B -> 0 <= n -> 0 <= s -> s + seg_len B n off len <= len ->
            Z.of_nat (length x) = n ->
            Z.of_nat (length (put x (seg_off B off) (sub src s (seg_len B n off len)))) = n).
  { intros B n s x HB Hn Hs Hle Hx.
    assert (Lp : Z.of_nat (length (sub src s (seg_len B n off len))) = seg_len B n off len).
    { apply length_sub_Z; [lia|segs; lia|right; fold len; lia]. }
    destruct (Z.eq_dec (seg_len B n off len) 0) as [E|E].
    - rewrite E, sub_zero by reflexivity. now rewrite put_nil.
    - rewrite length_put; [exact Hx|segs; lia|]. rewrite Lp, Hx. segs. lia. }
  repeat split.
  - apply L; trivial; consts; segs; lia.
  - apply L; trivial; consts; segs; lia.
  - apply L; trivial; consts; segs; lia.
  - apply L; trivial; consts; segs; lia.
Qed.

(** A slice that starts beyond the payload: the first three blocks leave
    it, and the remainder [m] of the last, taken as a [size_t], is as large
    as the slice, which is written past the table. *)
Lemma copy_beyond (r off : Z) (src : list Z) (fb : frame_buf_t) :
  0 <= r <= MAX_R -> PAY r < off < 2 ^ 32 ->
  0 < Z.of_nat (length src) < 2 ^ 16 ->
  Z.of_nat (length (fb_crcP fb)) = r * 2 ->
  copy_slice_into_frame fb r off src = None.
Proof.
  intros Hr Ho Hl H4. unfold copy_slice_into_frame, copy_data.
  cbn [cs_fb cs_copied].
  destruct (Z.ltb_spec off FRAME_BYTES) as [X|_]; [consts; lia|]. cbn [bind_opt].
  unfold copy_par. cbn [cs_fb cs_copied].
  destruct (Z.ltb_spec (off + 0) (FRAME_BYTES + r * SHARD_LEN)) as [X|_]; [consts; lia|].
  cbn [andb bind_opt].
  unfold copy_crcD. cbn [cs_fb cs_copied].
  destruct (Z.ltb_spec (off + 0) (FRAME_BYTES + r * SHARD_LEN + K_SHARDS * 2)) as [X|_];
    [consts; lia|].
  cbn [andb bind_opt].
  unfold copy_crcP. cbn [cs_fb cs_copied].
  destruct (Z.ltb_spec 0 (Z.of_nat (length src))) as [_|X]; [|lia].
  destruct (Z.leb_spec (FRAME_BYTES + r * SHARD_LEN + K_SHARDS * 2) (off + 0)) as [_|X];
    [|consts; lia].
  assert (M : u64 (r * 2 - (off + 0 - (FRAME_BYTES + r * SHARD_LEN + K_SHARDS * 2)))
              = 2 ^ 64 + (r * 2 - (off + 0 - (FRAME_BYTES + r * SHARD_LEN + K_SHARDS * 2)))).
  { unfold u64. change 18446744073709551616 with (2 ^ 64).
    symmetry. apply Z.mod_unique with (q := -1); consts; lia. }
  rewrite M.
  destruct (Z.ltb_spec (Z.of_nat (length src) - 0)
              (2 ^ 64 + (r * 2 - (off + 0 - (FRAME_BYTES + r * SHARD_LEN + K_SHARDS * 2)))))
    as [_|X]; [|consts; lia].
  unfold mem_write.
  assert (Ls : Z.of_nat (length (sub src 0 (Z.of_nat (length src) - 0)))
               = Z.of_nat (length src)).
  { rewrite length_sub_Z; lia. }
  rewrite Ls, H4.
  destruct (Z.leb_spec 0 (off + 0 - (FRAME_BYTES + r * SHARD_LEN + K_SHARDS * 2)));
    [|consts; lia].
  destruct (Z.leb_spec (off + 0 - (FRAME_BYTES + r * SHARD_LEN + K_SHARDS * 2)
                        + Z.of_nat (length src)) (r * 2)) as [X|_]; [consts; lia|].
  reflexivity.
Qed.

(** *** The slices of a frame *)

Lemma chunks_firstn {A} (l : list A) (S n : nat) :
  flat_map (fun k => firstn S (skipn (k * S) l)) (seq 0 n) = firstn (n * S) l.
Proof.
  induction n as [|n IH]; [reflexivity|].
  rewrite seq_S, flat_map_app, IH. cbn [flat_map Nat.add]. rewrite app_nil_r.
  rewrite firstn_firstn_skipn. f_equal. lia.
Qed.

Lemma slice_count (P S : Z) :
  0 <= P -> 0 < S -> P <= (P + S - 1) / S * S < P + S.
Proof.
  intros HP HS.
  pose proof (Z.div_mod (P + S - 1) S ltac:(lia)) as D.
  pose proof (Z.mod_pos_bound (P + S - 1) S HS) as M. nia.
Qed.

Lemma chunks_of_list (l : list Z) (S : Z) :
  0 < S ->
  flat_map (fun off => sub l off (if off + S <=? Z.of_nat (length l)
                                  then S else Z.of_nat (length l) - off))
           (slice_offsets (Z.of_nat (length l)) S)
  = l.
Proof.
  intros HS. unfold slice_offsets. rewrite flat_map_map.
  set (n := Z.to_nat ((Z.of_nat (length l) + S - 1) / S)).
  pose proof (slice_count (Z.of_nat (length l)) S ltac:(lia) HS) as C.
  assert (Hn : (length l <= n * Z.to_nat S)%nat) by (subst n; nia).
  transitivity (firstn (n * Z.to_nat S) l); [|now apply firstn_all2].
  rewrite <- chunks_firstn. apply flat_map_ext. intros k. unfold sub.
  replace (Z.to_nat (Z.of_nat k * S)) with (k * Z.to_nat S)%nat by nia.
  apply firstn_clip. rewrite length_skipn.
  destruct (Z.leb_spec (Z.of_nat k * S + S) (Z.of_nat (length l))); nia.
Qed.

(** Closed side conditions of an instance. *)
Ltac side :=
  first [ vm_compute; reflexivity
        | vm_compute; intro; discriminate
        | vm_compute; split; intro; discriminate
        | vm_compute; split; [intro; discriminate|reflexivity]
        | vm_compute; split; [reflexivity|intro; discriminate]
        | vm_compute; split; reflexivity ].

Lemma flat_map_eq_in {A B} (f g : A -> list B) (l : list A) :
  (forall x, In x l -> f x = g x) -> flat_map f l = flat_map g l.
Proof.
  induction l as [|x l IH]; intros H; [reflexivity|].
  cbn [flat_map]. rewrite (H x (or_introl eq_refl)), IH; trivial.
  intros y Hy. apply H. now right.
Qed.

Lemma gather_slice_image (r off chunk : Z) (data par crcD crcP : list Z) :
  0 <= r <= MAX_R -> sized r data par crcD crcP ->
  0 <= off -> 0 < chunk -> off + chunk <= payload_len_bytes r ->
  gather_slice data par crcD crcP r off chunk = sub (data ++ par ++ crcD ++ crcP) off chunk
  /\ Z.of_nat (length (gather_slice data par crcD crcP r off chunk)) = chunk.
Proof.
  intros Hr Hs Ho Hc Hp.
  destruct (gather_slice_eq r off chunk data par crcD crcP Hr Ho Hc Hp Hs) as (E & L).
  split; [|exact L]. rewrite E.
  apply (slice_of_image r off chunk data par crcD crcP); trivial; lia.
Qed.

(** X2.  In [pack_impl] the four blocks that fill [ptmp] cut a contiguous
    range out of the payload of the frame: for buffers of the sizes pack
    allocates and a slice of [chunk] > 0 bytes that ends inside the
    payload, [ptmp] holds bytes [off .. off + chunk) of
    data ++ parity ++ crcD ++ crcP, all [chunk] of them. *)
Theorem gather_slice_payload_range (r off chunk : Z) (data par crcD crcP : list Z) :
  0 <= r <= MAX_R ->
  Z.of_nat (length data) = FRAME_BYTES -> Z.of_nat (length par) = r * SHARD_LEN ->
  Z.of_nat (length crcD) = K_SHARDS * 2 -> Z.of_nat (length crcP) = r * 2 ->
  0 <= off -> 0 < chunk -> off + chunk <= payload_len_bytes r ->
  gather_slice data par crcD crcP r off chunk = sub (data ++ par ++ crcD ++ crcP) off chunk
  /\ Z.of_nat (length (gather_slice data par crcD crcP r off chunk)) = chunk.
Proof.
  intros Hr H1 H2 H3 H4 Ho Hc Hp.
  apply gather_slice_image; trivial. repeat split; assumption.
Qed.

Lemma gather_slice_payload_range_witness :
  let data := map (fun k => Z.of_nat k mod 251) (seq 0 (Z.to_nat 12288)) in
  let par := map (fun k => Z.of_nat k mod 7 + 1) (seq 0 128) in
  let crcD := repeat 170 384 in
  let crcP := [1; 2; 3; 4] in
  gather_slice data par crcD crcP 2 12200 600 = sub (data ++ par ++ crcD ++ crcP) 12200 600
  /\ Z.of_nat (length (gather_slice data par crcD crcP 2 12200 600)) = 600.
Proof.
  cbv zeta.
  apply (gather_slice_payload_range 2 12200 600); side.
Defined.

(** X3.  [copy_slice_into_frame] writes a slice over the payload of the
    frame buffer: for buffers of the sizes unpack allocates and a slice of
    at least one byte that starts at or before the end of the payload, the
    call stays inside the four buffers, and afterwards
    data ++ parity ++ crcD ++ crcP holds the slice from byte [off] on, cut
    at the end of the payload, and is unchanged elsewhere; the two
    filled-bytes counters have grown by the bytes that fell into each CRC
    table, and [init] and [data_len] are as before. *)
Theorem copy_slice_overwrites_payload (r off : Z) (src : list Z) (fb : frame_buf_t) :
  0 <= r <= MAX_R ->
  Z.of_nat (length (fb_data fb)) = FRAME_BYTES ->
  Z.of_nat (length (fb_par fb)) = r * SHARD_LEN ->
  Z.of_nat (length (fb_crcD fb)) = K_SHARDS * 2 ->
  Z.of_nat (length (fb_crcP fb)) = r * 2 ->
  0 <= off <= payload_len_bytes r -> 0 < Z.of_nat (length src) ->
  let len := Z.of_nat (length src) in
  let kept := firstn (Z.to_nat (payload_len_bytes r - off)) src in
  let tblD := FRAME_BYTES + r * SHARD_LEN in
  let tblP := tblD + K_SHARDS * 2 in
  exists fb',
    copy_slice_into_frame fb r off src = Some fb'
    /\ fb_image fb'
       = firstn (Z.to_nat off) (fb_image fb) ++ kept
         ++ skipn (Z.to_nat off + length kept) (fb_image fb)
    /\ length (fb_data fb') = length (fb_data fb)
    /\ length (fb_par fb') = length (fb_par fb)
    /\ length (fb_crcD fb') = length (fb_crcD fb)
    /\ length (fb_crcP fb') = length (fb_crcP fb)
    /\ fb_crcD_filled_bytes fb'
       = fb_crcD_filled_bytes fb + Z.max 0 (Z.min (off + len) tblP - Z.max off tblD)
    /\ fb_crcP_filled_bytes fb'
       = fb_crcP_filled_bytes fb
         + Z.max 0 (Z.min (off + len) (payload_len_bytes r) - Z.max off tblP)
    /\ fb_init fb' = fb_init fb /\ fb_data_len fb' = fb_data_len fb.
Proof.
  intros Hr H1 H2 H3 H4 Ho Hl. cbv zeta.
  assert (Hs : sized r (fb_data fb) (fb_par fb) (fb_crcD fb) (fb_crcP fb))
    by (repeat split; assumption).
  exists (clipped_frame r off src fb).
  split; [apply copy_slice_into_frame_any; trivial; unfold PAY; lia|].
  pose proof (length_clipped_frame r off src fb Hr Ho Hl Hs) as HL.
  unfold sized, B1 in HL. destruct HL as (L1 & L2 & L3 & L4).
  split.
  { rewrite (clipped_frame_image r off src fb Hr Ho Hl Hs). unfold put, sub.
    cbn [Z.to_nat skipn].
    replace (Z.to_nat (Z.min (Z.of_nat (length src)) (PAY r - off)))
      with (Nat.min (length src) (Z.to_nat (payload_len_bytes r - off)))
      by (unfold PAY; lia).
    f_equal. f_equal; [apply firstn_clip; lia|].
    f_equal. rewrite !length_firstn. lia. }
  split; [lia|]. split; [lia|]. split; [lia|]. split; [lia|].
  unfold clipped_frame. cbn [fb_crcD_filled_bytes fb_crcP_filled_bytes fb_init fb_data_len].
  repeat split; f_equal; consts; segs; lia.
Qed.

Lemma copy_slice_overwrites_payload_witness :
  let fb := alloc_frame 2 frame_buf_zero 1 0 in
  let src := map (fun k => Z.of_nat k mod 200 + 1) (seq 0 700) in
  let kept := firstn (Z.to_nat (payload_len_bytes 2 - 12300)) src in
  exists fb',
    copy_slice_into_frame fb 2 12300 src = Some fb'
    /\ fb_image fb'
       = firstn (Z.to_nat 12300) (fb_image fb) ++ kept
         ++ skipn (Z.to_nat 12300 + length kept) (fb_image fb)
    /\ length (fb_data fb') = length (fb_data fb)
    /\ length (fb_par fb') = length (fb_par fb)
    /\ length (fb_crcD fb') = length (fb_crcD fb)
    /\ length (fb_crcP fb') = length (fb_crcP fb)
    /\ fb_crcD_filled_bytes fb'
       = fb_crcD_filled_bytes fb
         + Z.max 0 (Z.min (12300 + Z.of_nat (length src))
                          (FRAME_BYTES + 2 * SHARD_LEN + K_SHARDS * 2)
                    - Z.max 12300 (FRAME_BYTES + 2 * SHARD_LEN))
    /\ fb_crcP_filled_bytes fb'
       = fb_crcP_filled_bytes fb
         + Z.max 0 (Z.min (12300 + Z.of_nat (length src)) (payload_len_bytes 2)
                    - Z.max 12300 (FRAME_BYTES + 2 * SHARD_LEN + K_SHARDS * 2))
    /\ fb_init fb' = fb_init fb /\ fb_data_len fb' = fb_data_len fb.
Proof.
  cbv zeta.
  apply (copy_slice_overwrites_payload 2 12300
           (map (fun k => Z.of_nat k mod 200 + 1) (seq 0 700))
           (alloc_frame 2 frame_buf_zero 1 0));
    side.
Defined.

(** X4.  [copy_slice_into_frame] checks the start of a slice against the
    end of the payload in its first three blocks only.  For buffers of the
    sizes unpack allocates, an offset that fits the 32-bit header field
    and a slice of 1 to 65535 bytes: the call writes outside the buffers
    of the frame exactly when the offset is greater than the length of the
    payload (the remainder of the last block, a [size_t], has wrapped
    around and no longer limits the copy). *)
Theorem copy_slice_out_of_bounds_iff (r off : Z) (src : list Z) (fb : frame_buf_t) :
  0 <= r <= MAX_R ->
  Z.of_nat (length (fb_data fb)) = FRAME_BYTES ->
  Z.of_nat (length (fb_par fb)) = r * SHARD_LEN ->
  Z.of_nat (length (fb_crcD fb)) = K_SHARDS * 2 ->
  Z.of_nat (length (fb_crcP fb)) = r * 2 ->
  0 <= off < 2 ^ 32 -> 0 < Z.of_nat (length src) < 2 ^ 16 ->
  (copy_slice_into_frame fb r off src = None <-> payload_len_bytes r < off).
Proof.
  intros Hr H1 H2 H3 H4 Ho Hl.
  assert (Hs : sized r (fb_data fb) (fb_par fb) (fb_crcD fb) (fb_crcP fb))
    by (repeat split; assumption).
  split.
  - intros E. destruct (Z.lt_ge_cases (payload_len_bytes r) off) as [C|C]; trivial.
    rewrite (copy_slice_into_frame_any r off src) in E; trivial; unfold PAY; try lia.
    discriminate.
  - intros C. apply copy_beyond; trivial; unfold PAY; lia.
Qed.

Lemma copy_slice_out_of_bounds_iff_witness :
  copy_slice_into_frame (alloc_frame 16 frame_buf_zero 2 12288) 16 13729 [1; 2; 3] = None
  <-> payload_len_bytes 16 < 13729.
Proof.
  apply (copy_slice_out_of_bounds_iff 16 13729 [1; 2; 3]
           (alloc_frame 16 frame_buf_zero 2 12288));
    side.
Defined.

(** X5.  The slices [pack_impl] cuts from a frame tile its payload: with
    slice size [S] > 0 the loop [for (off = 0; off < PAY; off += S)] runs
    (PAY + S - 1) / S times, and the slices it gathers, one after the
    other, are data ++ parity ++ crcD ++ crcP, every byte once. *)
Theorem slices_tile_payload (r S : Z) (data par crcD crcP : list Z) :
  0 <= r <= MAX_R ->
  Z.of_nat (length data) = FRAME_BYTES -> Z.of_nat (length par) = r * SHARD_LEN ->
  Z.of_nat (length crcD) = K_SHARDS * 2 -> Z.of_nat (length crcP) = r * 2 ->
  0 < S ->
  let PAY := payload_len_bytes r in
  flat_map (fun off => gather_slice data par crcD crcP r off
                         (if off + S <=? PAY then S else PAY - off))
           (slice_offsets PAY S)
  = data ++ par ++ crcD ++ crcP
  /\ Z.of_nat (length (slice_offsets PAY S)) = (PAY + S - 1) / S.
Proof.
  intros Hr H1 H2 H3 H4 HS. cbv zeta.
  assert (Hs : sized r data par crcD crcP) by (repeat split; assumption).
  pose proof (length_payload_image r data par crcD crcP Hs) as LI.
  unfold payload_image, PAY in LI.
  assert (P0 : 0 < payload_len_bytes r) by (consts; lia).
  pose proof (slice_count (payload_len_bytes r) S ltac:(lia) HS) as C.
  split.
  - transitivity
      (flat_map (fun off => sub (data ++ par ++ crcD ++ crcP) off
                              (if off + S <=? payload_len_bytes r
                               then S else payload_len_bytes r - off))
                (slice_offsets (payload_len_bytes r) S));
      [|rewrite <- LI; apply chunks_of_list; exact HS].
    unfold slice_offsets. rewrite !flat_map_map.
    apply flat_map_eq_in. intros k Hk. apply in_seq in Hk.
    assert (Hlt : Z.of_nat k * S < payload_len_bytes r) by nia.
    destruct (Z.leb_spec (Z.of_nat k * S + S) (payload_len_bytes r)).
    + apply (gather_slice_image r); trivial; nia.
    + apply (gather_slice_image r); trivial; nia.
  - unfold slice_offsets. rewrite length_map, length_seq. nia.
Qed.

Lemma slices_tile_payload_witness :
  let data := map (fun k => Z.of_nat k mod 251) (seq 0 (Z.to_nat 12288)) in
  let par := map (fun k => Z.of_nat k mod 7 + 1) (seq 0 128) in
  let crcD := repeat 170 384 in
  let crcP := [1; 2; 3; 4] in
  let PAY := payload_len_bytes 2 in
  flat_map (fun off => gather_slice data par crcD crcP 2 off
                         (if off + 500 <=? PAY then 500 else PAY - off))
           (slice_offsets PAY 500)
  = data ++ par ++ crcD ++ crcP
  /\ Z.of_nat (length (slice_offsets PAY 500)) = (PAY + 500 - 1) / 500.
Proof.
  cbv zeta.
  apply (slices_tile_payload 2 500
           (map (fun k => Z.of_nat k mod 251) (seq 0 (Z.to_nat 12288)))
           (map (fun k => Z.of_nat k mod 7 + 1) (seq 0 128))
           (repeat 170 384) [1; 2; 3; 4]); side.
Defined.

End RSPayload.

(** ** Finding the next record *)

Module RSResync.
Import RS RSSpec RSLayout RSFrames RSRound CodecFacts.

(** The four bytes of the stream from position [k]. *)
Definition window (f : list Z) (k : nat) : list Z := firstn 4 (skipn k f).

Lemma window_shift (a : Z) (f : list Z) (k : nat) : window (a :: f) (S k) = window f k.
Proof. reflexivity. Qed.

Lemma slide_magic_spec (rest : list Z) :
  forall win, length win = 4%nat ->
  match slide_magic win rest with
  | Some (m, rest') =>
    exists j, (j <= length rest)%nat /\ rest' = skipn j rest
              /\ m = le_value (window (win ++ rest) j)
              /\ is_magic (window (win ++ rest) j) = true
              /\ forall k, (k < j)%nat -> is_magic (window (win ++ rest) k) = false
  | None => forall k, (k <= length rest)%nat -> is_magic (window (win ++ rest) k) = false
  end.
Proof.
  induction rest as [|c t IH]; intros win Hw.
  - cbn [slide_magic]. rewrite app_nil_r.
    assert (W0 : window win 0 = win) by (unfold window; cbn [skipn]; apply firstn_all2; lia).
    destruct (is_magic win) eqn:M.
    + exists 0%nat. rewrite W0. repeat split; trivial. intros k Hk. lia.
    + intros k Hk. cbn [length] in Hk. replace k with 0%nat by lia. now rewrite W0.
  - cbn [slide_magic].
    assert (W0 : window (win ++ c :: t) 0 = win).
    { unfold window. cbn [skipn]. rewrite firstn_app, firstn_all2 by lia.
      replace (4 - length win)%nat with 0%nat by lia. cbn [firstn]. apply app_nil_r. }
    destruct (is_magic win) eqn:M.
    + exists 0%nat. rewrite W0. repeat split; trivial; [cbn [length]; lia|].
      intros k Hk. lia.
    + destruct win as [|a w3]; [discriminate|]. cbn [skipn].
      assert (Hw3 : length (w3 ++ [c]) = 4%nat)
        by (rewrite length_app; cbn [length] in *; lia).
      specialize (IH (w3 ++ [c]) Hw3).
      assert (Sh : forall k, window ((a :: w3) ++ c :: t) (S k) = window ((w3 ++ [c]) ++ t) k).
      { intros k. rewrite <- app_assoc. reflexivity. }
      destruct (slide_magic (w3 ++ [c]) t) as [[m rest']|].
      * destruct IH as (j & Hj & Er & Em & Ej & Hlt).
        exists (S j). rewrite Sh. repeat split; trivial; [cbn [length]; lia|].
        intros k Hk. destruct k as [|k]; [now rewrite W0|]. rewrite Sh. apply Hlt. lia.
      * intros k Hk. destruct k as [|k]; [now rewrite W0|]. rewrite Sh. apply IH.
        cbn [length] in Hk. lia.
Qed.

Lemma is_magic_value (w : list Z) :
  is_magic w = true -> le_value w = FRAME_MAGIC_V4 \/ le_value w = SLICE_MAGIC_V4.
Proof.
  unfold is_magic. intros H. apply orb_true_iff in H as [H|H]; apply Z.eqb_eq in H; auto.
Qed.

Lemma find_next_magic_index (f : list Z) :
  match find_next_magic f with
  | Some (m, rest) =>
    exists j, (j + 4 <= length f)%nat /\ rest = skipn (j + 4) f
              /\ m = le_value (window f j) /\ is_magic (window f j) = true
              /\ forall k, (k < j)%nat -> is_magic (window f k) = false
  | None => forall k, (k + 4 <= length f)%nat -> is_magic (window f k) = false
  end.
Proof.
  unfold find_next_magic. destruct (Nat.ltb_spec (length f) 4) as [Hs|Hl].
  - intros k Hk. lia.
  - pose proof (slide_magic_spec (skipn 4 f) (firstn 4 f)) as H.
    rewrite firstn_skipn in H. specialize (H ltac:(rewrite length_firstn; lia)).
    destruct (slide_magic (firstn 4 f) (skipn 4 f)) as [[m rest]|].
    + destruct H as (j & Hj & Er & Em & Ej & Hlt). rewrite length_skipn in Hj.
      exists j. repeat split; trivial; [lia|].
      rewrite Er, skipn_skipn. reflexivity.
    + intros k Hk. apply H. rewrite length_skipn. lia.
Qed.

(** X6.  [find_next_magic] finds the first magic of the stream: when it
    returns 1 the stream is some bytes, then four bytes whose
    little-endian value is the magic it reports, a frame or a slice magic,
    then the stream it leaves to its caller, and no four consecutive bytes
    that start earlier spell a magic; when it returns 0 no four
    consecutive bytes of the stream spell one. *)
Theorem find_next_magic_first (f : list Z) :
  match find_next_magic f with
  | Some (m, rest) =>
    exists pre w,
      f = pre ++ w ++ rest /\ length w = 4%nat /\ le_value w = m
      /\ (m = FRAME_MAGIC_V4 \/ m = SLICE_MAGIC_V4)
      /\ forall k, (k < length pre)%nat -> is_magic (firstn 4 (skipn k f)) = false
  | None =>
    forall k, (k + 4 <= length f)%nat -> is_magic (firstn 4 (skipn k f)) = false
  end.
Proof.
  pose proof (find_next_magic_index f) as H.
  destruct (find_next_magic f) as [[m rest]|]; [|exact H].
  destruct H as (j & Hj & Er & Em & Ej & Hlt).
  exists (firstn j f), (window f j).
  assert (Lp : length (firstn j f) = j) by (rewrite length_firstn; lia).
  split.
  { rewrite Er. unfold window. rewrite <- (firstn_skipn j f) at 1. f_equal.
    rewrite <- (firstn_skipn 4 (skipn j f)) at 1. f_equal.
    rewrite skipn_skipn. f_equal. lia. }
  split; [unfold window; rewrite length_firstn, length_skipn; lia|].
  split; [now rewrite Em|]. split; [rewrite Em; now apply is_magic_value|].
  rewrite Lp. exact Hlt.
Qed.

(** Bytes before a record in which the loop finds no magic, also not where
    they run into the magic [m] of the record. *)
Definition no_magic_before (junk : list Z) (m : Z) : Prop :=
  forall k, (k < length junk)%nat ->
    is_magic (firstn 4 (skipn k (junk ++ le_bytes 4 m))) = false.

Lemma find_next_magic_skips (junk t : list Z) (m : Z) :
  m = FRAME_MAGIC_V4 \/ m = SLICE_MAGIC_V4 -> no_magic_before junk m ->
  find_next_magic (junk ++ le_bytes 4 m ++ t) = Some (m, t).
Proof.
  intros Hm Hc. set (f := junk ++ le_bytes 4 m ++ t).
  assert (Wj : window f (length junk) = le_bytes 4 m).
  { unfold window, f. rewrite skipn_app, skipn_all, Nat.sub_diag, skipn_O, app_nil_l.
    rewrite firstn_app, length_le_bytes, Nat.sub_diag, firstn_O, app_nil_r.
    apply firstn_all2. rewrite length_le_bytes. lia. }
  assert (Wk : forall k, (k < length junk)%nat ->
                         window f k = firstn 4 (skipn k (junk ++ le_bytes 4 m))).
  { intros k Hk. unfold window, f. rewrite app_assoc, skipn_app, firstn_app.
    assert (L : length (skipn k (junk ++ le_bytes 4 m)) = (length junk + 4 - k)%nat)
      by (rewrite length_skipn, length_app, length_le_bytes; lia).
    rewrite L. replace (4 - (length junk + 4 - k))%nat with 0%nat by lia.
    rewrite firstn_O. apply app_nil_r. }
  assert (Mj : is_magic (le_bytes 4 m) = true)
    by (destruct Hm as [->| ->]; reflexivity).
  assert (Vj : le_value (le_bytes 4 m) = m)
    by (destruct Hm as [->| ->]; reflexivity).
  pose proof (find_next_magic_index f) as H.
  destruct (find_next_magic f) as [[m' rest]|].
  - destruct H as (j & Hj & Er & Em & Ej & Hlt).
    assert (j = length junk) as ->.
    { destruct (Nat.lt_trichotomy j (length junk)) as [L|[E|G]]; trivial.
      - rewrite Wk, (Hc j L) in Ej by exact L. discriminate.
      - specialize (Hlt _ G). rewrite Wj in Hlt. congruence. }
    rewrite Wj, Vj in Em. subst m'. f_equal. f_equal. rewrite Er. unfold f.
    rewrite skipn_app, skipn_all2 by lia. rewrite app_nil_l.
    replace (length junk + 4 - length junk)%nat with 4%nat by lia.
    rewrite skipn_app, length_le_bytes, Nat.sub_diag, skipn_O.
    rewrite skipn_all2 by (rewrite length_le_bytes; lia). reflexivity.
  - specialize (H (length junk)). rewrite Wj in H.
    rewrite H in Mj; [discriminate|]. unfold f. rewrite !length_app, length_le_bytes. lia.
Qed.

Lemma parse_loop_find (fuel : nat) (r F orig : Z) (f g : list Z) (st : parse_state) :
  find_next_magic f = find_next_magic g ->
  parse_loop (S fuel) r F orig f st = parse_loop (S fuel) r F orig g st.
Proof. intros H. cbn [parse_loop]. now rewrite H. Qed.

(** X7.  The first loop of unpack resynchronises: bytes in front of a
    record in which no magic is found are skipped, and the record is then
    read as if they were not there.  A frame header of 24 bytes updates the
    slot of its frame with the values pack wrote; a slice record, 22 bytes
    and its payload, is handed to the slice handling with the header
    values pack wrote. *)
Theorem parse_loop_resync (fuel : nat) (r F orig : Z) (junk t buf : list Z)
    (fh : frame_hdr_v4_t) (sh : slice_hdr_v4_t) (st : parse_state) :
  fh_in_range fh -> sh_in_range sh ->
  sh_size sh = Z.of_nat (length buf) -> buf <> [] ->
  no_magic_before junk FRAME_MAGIC_V4 -> no_magic_before junk SLICE_MAGIC_V4 ->
  length (fh_bytes fh) = 24%nat /\ length (sh_bytes sh) = 22%nat
  /\ parse_loop (S fuel) r F orig (junk ++ fh_bytes fh ++ t) st
     = parse_loop fuel r F orig t (on_frame_hdr r F fh st)
  /\ parse_loop (S fuel) r F orig (junk ++ sh_bytes sh ++ buf ++ t) st
     = match on_slice r F orig sh buf st with
       | None => None
       | Some st1 => parse_loop fuel r F orig t st1
       end.
Proof.
  intros Hf Hs Hsz Hne Cf Cs.
  split; [reflexivity|]. split; [reflexivity|]. split.
  - rewrite <- (parse_loop_frame_hdr fuel r F orig fh t st Hf).
    apply parse_loop_find.
    pose proof Hf as (Hm & _). rewrite fh_bytes_split, Hm, <- app_assoc.
    rewrite find_frame_magic. apply find_next_magic_skips; auto.
  - rewrite <- (parse_loop_slice fuel r F orig sh buf t st Hs Hsz Hne).
    apply parse_loop_find.
    pose proof Hs as (Hm & _). rewrite sh_bytes_split, Hm, <- app_assoc.
    rewrite find_slice_magic. apply find_next_magic_skips; auto.
Qed.

Lemma parse_loop_resync_witness :
  let fh := {| fh_magic := FRAME_MAGIC_V4; fh_index := 0; fh_data_len := 5;
               fh_parity_len := 1024; fh_crc32_data := 7; fh_crc32_par := 9 |} in
  let sh := {| sh_magic := SLICE_MAGIC_V4; sh_frame_index := 0; sh_offset := 3;
               sh_size := 2; sh_crc32_slice := 11 |} in
  let st := {| ps_tab := [frame_buf_zero]; ps_slices_ok := 0; ps_slices_bad := 0 |} in
  length (fh_bytes fh) = 24%nat /\ length (sh_bytes sh) = 22%nat
  /\ parse_loop 3 16 1 5 ([82; 83; 70] ++ fh_bytes fh ++ [1]) st
     = parse_loop 2 16 1 5 [1] (on_frame_hdr 16 1 fh st)
  /\ parse_loop 3 16 1 5 ([82; 83; 70] ++ sh_bytes sh ++ [8; 9] ++ [1]) st
     = match on_slice 16 1 5 sh [8; 9] st with
       | None => None
       | Some st1 => parse_loop 2 16 1 5 [1] st1
       end.
Proof.
  cbv zeta.
  apply (parse_loop_resync 2 16 1 5 [82; 83; 70] [1] [8; 9]).
  - vm_compute. repeat split; intro; discriminate.
  - vm_compute. repeat split; intro; discriminate.
  - reflexivity.
  - discriminate.
  - intros k Hk. destruct k as [|[|[|k]]]; try reflexivity. simpl in Hk. lia.
  - intros k Hk. destruct k as [|[|[|k]]]; try reflexivity. simpl in Hk. lia.
Defined.

End RSResync.

(** ** Pack and unpack as a whole *)

Module RSWhole.
Import RS RSSpec RSLayout RSSlices RSFrames RSRound CodecFacts RSErasures RSPayload.

(** X1.  The round trip through the extended entry points.  Take any
    codec that meets the contract for [r] parity symbols, 1 <= r <= 63, an
    interleave depth and a slice size that fit their 16-bit header fields
    and are not 0, any padding mode and any residual coefficient, and any
    sequence of bytes shorter than 2^63.  With files that can be opened and
    no cancellation, [rs_pack_container_ex] returns 0 and writes a
    container on which [rs_unpack_container_ex] returns 0 and writes the
    input, byte for byte; the statistics count every frame and every slice
    of the container, all slices as good, and report no failed column, no
    corrected symbol and a residual error estimate of 0. *)
Theorem rs_ex_round_trip {rs_handle : Type}
    (init_rs_char : Z -> Z -> Z -> Z -> Z -> Z -> option rs_handle)
    (encode_rs_char : rs_handle -> list Z -> list Z)
    (decode_rs_char : rs_handle -> list Z -> list Z -> Z * list Z * list Z)
    (r il_depth slice_bytes pad_mode residual_step : Z) (input : list Z) :
  1 <= r <= MAX_R -> 1 <= il_depth < 2 ^ 16 -> 1 <= slice_bytes < 2 ^ 16 ->
  codec_ok init_rs_char encode_rs_char decode_rs_char r ->
  bytes_ok input = true -> Z.of_nat (length input) < 2 ^ 63 ->
  exists c u,
    rs_pack_container_ex init_rs_char encode_rs_char false (Some input) true
                         r il_depth slice_bytes
    = Some (0, Some c)
    /\ rs_unpack_container_ex init_rs_char decode_rs_char false residual_step
                              (Some c) true pad_mode
       = Some u
    /\ un_ret u = 0 /\ un_out u = Some input
    /\ frames_total (un_stats u)
       = (Z.of_nat (length input) + FRAME_BYTES - 1) / FRAME_BYTES
    /\ slices_ok (un_stats u)
       = frames_total (un_stats u)
         * ((payload_len_bytes r + slice_bytes - 1) / slice_bytes)
    /\ slices_bad (un_stats u) = 0
    /\ rs_fail_columns (un_stats u) = 0
    /\ corrected_symbols (un_stats u) = 0
    /\ ber_est (un_stats u) = 0%Q.
Proof.
  intros Hr Hil Hsb Hc Hok Hlen.
  unfold rs_pack_container_ex, rs_unpack_container_ex.
  destruct (round_trip init_rs_char encode_rs_char decode_rs_char r il_depth slice_bytes
              residual_step
              (if (pad_mode <? 0) || (2 <? pad_mode) then RS_PAD_MODE else pad_mode)
              input Hr Hil Hsb Hc Hok Hlen)
    as (c & u & Ep & Eu & U1 & U2 & U3 & U4 & U5 & U6 & U7 & U8).
  exists c, u. rewrite U3. repeat split; assumption.
Qed.

Lemma rs_ex_round_trip_witness :
  exists c u,
    rs_pack_container_ex Codec.init_rs_char Codec.encode_rs_char false
                         (Some [80; 108; 117; 116; 111]) true 8 3 1000
    = Some (0, Some c)
    /\ rs_unpack_container_ex Codec.init_rs_char Codec.decode_rs_char false 25
                              (Some c) true 2
       = Some u
    /\ un_ret u = 0 /\ un_out u = Some [80; 108; 117; 116; 111]
    /\ frames_total (un_stats u)
       = (Z.of_nat (length [80; 108; 117; 116; 111]) + FRAME_BYTES - 1) / FRAME_BYTES
    /\ slices_ok (un_stats u)
       = frames_total (un_stats u) * ((payload_len_bytes 8 + 1000 - 1) / 1000)
    /\ slices_bad (un_stats u) = 0
    /\ rs_fail_columns (un_stats u) = 0
    /\ corrected_symbols (un_stats u) = 0
    /\ ber_est (un_stats u) = 0%Q.
Proof.
  apply (rs_ex_round_trip Codec.init_rs_char Codec.encode_rs_char Codec.decode_rs_char
                          8 3 1000 2 25 [80; 108; 117; 116; 111]).
  - unfold MAX_R. lia.
  - lia.
  - lia.
  - apply codec_meets_contract. unfold MAX_R. lia.
  - reflexivity.
  - simpl. lia.
Defined.

(** *** The erasure list *)

Lemma Forall_firstn {A} (P : A -> Prop) (l : list A) (n : nat) :
  Forall P l -> Forall P (firstn n l).
Proof.
  intros H. revert n. induction H as [|x l Hx Hl IH]; intros [|n]; cbn [firstn];
    constructor; auto.
Qed.

Lemma Forall_zrange (a b : Z) (P : Z -> Prop) :
  (forall x, a <= x < b -> P x) -> Forall P (zrange a b).
Proof. intros H. apply Forall_forall. intros x Hx. apply H. now apply in_zrange. Qed.

Lemma Forall_filter {A} (P : A -> Prop) (f : A -> bool) (l : list A) :
  Forall P l -> Forall P (filter f l).
Proof.
  intros H. apply Forall_forall. intros x Hx. apply filter_In in Hx as [Hx _].
  revert x Hx. now apply Forall_forall.
Qed.

Lemma eras_data_range (fb : frame_buf_t) (r : Z) :
  0 <= fb_data_len fb -> Forall (fun e => 0 <= e < K_SHARDS) (eras_data fb r).
Proof.
  intros Hd. unfold eras_data.
  set (dlen := if FRAME_BYTES <? fb_data_len fb then FRAME_BYTES else fb_data_len fb).
  assert (D : 0 <= dlen <= FRAME_BYTES).
  { subst dlen. destruct (Z.ltb_spec FRAME_BYTES (fb_data_len fb));
      unfold FRAME_BYTES, K_SHARDS, SHARD_LEN in *; lia. }
  apply Forall_app. split.
  - destruct (Z.ltb_spec dlen FRAME_BYTES) as [Hlt|_]; [|constructor].
    assert (Q : 0 <= dlen / SHARD_LEN < K_SHARDS).
    { unfold FRAME_BYTES, K_SHARDS, SHARD_LEN in *. split.
      - apply Z.div_pos; lia.
      - apply Z.div_lt_upper_bound; lia. }
    apply Forall_app. split.
    + apply Forall_zrange. intros x Hx.
      destruct (dlen mod SHARD_LEN =? 0); lia.
    + destruct (dlen mod SHARD_LEN =? 0); constructor; [exact Q|constructor].
  - destruct (crc_tables_present fb r); [|constructor].
    apply Forall_filter, Forall_zrange. intros x Hx. unfold K_SHARDS in *. lia.
Qed.

Lemma eras_par_range (fb : frame_buf_t) (r : Z) :
  Forall (fun e => K_SHARDS <= e < K_SHARDS + r) (eras_par fb r).
Proof.
  unfold eras_par. destruct (crc_tables_present fb r); [|constructor].
  apply Forall_forall. intros e He. apply in_map_iff in He as (j & <- & Hj).
  apply filter_In in Hj as [Hj _]. apply in_zrange in Hj. lia.
Qed.

(** X8.  The erasure positions a frame hands to the decoder: for a frame
    buffer whose [data_len] is not negative (it is a [uint16_t]) and a
    count [r] of parity symbols that is not negative, the list has at most
    [r] entries and every entry is a position of the codeword, at least 0
    and below 192 + r. *)
Theorem frame_erasures_bounds (fb : frame_buf_t) (r : Z) (l : list Z) :
  0 <= r -> 0 <= fb_data_len fb -> frame_erasures fb r = Some l ->
  Z.of_nat (length l) <= r /\ Forall (fun e => 0 <= e < K_SHARDS + r) l.
Proof.
  intros Hr Hd E. rewrite frame_erasures_firstn in E.
  destruct (K_SHARDS <? Z.of_nat (length (eras_data fb r))); [discriminate|].
  injection E as <-. split.
  - rewrite length_firstn. lia.
  - apply Forall_firstn, Forall_app. split.
    + eapply Forall_impl; [|apply eras_data_range; exact Hd].
      cbv beta. intros e He. lia.
    + eapply Forall_impl; [|apply eras_par_range].
      cbv beta. intros e He. unfold K_SHARDS in *. lia.
Qed.

Lemma frame_erasures_bounds_witness :
  Z.of_nat (length (zrange 2 18)) <= 16
  /\ Forall (fun e => 0 <= e < K_SHARDS + 16) (zrange 2 18).
Proof.
  apply (frame_erasures_bounds (alloc_frame 16 frame_buf_zero 1 100) 16 (zrange 2 18)).
  - lia.
  - simpl. lia.
  - vm_compute. reflexivity.
Defined.

(** *** The size of the output of unpack

    A slot of the table is either untouched or holds a data buffer of
    12288 bytes; both loops of unpack keep it so. *)

Definition data_ok (fb : frame_buf_t) : Prop :=
  fb_init fb = 0 \/ Z.of_nat (length (fb_data fb)) = FRAME_BYTES.

Lemma mem_write_length (dst : list Z) (off : Z) (src p : list Z) :
  mem_write dst off src = Some p -> length p = length dst.
Proof.
  unfold mem_write. destruct (Z.leb_spec 0 off); [|discriminate].
  destruct (Z.leb_spec (off + Z.of_nat (length src)) (Z.of_nat (length dst)));
    [|discriminate].
  cbn [andb]. intros E. injection E as <-.
  rewrite !length_app, length_firstn, length_skipn. lia.
Qed.

(** What a block of [copy_slice_into_frame] keeps. *)
Definition keeps (s s' : copy_state) : Prop :=
  length (fb_data (cs_fb s')) = length (fb_data (cs_fb s))
  /\ fb_init (cs_fb s') = fb_init (cs_fb s).

Lemma keeps_refl (s : copy_state) : keeps s s.
Proof. split; reflexivity. Qed.

Lemma keeps_trans (a b c : copy_state) : keeps a b -> keeps b c -> keeps a c.
Proof. intros [A1 A2] [B1 B2]. split; congruence. Qed.

Lemma copy_data_keeps (off : Z) (src : list Z) (s s' : copy_state) :
  copy_data off src s = Some s' -> keeps s s'.
Proof.
  unfold copy_data. destruct (off <? FRAME_BYTES).
  - destruct (mem_write _ _ _) as [d|] eqn:E; [|discriminate].
    cbn [option_map]. intros H. injection H as <-.
    split; [|reflexivity]. cbn [cs_fb set_data fb_data]. exact (mem_write_length _ _ _ _ E).
  - intros H. injection H as <-. apply keeps_refl.
Qed.

Lemma copy_par_keeps (r off : Z) (src : list Z) (s s' : copy_state) :
  copy_par r off src s = Some s' -> keeps s s'.
Proof.
  unfold copy_par. destruct (_ && _); [|intros H; injection H as <-; apply keeps_refl].
  destruct (_ <=? _); [|intros H; injection H as <-; apply keeps_refl].
  destruct (mem_write _ _ _) as [d|]; [|discriminate].
  cbn [option_map]. intros H. injection H as <-. split; reflexivity.
Qed.

Lemma copy_crcD_keeps (r off : Z) (src : list Z) (s s' : copy_state) :
  copy_crcD r off src s = Some s' -> keeps s s'.
Proof.
  unfold copy_crcD. destruct (_ && _); [|intros H; injection H as <-; apply keeps_refl].
  destruct (_ <=? _); [|intros H; injection H as <-; apply keeps_refl].
  destruct (mem_write _ _ _) as [d|]; [|discriminate].
  cbn [option_map]. intros H. injection H as <-. split; reflexivity.
Qed.

Lemma copy_crcP_keeps (r off : Z) (src : list Z) (s s' : copy_state) :
  copy_crcP r off src s = Some s' -> keeps s s'.
Proof.
  unfold copy_crcP. destruct (_ <? _); [|intros H; injection H as <-; apply keeps_refl].
  destruct (_ <=? _); [|intros H; injection H as <-; apply keeps_refl].
  destruct (mem_write _ _ _) as [d|]; [|discriminate].
  cbn [option_map]. intros H. injection H as <-. split; reflexivity.
Qed.

Lemma copy_slice_keeps (fb fb' : frame_buf_t) (r off : Z) (src : list Z) :
  copy_slice_into_frame fb r off src = Some fb' ->
  length (fb_data fb') = length (fb_data fb) /\ fb_init fb' = fb_init fb.
Proof.
  unfold copy_slice_into_frame.
  destruct (copy_data off src _) as [s1|] eqn:E1; [|discriminate]. cbn [bind_opt].
  destruct (copy_par r off src s1) as [s2|] eqn:E2; [|discriminate]. cbn [bind_opt].
  destruct (copy_crcD r off src s2) as [s3|] eqn:E3; [|discriminate]. cbn [bind_opt].
  destruct (copy_crcP r off src s3) as [s4|] eqn:E4; [|discriminate].
  cbn [option_map]. intros H. injection H as <-.
  pose proof (keeps_trans _ _ _ (keeps_trans _ _ _ (keeps_trans _ _ _
                (copy_data_keeps _ _ _ _ E1) (copy_par_keeps _ _ _ _ _ E2))
                (copy_crcD_keeps _ _ _ _ _ E3)) (copy_crcP_keeps _ _ _ _ _ E4)) as K.
  exact K.
Qed.

Lemma Forall_list_set {A} (P : A -> Prop) (l : list A) (i : nat) (x : A) :
  Forall P l -> P x -> Forall P (list_set l i x).
Proof.
  intros H Hx. revert i. induction H as [|y l Hy Hl IH]; intros i; [constructor|].
  destruct i; cbn [list_set]; constructor; auto.
Qed.

Lemma Forall_nth_default {A} (P : A -> Prop) (l : list A) (i : nat) (d : A) :
  Forall P l -> P d -> P (nth i l d).
Proof.
  intros H Hd. revert i. induction H as [|y l Hy Hl IH]; intros [|i]; cbn [nth]; auto.
Qed.

Lemma data_ok_zero : data_ok frame_buf_zero.
Proof. now left. Qed.

Lemma data_ok_alloc (r init dl : Z) (fb : frame_buf_t) : data_ok (alloc_frame r fb init dl).
Proof. right. reflexivity. Qed.

Lemma on_frame_hdr_data_ok (r F : Z) (fh : frame_hdr_v4_t) (st : parse_state) :
  Forall data_ok (ps_tab st) -> Forall data_ok (ps_tab (on_frame_hdr r F fh st)).
Proof.
  intros H. unfold on_frame_hdr.
  destruct (F <=? fh_index fh); trivial.
  destruct (negb _); trivial. destruct (FRAME_BYTES <? fh_data_len fh); trivial.
  unfold set_tab. cbn [ps_tab]. apply Forall_list_set; trivial.
  pose proof (Forall_nth_default data_ok (ps_tab st) (Z.to_nat (fh_index fh))
                frame_buf_zero H data_ok_zero) as Hn.
  destruct (fb_init _ =? 0).
  - right. reflexivity.
  - destruct Hn as [Hn|Hn]; [left|right]; exact Hn.
Qed.

Lemma on_slice_data_ok (r F orig : Z) (sh : slice_hdr_v4_t) (buf : list Z)
    (st st' : parse_state) :
  on_slice r F orig sh buf st = Some st' ->
  Forall data_ok (ps_tab st) -> Forall data_ok (ps_tab st').
Proof.
  unfold on_slice. destruct (negb _).
  { intros E. injection E as <-. trivial. }
  destruct (sh_frame_index sh <? F); [|intros E; injection E as <-; trivial].
  cbn [ps_tab]. intros E H.
  destruct (copy_slice_into_frame _ r (sh_offset sh) buf) as [fb'|] eqn:Ec; [|discriminate].
  cbn [option_map] in E. injection E as <-. unfold set_tab. cbn [ps_tab].
  apply Forall_list_set; trivial.
  destruct (copy_slice_keeps _ _ _ _ _ Ec) as (L & I).
  pose proof (Forall_nth_default data_ok (ps_tab st) (Z.to_nat (sh_frame_index sh))
                frame_buf_zero H data_ok_zero) as Hn.
  destruct (fb_init (nth _ (ps_tab st) frame_buf_zero) =? 0).
  - right. rewrite L. reflexivity.
  - destruct Hn as [Hn|Hn]; [left; congruence|right; rewrite L; exact Hn].
Qed.

Lemma parse_loop_data_ok (fuel : nat) (r F orig : Z) :
  forall f st st',
    parse_loop fuel r F orig f st = Some st' ->
    Forall data_ok (ps_tab st) -> Forall data_ok (ps_tab st').
Proof.
  induction fuel as [|fuel IH]; intros f st st' E H; [discriminate|].
  cbn [parse_loop] in E.
  destruct (find_next_magic f) as [[magic f1]|]; [|injection E as <-; trivial].
  destruct (magic =? FRAME_MAGIC_V4).
  - destruct (length f1 <? 20)%nat; [injection E as <-; trivial|].
    apply (IH _ _ _ E). now apply on_frame_hdr_data_ok.
  - destruct (length f1 <? 18)%nat; [injection E as <-; trivial|].
    cbv zeta in E. destruct (sh_size _ =? 0); [apply (IH _ _ _ E H)|].
    destruct (_ <? _); [injection E as <-; trivial|].
    destruct (on_slice _ _ _ _ _ st) as [st1|] eqn:Es; [|discriminate].
    apply (IH _ _ _ E). exact (on_slice_data_ok _ _ _ _ _ _ _ Es H).
Qed.

Lemma length_set_column (data : list Z) (i : Z) (col : list Z) :
  length (set_column data i col) = length data.
Proof.
  unfold set_column. generalize (seq 0 (Z.to_nat K_SHARDS)). intros l. revert data.
  induction l as [|j l IH]; intros data; [reflexivity|].
  cbn [fold_left]. rewrite IH. apply KMPFacts.length_list_set.
Qed.

Section DecodeLength.

Context {rs_handle : Type}.
Variable decode_rs_char : rs_handle -> list Z -> list Z -> Z * list Z * list Z.
Variables (rs : rs_handle) (r pad_mode orig step : Z).
Hypothesis orig_rng : 0 <= orig < 2 ^ 64.

Lemma decode_column_length (par : list Z) (prev : option (list Z)) (n_eras : Z)
    (st : col_state) (i : Z) :
  length (cl_data (decode_column decode_rs_char rs r pad_mode par prev n_eras st i))
  = length (cl_data st).
Proof.
  unfold decode_column.
  destruct (decode_rs_char rs _ _) as [[ret code1] written].
  destruct (ret <? 0); cbn [cl_data]; [|apply length_set_column].
  destruct (pad_mode =? 1); [apply length_set_column|].
  destruct (pad_mode =? 2); [|reflexivity].
  destruct prev; apply length_set_column.
Qed.

Lemma decode_columns_length (par : list Z) (prev : option (list Z)) (n_eras : Z)
    (cols : list Z) :
  forall st,
    length (cl_data (fold_left (decode_column decode_rs_char rs r pad_mode par prev n_eras)
                               cols st))
    = length (cl_data st).
Proof.
  induction cols as [|i cols IH]; intros st; [reflexivity|].
  cbn [fold_left]. rewrite IH. apply decode_column_length.
Qed.

(** The state of the second loop: [w] bytes are written. *)
Definition out_inv (w : Z) (st : decode_state) : Prop :=
  Forall data_ok (ds_tab st) /\ ds_written st = w
  /\ Z.of_nat (length (ds_out st)) = w.

Lemma to_write_min (w : Z) :
  0 <= w <= orig -> to_write orig w = Z.min FRAME_BYTES (orig - w).
Proof using orig_rng.
  intros Hw. unfold to_write, u64. change 18446744073709551616 with (2 ^ 64).
  rewrite Z.mod_small by lia. destruct (Z.leb_spec FRAME_BYTES (orig - w)); lia.
Qed.

Lemma decode_frame_length (st st' : decode_state) (idx w : Z) :
  0 <= w <= orig -> out_inv w st ->
  decode_frame decode_rs_char rs r pad_mode orig step st idx = Some st' ->
  out_inv (Z.min orig (w + FRAME_BYTES)) st'.
Proof using orig_rng.
  intros Hw (T & W & L) E. unfold decode_frame in E.
  rewrite W, (to_write_min w Hw) in E.
  assert (U : u64 (w + Z.min FRAME_BYTES (orig - w)) = Z.min orig (w + FRAME_BYTES)).
  { unfold u64. change 18446744073709551616 with (2 ^ 64).
    unfold FRAME_BYTES, K_SHARDS, SHARD_LEN. rewrite Z.mod_small; lia. }
  pose proof (Forall_nth_default data_ok (ds_tab st) (Z.to_nat idx) frame_buf_zero
                T data_ok_zero) as Hn.
  destruct (fb_init (nth (Z.to_nat idx) (ds_tab st) frame_buf_zero) =? 0) eqn:Ei.
  - injection E as <-. unfold out_inv. cbn [ds_tab ds_written ds_out].
    split; [exact T|]. split; [exact U|].
    rewrite length_app, length_zeros, Nat2Z.inj_add, L.
    unfold FRAME_BYTES, K_SHARDS, SHARD_LEN. lia.
  - destruct (frame_erasures _ r) as [erasures|]; [|discriminate].
    pose proof (f_equal (fun o => match o with Some x => x | None => st end) E) as E'.
    cbv beta iota in E'. clear E. subst st'.
    unfold out_inv. cbn [ds_tab ds_written ds_out].
    apply Z.eqb_neq in Ei. destruct Hn as [Hn|Hn]; [contradiction|].
    set (c := fold_left _ _ _).
    assert (Lc : length (cl_data c) = length (fb_data (nth (Z.to_nat idx) (ds_tab st)
                                                          frame_buf_zero))).
    { unfold c. rewrite decode_columns_length. reflexivity. }
    split.
    { apply Forall_list_set; trivial. right. cbn [set_data fb_data]. now rewrite Lc. }
    split; [exact U|].
    rewrite length_app, Nat2Z.inj_add, L.
    rewrite RSSlices.length_sub_Z.
    + unfold FRAME_BYTES, K_SHARDS, SHARD_LEN. lia.
    + lia.
    + unfold FRAME_BYTES, K_SHARDS, SHARD_LEN. lia.
    + right. rewrite Lc, Hn. lia.
Qed.

Lemma decode_frames_length (idxs : list Z) :
  forall st st' w,
    0 <= w <= orig -> out_inv w st ->
    decode_frames decode_rs_char rs r pad_mode orig step idxs st = Some st' ->
    out_inv (Z.min orig (w + Z.of_nat (length idxs) * FRAME_BYTES)) st'.
Proof using orig_rng.
  induction idxs as [|idx idxs IH]; intros st st' w Hw I E.
  - injection E as <-. cbn [length Z.of_nat].
    replace (Z.min orig (w + 0 * FRAME_BYTES)) with w by lia. exact I.
  - cbn [decode_frames] in E.
    destruct (decode_frame _ _ _ _ _ _ st idx) as [st1|] eqn:E1; [|discriminate].
    pose proof (decode_frame_length st st1 idx w Hw I E1) as I1.
    assert (F0 : 0 < FRAME_BYTES) by reflexivity.
    specialize (IH st1 st' (Z.min orig (w + FRAME_BYTES)) ltac:(lia) I1 E).
    replace (Z.min orig (w + Z.of_nat (length (idx :: idxs)) * FRAME_BYTES))
      with (Z.min orig (Z.min orig (w + FRAME_BYTES) + Z.of_nat (length idxs) * FRAME_BYTES));
      [exact IH|].
    cbn [length]. rewrite Nat2Z.inj_succ. nia.
Qed.

End DecodeLength.

Lemma le_value_range (l : list Z) :
  bytes_ok l = true -> 0 <= le_value l < 256 ^ Z.of_nat (length l).
Proof.
  induction l as [|b l IH]; intros H; [simpl; lia|].
  apply bytes_ok_Forall in H. inversion H as [|? ? Hb Hl]; subst.
  apply bytes_ok_Forall in Hl. specialize (IH Hl).
  cbn [le_value length]. rewrite Nat2Z.inj_succ, Z.pow_succ_r by lia. lia.
Qed.

Lemma bytes_ok_sub (l : list Z) (off len : Z) :
  bytes_ok l = true -> bytes_ok (sub l off len) = true.
Proof. intros H. unfold sub. now apply bytes_ok_firstn, bytes_ok_skipn. Qed.

(** X9.  The size of the file unpack writes is fixed by the global header.
    For every container file, with any codec, any padding mode and no
    cancellation, a call that returns has done one of three things.  It
    has refused the header: it returns one of -2, -3, -4, -5, -6, the
    output file is empty and the statistics are all 0.  Or the header
    passed the checks and its [frame_count] is 2^58 or more, so that the
    table of 64-byte frame buffers does not fit [size_t]: it returns -8,
    again with an empty output and statistics all 0.  Or [frame_count] is
    below 2^58 (the table is then taken to be allocated) and it returns 0:
    the output then holds as many bytes as the smaller of [original_size]
    and 12288 * [frame_count] of the header, whatever the records of the
    container are: frames that are missing, damaged or not correctable
    change bytes of the output, never its length. *)
Theorem unpack_output_length {rs_handle : Type}
    (init_rs_char : Z -> Z -> Z -> Z -> Z -> Z -> option rs_handle)
    (decode_rs_char : rs_handle -> list Z -> list Z -> Z * list Z * list Z)
    (residual_step pad_mode : Z) (fi : list Z) (u : unpack_result) :
  bytes_ok fi = true ->
  rs_unpack_internal init_rs_char decode_rs_char false residual_step (Some fi) true pad_mode
  = Some u ->
  let gh := gh_parse (sub fi 0 gh_size) in
  (In (un_ret u) [-2; -3; -4; -5; -6] /\ un_out u = Some [] /\ un_stats u = stats_zero)
  \/ (un_ret u = -8 /\ 2 ^ 58 <= gh_frame_count gh
      /\ un_out u = Some [] /\ un_stats u = stats_zero)
  \/ (un_ret u = 0 /\ gh_frame_count gh < 2 ^ 58
      /\ frames_total (un_stats u) = gh_frame_count gh
      /\ exists out,
           un_out u = Some out
           /\ Z.of_nat (length out)
              = Z.min (gh_original_size gh) (gh_frame_count gh * FRAME_BYTES)).
Proof.
  intros Hb E. cbv zeta. unfold rs_unpack_internal in E. cbn [negb] in E.
  unfold unpack_fail in E.
  destruct (Z.of_nat (length fi) <? gh_size).
  { injection E as <-. left. cbn. auto. }
  set (gh := gh_parse (sub fi 0 gh_size)) in *.
  destruct (negb (gh_magic gh =? GLOBAL_MAGIC) || negb (gh_version gh =? 4)).
  { injection E as <-. left. cbn. auto. }
  destruct (negb (gh_k gh =? K_SHARDS) || negb (gh_shard_len gh =? SHARD_LEN)).
  { injection E as <-. left. cbn. auto. }
  destruct ((gh_r gh <=? 0) || (MAX_R <? gh_r gh)).
  { injection E as <-. left. cbn. auto 6. }
  destruct (init_rs_char 8 285 1 1 (gh_r gh) (gh_pad gh)) as [rs|].
  2: { injection E as <-. left. cbn. auto 7. }
  cbv zeta in E. unfold calloc_fits, sizeof_frame_buf_t in E.
  destruct (Z.ltb_spec (gh_frame_count gh * 64) (2 ^ 64)) as [Hc|Hc]; cbn [negb] in E.
  2: { injection E as <-. right. left. cbn [un_ret un_out un_stats].
       repeat split; try reflexivity. lia. }
  destruct (parse_loop _ _ _ _ _ _) as [ps|] eqn:Ep; [|discriminate].
  destruct (decode_frames _ _ _ _ _ _ _ _) as [ds|] eqn:Ed; [|discriminate].
  injection E as <-. right. right. cbn [un_ret un_out un_stats frames_total].
  split; [reflexivity|]. split; [lia|]. split; [reflexivity|].
  exists (ds_out ds). split; [reflexivity|].
  assert (Ho : 0 <= gh_original_size gh < 2 ^ 64).
  { unfold gh, gh_parse. cbn [gh_original_size].
    pose proof (le_value_range (sub (sub fi 0 gh_size) 14 8)
                  (bytes_ok_sub _ _ _ (bytes_ok_sub _ _ _ Hb))) as R.
    assert (L : (length (sub (sub fi 0 gh_size) 14 8) <= 8)%nat)
      by (unfold sub; rewrite length_firstn; lia).
    assert (P : 256 ^ Z.of_nat (length (sub (sub fi 0 gh_size) 14 8)) <= 256 ^ 8)
      by (apply Z.pow_le_mono_r; lia).
    change (2 ^ 64) with (256 ^ 8). lia. }
  assert (Hf : 0 <= gh_frame_count gh).
  { unfold gh, gh_parse. cbn [gh_frame_count].
    apply (le_value_range (sub (sub fi 0 gh_size) 22 8)).
    apply bytes_ok_sub, bytes_ok_sub, Hb. }
  pose proof (parse_loop_data_ok _ _ _ _ _ _ _ Ep) as T. cbn [ps_tab] in T.
  specialize (T ltac:(apply Forall_forall; intros x Hx; apply repeat_spec in Hx;
                      subst x; apply data_ok_zero)).
  assert (I0 : out_inv 0 {| ds_tab := ps_tab ps; ds_out := []; ds_written := 0;
                            ds_total_written := 0; ds_residual := 0; ds_corrected := 0;
                            ds_used_erasures := 0; ds_fail := 0 |})
    by (split; [exact T|split; reflexivity]).
  pose proof (decode_frames_length decode_rs_char rs (gh_r gh) pad_mode
                (gh_original_size gh) residual_step Ho
                (zrange 0 (gh_frame_count gh)) _ ds 0 ltac:(lia) I0 Ed) as (_ & _ & L).
  rewrite L, RSDecode.length_zrange, Z2Nat.id, Z.sub_0_r by lia. reflexivity.
Qed.

Lemma unpack_output_length_witness :
  let fi := gh_bytes {| gh_magic := GLOBAL_MAGIC; gh_version := 4; gh_k := K_SHARDS;
                        gh_r := 16; gh_shard_len := SHARD_LEN; gh_pad := 47;
                        gh_original_size := 5; gh_frame_count := 1;
                        gh_il_depth := 16; gh_slice_bytes := 512; gh_reserved := 0 |} in
  let gh := gh_parse (sub fi 0 gh_size) in
  exists u,
    rs_unpack_internal Codec.init_rs_char Codec.decode_rs_char false 25 (Some fi) true 0
    = Some u
    /\ ((In (un_ret u) [-2; -3; -4; -5; -6] /\ un_out u = Some []
         /\ un_stats u = stats_zero)
        \/ (un_ret u = -8 /\ 2 ^ 58 <= gh_frame_count gh
            /\ un_out u = Some [] /\ un_stats u = stats_zero)
        \/ (un_ret u = 0 /\ gh_frame_count gh < 2 ^ 58
            /\ frames_total (un_stats u) = gh_frame_count gh
            /\ exists out,
                 un_out u = Some out
                 /\ Z.of_nat (length out)
                    = Z.min (gh_original_size gh) (gh_frame_count gh * FRAME_BYTES))).
Proof.
  cbv zeta. eexists. split; [vm_compute; reflexivity|].
  apply (unpack_output_length Codec.init_rs_char Codec.decode_rs_char 25 0).
  - vm_compute. reflexivity.
  - vm_compute. reflexivity.
Defined.

(** *** The size of a container *)

Section PackSize.

Context {rs_handle : Type}.
Variable encode_rs_char : rs_handle -> list Z -> list Z.
Variables (rs : rs_handle) (r S : Z).
Hypothesis r_rng : 0 <= r <= MAX_R.
Hypothesis S_pos : 0 < S.

(** The bytes one frame takes in the container: its header, the headers of
    its slices and its payload. *)
Definition frame_cost : Z :=
  24 + (payload_len_bytes r + S - 1) / S * 22 + payload_len_bytes r.

Lemma pack_frame_sized (frames orig fidx : Z) (fi : list Z) :
  pf_sized r (fst (pack_frame encode_rs_char rs r frames orig fidx fi)).
Proof using r_rng.
  unfold pack_frame. cbv zeta. cbn [fst]. unfold pf_sized, sized.
  cbn [pf_data pf_par pf_crcD pf_crcP].
  set (to_read := if fidx =? frames - 1 then _ else FRAME_BYTES).
  assert (F0 : 0 < FRAME_BYTES) by reflexivity.
  assert (T : 0 <= to_read <= FRAME_BYTES).
  { subst to_read. destruct (fidx =? frames - 1); [|lia].
    pose proof (Z.mod_pos_bound (orig - fidx * FRAME_BYTES) 18446744073709551616
                  ltac:(lia)) as M.
    unfold u64. destruct (Z.ltb_spec ((orig - fidx * FRAME_BYTES) mod 18446744073709551616)
                                     FRAME_BYTES); lia. }
  assert (G : Z.of_nat (length (takeZ to_read fi)) <= to_read)
    by (rewrite takeZ_firstn, length_firstn; lia).
  assert (D : Z.of_nat (length (takeZ to_read fi
                                ++ zeros (FRAME_BYTES - Z.of_nat (length (takeZ to_read fi)))))
              = FRAME_BYTES)
    by (rewrite length_app, length_zeros; lia).
  split; [exact D|]. split.
  { unfold encode_frame_parity.
    rewrite (length_rows _ (Z.to_nat SHARD_LEN))
      by (intros k; now rewrite length_map, length_seq).
    unfold SHARD_LEN. lia. }
  split; apply length_shard_crcs; unfold K_SHARDS; lia.
Qed.

Lemma pack_group_frames_sized (frames orig fbase : Z) (gis : list nat) :
  forall fi,
    length (fst (pack_group_frames encode_rs_char rs r frames orig fbase gis fi)) = length gis
    /\ Forall (pf_sized r)
              (fst (pack_group_frames encode_rs_char rs r frames orig fbase gis fi)).
Proof using r_rng.
  induction gis as [|gi gis IH]; intros fi; cbn [pack_group_frames].
  - split; [reflexivity|constructor].
  - pose proof (pack_frame_sized frames orig (fbase + Z.of_nat gi) fi) as Hs.
    destruct (pack_frame _ _ _ _ _ _ fi) as [f fi1]. cbn [fst] in Hs.
    specialize (IH fi1).
    destruct (pack_group_frames _ _ _ _ _ _ gis fi1) as [fs fi2]. cbn [fst] in *.
    destruct IH as [L A]. split; [cbn [length]; now rewrite L|now constructor].
Qed.

Lemma length_slice_records (fs : list packed_frame) (off chunk : Z) :
  Forall (pf_sized r) fs -> 0 <= off -> 0 < chunk -> off + chunk <= payload_len_bytes r ->
  Z.of_nat (length (flat_map (fun f => slice_record f r off chunk) fs))
  = Z.of_nat (length fs) * (22 + chunk).
Proof using r_rng.
  intros H Ho Hc Hp. induction H as [|f fs Hf Hfs IH]; [reflexivity|].
  cbn [flat_map length]. rewrite length_app, !Nat2Z.inj_add, IH.
  unfold slice_record. rewrite length_app, Nat2Z.inj_add.
  destruct (gather_slice_eq r off chunk _ _ _ _ r_rng Ho Hc Hp Hf) as (_ & L).
  rewrite L. change (length (sh_bytes _)) with 22%nat. lia.
Qed.

Lemma length_slice_rows (fs : list packed_frame) (n : nat) :
  Forall (pf_sized r) fs ->
  Z.of_nat n <= (payload_len_bytes r + S - 1) / S ->
  Z.of_nat (length (flat_map
                      (fun off =>
                         flat_map (fun f => slice_record f r off
                                              (if off + S <=? payload_len_bytes r
                                               then S else payload_len_bytes r - off))
                                  fs)
                      (map (fun k => Z.of_nat k * S) (seq 0 n))))
  = Z.of_nat (length fs)
    * (22 * Z.of_nat n + Z.min (Z.of_nat n * S) (payload_len_bytes r)).
Proof using r_rng S_pos.
  intros H. assert (P0 : 0 < payload_len_bytes r) by (RSSlices.consts; lia).
  pose proof (slice_count (payload_len_bytes r) S ltac:(lia) S_pos) as C.
  induction n as [|n IH]; intros Hn.
  - cbn [seq map flat_map length Z.of_nat]. lia.
  - rewrite seq_S, map_app, flat_map_app, length_app, Nat2Z.inj_add, IH by lia.
    cbn [Nat.add map flat_map]. rewrite app_nil_r.
    assert (Hlt : Z.of_nat n * S < payload_len_bytes r) by nia.
    rewrite length_slice_records; trivial;
      destruct (Z.leb_spec (Z.of_nat n * S + S) (payload_len_bytes r)); nia.
Qed.

Lemma length_group_slices (fs : list packed_frame) :
  Forall (pf_sized r) fs ->
  Z.of_nat (length (group_slices fs r (payload_len_bytes r) S))
  = Z.of_nat (length fs)
    * ((payload_len_bytes r + S - 1) / S * 22 + payload_len_bytes r).
Proof using r_rng S_pos.
  intros H. unfold group_slices, slice_offsets.
  assert (P0 : 0 < payload_len_bytes r) by (RSSlices.consts; lia).
  pose proof (slice_count (payload_len_bytes r) S ltac:(lia) S_pos) as C.
  assert (N0 : 0 <= (payload_len_bytes r + S - 1) / S) by (apply Z.div_pos; lia).
  rewrite (length_slice_rows fs _ H) by lia.
  rewrite Z2Nat.id by exact N0. f_equal. lia.
Qed.

Lemma length_headers (fs : list packed_frame) :
  Z.of_nat (length (flat_map (fun f => fh_bytes (pf_hdr f)) fs)) = Z.of_nat (length fs) * 24.
Proof.
  induction fs as [|f fs IH]; [reflexivity|].
  cbn [flat_map length]. rewrite length_app, !Nat2Z.inj_add, IH.
  change (length (fh_bytes _)) with 24%nat. lia.
Qed.

Lemma pack_groups_length (D frames orig : Z) :
  1 <= D < 2 ^ 16 ->
  forall (fuel : nat) (fbase : Z) (fi out : list Z),
    0 <= fbase <= frames -> frames - fbase <= Z.of_nat fuel ->
    exists out',
      pack_groups encode_rs_char fuel rs r D S frames orig fbase fi out = Some out'
      /\ Z.of_nat (length out') = Z.of_nat (length out) + (frames - fbase) * frame_cost.
Proof using r_rng S_pos.
  intros HD. induction fuel as [|fuel IH]; intros fbase fi out Hb Hf; cbn [pack_groups].
  - destruct (Z.ltb_spec fbase frames); [lia|]. exists out. split; [reflexivity|].
    replace (frames - fbase) with 0 by lia. lia.
  - destruct (Z.ltb_spec fbase frames).
    2: { exists out. split; [reflexivity|]. replace (frames - fbase) with 0 by lia. lia. }
    set (n := if D <=? frames - fbase then D else frames - fbase).
    assert (Hn : 1 <= n < 2 ^ 16 /\ n <= frames - fbase)
      by (unfold n; destruct (Z.leb_spec D (frames - fbase)); lia).
    assert (En : u16 n = n) by (unfold u16; apply Z.mod_small; lia).
    rewrite En.
    pose proof (pack_group_frames_sized frames orig fbase (seq 0 (Z.to_nat n)) fi)
      as (Lf & Sf).
    destruct (pack_group_frames _ _ _ _ _ _ _ _) as [fs fi1]. cbn [fst] in Lf, Sf.
    rewrite length_seq in Lf.
    destruct (IH (fbase + n) fi1
                 ((out ++ flat_map (fun f => fh_bytes (pf_hdr f)) fs)
                  ++ group_slices fs r (payload_len_bytes r) S)
                 ltac:(lia) ltac:(lia)) as (out' & E & L).
    exists out'. split; [exact E|]. rewrite L.
    rewrite !length_app, !Nat2Z.inj_add, length_headers, (length_group_slices fs Sf), Lf.
    unfold frame_cost. rewrite Z2Nat.id by lia. ring.
Qed.

End PackSize.

(** X10.  The size of a container.  With a codec that can be set up for
    [r] parity symbols, 1 <= r <= 63, an interleave depth and a slice size
    [S] that fit their 16-bit header fields and are not 0, files that can
    be opened and no cancellation, [rs_pack_container_ex] returns 0, and
    the container it writes has 36 bytes of global header and, for each of
    the ceil(L / 12288) frames of an input of [L] bytes, 24 bytes of frame
    header, ceil(PAY / S) slice headers of 22 bytes and the PAY bytes of
    the payload, PAY = 12288 + 64 r + 384 + 2 r.  The interleave depth
    changes the order of the records, not the size. *)
Theorem pack_container_size {rs_handle : Type}
    (init_rs_char : Z -> Z -> Z -> Z -> Z -> Z -> option rs_handle)
    (encode_rs_char : rs_handle -> list Z -> list Z)
    (rs : rs_handle) (r il_depth slice_bytes : Z) (input : list Z) :
  1 <= r <= MAX_R -> 1 <= il_depth < 2 ^ 16 -> 1 <= slice_bytes < 2 ^ 16 ->
  Z.of_nat (length input) < 2 ^ 63 ->
  init_rs_char 8 0x11d 1 1 r (compute_pad r) = Some rs ->
  let frames := (Z.of_nat (length input) + FRAME_BYTES - 1) / FRAME_BYTES in
  let PAY := FRAME_BYTES + r * SHARD_LEN + K_SHARDS * 2 + r * 2 in
  exists c,
    rs_pack_container_ex init_rs_char encode_rs_char false (Some input) true
                         r il_depth slice_bytes
    = Some (0, Some c)
    /\ Z.of_nat (length c)
       = 36 + frames * (24 + (PAY + slice_bytes - 1) / slice_bytes * 22 + PAY).
Proof.
  intros Hr Hil Hsb Hlen Hinit. cbv zeta.
  unfold rs_pack_container_ex, pack_impl.
  replace ((r <=? 0) || (MAX_R <? r)) with false
    by (symmetry; apply orb_false_iff; split; [apply Z.leb_gt|apply Z.ltb_ge]; lia).
  replace (il_depth <=? 0) with false by (symmetry; apply Z.leb_gt; lia).
  replace (slice_bytes <=? 0) with false by (symmetry; apply Z.leb_gt; lia).
  replace (compute_pad r <? 0) with false
    by (symmetry; apply Z.ltb_ge; unfold compute_pad, K_SHARDS, MAX_R in *; lia).
  rewrite Hinit. cbn [negb]. cbv zeta. cbn [gh_il_depth gh_slice_bytes].
  replace (u16 il_depth) with il_depth by (unfold u16; rewrite Z.mod_small; lia).
  replace (u16 slice_bytes) with slice_bytes by (unfold u16; rewrite Z.mod_small; lia).
  replace (slice_bytes =? 0) with false by (symmetry; apply Z.eqb_neq; lia).
  assert (F0 : 0 < FRAME_BYTES) by reflexivity.
  replace (u64 (Z.of_nat (length input) + FRAME_BYTES - 1))
    with (Z.of_nat (length input) + FRAME_BYTES - 1)
    by (unfold u64; rewrite Z.mod_small; unfold FRAME_BYTES, K_SHARDS, SHARD_LEN; lia).
  set (frames := (Z.of_nat (length input) + FRAME_BYTES - 1) / FRAME_BYTES).
  assert (Fp : 0 <= frames) by (apply Z.div_pos; lia).
  set (gh := gh_bytes _).
  destruct (pack_groups_length encode_rs_char rs r slice_bytes
              ltac:(unfold MAX_R in *; lia) ltac:(lia) il_depth frames
              (Z.of_nat (length input)) Hil (Z.to_nat frames) 0 input gh
              ltac:(lia) ltac:(lia)) as (out' & E & L).
  rewrite E. exists out'. split; [reflexivity|].
  rewrite L. unfold frame_cost, payload_len_bytes. subst gh.
  change (Z.of_nat (length (gh_bytes _))) with 36. ring.
Qed.

Lemma pack_container_size_witness :
  exists c,
    rs_pack_container_ex Codec.init_rs_char Codec.encode_rs_char false
                         (Some [80; 108; 117; 116; 111]) true 16 4 700
    = Some (0, Some c)
    /\ Z.of_nat (length c)
       = 36 + (Z.of_nat (length [80; 108; 117; 116; 111]) + FRAME_BYTES - 1) / FRAME_BYTES
              * (24 + (FRAME_BYTES + 16 * SHARD_LEN + K_SHARDS * 2 + 16 * 2 + 700 - 1) / 700
                      * 22
                 + (FRAME_BYTES + 16 * SHARD_LEN + K_SHARDS * 2 + 16 * 2)).
Proof.
  refine (pack_container_size Codec.init_rs_char Codec.encode_rs_char _ 16 4 700
                              [80; 108; 117; 116; 111] _ _ _ _ (init_rs_char_ok 16 _)).
  - unfold MAX_R. lia.
  - lia.
  - lia.
  - simpl. lia.
  - unfold MAX_R. lia.
Defined.

End RSWhole.

(** ** What the CRCs detect

    One step of either CRC, for a fixed byte, maps different registers to
    different registers, and for a fixed register different bytes to
    different registers: the entries of the tables differ in the byte that
    the shifted register leaves untouched. *)

Module CRCDetect.
Import CRC CRCFacts.

Fixpoint nodupb (l : list Z) : bool :=
  match l with
  | [] => true
  | x :: t => negb (existsb (Z.eqb x) t) && nodupb t
  end.

Lemma nodupb_NoDup (l : list Z) : nodupb l = true -> NoDup l.
Proof.
  induction l as [|x t IH]; intros H; [constructor|].
  cbn [nodupb] in H. apply andb_true_iff in H as [H1 H2].
  constructor; [|now apply IH]. intros Hin.
  apply negb_true_iff in H1. rewrite <- not_true_iff_false in H1. apply H1.
  apply existsb_exists. exists x. split; [exact Hin|apply Z.eqb_refl].
Qed.

Lemma nth_inj_of_image (f : Z -> Z) (l : list Z) (i j : nat) :
  nodupb (map f l) = true -> (i < length l)%nat -> (j < length l)%nat ->
  f (nth i l 0) = f (nth j l 0) -> i = j.
Proof.
  intros H Hi Hj E. apply nodupb_NoDup in H.
  apply (proj1 (NoDup_nth (map f l) (f 0)) H); try (rewrite length_map; assumption).
  now rewrite !map_nth.
Qed.

Lemma lxor_cancel_l (a b c : Z) : Z.lxor a b = Z.lxor a c -> b = c.
Proof.
  intros H.
  rewrite <- (Z.lxor_0_l b), <- (Z.lxor_nilpotent a), Z.lxor_assoc, H,
    <- Z.lxor_assoc, Z.lxor_nilpotent. apply Z.lxor_0_l.
Qed.

Lemma lxor_cancel_r (a b c : Z) : Z.lxor b a = Z.lxor c a -> b = c.
Proof. rewrite !(Z.lxor_comm _ a). apply lxor_cancel_l. Qed.

Lemma land_255 (x : Z) : Z.land x 255 = x mod 256.
Proof. change 255 with (Z.ones 8). rewrite Z.land_ones by lia. reflexivity. Qed.

Lemma index_range (x : Z) : (Z.to_nat (Z.land x 255) < 256)%nat.
Proof. rewrite land_255. pose proof (Z.mod_pos_bound x 256 ltac:(lia)). lia. Qed.

Lemma index_inj (x y : Z) :
  Z.to_nat (Z.land x 255) = Z.to_nat (Z.land y 255) -> Z.land x 255 = Z.land y 255.
Proof.
  rewrite !land_255. intros H.
  pose proof (Z.mod_pos_bound x 256 ltac:(lia)).
  pose proof (Z.mod_pos_bound y 256 ltac:(lia)). lia.
Qed.

Lemma low_byte_lxor (c x y : Z) :
  Z.land (Z.lxor c x) 255 = Z.land (Z.lxor c y) 255 -> Z.land x 255 = Z.land y 255.
Proof.
  intros H.
  assert (D : forall u, Z.land (Z.lxor c u) 255 = Z.lxor (Z.land c 255) (Z.land u 255)).
  { intros u. apply Z.bits_inj'. intros n Hn.
    rewrite Z.lxor_spec, !Z.land_spec, Z.lxor_spec.
    destruct (Z.testbit 255 n); [now rewrite !andb_true_r|now rewrite !andb_false_r]. }
  rewrite !D in H. now apply lxor_cancel_l in H.
Qed.

Lemma byte_land (x : Z) : 0 <= x < 256 -> Z.land x 255 = x.
Proof. intros H. rewrite land_255. now apply Z.mod_small. Qed.

(** A fold of a step that is injective in the register. *)
Section FoldInj.

Variable U : Z -> Z -> Z.
Variable R : Z -> Prop.
Hypothesis U_range : forall c x, R c -> R (U c x).
Hypothesis U_inj : forall c c' x, R c -> R c' -> U c x = U c' x -> c = c'.

Lemma fold_range (l : list Z) : forall c, R c -> R (fold_left U l c).
Proof using U_range.
  induction l as [|x l IH]; intros c Hc; [exact Hc|]. cbn [fold_left]. apply IH, U_range, Hc.
Qed.

Lemma fold_inj (l : list Z) :
  forall c c', R c -> R c' -> fold_left U l c = fold_left U l c' -> c = c'.
Proof using U_range U_inj.
  induction l as [|x l IH]; intros c c' Hc Hc' E; [exact E|].
  cbn [fold_left] in E. apply (U_inj c c' x Hc Hc').
  apply IH; trivial; now apply U_range.
Qed.

End FoldInj.

(** *** CRC-32 *)

Lemma crc32_top_bytes : nodupb (map (fun t => Z.shiftr t 24) crc32_build) = true.
Proof. vm_compute. reflexivity. Qed.

Lemma crc32_update_range (c x : Z) :
  0 <= c < 2 ^ 32 -> 0 <= crc32_update crc32_build c x < 2 ^ 32.
Proof.
  intros Hc. unfold crc32_update. apply lxor_range; [lia|apply RSFrames.crc32_entry_range|].
  rewrite Z.shiftr_div_pow2 by lia. split.
  - apply Z.div_pos; lia.
  - apply Z.div_lt_upper_bound; lia.
Qed.

Lemma crc32_index (c c' x x' : Z) :
  0 <= c < 2 ^ 32 -> 0 <= c' < 2 ^ 32 ->
  crc32_update crc32_build c x = crc32_update crc32_build c' x' ->
  Z.land (Z.lxor c x) 255 = Z.land (Z.lxor c' x') 255.
Proof.
  intros Hc Hc' E. unfold crc32_update in E.
  apply (f_equal (fun v => Z.shiftr v 24)) in E. cbv beta in E.
  rewrite !Z.shiftr_lxor, !Z.shiftr_shiftr in E by lia.
  change (8 + 24) with 32 in E.
  rewrite (Z.shiftr_div_pow2 c), (Z.shiftr_div_pow2 c') in E by lia.
  rewrite !Z.div_small, !Z.lxor_0_r in E by lia.
  apply index_inj.
  exact (nth_inj_of_image (fun t => Z.shiftr t 24) crc32_build _ _ crc32_top_bytes
           (index_range _) (index_range _) E).
Qed.

Lemma split_256 (c c' : Z) :
  Z.shiftr c 8 = Z.shiftr c' 8 -> Z.land c 255 = Z.land c' 255 -> c = c'.
Proof.
  rewrite !Z.shiftr_div_pow2, !land_255 by lia. change (2 ^ 8) with 256. intros H1 H2.
  rewrite (Z.div_mod c 256), (Z.div_mod c' 256) by lia. now rewrite H1, H2.
Qed.

Lemma crc32_update_inj_state (c c' x : Z) :
  0 <= c < 2 ^ 32 -> 0 <= c' < 2 ^ 32 ->
  crc32_update crc32_build c x = crc32_update crc32_build c' x -> c = c'.
Proof.
  intros Hc Hc' E. pose proof (crc32_index c c' x x Hc Hc' E) as I.
  unfold crc32_update in E. rewrite I in E. apply lxor_cancel_l in E.
  apply split_256; trivial.
  rewrite !(Z.lxor_comm _ x) in I. now apply low_byte_lxor in I.
Qed.

Lemma crc32_update_inj_byte (c x x' : Z) :
  0 <= c < 2 ^ 32 -> 0 <= x < 256 -> 0 <= x' < 256 ->
  crc32_update crc32_build c x = crc32_update crc32_build c x' -> x = x'.
Proof.
  intros Hc Hx Hx' E. pose proof (crc32_index c c x x' Hc Hc E) as I.
  apply low_byte_lxor in I. now rewrite !byte_land in I.
Qed.

Lemma crc32_fold_detects (pre post : list Z) (b b' : Z) :
  0 <= b < 256 -> 0 <= b' < 256 -> b <> b' ->
  fold_left (crc32_update crc32_build) (pre ++ b :: post) 0xFFFFFFFF
  <> fold_left (crc32_update crc32_build) (pre ++ b' :: post) 0xFFFFFFFF.
Proof.
  intros Hb Hb' Hne E. rewrite !fold_left_app in E. cbn [fold_left] in E.
  set (c0 := fold_left (crc32_update crc32_build) pre 4294967295) in *.
  assert (R0 : 0 <= c0 < 2 ^ 32)
    by (apply (fold_range _ (fun c => 0 <= c < 2 ^ 32) crc32_update_range); lia).
  apply (fold_inj _ (fun c => 0 <= c < 2 ^ 32) crc32_update_range crc32_update_inj_state)
    in E; try (apply crc32_update_range; exact R0).
  apply Hne. exact (crc32_update_inj_byte c0 b b' R0 Hb Hb' E).
Qed.

(** X11.  The CRC-32 of the container detects every change of one byte:
    two buffers that differ in exactly one byte (the same bytes before it,
    the same bytes after it) have different CRC-32 values, whatever the
    state of the tables at the two calls. *)
Theorem crc32_detects_one_byte (st1 st2 : crc_state) (pre post : list Z) (b b' : Z) :
  crc_state_ok st1 -> crc_state_ok st2 ->
  0 <= b < 256 -> 0 <= b' < 256 -> b <> b' ->
  (fst (crc32_calc st1 (pre ++ b :: post)) =? fst (crc32_calc st2 (pre ++ b' :: post)))
  = false.
Proof.
  intros H1 H2 Hb Hb' Hne. apply Z.eqb_neq. unfold crc32_calc. cbn [fst].
  rewrite !crc32_init_table by assumption. intros E. apply lxor_cancel_r in E.
  exact (crc32_fold_detects pre post b b' Hb Hb' Hne E).
Qed.

Lemma crc32_detects_one_byte_witness :
  (fst (crc32_calc crc_state0 ([82; 83] ++ 67 :: [84]))
   =? fst (crc32_calc crc_state0 ([82; 83] ++ 68 :: [84]))) = false.
Proof.
  apply (crc32_detects_one_byte crc_state0 crc_state0 [82; 83] [84] 67 68).
  - apply crc_state0_ok.
  - apply crc_state0_ok.
  - lia.
  - lia.
  - discriminate.
Defined.

(** *** CRC-16 *)

Lemma crc16_low_bytes : nodupb (map (fun t => Z.land t 255) crc16_build) = true.
Proof. vm_compute. reflexivity. Qed.

Lemma crc16_build_range :
  forallb (fun x => (0 <=? x) && (x <? 2 ^ 16)) crc16_build = true.
Proof. vm_compute. reflexivity. Qed.

Lemma crc16_entry_range (k : nat) : 0 <= nth k crc16_build 0 < 2 ^ 16.
Proof.
  pose proof crc16_build_range as H. rewrite forallb_forall in H.
  destruct (Nat.lt_ge_cases k (length crc16_build)) as [Hk|Hk].
  - specialize (H _ (nth_In _ 0 Hk)). lia.
  - rewrite nth_overflow by assumption. lia.
Qed.

(** The step with the cast written out. *)
Lemma crc16_update_split (c x : Z) :
  crc16_update crc16_build c x
  = Z.lxor (Z.shiftl c 8 mod 2 ^ 16)
           (nth (Z.to_nat (Z.land (Z.lxor (Z.shiftr c 8) x) 255)) crc16_build 0).
Proof.
  unfold crc16_update, u16. change 65536 with (2 ^ 16).
  rewrite mod_pow2_lxor by lia. f_equal.
  apply Z.mod_small, crc16_entry_range.
Qed.

Lemma shifted_low_byte (c : Z) : Z.land (Z.shiftl c 8 mod 2 ^ 16) 255 = 0.
Proof.
  rewrite land_255, Z.shiftl_mul_pow2 by lia.
  change (2 ^ 16) with (256 * 256). change (2 ^ 8) with 256.
  rewrite Z.mul_mod_distr_r by lia. apply Z.mod_mul. lia.
Qed.

Lemma land_lxor_255 (a b : Z) :
  Z.land (Z.lxor a b) 255 = Z.lxor (Z.land a 255) (Z.land b 255).
Proof.
  apply Z.bits_inj'. intros n Hn.
  rewrite Z.lxor_spec, !Z.land_spec, Z.lxor_spec.
  destruct (Z.testbit 255 n); [now rewrite !andb_true_r|now rewrite !andb_false_r].
Qed.

Lemma crc16_index (c c' x x' : Z) :
  crc16_update crc16_build c x = crc16_update crc16_build c' x' ->
  Z.land (Z.lxor (Z.shiftr c 8) x) 255 = Z.land (Z.lxor (Z.shiftr c' 8) x') 255.
Proof.
  intros E. rewrite !crc16_update_split in E.
  apply (f_equal (fun v => Z.land v 255)) in E. cbv beta in E.
  rewrite (land_lxor_255 (Z.shiftl c 8 mod 2 ^ 16)),
    (land_lxor_255 (Z.shiftl c' 8 mod 2 ^ 16)), !shifted_low_byte, !Z.lxor_0_l in E.
  apply index_inj.
  exact (nth_inj_of_image (fun t => Z.land t 255) crc16_build _ _ crc16_low_bytes
           (index_range _) (index_range _) E).
Qed.

Lemma crc16_update_inj_state (c c' x : Z) :
  0 <= c < 2 ^ 16 -> 0 <= c' < 2 ^ 16 ->
  crc16_update crc16_build c x = crc16_update crc16_build c' x -> c = c'.
Proof.
  intros Hc Hc' E. pose proof (crc16_index c c' x x E) as I.
  rewrite !crc16_update_split in E. rewrite I in E. apply lxor_cancel_r in E.
  rewrite !(Z.lxor_comm _ x) in I. apply low_byte_lxor in I.
  assert (S8 : forall d, 0 <= d < 2 ^ 16 -> Z.land (Z.shiftr d 8) 255 = d / 256).
  { intros d Hd. rewrite land_255, Z.shiftr_div_pow2 by lia. change (2 ^ 8) with 256.
    apply Z.mod_small. split; [apply Z.div_pos; lia|apply Z.div_lt_upper_bound; lia]. }
  rewrite !S8 in I by assumption.
  rewrite !Z.shiftl_mul_pow2 in E by lia.
  change (2 ^ 16) with (256 * 256) in E. change (2 ^ 8) with 256 in E.
  rewrite !Z.mul_mod_distr_r in E by lia.
  rewrite (Z.div_mod c 256), (Z.div_mod c' 256) by lia. lia.
Qed.

Lemma crc16_update_inj_byte (c x x' : Z) :
  0 <= x < 256 -> 0 <= x' < 256 ->
  crc16_update crc16_build c x = crc16_update crc16_build c x' -> x = x'.
Proof.
  intros Hx Hx' E. pose proof (crc16_index c c x x' E) as I.
  apply low_byte_lxor in I. now rewrite !byte_land in I.
Qed.

Lemma crc16_fold_detects (pre post : list Z) (b b' : Z) :
  0 <= b < 256 -> 0 <= b' < 256 -> b <> b' ->
  fold_left (crc16_update crc16_build) (pre ++ b :: post) 0xFFFF
  <> fold_left (crc16_update crc16_build) (pre ++ b' :: post) 0xFFFF.
Proof.
  intros Hb Hb' Hne E. rewrite !fold_left_app in E. cbn [fold_left] in E.
  set (c0 := fold_left (crc16_update crc16_build) pre 65535) in *.
  assert (Rg : forall c x, 0 <= c < 2 ^ 16 -> 0 <= crc16_update crc16_build c x < 2 ^ 16)
    by (intros c x _; apply crc16_update_range).
  apply (fold_inj _ (fun c => 0 <= c < 2 ^ 16) Rg crc16_update_inj_state) in E;
    try apply crc16_update_range.
  apply Hne. exact (crc16_update_inj_byte c0 b b' Hb Hb' E).
Qed.

(** X12.  The CRC-16 of a shard detects every change of one byte: two
    buffers that differ in exactly one byte have different CRC-16 values,
    whatever the state of the tables at the two calls. *)
Theorem crc16_detects_one_byte (st1 st2 : crc_state) (pre post : list Z) (b b' : Z) :
  crc_state_ok st1 -> crc_state_ok st2 ->
  0 <= b < 256 -> 0 <= b' < 256 -> b <> b' ->
  (fst (crc16_ccitt st1 (pre ++ b :: post)) =? fst (crc16_ccitt st2 (pre ++ b' :: post)))
  = false.
Proof.
  intros H1 H2 Hb Hb' Hne. apply Z.eqb_neq. unfold crc16_ccitt. cbn [fst].
  rewrite !crc16_init_table by assumption.
  exact (crc16_fold_detects pre post b b' Hb Hb' Hne).
Qed.

Lemma crc16_detects_one_byte_witness :
  (fst (crc16_ccitt crc_state0 ([82; 83] ++ 67 :: [84]))
   =? fst (crc16_ccitt crc_state0 ([82; 83] ++ 68 :: [84]))) = false.
Proof.
  apply (crc16_detects_one_byte crc_state0 crc_state0 [82; 83] [84] 67 68).
  - apply crc_state0_ok.
  - apply crc_state0_ok.
  - lia.
  - lia.
  - discriminate.
Defined.

End CRCDetect.

(** * Further properties of the bit-wrap codec *)

Module BitExtras.
Import BitIO KMP Bitwrap BitIOFacts KMPFacts ReaderFacts UnwrapFacts UnwrapTop WrapFacts.

(** ** The writer *)

Lemma write_bit_zero (w : BitWriter) :
  0 <= bit_off_ w < 8 ->
  write_bit w 0
  = if bit_off_ w =? 7 then {| out_ := out_ w ++ [acc_ w]; acc_ := 0; bit_off_ := 0 |}
    else {| out_ := out_ w; acc_ := acc_ w; bit_off_ := bit_off_ w + 1 |}.
Proof.
  intros H. unfold write_bit. cbn [bit_off_ acc_ out_].
  change (Z.land 0 1) with 0. rewrite Z.shiftl_0_l.
  change (u8 0) with 0. rewrite Z.lor_0_r.
  assert (E : u8 (bit_off_ w + 1) = bit_off_ w + 1) by (unfold u8; apply Z.mod_small; lia).
  rewrite E.
  destruct (Z.eqb_spec (bit_off_ w + 1) 8); destruct (Z.eqb_spec (bit_off_ w) 7);
    try lia; reflexivity.
Qed.

Lemma pad_loop_flushes (fuel : nat) :
  forall w, 0 < bit_off_ w < 8 -> 8 - bit_off_ w <= Z.of_nat fuel ->
  pad_loop fuel w = {| out_ := out_ w ++ [acc_ w]; acc_ := 0; bit_off_ := 0 |}.
Proof.
  induction fuel as [|fuel IH]; intros w Ho Hf; [lia|].
  cbn [pad_loop]. destruct (Z.eqb_spec (bit_off_ w) 0); [lia|].
  rewrite write_bit_zero by lia.
  destruct (Z.eqb_spec (bit_off_ w) 7) as [E7|N7].
  - destruct fuel; cbn [pad_loop bit_off_]; reflexivity.
  - rewrite IH; cbn [bit_off_ acc_ out_]; try lia. reflexivity.
Qed.

(** X16.  [pad_to_byte], in both copies of the class: on a writer whose bit
    offset is 0 it does nothing; on one that holds 1 to 7 pending bits it
    puts exactly one byte, the accumulator as it is (the pending bits
    followed by zeros), and leaves the writer empty and aligned.  Padding
    twice is padding once. *)
Theorem pad_to_byte_flushes (w : BitWriter) :
  0 <= bit_off_ w < 8 ->
  pad_to_byte w
  = (if bit_off_ w =? 0 then w
     else {| out_ := out_ w ++ [acc_ w]; acc_ := 0; bit_off_ := 0 |})
  /\ bit_off_ (pad_to_byte w) = 0
  /\ pad_to_byte (pad_to_byte w) = pad_to_byte w.
Proof.
  intros H.
  assert (E : pad_to_byte w
              = if bit_off_ w =? 0 then w
                else {| out_ := out_ w ++ [acc_ w]; acc_ := 0; bit_off_ := 0 |}).
  { unfold pad_to_byte. destruct (Z.eqb_spec (bit_off_ w) 0); [reflexivity|].
    apply pad_loop_flushes; [lia|change (Z.of_nat 8) with 8; lia]. }
  split; [exact E|]. rewrite E.
  destruct (Z.eqb_spec (bit_off_ w) 0) as [Z0|N0].
  - split; [exact Z0|]. unfold pad_to_byte. now rewrite Z0.
  - split; reflexivity.
Qed.

Lemma pad_to_byte_flushes_witness :
  let w := write_bits BitWriter_new [1; 0; 1] in
  pad_to_byte w
  = (if bit_off_ w =? 0 then w
     else {| out_ := out_ w ++ [acc_ w]; acc_ := 0; bit_off_ := 0 |})
  /\ bit_off_ (pad_to_byte w) = 0
  /\ pad_to_byte (pad_to_byte w) = pad_to_byte w.
Proof.
  cbv zeta. apply (pad_to_byte_flushes (write_bits BitWriter_new [1; 0; 1])).
  vm_compute. split; [intro; discriminate|reflexivity].
Defined.

(** ** The reader *)

Lemma bytes_bits_nil (l : list Z) : bytes_bits l = [] -> l = [].
Proof.
  intros H. apply (f_equal (@length Z)) in H. rewrite length_bytes_bits in H.
  destruct l; [reflexivity|]. simpl in H. lia.
Qed.

Lemma next_bit_at_end (r : BitReader) :
  reader_ok r -> reader_bits r = [] ->
  reader_ok (snd (next_bit r)) /\ reader_bits (snd (next_bit r)) = [].
Proof.
  intros (Hidx & Hcap & Hfill & Hpos) Hb. unfold reader_bits in Hb.
  apply app_eq_nil in Hb as [B1 B2]. apply app_eq_nil in B2 as [B2 B3].
  apply bytes_bits_nil in B2, B3.
  assert (I8 : bit_idx_ r = 8).
  { apply (f_equal (@length Z)) in B1. rewrite length_skipn, length_byte_bits in B1.
    cbn [length] in B1. lia. }
  assert (P : (filled_ r <= pos_ r)%nat).
  { apply (f_equal (@length Z)) in B2. rewrite length_skipn in B2. cbn [length] in B2. lia. }
  unfold next_bit. rewrite I8. change (8 <=? 8) with true. cbv iota.
  destruct (Nat.leb_spec (filled_ r) (pos_ r)) as [_|X]; [|lia].
  unfold refill_. rewrite B3. cbv zeta.
  assert (T : takeZ (buf_bytes r) [] = []) by (destruct (buf_bytes r); reflexivity).
  assert (D : dropZ (buf_bytes r) [] = []) by (destruct (buf_bytes r); reflexivity).
  cbn [filled_]. rewrite T, D. cbn [length Nat.ltb Nat.leb snd].
  split.
  - repeat split; cbn [bit_idx_ buf_bytes filled_ buf_ pos_ length]; lia.
  - unfold reader_bits. cbn [bit_idx_ cur_byte_ pos_ buf_ in_]. rewrite I8. reflexivity.
Qed.

Lemma reader_iter (r : BitReader) (k : nat) :
  reader_ok r ->
  reader_ok (Nat.iter k (fun x => snd (next_bit x)) r)
  /\ reader_bits (Nat.iter k (fun x => snd (next_bit x)) r) = skipn k (reader_bits r).
Proof.
  intros Hr. induction k as [|k [IH1 IH2]].
  - split; [exact Hr|reflexivity].
  - rewrite Nat.iter_succ. set (rk := Nat.iter k (fun x => snd (next_bit x)) r) in *.
    pose proof (next_bit_spec rk IH1) as Hs.
    replace (skipn (S k) (reader_bits r)) with (skipn 1 (skipn k (reader_bits r)))
      by (rewrite skipn_skipn; f_equal; lia).
    rewrite <- IH2.
    destruct (reader_bits rk) as [|b t] eqn:Eb.
    + destruct (next_bit_at_end rk IH1 Eb) as [A B]. split; [exact A|]. now rewrite B.
    + destruct Hs as (_ & Ht & Ho). split; [exact Ho|]. now rewrite Ht.
Qed.

(** X17.  [BitReader::next_bit] delivers the bits of the file in order,
    the most significant bit of each byte first, whatever the size (at
    least 1) of its buffer: call number [k], counted from 0, returns bit
    [k] of the file, and every call after the last bit returns -1. *)
Theorem next_bit_streams_file (input : list Z) (size : Z) (k : nat) :
  0 < size ->
  fst (next_bit (Nat.iter k (fun r => snd (next_bit r)) (BitReader_new input size)))
  = nth k (bytes_bits input) (-1).
Proof.
  intros Hs.
  destruct (reader_iter (BitReader_new input size) k (reader_new_ok input size Hs))
    as [Ho Hb].
  rewrite reader_new_bits in Hb.
  pose proof (next_bit_spec _ Ho) as Hn. rewrite Hb in Hn.
  destruct (skipn k (bytes_bits input)) as [|b t] eqn:E.
  - rewrite Hn. symmetry. apply nth_overflow.
    apply (f_equal (@length Z)) in E. rewrite length_skipn in E. cbn [length] in E. lia.
  - destruct Hn as (Hn & _). rewrite Hn.
    rewrite <- (firstn_skipn k (bytes_bits input)), E.
    assert (Lk : length (firstn k (bytes_bits input)) = k).
    { rewrite length_firstn. apply Nat.min_l.
      apply (f_equal (@length Z)) in E. rewrite length_skipn in E. cbn [length] in E. lia. }
    rewrite app_nth2 by lia. rewrite Lk, Nat.sub_diag. reflexivity.
Qed.

Lemma next_bit_streams_file_witness :
  fst (next_bit (Nat.iter 9 (fun r => snd (next_bit r)) (BitReader_new [0xA5; 0x80] 1)))
  = nth 9 (bytes_bits [0xA5; 0x80]) (-1).
Proof. apply (next_bit_streams_file [0xA5; 0x80] 1 9). lia. Defined.

(** ** Wrap *)

(** A flag string made of the characters 0 and 1 only; a null pointer and
    the empty string count. *)
Definition bits_only (s : option string) : Prop :=
  match s with
  | None => True
  | Some str => forall c, In c (list_ascii_of_string str) -> c = "0"%char \/ c = "1"%char
  end.

Lemma parse_bitstring_bits_only (s : option string) :
  (bits_only s -> parse_bitstring_ s = Some (pattern_bits s))
  /\ (parse_bitstring_ s <> None -> bits_only s).
Proof.
  destruct s as [str|]; cbn [bits_only parse_bitstring_].
  - split; [apply parse_chars_valid|].
    intros H. destruct (parse_chars str) as [bits|] eqn:E; [|congruence].
    now apply parse_chars_Some in E.
  - split; [reflexivity|trivial].
Qed.

Section Wrap.

Context {R : Type}.
Variable rng_next : R -> Z * R.
Variable rng_seed : Z -> R.

(** X13.  The file [wrap_file_bits] writes.  For an input of whole bytes,
    two flag strings of 0 and 1 (either may be empty or null, and is then
    not written) and any counts of dummy bits, the call returns 0 and the
    output, read bit by bit with the most significant bit of each byte
    first, is: the left dummy bits, as many as asked for; the start flag;
    the bits of the input; the end flag; the right dummy bits, as many as
    asked for; and fewer than eight 0 bits that fill the last byte.  The
    output has ceil(n / 8) bytes for the n bits before the padding. *)
Theorem wrap_output_layout (input : list Z) (ss es : option string)
    (dl dr seed : Z) (entropy : R) :
  bytes_ok input = true -> bits_only ss -> bits_only es -> 0 <= dl -> 0 <= dr ->
  let n := dl + Z.of_nat (length (pattern_bits ss)) + 8 * Z.of_nat (length input)
           + Z.of_nat (length (pattern_bits es)) + dr in
  exists out dL dR,
    wrap_file_bits rng_next rng_seed (Some input) true ss es dl dr seed entropy
    = {| w_ret := 0; w_out := Some out |}
    /\ bytes_ok out = true
    /\ Z.of_nat (length dL) = dl /\ Z.of_nat (length dR) = dr
    /\ bytes_bits out
       = dL ++ pattern_bits ss ++ bytes_bits input ++ pattern_bits es ++ dR
         ++ repeat 0 (Z.to_nat ((8 - n mod 8) mod 8))
    /\ Z.of_nat (length out) = (n + 7) / 8.
Proof.
  intros Hin Hs He Hdl Hdr. cbv zeta.
  destruct (wrap_run rng_next rng_seed input ss es dl dr seed entropy
              (proj1 (parse_bitstring_bits_only ss) Hs)
              (proj1 (parse_bitstring_bits_only es) He) Hin Hdl Hdr)
    as (out & Hw & Hok & Hbits).
  unfold wrapped_bits in Hbits. cbv zeta in Hbits.
  set (g0 := if seed =? 0 then entropy else rng_seed seed) in *.
  set (dL := dummy_bits rng_next dl g0) in *.
  set (dR := dummy_bits rng_next dr (dummy_state rng_next dl g0)) in *.
  assert (LL : length dL = Z.to_nat dl) by (apply length_dummy_bits; exact Hdl).
  assert (LR : length dR = Z.to_nat dr) by (apply length_dummy_bits; exact Hdr).
  set (n := dl + Z.of_nat (length (pattern_bits ss)) + 8 * Z.of_nat (length input)
            + Z.of_nat (length (pattern_bits es)) + dr).
  assert (Ln : Z.of_nat (length (dL ++ pattern_bits ss ++ bytes_bits input
                                 ++ pattern_bits es ++ dR)) = n).
  { rewrite !length_app, length_bytes_bits, LL, LR. unfold n. lia. }
  rewrite Ln in Hbits.
  exists out, dL, dR. split; [exact Hw|]. split; [exact Hok|].
  split; [lia|]. split; [lia|]. split.
  { rewrite Hbits. now rewrite <- !app_assoc. }
  apply (f_equal (@length Z)) in Hbits.
  rewrite length_bytes_bits, length_app, repeat_length in Hbits.
  assert (N0 : 0 <= n) by (unfold n; lia).
  pose proof (Z.mod_pos_bound n 8 ltac:(lia)) as M.
  pose proof (Z.div_mod n 8 ltac:(lia)) as D.
  pose proof (Z.mod_pos_bound (8 - n mod 8) 8 ltac:(lia)) as M2.
  assert (P : (8 - n mod 8) mod 8 = if n mod 8 =? 0 then 0 else 8 - n mod 8).
  { destruct (Z.eqb_spec (n mod 8) 0) as [E|E].
    - rewrite E. reflexivity.
    - apply Z.mod_small. lia. }
  apply Z.div_unique_pos with (r := if n mod 8 =? 0 then 7 else n mod 8 - 1).
  - destruct (n mod 8 =? 0); lia.
  - destruct (Z.eqb_spec (n mod 8) 0); lia.
Qed.

(** X14.  The return value of [wrap_file_bits]: -1 exactly when the input
    file cannot be opened; -2 exactly when it can and the output file
    cannot; -3 exactly when both can and a flag string holds a character
    other than 0 and 1, and then the output file has been created and is
    empty; 0 in every other case.  Unlike unwrap, wrap accepts an empty or
    null flag. *)
Theorem wrap_return_codes (in_file : option (list Z)) (out_ok : bool)
    (ss es : option string) (dl dr seed : Z) (entropy : R) :
  let res := wrap_file_bits rng_next rng_seed in_file out_ok ss es dl dr seed entropy in
  (w_ret res = -1 <-> in_file = None)
  /\ (w_ret res = -2 <-> in_file <> None /\ out_ok = false)
  /\ (w_ret res = -3 <->
      in_file <> None /\ out_ok = true /\ ~ (bits_only ss /\ bits_only es))
  /\ (w_ret res = 0 <->
      in_file <> None /\ out_ok = true /\ bits_only ss /\ bits_only es)
  /\ (w_ret res = -3 -> w_out res = Some [])
  /\ (w_ret res = -1 \/ w_ret res = -2 -> w_out res = None).
Proof.
  cbv zeta. unfold wrap_file_bits.
  destruct in_file as [input|]; cbn [w_ret w_out].
  2: { repeat split; intros; try discriminate; try tauto; try lia;
       try (destruct H; congruence). }
  destruct out_ok; cbn [negb w_ret w_out].
  2: { repeat split; intros; try discriminate; try tauto; try lia;
       try (destruct H as (_ & H & _); discriminate);
       try (destruct H as (_ & H); discriminate). }
  pose proof (parse_bitstring_bits_only ss) as [S1 S2].
  pose proof (parse_bitstring_bits_only es) as [E1 E2].
  destruct (parse_bitstring_ ss) as [sb|] eqn:Ps.
  - destruct (parse_bitstring_ es) as [eb|] eqn:Pe.
    + assert (Bs : bits_only ss) by (apply S2; discriminate).
      assert (Be : bits_only es) by (apply E2; discriminate).
      destruct (write_dummy_bits_ rng_next BitWriter_new dl _) as [bw1 g1].
      destruct (write_dummy_bits_ rng_next _ dr g1) as [bw5 g5].
      cbn [w_ret w_out].
      repeat split; intros; try discriminate; try tauto; try lia.
    + assert (Be : ~ bits_only es) by (intros B; specialize (E1 B); discriminate).
      cbn [w_ret w_out].
      repeat split; intros; try discriminate; try tauto; try lia.
  - assert (Bs : ~ bits_only ss) by (intros B; specialize (S1 B); discriminate).
    cbn [w_ret w_out].
    repeat split; intros; try discriminate; try tauto; try lia.
Qed.

End Wrap.

Lemma wrap_output_layout_witness :
  let n := 5 + Z.of_nat (length (pattern_bits (Some "0011"%string)))
           + 8 * Z.of_nat (length [0xAA; 0xBB; 0xCC])
           + Z.of_nat (length (pattern_bits None)) + 7 in
  exists out dL dR,
    wrap_file_bits Mt19937_64.next Mt19937_64.seed (Some [0xAA; 0xBB; 0xCC]) true
      (Some "0011"%string) None 5 7 42 (Mt19937_64.seed 42)
    = {| w_ret := 0; w_out := Some out |}
    /\ bytes_ok out = true
    /\ Z.of_nat (length dL) = 5 /\ Z.of_nat (length dR) = 7
    /\ bytes_bits out
       = dL ++ pattern_bits (Some "0011"%string) ++ bytes_bits [0xAA; 0xBB; 0xCC]
         ++ pattern_bits None ++ dR
         ++ repeat 0 (Z.to_nat ((8 - n mod 8) mod 8))
    /\ Z.of_nat (length out) = (n + 7) / 8.
Proof.
  cbv zeta.
  apply (wrap_output_layout Mt19937_64.next Mt19937_64.seed [0xAA; 0xBB; 0xCC]
           (Some "0011"%string) None 5 7 42 (Mt19937_64.seed 42)).
  - reflexivity.
  - simpl. intuition.
  - exact I.
  - lia.
  - lia.
Defined.

(** ** Unwrap *)

(** X15.  What [unwrap_file_bits] extracts.  With two accepted patterns
    and files that can be opened: if the first occurrence of the start
    pattern in the bits of the input is complete after [e1] bits, and the
    first occurrence of the end pattern in the bits that follow is
    complete after [e2] more, the call returns 0; the output is the bits
    between the two patterns, the [e2 - |end|] bits after the start
    pattern, followed by the 0 bits that fill its last byte; the start
    position is the count of bits before the start pattern and the end
    position the count of bits before the end pattern. *)
Theorem unwrap_extracts_payload (input : list Z) (ss es : option string) (e1 e2 : nat) :
  valid_pattern ss -> valid_pattern es ->
  first_occurrence (pattern_bits ss) (bytes_bits input) e1 ->
  first_occurrence (pattern_bits es) (skipn e1 (bytes_bits input)) e2 ->
  let payload := firstn (e2 - length (pattern_bits es)) (skipn e1 (bytes_bits input)) in
  exists out,
    unwrap_file_bits (Some input) true ss es
    = Some {| u_ret := 0; u_out := Some out;
              u_start_pos := u64 (Z.of_nat e1 - Z.of_nat (length (pattern_bits ss)));
              u_end_pos := u64 (Z.of_nat e1 + Z.of_nat e2
                                - Z.of_nat (length (pattern_bits es))) |}
    /\ bytes_ok out = true
    /\ bytes_bits out
       = payload ++ repeat 0 (Z.to_nat ((8 - Z.of_nat (length payload) mod 8) mod 8))
    /\ length payload = (e2 - length (pattern_bits es))%nat.
Proof.
  intros Hs He F1 F2. cbv zeta.
  pose proof (unwrap_run input ss es Hs He) as Hrun. cbv zeta in Hrun.
  apply first_end_Some in F1. rewrite F1 in Hrun.
  pose proof F2 as F2'. apply first_end_Some in F2. rewrite F2 in Hrun.
  destruct Hrun as (out & Hu & Hok & Hb).
  assert (L : length (firstn (e2 - length (pattern_bits es)) (skipn e1 (bytes_bits input)))
              = (e2 - length (pattern_bits es))%nat).
  { rewrite length_firstn. apply Nat.min_l. destruct F2' as (Hr & _). lia. }
  exists out. split; [exact Hu|]. split; [exact Hok|]. split; [|exact L].
  rewrite Hb, L. reflexivity.
Qed.

Lemma unwrap_extracts_payload_witness :
  let input := [0x3A; 0xB7; 0x0F] in
  let ss := Some "0011"%string in
  let es := Some "111"%string in
  let payload := firstn (12 - length (pattern_bits es)) (skipn 4 (bytes_bits input)) in
  exists out,
    unwrap_file_bits (Some input) true ss es
    = Some {| u_ret := 0; u_out := Some out;
              u_start_pos := u64 (Z.of_nat 4 - Z.of_nat (length (pattern_bits ss)));
              u_end_pos := u64 (Z.of_nat 4 + Z.of_nat 12
                                - Z.of_nat (length (pattern_bits es))) |}
    /\ bytes_ok out = true
    /\ bytes_bits out
       = payload ++ repeat 0 (Z.to_nat ((8 - Z.of_nat (length payload) mod 8) mod 8))
    /\ length payload = (12 - length (pattern_bits es))%nat.
Proof.
  cbv zeta.
  apply (unwrap_extracts_payload [0x3A; 0xB7; 0x0F] (Some "0011"%string)
           (Some "111"%string) 4 12).
  - split; [discriminate|]. simpl. intuition.
  - split; [discriminate|]. simpl. intuition.
  - apply first_end_Some. vm_compute. reflexivity.
  - apply first_end_Some. vm_compute. reflexivity.
Defined.

End BitExtras.

(** * Further properties of the frames of the RS container *)

Module RSFrameFacts.
Import RS RSSpec RSLayout RSSlices RSFrames RSRound CodecFacts RSErasures RSPayload RSWhole.

(** ** Columns of a frame *)

Lemma nth_list_set {A} (l : list A) (i k : nat) (x d : A) :
  nth k (list_set l i x) d = if (k =? i)%nat && (i <? length l)%nat then x else nth k l d.
Proof.
  destruct (Nat.eqb_spec k i) as [->|Hne]; cbn [andb].
  - destruct (Nat.ltb_spec i (length l)) as [Hlt|Hge].
    + now apply KMPFacts.nth_list_set_eq.
    + rewrite !nth_overflow; trivial. now rewrite KMPFacts.length_list_set.
  - apply KMPFacts.nth_list_set_ne. congruence.
Qed.

Lemma length_set_rows (f : nat -> nat) (v : nat -> Z) (l : list nat) :
  forall data, length (fold_left (fun d j => list_set d (f j) (v j)) l data) = length data.
Proof.
  induction l as [|x l IH]; intros data; [reflexivity|].
  cbn [fold_left]. rewrite IH. apply KMPFacts.length_list_set.
Qed.

(** The loop of [set_column] after [n] rounds. *)
Lemma set_rows_nth (data col : list Z) (i : Z) (n : nat) (j' : nat) (i' : Z) :
  0 <= i < SHARD_LEN -> 0 <= i' < SHARD_LEN ->
  (n * 64 <= length data)%nat ->
  nth (Z.to_nat (Z.of_nat j' * SHARD_LEN + i'))
      (fold_left (fun d j => list_set d (Z.to_nat (Z.of_nat j * SHARD_LEN + i)) (nth j col 0))
                 (seq 0 n) data) 0
  = if (i =? i') && (j' <? n)%nat then nth j' col 0
    else nth (Z.to_nat (Z.of_nat j' * SHARD_LEN + i')) data 0.
Proof.
  intros Hi Hi'. induction n as [|n IH]; intros Hn.
  - cbn [seq fold_left]. now rewrite andb_false_r.
  - rewrite seq_S, fold_left_app. cbn [Nat.add fold_left].
    rewrite nth_list_set, IH by lia.
    set (R := fold_left _ (seq 0 n) data).
    assert (LR : length R = length data)
      by (unfold R;
          apply (length_set_rows (fun j => Z.to_nat (Z.of_nat j * SHARD_LEN + i))
                                 (fun j => nth j col 0))).
    rewrite LR. unfold SHARD_LEN in *.
    destruct (Nat.eqb_spec (Z.to_nat (Z.of_nat j' * 64 + i')) (Z.to_nat (Z.of_nat n * 64 + i)))
      as [E|E].
    + assert (j' = n /\ i' = i) as [-> ->] by lia.
      rewrite Z.eqb_refl.
      destruct (Nat.ltb_spec (Z.to_nat (Z.of_nat n * 64 + i)) (length data)); [|lia].
      cbn [andb]. destruct (Nat.ltb_spec n (S n)); [reflexivity|lia].
    + cbn [andb].
      destruct (Z.eqb_spec i i') as [->|Ne]; cbn [andb]; [|reflexivity].
      assert (j' <> n) by (intros ->; apply E; reflexivity).
      destruct (Nat.ltb_spec j' n); destruct (Nat.ltb_spec j' (S n)); try lia; reflexivity.
Qed.

(** X20.  Writing a column back touches that column only.  For a data
    buffer of 12288 bytes, a decoded column of 192 symbols and column
    numbers below 64, the loop [data[j * 64 + i] = col[j]] leaves the
    buffer at its size, makes column [i] equal to [col] and leaves every
    other column as it was. *)
Theorem set_column_writes_one_column (data col : list Z) (i i' : Z) :
  Z.of_nat (length data) = FRAME_BYTES -> length col = Z.to_nat K_SHARDS ->
  0 <= i < SHARD_LEN -> 0 <= i' < SHARD_LEN ->
  column (set_column data i col) K_SHARDS i'
  = (if i =? i' then col else column data K_SHARDS i')
  /\ length (set_column data i col) = length data.
Proof.
  intros Hd Hc Hi Hi'. split; [|apply length_set_column].
  unfold column, set_column.
  transitivity (map (fun j => if i =? i' then nth j col 0
                              else nth (Z.to_nat (Z.of_nat j * SHARD_LEN + i')) data 0)
                    (seq 0 (Z.to_nat K_SHARDS))).
  - apply map_ext_in. intros j Hj. apply in_seq in Hj.
    rewrite set_rows_nth; trivial.
    + destruct (Nat.ltb_spec j (Z.to_nat K_SHARDS)); [|lia]. now rewrite andb_true_r.
    + unfold FRAME_BYTES, K_SHARDS, SHARD_LEN in *. lia.
  - destruct (i =? i'); [|reflexivity]. apply map_nth_seq. now symmetry.
Qed.

Lemma set_column_writes_one_column_witness :
  let data := map (fun k => Z.of_nat k mod 251) (seq 0 (Z.to_nat 12288)) in
  let col := map (fun k => Z.of_nat k mod 7 + 1) (seq 0 (Z.to_nat 192)) in
  column (set_column data 5 col) K_SHARDS 6
  = (if 5 =? 6 then col else column data K_SHARDS 6)
  /\ length (set_column data 5 col) = length data.
Proof.
  cbv zeta.
  apply (set_column_writes_one_column
           (map (fun k => Z.of_nat k mod 251) (seq 0 (Z.to_nat 12288)))
           (map (fun k => Z.of_nat k mod 7 + 1) (seq 0 (Z.to_nat 192))) 5 6).
  - vm_compute. reflexivity.
  - vm_compute. reflexivity.
  - unfold SHARD_LEN. lia.
  - unfold SHARD_LEN. lia.
Defined.

(** ** A frame as pack writes it *)

Section PackedFrame.

Context {rs_handle : Type}.
Variable encode_rs_char : rs_handle -> list Z -> list Z.
Variables (rs : rs_handle) (r : Z).
Hypothesis r_rng : 0 <= r <= MAX_R.
Hypothesis enc_len : forall data,
  length data = Z.to_nat K_SHARDS -> bytes_ok data = true ->
  length (encode_rs_char rs data) = Z.to_nat r.

Lemma padded_tail (got : list Z) (k : nat) (n : Z) :
  Z.of_nat (length got) <= Z.of_nat k -> nth k (got ++ zeros n) 0 = 0.
Proof.
  intros H. rewrite app_nth2 by lia. unfold zeros. apply nth_repeat.
Qed.

Lemma parity_column (data : list Z) (valid_len i : Z) :
  bytes_ok data = true ->
  (forall k, valid_len <= Z.of_nat k -> nth k data 0 = 0) ->
  0 <= i < SHARD_LEN ->
  column (encode_frame_parity encode_rs_char rs data valid_len r) r i
  = encode_rs_char rs (column data K_SHARDS i).
Proof using r_rng enc_len.
  intros Hb Htail Hc.
  assert (Ecw : map (fun j : nat =>
                  let id := Z.of_nat j * SHARD_LEN + i in
                  if id <? valid_len then nth (Z.to_nat id) data 0 else 0)
                  (seq 0 (Z.to_nat K_SHARDS))
                = column data K_SHARDS i).
  { unfold column. apply map_ext. intros j. cbv zeta.
    destruct (Z.ltb_spec (Z.of_nat j * SHARD_LEN + i) valid_len); trivial.
    symmetry. apply Htail. unfold SHARD_LEN in *. lia. }
  set (E := encode_rs_char rs (column data K_SHARDS i)).
  assert (LE : length E = Z.to_nat r).
  { apply enc_len; [apply length_column|apply bytes_ok_column, Hb]. }
  rewrite <- (map_nth_seq E (Z.to_nat r)) by (symmetry; exact LE).
  unfold column at 1. apply map_ext_in. intros j Hj. apply in_seq in Hj.
  unfold encode_frame_parity.
  replace (Z.to_nat (Z.of_nat j * SHARD_LEN + i))
    with (j * Z.to_nat SHARD_LEN + Z.to_nat i)%nat by (unfold SHARD_LEN in *; lia).
  rewrite (nth_rows _ (Z.to_nat SHARD_LEN))
    by (try (intros k; now rewrite length_map, length_seq); unfold SHARD_LEN in *; lia).
  rewrite nth_map_seq by (unfold SHARD_LEN in *; lia).
  rewrite (nth_map_seq _ _ _ []) by (unfold SHARD_LEN in *; lia).
  rewrite Z2Nat.id by lia. fold E. unfold E.
  f_equal. f_equal. exact Ecw.
Qed.

End PackedFrame.

(** X19.  A frame as [pack_impl] builds it passes the checks of unpack.
    With an encoder that gives [r] parity symbols for 192 data symbols,
    for every frame of every input of bytes: the four buffers have the
    sizes unpack allocates; for every column [i] below 64 the codeword
    unpack assembles from the data and parity buffers is the 192 data
    symbols of the column followed by what the encoder gave for them (the
    zeros pack substitutes past the end of a short frame are the zeros it
    padded the buffer with); and no data or parity shard differs from its
    entry in the CRC-16 tables. *)
Theorem packed_frame_consistent {rs_handle : Type}
    (encode_rs_char : rs_handle -> list Z -> list Z)
    (rs : rs_handle) (r frames orig fidx : Z) (fi : list Z) (i : Z) :
  0 <= r <= MAX_R -> bytes_ok fi = true ->
  (forall data, length data = Z.to_nat K_SHARDS -> bytes_ok data = true ->
                length (encode_rs_char rs data) = Z.to_nat r) ->
  0 <= i < SHARD_LEN ->
  let pf := fst (pack_frame encode_rs_char rs r frames orig fidx fi) in
  Z.of_nat (length (pf_data pf)) = FRAME_BYTES
  /\ Z.of_nat (length (pf_par pf)) = r * SHARD_LEN
  /\ Z.of_nat (length (pf_crcD pf)) = K_SHARDS * 2
  /\ Z.of_nat (length (pf_crcP pf)) = r * 2
  /\ column (pf_data pf) K_SHARDS i ++ column (pf_par pf) r i
     = column (pf_data pf) K_SHARDS i
       ++ encode_rs_char rs (column (pf_data pf) K_SHARDS i)
  /\ filter (shard_bad (pf_data pf) (pf_crcD pf)) (zrange 0 K_SHARDS) = []
  /\ filter (shard_bad (pf_par pf) (pf_crcP pf)) (zrange 0 r) = [].
Proof.
  intros Hr Hb Henc Hi. cbv zeta.
  pose proof (pack_frame_sized encode_rs_char rs r Hr frames orig fidx fi)
    as (S1 & S2 & S3 & S4).
  unfold B1 in S1.
  split; [exact S1|]. split; [exact S2|]. split; [exact S3|]. split; [exact S4|].
  unfold pack_frame. cbv zeta. cbn [fst pf_data pf_par pf_crcD pf_crcP].
  set (to_read := if fidx =? frames - 1 then _ else FRAME_BYTES).
  set (got := takeZ to_read fi).
  split; [|split; apply no_bad_shards].
  f_equal. apply (parity_column encode_rs_char rs r Hr Henc); trivial.
  - rewrite bytes_ok_app, bytes_ok_zeros, andb_true_r. unfold got.
    rewrite takeZ_firstn. now apply bytes_ok_firstn.
  - intros k Hk. apply padded_tail.
    unfold got. rewrite takeZ_firstn, length_firstn. lia.
Qed.

Lemma codec_encode_length (r : Z) (data : list Z) :
  1 <= r <= MAX_R ->
  length (Codec.encode_rs_char
            {| Codec.h_nroots := r; Codec.h_pad := compute_pad r;
               Codec.h_genpoly := Codec.genpoly (Z.to_nat r) |} data) = Z.to_nat r.
Proof.
  intros Hr. unfold Codec.encode_rs_char. cbn [Codec.h_nroots Codec.h_pad Codec.h_genpoly].
  rewrite length_lfsr_fold; rewrite ?repeat_length; trivial.
  - intros E. apply (f_equal (@length Z)) in E. rewrite repeat_length in E.
    simpl in E. unfold MAX_R in Hr. lia.
  - rewrite length_firstn, length_genpoly. lia.
Qed.

Lemma packed_frame_consistent_witness :
  let rs := {| Codec.h_nroots := 16; Codec.h_pad := compute_pad 16;
               Codec.h_genpoly := Codec.genpoly (Z.to_nat 16) |} in
  let pf := fst (pack_frame Codec.encode_rs_char rs 16 1 5 0 [80; 108; 117; 116; 111]) in
  Z.of_nat (length (pf_data pf)) = FRAME_BYTES
  /\ Z.of_nat (length (pf_par pf)) = 16 * SHARD_LEN
  /\ Z.of_nat (length (pf_crcD pf)) = K_SHARDS * 2
  /\ Z.of_nat (length (pf_crcP pf)) = 16 * 2
  /\ column (pf_data pf) K_SHARDS 3 ++ column (pf_par pf) 16 3
     = column (pf_data pf) K_SHARDS 3
       ++ Codec.encode_rs_char rs (column (pf_data pf) K_SHARDS 3)
  /\ filter (shard_bad (pf_data pf) (pf_crcD pf)) (zrange 0 K_SHARDS) = []
  /\ filter (shard_bad (pf_par pf) (pf_crcP pf)) (zrange 0 16) = [].
Proof.
  cbv zeta.
  apply (packed_frame_consistent Codec.encode_rs_char
           {| Codec.h_nroots := 16; Codec.h_pad := compute_pad 16;
              Codec.h_genpoly := Codec.genpoly (Z.to_nat 16) |}
           16 1 5 0 [80; 108; 117; 116; 111] 3).
  - unfold MAX_R. lia.
  - reflexivity.
  - intros data _ _. apply (codec_encode_length 16 data). unfold MAX_R. lia.
  - unfold SHARD_LEN. lia.
Defined.

(** ** A container without records *)

Section NoRecords.

Context {rs_handle : Type}.
Variable decode_rs_char : rs_handle -> list Z -> list Z -> Z * list Z * list Z.
Variables (rs : rs_handle) (r pad_mode orig step : Z).
Hypothesis orig_rng : 0 <= orig < 2 ^ 64.

Lemma zeros_app (a b : Z) : 0 <= a -> 0 <= b -> zeros a ++ zeros b = zeros (a + b).
Proof.
  intros Ha Hb. unfold zeros. rewrite <- repeat_app. f_equal. lia.
Qed.

Lemma decode_frames_untouched (idxs : list Z) :
  forall st w,
    0 <= w <= orig -> ds_written st = w ->
    Forall (fun fb => fb_init fb = 0) (ds_tab st) ->
    exists st',
      decode_frames decode_rs_char rs r pad_mode orig step idxs st = Some st'
      /\ ds_out st'
         = ds_out st ++ zeros (Z.min orig (w + Z.of_nat (length idxs) * FRAME_BYTES) - w)
      /\ ds_residual st' = ds_residual st /\ ds_corrected st' = ds_corrected st
      /\ ds_used_erasures st' = ds_used_erasures st /\ ds_fail st' = ds_fail st.
Proof using orig_rng.
  assert (F0 : 0 < FRAME_BYTES) by reflexivity.
  induction idxs as [|idx idxs IH]; intros st w Hw W T.
  - exists st. split; [reflexivity|]. cbn [length Z.of_nat].
    replace (Z.min orig (w + 0 * FRAME_BYTES) - w) with 0 by lia.
    unfold zeros. cbn [Z.to_nat repeat]. rewrite app_nil_r. repeat split.
  - cbn [decode_frames]. unfold decode_frame.
    assert (I0 : fb_init (nth (Z.to_nat idx) (ds_tab st) frame_buf_zero) = 0)
      by (apply (Forall_nth_default (fun fb => fb_init fb = 0)); trivial).
    rewrite I0. change (0 =? 0) with true. cbv iota.
    rewrite W, (to_write_min orig orig_rng w Hw).
    assert (U : u64 (w + Z.min FRAME_BYTES (orig - w)) = Z.min orig (w + FRAME_BYTES)).
    { unfold u64. change 18446744073709551616 with (2 ^ 64).
      unfold FRAME_BYTES, K_SHARDS, SHARD_LEN. rewrite Z.mod_small; lia. }
    rewrite U.
    match goal with
    | |- context [decode_frames _ _ _ _ _ _ idxs ?s] =>
      destruct (IH s (Z.min orig (w + FRAME_BYTES)) ltac:(lia) eq_refl T)
        as (st' & E & O & R1 & R2 & R3 & R4)
    end.
    exists st'. split; [exact E|]. cbn [ds_out ds_residual ds_corrected ds_used_erasures
      ds_fail] in O, R1, R2, R3, R4.
    split; [|repeat split; assumption].
    rewrite O, <- app_assoc, zeros_app by lia. f_equal. f_equal.
    cbn [length]. rewrite Nat2Z.inj_succ. nia.
Qed.

End NoRecords.

Lemma unpack_no_records {rs_handle : Type}
    (init_rs_char : Z -> Z -> Z -> Z -> Z -> Z -> option rs_handle)
    (decode_rs_char : rs_handle -> list Z -> list Z -> Z * list Z * list Z)
    (rs : rs_handle) (residual_step pad_mode : Z) (fi : list Z) :
  let gh := gh_parse (sub fi 0 gh_size) in
  bytes_ok fi = true -> gh_size <= Z.of_nat (length fi) ->
  gh_magic gh = GLOBAL_MAGIC -> gh_version gh = 4 ->
  gh_k gh = K_SHARDS -> gh_shard_len gh = SHARD_LEN -> 1 <= gh_r gh <= MAX_R ->
  init_rs_char 8 0x11d 1 1 (gh_r gh) (gh_pad gh) = Some rs ->
  gh_frame_count gh < 2 ^ 58 ->
  find_next_magic (skipn (Z.to_nat gh_size) fi) = None ->
  exists u,
    rs_unpack_internal init_rs_char decode_rs_char false residual_step (Some fi) true
                       pad_mode = Some u
    /\ un_ret u = 0
    /\ un_out u
       = Some (zeros (Z.min (gh_original_size gh) (gh_frame_count gh * FRAME_BYTES)))
    /\ slices_ok (un_stats u) = 0 /\ slices_bad (un_stats u) = 0
    /\ rs_fail_columns (un_stats u) = 0 /\ ber_est (un_stats u) = 0%Q.
Proof.
  cbv zeta. intros Hb Hlen Hm Hv Hk Hs Hr Hinit Hcount Hfind.
  set (gh := gh_parse (sub fi 0 gh_size)) in *.
  assert (Ho : 0 <= gh_original_size gh < 2 ^ 64).
  { unfold gh, gh_parse. cbn [gh_original_size].
    pose proof (le_value_range (sub (sub fi 0 gh_size) 14 8)
                  (bytes_ok_sub _ _ _ (bytes_ok_sub _ _ _ Hb))) as R.
    assert (L : (length (sub (sub fi 0 gh_size) 14 8) <= 8)%nat)
      by (unfold sub; rewrite length_firstn; lia).
    assert (P : 256 ^ Z.of_nat (length (sub (sub fi 0 gh_size) 14 8)) <= 256 ^ 8)
      by (apply Z.pow_le_mono_r; lia).
    change (2 ^ 64) with (256 ^ 8). lia. }
  assert (Hf : 0 <= gh_frame_count gh).
  { unfold gh, gh_parse. cbn [gh_frame_count].
    apply (le_value_range (sub (sub fi 0 gh_size) 22 8)).
    apply bytes_ok_sub, bytes_ok_sub, Hb. }
  destruct (decode_frames_untouched decode_rs_char rs (gh_r gh) pad_mode
              (gh_original_size gh) residual_step Ho (zrange 0 (gh_frame_count gh))
              {| ds_tab := repeat frame_buf_zero (Z.to_nat (gh_frame_count gh));
                 ds_out := []; ds_written := 0; ds_total_written := 0;
                 ds_residual := 0; ds_corrected := 0; ds_used_erasures := 0;
                 ds_fail := 0 |} 0 ltac:(lia) eq_refl)
    as (ds & Ed & O & R1 & R2 & R3 & R4).
  { cbn [ds_tab]. apply Forall_forall. intros x Hx. apply repeat_spec in Hx.
    now subst x. }
  cbn [ds_out ds_residual ds_corrected ds_used_erasures ds_fail app] in O, R1, R2, R3, R4.
  unfold rs_unpack_internal. cbn [negb].
  replace (Z.of_nat (length fi) <? gh_size) with false by (symmetry; apply Z.ltb_ge; lia).
  fold gh. rewrite Hm, Hv, Hk, Hs, !Z.eqb_refl. cbn [negb orb].
  replace ((gh_r gh <=? 0) || (MAX_R <? gh_r gh)) with false
    by (symmetry; apply orb_false_iff; split; [apply Z.leb_gt|apply Z.ltb_ge]; lia).
  rewrite Hinit. cbv zeta.
  replace (negb (calloc_fits (gh_frame_count gh) sizeof_frame_buf_t)) with false
    by (symmetry; apply negb_false_iff, Z.ltb_lt; unfold sizeof_frame_buf_t; lia).
  cbn [parse_loop]. rewrite Hfind. cbv iota.
  cbn [ps_tab ps_slices_ok ps_slices_bad]. rewrite Ed.
  eexists. split; [reflexivity|].
  cbn [un_ret un_out un_stats slices_ok slices_bad rs_fail_columns ber_est ps_slices_ok
       ps_slices_bad].
  rewrite O, R1, R4, RSDecode.length_zrange, Z2Nat.id, Z.sub_0_r, Z.add_0_l, Z.sub_0_r by lia.
  rewrite andb_false_r. repeat split; reflexivity.
Qed.

(** X18.  A container without records unpacks to zeros, and the call
    reports success.  For a file of at least 36 bytes whose global header
    passes the checks of unpack (magic, version 4, k = 192, shard length
    64, 1 <= r <= 63, the codec can be set up), whose [frame_count] is
    below 2^58 (so that the table of 64-byte frame buffers fits [size_t];
    from 2^58 on the call returns -8) and in whose body no four
    consecutive bytes spell a frame or slice magic: with no
    cancellation, unpack returns 0; its output is as many zero bytes as
    the smaller of [original_size] and 12288 * [frame_count]; and the
    statistics count no slice, good or bad, no failed column and a
    residual error estimate of 0. *)
Theorem unpack_without_records {rs_handle : Type}
    (init_rs_char : Z -> Z -> Z -> Z -> Z -> Z -> option rs_handle)
    (decode_rs_char : rs_handle -> list Z -> list Z -> Z * list Z * list Z)
    (rs : rs_handle) (residual_step pad_mode : Z) (fi : list Z) :
  let gh := gh_parse (sub fi 0 gh_size) in
  bytes_ok fi = true -> gh_size <= Z.of_nat (length fi) ->
  gh_magic gh = GLOBAL_MAGIC -> gh_version gh = 4 ->
  gh_k gh = K_SHARDS -> gh_shard_len gh = SHARD_LEN -> 1 <= gh_r gh <= MAX_R ->
  init_rs_char 8 0x11d 1 1 (gh_r gh) (gh_pad gh) = Some rs ->
  gh_frame_count gh < 2 ^ 58 ->
  find_next_magic (skipn (Z.to_nat gh_size) fi) = None ->
  exists u,
    rs_unpack_internal init_rs_char decode_rs_char false residual_step (Some fi) true
                       pad_mode = Some u
    /\ un_ret u = 0
    /\ un_out u
       = Some (zeros (Z.min (gh_original_size gh) (gh_frame_count gh * FRAME_BYTES)))
    /\ slices_ok (un_stats u) = 0 /\ slices_bad (un_stats u) = 0
    /\ rs_fail_columns (un_stats u) = 0 /\ ber_est (un_stats u) = 0%Q.
Proof. exact (unpack_no_records init_rs_char decode_rs_char rs residual_step pad_mode fi). Qed.

Lemma unpack_without_records_witness :
  let fi := gh_bytes {| gh_magic := GLOBAL_MAGIC; gh_version := 4; gh_k := K_SHARDS;
                        gh_r := 16; gh_shard_len := SHARD_LEN; gh_pad := 47;
                        gh_original_size := 20000; gh_frame_count := 2;
                        gh_il_depth := 16; gh_slice_bytes := 512; gh_reserved := 0 |}
            ++ [1; 2; 3; 4; 5] in
  let gh := gh_parse (sub fi 0 gh_size) in
  exists u,
    rs_unpack_internal Codec.init_rs_char Codec.decode_rs_char false 25 (Some fi) true 0
    = Some u
    /\ un_ret u = 0
    /\ un_out u
       = Some (zeros (Z.min (gh_original_size gh) (gh_frame_count gh * FRAME_BYTES)))
    /\ slices_ok (un_stats u) = 0 /\ slices_bad (un_stats u) = 0
    /\ rs_fail_columns (un_stats u) = 0 /\ ber_est (un_stats u) = 0%Q.
Proof.
  cbv zeta.
  apply (unpack_without_records Codec.init_rs_char Codec.decode_rs_char
           {| Codec.h_nroots := 16; Codec.h_pad := 47;
              Codec.h_genpoly := Codec.genpoly (Z.to_nat 16) |} 25 0
           (gh_bytes {| gh_magic := GLOBAL_MAGIC; gh_version := 4; gh_k := K_SHARDS;
                        gh_r := 16; gh_shard_len := SHARD_LEN; gh_pad := 47;
                        gh_original_size := 20000; gh_frame_count := 2;
                        gh_il_depth := 16; gh_slice_bytes := 512; gh_reserved := 0 |}
            ++ [1; 2; 3; 4; 5])).
  - vm_compute. reflexivity.
  - vm_compute. intro; discriminate.
  - vm_compute. reflexivity.
  - vm_compute. reflexivity.
  - vm_compute. reflexivity.
  - vm_compute. reflexivity.
  - vm_compute. split; intro; discriminate.
  - vm_compute. reflexivity.
  - vm_compute. reflexivity.
  - vm_compute. reflexivity.
Defined.

(** ** A pack that was cancelled *)

(** X21.  A pack that is cancelled before its first group leaves a
    container that unpack accepts.  With the cancellation requested,
    [rs_pack_container_ex] returns 1 and has written the 36 bytes of the
    global header, which already announce the size and the frame count of
    the input; a later [rs_unpack_container_ex] of that file, with no
    cancellation pending, returns 0 and writes as many zero bytes as the
    input had bytes, counting no slice. *)
Theorem cancelled_pack_unpacks_to_zeros {rs_handle : Type}
    (init_rs_char : Z -> Z -> Z -> Z -> Z -> Z -> option rs_handle)
    (encode_rs_char : rs_handle -> list Z -> list Z)
    (decode_rs_char : rs_handle -> list Z -> list Z -> Z * list Z * list Z)
    (rs : rs_handle) (r il_depth slice_bytes residual_step pad_mode : Z) (input : list Z) :
  1 <= r <= MAX_R -> 1 <= il_depth < 2 ^ 16 -> 1 <= slice_bytes < 2 ^ 16 ->
  Z.of_nat (length input) < 2 ^ 63 ->
  init_rs_char 8 0x11d 1 1 r (compute_pad r) = Some rs ->
  exists c u,
    rs_pack_container_ex init_rs_char encode_rs_char true (Some input) true
                         r il_depth slice_bytes
    = Some (1, Some c)
    /\ Z.of_nat (length c) = 36
    /\ rs_unpack_container_ex init_rs_char decode_rs_char false residual_step
                              (Some c) true pad_mode
       = Some u
    /\ un_ret u = 0
    /\ un_out u = Some (zeros (Z.of_nat (length input)))
    /\ frames_total (un_stats u)
       = (Z.of_nat (length input) + FRAME_BYTES - 1) / FRAME_BYTES
    /\ slices_ok (un_stats u) = 0 /\ slices_bad (un_stats u) = 0.
Proof.
  intros Hr Hil Hsb Hlen Hinit.
  pose proof (the_header_range r il_depth slice_bytes input Hr Hlen) as Hrange.
  set (h := the_header r il_depth slice_bytes input) in *.
  exists (gh_bytes h).
  assert (Ep : rs_pack_container_ex init_rs_char encode_rs_char true (Some input) true
                                    r il_depth slice_bytes
               = Some (1, Some (gh_bytes h))).
  { unfold rs_pack_container_ex, pack_impl.
    replace ((r <=? 0) || (MAX_R <? r)) with false
      by (symmetry; apply orb_false_iff; split; [apply Z.leb_gt|apply Z.ltb_ge]; lia).
    replace (il_depth <=? 0) with false by (symmetry; apply Z.leb_gt; lia).
    replace (slice_bytes <=? 0) with false by (symmetry; apply Z.leb_gt; lia).
    replace (compute_pad r <? 0) with false
      by (symmetry; apply Z.ltb_ge; unfold compute_pad, K_SHARDS, MAX_R in *; lia).
    rewrite Hinit. cbn [negb]. cbv zeta. cbn [gh_il_depth gh_slice_bytes].
    replace (u16 slice_bytes =? 0) with false
      by (symmetry; apply Z.eqb_neq; unfold u16; rewrite Z.mod_small; lia).
    replace (u64 (Z.of_nat (length input) + FRAME_BYTES - 1) / FRAME_BYTES)
      with (frames input)
      by (unfold frames, orig, u64; rewrite Z.mod_small;
          unfold FRAME_BYTES, K_SHARDS, SHARD_LEN; try reflexivity; lia).
    reflexivity. }
  assert (Eh : gh_parse (sub (gh_bytes h) 0 gh_size) = h).
  { rewrite <- (app_nil_r (gh_bytes h)) at 1. now apply gh_parse_bytes. }
  pose proof (frames_bounds input Hlen) as (F0 & F1 & F2).
  destruct (unpack_no_records init_rs_char decode_rs_char rs residual_step
              (if (pad_mode <? 0) || (2 <? pad_mode) then RS_PAD_MODE else pad_mode)
              (gh_bytes h)) as (u & Eu & U1 & U2 & U3 & U4 & _).
  - unfold h, the_header, gh_bytes.
    cbn [gh_magic gh_version gh_k gh_r gh_shard_len gh_pad gh_original_size gh_frame_count
         gh_il_depth gh_slice_bytes gh_reserved].
    rewrite !bytes_ok_app.
    assert (B : forall n x, bytes_ok (le_bytes n x) = true).
    { induction n as [|n IH]; intros x; [reflexivity|].
      cbn [le_bytes bytes_ok forallb]. fold (bytes_ok (le_bytes n (x / 256))).
      rewrite IH, andb_true_r. apply is_byte_range. apply Z.mod_pos_bound. lia. }
    now rewrite !B.
  - rewrite length_gh_bytes. lia.
  - now rewrite Eh.
  - now rewrite Eh.
  - now rewrite Eh.
  - now rewrite Eh.
  - rewrite Eh. unfold h, the_header. cbn [gh_r]. unfold u16.
    rewrite Z.mod_small; unfold MAX_R in *; lia.
  - rewrite Eh. unfold h, the_header. cbn [gh_r gh_pad].
    replace (u16 r) with r by (unfold u16; rewrite Z.mod_small; unfold MAX_R in *; lia).
    replace (u16 (compute_pad r)) with (compute_pad r)
      by (unfold u16; rewrite Z.mod_small; unfold compute_pad, K_SHARDS, MAX_R in *; lia).
    exact Hinit.
  - rewrite Eh. unfold h, the_header. cbn [gh_frame_count]. lia.
  - reflexivity.
  - exists u. split; [exact Ep|]. split; [apply length_gh_bytes|].
    split; [exact Eu|]. split; [exact U1|].
    rewrite Eh in U2. unfold h, the_header in U2.
    cbn [gh_original_size gh_frame_count] in U2.
    split.
    { rewrite U2. f_equal. f_equal. unfold orig in *. lia. }
    split; [|split; assumption].
    unfold rs_unpack_container_ex, rs_unpack_internal in Eu. cbn [negb] in Eu.
    replace (Z.of_nat (length (gh_bytes h)) <? gh_size) with false in Eu
      by (symmetry; apply Z.ltb_ge; rewrite length_gh_bytes; lia).
    rewrite Eh in Eu. unfold h, the_header in Eu.
    cbn [gh_magic gh_version gh_k gh_shard_len gh_r gh_pad gh_frame_count
         gh_original_size gh_slice_bytes] in Eu.
    rewrite !Z.eqb_refl in Eu. cbn [negb orb] in Eu.
    replace (u16 r) with r in Eu by (unfold u16; rewrite Z.mod_small; unfold MAX_R in *; lia).
    replace (u16 (compute_pad r)) with (compute_pad r) in Eu
      by (unfold u16; rewrite Z.mod_small; unfold compute_pad, K_SHARDS, MAX_R in *; lia).
    replace ((r <=? 0) || (MAX_R <? r)) with false in Eu
      by (symmetry; apply orb_false_iff; split; [apply Z.leb_gt|apply Z.ltb_ge]; lia).
    rewrite Hinit in Eu. cbv zeta in Eu.
    replace (negb (calloc_fits (frames input) sizeof_frame_buf_t)) with false in Eu
      by (symmetry; apply negb_false_iff, Z.ltb_lt; unfold sizeof_frame_buf_t; lia).
    destruct (parse_loop _ _ _ _ _ _) as [ps|]; [|discriminate].
    destruct (decode_frames _ _ _ _ _ _ _ _) as [ds|]; [|discriminate].
    pose proof (f_equal (fun o => match o with
                                  | Some x => frames_total (un_stats x)
                                  | None => 0
                                  end) Eu) as Ef.
    cbv beta iota in Ef. cbn [un_stats frames_total] in Ef. rewrite <- Ef. reflexivity.
Qed.

Lemma cancelled_pack_unpacks_to_zeros_witness :
  exists c u,
    rs_pack_container_ex Codec.init_rs_char Codec.encode_rs_char true
                         (Some [80; 108; 117; 116; 111]) true 16 16 512
    = Some (1, Some c)
    /\ Z.of_nat (length c) = 36
    /\ rs_unpack_container_ex Codec.init_rs_char Codec.decode_rs_char false 25
                              (Some c) true 0
       = Some u
    /\ un_ret u = 0
    /\ un_out u = Some (zeros (Z.of_nat (length [80; 108; 117; 116; 111])))
    /\ frames_total (un_stats u)
       = (Z.of_nat (length [80; 108; 117; 116; 111]) + FRAME_BYTES - 1) / FRAME_BYTES
    /\ slices_ok (un_stats u) = 0 /\ slices_bad (un_stats u) = 0.
Proof.
  refine (cancelled_pack_unpacks_to_zeros Codec.init_rs_char Codec.encode_rs_char
            Codec.decode_rs_char _ 16 16 512 25 0 [80; 108; 117; 116; 111]
            _ _ _ _ (init_rs_char_ok 16 _)).
  - unfold MAX_R. lia.
  - lia.
  - lia.
  - simpl. lia.
  - unfold MAX_R. lia.
Defined.

(** ** Positions listed twice *)

Lemma count_occ_app_Z (a b : list Z) (x : Z) :
  count_occ Z.eq_dec (a ++ b) x = (count_occ Z.eq_dec a x + count_occ Z.eq_dec b x)%nat.
Proof. apply count_occ_app. Qed.

Lemma NoDup_zrange (a b : Z) : NoDup (zrange a b).
Proof.
  unfold zrange. generalize (Z.to_nat (b - a)). intros n.
  assert (G : forall k, NoDup (map (fun i => a + Z.of_nat i) (seq k n))).
  { induction n as [|n IH]; intros k; cbn [seq map]; constructor; [|apply IH].
    rewrite in_map_iff. intros (i & E & I). apply in_seq in I. lia. }
  apply G.
Qed.

Lemma count_occ_once (l : list Z) (x : Z) :
  NoDup l -> In x l -> count_occ Z.eq_dec l x = 1%nat.
Proof. intros N I. now apply NoDup_count_occ'. Qed.

(** X22.  The candidate list [eras_data] can name a shard twice.  In a
    frame that is short (its [data_len], capped at 12288, leaves shards
    past the data) and whose two CRC-16 tables have arrived, a shard past
    the data whose CRC-16 does not match its table entry is entered once
    as a shard past the data and once more as a CRC mismatch. *)
Theorem eras_data_lists_shard_twice (fb : frame_buf_t) (r j : Z) :
  let dlen := if FRAME_BYTES <? fb_data_len fb then FRAME_BYTES else fb_data_len fb in
  0 <= dlen < FRAME_BYTES ->
  crc_tables_present fb r = true ->
  dlen / SHARD_LEN + (if dlen mod SHARD_LEN =? 0 then 0 else 1) <= j < K_SHARDS ->
  shard_bad (fb_data fb) (fb_crcD fb) j = true ->
  count_occ Z.eq_dec (eras_data fb r) j = 2%nat.
Proof.
  cbv zeta. intros Hd Ht Hj Hbad. unfold eras_data.
  set (dlen := if FRAME_BYTES <? fb_data_len fb then FRAME_BYTES else fb_data_len fb) in *.
  destruct (Z.ltb_spec dlen FRAME_BYTES) as [_|X]; [|lia].
  rewrite Ht.
  assert (Q : 0 <= dlen / SHARD_LEN) by (apply Z.div_pos; unfold SHARD_LEN; lia).
  assert (J0 : 0 <= j /\ dlen / SHARD_LEN <= j
               /\ ((dlen mod SHARD_LEN =? 0) = false -> dlen / SHARD_LEN < j))
    by (destruct (dlen mod SHARD_LEN =? 0); repeat split; try discriminate; lia).
  destruct J0 as (J0 & J1 & J2).
  rewrite !count_occ_app_Z.
  rewrite (count_occ_once (zrange _ K_SHARDS) j (NoDup_zrange _ _))
    by (apply in_zrange; exact Hj).
  rewrite (count_occ_once (filter _ (zrange 0 K_SHARDS)) j
             (NoDup_filter _ (NoDup_zrange _ _)))
    by (apply filter_In; split; [apply in_zrange; lia|exact Hbad]).
  destruct (dlen mod SHARD_LEN =? 0); cbn [count_occ].
  - reflexivity.
  - specialize (J2 eq_refl). destruct (Z.eq_dec (dlen / SHARD_LEN) j); [lia|reflexivity].
Qed.

Lemma eras_data_lists_shard_twice_witness :
  count_occ Z.eq_dec
    (eras_data {| fb_init := 1; fb_data_len := 100;
                  fb_data := zeros FRAME_BYTES; fb_par := zeros (16 * SHARD_LEN);
                  fb_crcD := zeros (K_SHARDS * 2); fb_crcP := zeros (16 * 2);
                  fb_crc32_data := 0; fb_crc32_par := 0;
                  fb_crcD_filled_bytes := 384; fb_crcP_filled_bytes := 32 |} 16) 7
  = 2%nat.
Proof.
  apply (eras_data_lists_shard_twice
           {| fb_init := 1; fb_data_len := 100;
              fb_data := zeros FRAME_BYTES; fb_par := zeros (16 * SHARD_LEN);
              fb_crcD := zeros (K_SHARDS * 2); fb_crcP := zeros (16 * 2);
              fb_crc32_data := 0; fb_crc32_par := 0;
              fb_crcD_filled_bytes := 384; fb_crcP_filled_bytes := 32 |} 16 7).
  - vm_compute. split; [intro; discriminate|reflexivity].
  - vm_compute. reflexivity.
  - vm_compute. split; [intro; discriminate|reflexivity].
  - vm_compute. reflexivity.
Defined.

End RSFrameFacts.

